(** * BookTheme: the theme-song matching engine ([src/lib/matchThemeSong.ts])

    A shallow embedding of the scoring and assignment engine and the
    properties its specification states about it.

    JavaScript's [number] is kept abstract in the engine (class [Number])
    and instantiated twice: with IEEE 754 binary64 values, the arithmetic
    the code runs on, and with the real numbers, the exact arithmetic the
    specification's formulas are written in. *)

From Stdlib Require Import ZArith QArith Lia List Bool Ascii String.
From Stdlib Require Import Permutation Sorted.
From Stdlib Require Import Floats Uint63.
From Stdlib Require Import Reals Lra Qreals.
Import ListNotations.

Local Open Scope nat_scope.

Set Warnings "-inexact-float".

(** ** Numbers *)

(** The operations of [number] the engine uses.  [lit] is a decimal
    literal of the source text, [of_nat] the number read from an integer
    quantity such as [Set.prototype.size]. *)
Class Number (num : Type) : Type := {
  lit : Q -> num;
  of_nat : nat -> num;
  add : num -> num -> num;
  sub : num -> num -> num;
  mul : num -> num -> num;
  div : num -> num -> num;
  sqrt : num -> num;
  abs : num -> num;
  ltb : num -> num -> bool;
  eqb : num -> num -> bool
}.

Arguments lit {num _} _%_Q.

Declare Scope num_scope.
Delimit Scope num_scope with num.
Notation "x + y" := (add x y) : num_scope.
Notation "x - y" := (sub x y) : num_scope.
Notation "x * y" := (mul x y) : num_scope.
Notation "x / y" := (div x y) : num_scope.
Notation "x <? y" := (ltb x y) : num_scope.
Notation "x >? y" := (ltb y x) : num_scope.
Notation "x === y" := (eqb x y) (at level 70, no associativity) : num_scope.

(** *** IEEE 754 binary64, as the code runs *)

Module Double.

(** An integer below [2^63] read as a double (exact below [2^53]). *)
Definition of_Z (z : Z) : float := PrimFloat.of_uint63 (Uint63.of_Z z).

(** A decimal literal [n/d] is the double nearest to it: [n] and [d] are
    small integers, read exactly, and the division rounds correctly. *)
Definition of_Q (q : Q) : float :=
  match Qnum q with
  | Zneg p => PrimFloat.opp (PrimFloat.div (of_Z (Zpos p)) (of_Z (Zpos (Qden q))))
  | n => PrimFloat.div (of_Z n) (of_Z (Zpos (Qden q)))
  end.


End Double.

#[export] Instance Number_double : Number float := {
  lit := Double.of_Q;
  of_nat n := Double.of_Z (Z.of_nat n);
  add := PrimFloat.add;
  sub := PrimFloat.sub;
  mul := PrimFloat.mul;
  div := PrimFloat.div;
  sqrt := PrimFloat.sqrt;
  abs := PrimFloat.abs;
  ltb := PrimFloat.ltb;
  eqb := PrimFloat.eqb
}.

(** *** Exact real arithmetic, as the specification's formulas read *)

#[export] Instance Number_real : Number R := {
  lit := Q2R;
  of_nat := INR;
  add := Rplus;
  sub := Rminus;
  mul := Rmult;
  div := Rdiv;
  sqrt := R_sqrt.sqrt;
  abs := Rabs;
  ltb x y := if Rlt_dec x y then true else false;
  eqb x y := if Req_dec_T x y then true else false
}.

(** ** Strings, [Set], [Map] and [Array.prototype.sort] *)

(** [String.prototype.toLowerCase] and [toUpperCase].  They map the ASCII
    letters, which is what the code's do to a string of ASCII characters
    (such are the tags and dimension names of the data).  Letters beyond
    ASCII, which the code's map too, are left as they are here. *)
Definition lower_ascii (c : ascii) : ascii :=
  let n := nat_of_ascii c in
  if (65 <=? n)%nat && (n <=? 90)%nat then ascii_of_nat (n + 32) else c.

Definition upper_ascii (c : ascii) : ascii :=
  let n := nat_of_ascii c in
  if (97 <=? n)%nat && (n <=? 122)%nat then ascii_of_nat (n - 32) else c.

Fixpoint toLowerCase (s : string) : string :=
  match s with
  | EmptyString => EmptyString
  | String c r => String (lower_ascii c) (toLowerCase r)
  end.

Fixpoint toUpperCase (s : string) : string :=
  match s with
  | EmptyString => EmptyString
  | String c r => String (upper_ascii c) (toUpperCase r)
  end.

(** A string of ASCII characters. *)
Definition ascii_only (s : string) : bool :=
  forallb (fun c => (nat_of_ascii c <? 128)%nat) (list_ascii_of_string s).

(** [Array.prototype.join]. *)
Fixpoint join (sep : string) (l : list string) : string :=
  match l with
  | [] => EmptyString
  | [x] => x
  | x :: r => (x ++ sep ++ join sep r)%string
  end.

(** A [Set<string>]: its elements in insertion order, none twice. *)
Definition JsSet := list string.

Definition Set_has (s : JsSet) (x : string) : bool := existsb (String.eqb x) s.
Definition Set_add (s : JsSet) (x : string) : JsSet :=
  if Set_has s x then s else s ++ [x].
Definition Set_of (l : list string) : JsSet := fold_left Set_add l [].
Definition Set_size (s : JsSet) : nat := List.length s.

(** A [Map<string, V>]: its entries in insertion order; [set] on a key that
    is present replaces the value in place. *)
Definition JsMap (V : Type) := list (string * V).

Fixpoint Map_has {V} (m : JsMap V) (k : string) : bool :=
  match m with
  | [] => false
  | (k', _) :: r => String.eqb k k' || Map_has r k
  end.

Fixpoint Map_get {V} (m : JsMap V) (k : string) : option V :=
  match m with
  | [] => None
  | (k', v) :: r => if String.eqb k k' then Some v else Map_get r k
  end.

Fixpoint Map_set {V} (m : JsMap V) (k : string) (v : V) : JsMap V :=
  match m with
  | [] => [(k, v)]
  | (k', v') :: r =>
      if String.eqb k k' then (k', v) :: r else (k', v') :: Map_set r k v
  end.

Definition Map_size {V} (m : JsMap V) : nat := List.length m.

(** What a call yields: a value, or a thrown [Error] with its message. *)
Inductive outcome (A : Type) : Type :=
| Returned (a : A)
| Thrown (message : string).

Arguments Returned {A} a.
Arguments Thrown {A} message.

(** ** The engine, for any [number] *)

Section Engine.

Context {num : Type} `{Number num}.
Local Open Scope num_scope.

(** [Array.prototype.sort(comparefn)]: a stable sort.  An element [y]
    that comes later in the array is moved before an earlier [x] exactly
    when [comparefn(y, x) < 0]; a [NaN] from the comparator counts as
    [+0].  For a consistent comparator every conforming implementation
    returns this array. *)
Section Sort.
Context {A : Type}.
Variable comparefn : A -> A -> num.

Fixpoint sort_insert (x : A) (l : list A) : list A :=
  match l with
  | [] => [x]
  | y :: r =>
      if comparefn y x <? lit 0 then y :: sort_insert x r else x :: y :: r
  end.

Fixpoint Array_sort (l : list A) : list A :=
  match l with
  | [] => []
  | x :: r => sort_insert x (Array_sort r)
  end.
End Sort.

(** *** Data model ([src/lib/types.ts]) *)

Record VibeVector : Type := {
  melancholy : num;
  intimacy : num;
  intensity : num;
  hope : num;
  tension : num;
  warmth : num;
  nostalgia : num;
  eeriness : num;
  pace : num
}.

Record Book : Type := {
  book_id : string;
  book_title : string;
  author : string;
  coverImageUrl : string;
  book_vibeTags : list string;
  vibeVector : VibeVector;
  vibeBlurb : string;
  genre : option string
}.

Record AudioFeatures : Type := {
  energy : num;
  valence : num;
  tempo : num;
  acousticness : num;
  danceability : num
}.

Record Song : Type := {
  song_id : string;
  song_title : string;
  artist : string;
  spotifyUrl : string;
  previewUrl : option string;
  song_vibeTags : list string;
  audio : AudioFeatures;
  moodBlurb : string
}.

Inductive FactorType : Type := positive_factor | negative_factor | neutral_factor.

Record ScoringFactor : Type := {
  factor : string;
  contribution : num;
  type : FactorType
}.

Record MatchResult : Type := {
  song : Song;
  totalScore : num;
  tagScore : num;
  vectorScore : num;
  penaltyScore : num;
  topFactors : list ScoringFactor
}.

(** The nine keys of a [VibeVector], and [vec[key]]. *)
Inductive Key : Type :=
| Kmelancholy | Kintimacy | Kintensity | Khope | Ktension
| Kwarmth | Knostalgia | Keeriness | Kpace.

Definition keys : list Key :=
  [Kmelancholy; Kintimacy; Kintensity; Khope; Ktension;
   Kwarmth; Knostalgia; Keeriness; Kpace].

Definition key_name (k : Key) : string :=
  match k with
  | Kmelancholy => "melancholy" | Kintimacy => "intimacy"
  | Kintensity => "intensity" | Khope => "hope" | Ktension => "tension"
  | Kwarmth => "warmth" | Knostalgia => "nostalgia"
  | Keeriness => "eeriness" | Kpace => "pace"
  end.

Definition vget (v : VibeVector) (k : Key) : num :=
  match k with
  | Kmelancholy => melancholy v | Kintimacy => intimacy v
  | Kintensity => intensity v | Khope => hope v | Ktension => tension v
  | Kwarmth => warmth v | Knostalgia => nostalgia v
  | Keeriness => eeriness v | Kpace => pace v
  end.

(** Weights for scoring components. *)
Definition TAG_WEIGHT : num := lit 0.55.
Definition VECTOR_WEIGHT : num := lit 0.35.

(** *** [deriveVibeVector] *)
Definition deriveVibeVector (audio : AudioFeatures) : VibeVector :=
  let energy := energy audio in
  let valence := valence audio in
  let tempo := tempo audio in
  let acousticness := acousticness audio in
  let danceability := danceability audio in
  let warmthCalc :=
    acousticness * lit 0.5 + valence * lit 0.3 + (lit 1 - energy) * lit 0.2 in
  {| melancholy := lit 1 - valence;
     intimacy := acousticness * lit 0.6 + (lit 1 - energy) * lit 0.4;
     intensity := energy;
     hope := valence * lit 0.7 + energy * lit 0.3;
     tension := energy * lit 0.5 + (lit 1 - valence) * lit 0.5;
     warmth := warmthCalc;
     nostalgia :=
       acousticness * lit 0.4 + (lit 1 - tempo) * lit 0.3
       + (lit 1 - energy) * lit 0.3;
     eeriness :=
       (lit 1 - valence) * lit 0.5 + (lit 1 - danceability) * lit 0.3
       + (lit 1 - warmthCalc) * lit 0.2;
     pace := tempo * lit 0.6 + energy * lit 0.4 |}.

(** *** [jaccardSimilarity] and [getOverlappingTags] *)
Definition jaccardSimilarity (tags1 tags2 : list string) : num :=
  let set1 := Set_of (map toLowerCase tags1) in
  let set2 := Set_of (map toLowerCase tags2) in
  let intersection := Set_of (filter (fun x => Set_has set2 x) set1) in
  let union := Set_of (set1 ++ set2) in
  if Nat.eqb (Set_size union) 0 then lit 0
  else of_nat (Set_size intersection) / of_nat (Set_size union).

Definition getOverlappingTags (tags1 tags2 : list string) : list string :=
  let set1 := Set_of (map toLowerCase tags1) in
  let set2 := Set_of (map toLowerCase tags2) in
  filter (fun x => Set_has set2 x) set1.

(** *** [cosineSimilarity]

    The loop over [keys] threads the three accumulators; [x ** 2] is the
    square [x * x]. *)
Definition cosine_step (vec1 vec2 : VibeVector) (acc : num * num * num)
    (key : Key) : num * num * num :=
  let '(dotProduct, magnitude1, magnitude2) := acc in
  (dotProduct + vget vec1 key * vget vec2 key,
   magnitude1 + vget vec1 key * vget vec1 key,
   magnitude2 + vget vec2 key * vget vec2 key).

Definition cosineSimilarity (vec1 vec2 : VibeVector) : num :=
  let '(dotProduct, magnitude1, magnitude2) :=
    fold_left (cosine_step vec1 vec2) keys (lit 0, lit 0, lit 0) in
  let magnitude1 := sqrt magnitude1 in
  let magnitude2 := sqrt magnitude2 in
  if (magnitude1 === lit 0) || (magnitude2 === lit 0) then lit 0
  else dotProduct / (magnitude1 * magnitude2).

(** *** [getTopMatchingDimensions] *)
Record DimensionMatch : Type := {
  dimension : Key;
  bookValue : num;
  songValue : num;
  similarity : num
}.

Definition getTopMatchingDimensions (bookVec songVec : VibeVector) (n : nat)
    : list DimensionMatch :=
  let similarities :=
    map (fun key =>
           {| dimension := key;
              bookValue := vget bookVec key;
              songValue := vget songVec key;
              similarity := lit 1 - abs (vget bookVec key - vget songVec key) |})
        keys in
  firstn n (Array_sort (fun a b => similarity b - similarity a) similarities).

(** *** [calculatePenalties]

    Five [if] statements in sequence, each adding its constant to [total]
    and pushing its factor. *)
Record Penalties : Type := {
  total : num;
  factors : list ScoringFactor
}.

Definition apply_rule (guard : bool) (penalty : num) (label : string)
    (acc : Penalties) : Penalties :=
  if guard then
    {| total := total acc + penalty;
       factors := factors acc ++
         [{| factor := label; contribution := penalty; type := negative_factor |}] |}
  else acc.

Definition calculatePenalties (book : Book) (songVec : VibeVector)
    (audio : AudioFeatures) : Penalties :=
  let acc := {| total := lit 0; factors := [] |} in
  let acc :=
    apply_rule ((melancholy (vibeVector book) >? lit 0.7) && (valence audio >? lit 0.7))
      (lit (-0.10)) "Song too upbeat for melancholic book" acc in
  let acc :=
    apply_rule ((tension (vibeVector book) >? lit 0.7) && (energy audio <? lit 0.3))
      (lit (-0.05)) "Song too mellow for high-tension book" acc in
  let acc :=
    apply_rule ((eeriness (vibeVector book) >? lit 0.7) && (warmth songVec >? lit 0.7))
      (lit (-0.08)) "Song too warm for eerie book" acc in
  let acc :=
    apply_rule ((hope (vibeVector book) >? lit 0.7) && (valence audio <? lit 0.2))
      (lit (-0.07)) "Song too sad for hopeful book" acc in
  let acc :=
    apply_rule ((intensity (vibeVector book) >? lit 0.8) && (energy audio <? lit 0.25))
      (lit (-0.05)) "Song too mellow for intense book" acc in
  acc.

(** *** [generateScoringFactors] *)
Definition capitalize (s : string) : string :=
  match s with
  | EmptyString => EmptyString
  | String c r => String (upper_ascii c) r
  end.

Definition dimension_factors (vectorScore : num) (topDimensions : list DimensionMatch)
    : list ScoringFactor :=
  flat_map
    (fun dim =>
       if similarity dim >? lit 0.8 then
         let dimLabel := capitalize (key_name (dimension dim)) in
         [{| factor := "Strong " ++ toLowerCase dimLabel ++ " alignment";
             contribution := vectorScore * VECTOR_WEIGHT * lit 0.3;
             type := positive_factor |}]
       else [])
    topDimensions.

Definition generateScoringFactors (book : Book) (song : Song) (songVec : VibeVector)
    (tagScore vectorScore : num) (penaltyFactors : list ScoringFactor)
    : list ScoringFactor :=
  let overlappingTags := getOverlappingTags (book_vibeTags book) (song_vibeTags song) in
  let factors :=
    if Nat.ltb 0 (List.length overlappingTags) then
      [{| factor := "Shared vibes: " ++ join ", " (firstn 3 overlappingTags);
          contribution := tagScore * TAG_WEIGHT;
          type := positive_factor |}]
    else [] in
  let topDimensions := getTopMatchingDimensions (vibeVector book) songVec 2 in
  let factors := factors ++ dimension_factors vectorScore topDimensions in
  let factors := factors ++ penaltyFactors in
  firstn 3
    (Array_sort (fun a b => abs (contribution b) - abs (contribution a)) factors).

(** *** [getMatchResultForSong]

    [matchThemeSong], [getTopMatches] and [matchAllBooksUniquely] repeat
    these statements verbatim as the body of their loops. *)
Definition getMatchResultForSong (book : Book) (song : Song) : MatchResult :=
  let songVibeVector := deriveVibeVector (audio song) in
  let tagScore := jaccardSimilarity (book_vibeTags book) (song_vibeTags song) in
  let vectorScore := cosineSimilarity (vibeVector book) songVibeVector in
  let penalties := calculatePenalties book songVibeVector (audio song) in
  let totalScore :=
    (tagScore * TAG_WEIGHT) + (vectorScore * VECTOR_WEIGHT) + total penalties in
  let topFactors :=
    generateScoringFactors book song songVibeVector tagScore vectorScore
      (factors penalties) in
  {| song := song;
     totalScore := totalScore;
     tagScore := tagScore;
     vectorScore := vectorScore;
     penaltyScore := total penalties;
     topFactors := topFactors |}.

(** *** [matchThemeSong] *)
Definition keep_best (book : Book) (bestMatch : option MatchResult) (song : Song)
    : option MatchResult :=
  let result := getMatchResultForSong book song in
  match bestMatch with
  | None => Some result
  | Some best =>
      if totalScore result >? totalScore best then Some result else Some best
  end.

Definition matchThemeSong (book : Book) (songs : list Song) : outcome MatchResult :=
  match fold_left (keep_best book) songs None with
  | None => Thrown "No songs available for matching"
  | Some bestMatch => Returned bestMatch
  end.

(** *** [getTopMatches] *)
Definition getTopMatches (book : Book) (songs : list Song) (n : nat)
    : list MatchResult :=
  let results := map (getMatchResultForSong book) songs in
  firstn n (Array_sort (fun a b => totalScore b - totalScore a) results).

(** *** [matchAllBooksUniquely] *)
Record ScoredPair : Type := {
  pair_book : Book;
  pair_song : Song;
  result : MatchResult
}.

Definition allPairs (books : list Book) (songs : list Song) : list ScoredPair :=
  flat_map
    (fun book =>
       map (fun song =>
              {| pair_book := book; pair_song := song;
                 result := getMatchResultForSong book song |})
           songs)
    books.

(** The state of the greedy loop. *)
Record Greedy : Type := {
  assignments : JsMap MatchResult;
  usedSongIds : JsSet;
  assignedBookIds : JsSet
}.

Fixpoint greedy_loop (nbooks : nat) (pairs : list ScoredPair) (st : Greedy)
    : Greedy :=
  match pairs with
  | [] => st
  | scored :: rest =>
      let bookId := book_id (pair_book scored) in
      let songId := song_id (pair_song scored) in
      if Set_has (assignedBookIds st) bookId || Set_has (usedSongIds st) songId
      then greedy_loop nbooks rest st
      else
        let st' :=
          {| assignments := Map_set (assignments st) bookId (result scored);
             usedSongIds := Set_add (usedSongIds st) songId;
             assignedBookIds := Set_add (assignedBookIds st) bookId |} in
        if Nat.eqb (Set_size (assignedBookIds st')) nbooks then st'
        else greedy_loop nbooks rest st'
  end.

Definition matchAllBooksUniquely (books : list Book) (songs : list Song)
    : JsMap MatchResult :=
  let allPairs :=
    Array_sort (fun a b => totalScore (result b) - totalScore (result a))
      (allPairs books songs) in
  assignments
    (greedy_loop (List.length books) allPairs
       {| assignments := []; usedSongIds := []; assignedBookIds := [] |}).

End Engine.

Arguments VibeVector num : clear implicits.
Arguments Book num : clear implicits.
Arguments AudioFeatures num : clear implicits.
Arguments Song num : clear implicits.
Arguments ScoringFactor num : clear implicits.
Arguments MatchResult num : clear implicits.
Arguments DimensionMatch num : clear implicits.
Arguments Penalties num : clear implicits.
Arguments ScoredPair num : clear implicits.
Arguments Greedy num : clear implicits.


(** ** The fixtures of [__tests__/matchThemeSong.test.ts] *)

Section Fixtures.

Context {num : Type} `{Number num}.
Local Open Scope string_scope.

Definition testBook : Book num :=
  {| book_id := "test-book";
     book_title := "Test Book";
     author := "Test Author";
     coverImageUrl := "/test.jpg";
     book_vibeTags := ["melancholic"; "nostalgic"; "intimate"; "tender"];
     vibeVector :=
       {| melancholy := lit 0.8; intimacy := lit 0.7; intensity := lit 0.4;
          hope := lit 0.3; tension := lit 0.4; warmth := lit 0.5;
          nostalgia := lit 0.9; eeriness := lit 0.2; pace := lit 0.3 |};
     vibeBlurb := "A melancholic and nostalgic test book.";
     genre := None |}.

Definition perfectMatch : Song num :=
  {| song_id := "perfect-match";
     song_title := "Perfect Match Song";
     artist := "Test Artist 1";
     spotifyUrl := "https://spotify.com/test1";
     previewUrl := None;
     song_vibeTags := ["melancholic"; "nostalgic"; "intimate"; "folk"];
     audio :=
       {| energy := lit 0.25; valence := lit 0.2; tempo := lit 0.3;
          acousticness := lit 0.9; danceability := lit 0.25 |};
     moodBlurb := "A perfect matching song." |}.

Definition poorMatch : Song num :=
  {| song_id := "poor-match";
     song_title := "Poor Match Song";
     artist := "Test Artist 2";
     spotifyUrl := "https://spotify.com/test2";
     previewUrl := None;
     song_vibeTags := ["upbeat"; "energetic"; "dance"; "party"];
     audio :=
       {| energy := lit 0.9; valence := lit 0.85; tempo := lit 0.85;
          acousticness := lit 0.1; danceability := lit 0.9 |};
     moodBlurb := "An upbeat party song." |}.

Definition moderateMatch : Song num :=
  {| song_id := "moderate-match";
     song_title := "Moderate Match Song";
     artist := "Test Artist 3";
     spotifyUrl := "https://spotify.com/test3";
     previewUrl := None;
     song_vibeTags := ["atmospheric"; "melancholic"; "dreamy"];
     audio :=
       {| energy := lit 0.4; valence := lit 0.35; tempo := lit 0.4;
          acousticness := lit 0.5; danceability := lit 0.4 |};
     moodBlurb := "A moderately matching atmospheric song." |}.

Definition testSongs : list (Song num) := [perfectMatch; poorMatch; moderateMatch].

Definition melancholicBook : Book num :=
  {| book_id := "norwegian-wood";
     book_title := "Norwegian Wood";
     author := "Haruki Murakami";
     coverImageUrl := "/test.jpg";
     book_vibeTags :=
       ["melancholic"; "dreamy"; "nostalgic"; "quiet"; "Japanese";
        "introspective"; "bittersweet"];
     vibeVector :=
       {| melancholy := lit 0.9; intimacy := lit 0.7; intensity := lit 0.35;
          hope := lit 0.3; tension := lit 0.4; warmth := lit 0.45;
          nostalgia := lit 0.95; eeriness := lit 0.35; pace := lit 0.3 |};
     vibeBlurb := "A melancholic Japanese novel.";
     genre := None |}.

Definition testBooks : list (Book num) := [testBook; melancholicBook].

End Fixtures.

(** ** The specification's vocabulary *)

Section Vocabulary.

Context {num : Type} `{Number num}.

(** [x] is a number, not [NaN]. *)
Definition is_number (x : num) : Prop := (x === x)%num = true.

(** [l] is in descending order of [key]: no element is followed, anywhere
    later, by one with a greater key. *)
Definition descending {A : Type} (key : A -> num) (l : list A) : Prop :=
  StronglySorted (fun a b => (key a <? key b)%num = false) l.

(** [l'] keeps the elements of [l] that tie on [key] in the order they have
    in [l]. *)
Definition ties_in_order {A : Type} (key : A -> num) (l l' : list A) : Prop :=
  forall c : num,
    filter (fun a => (key a === c)%num) l' = filter (fun a => (key a === c)%num) l.

(** The stable descending sort of the specification, as a relation. *)
Definition stable_descending_sort {A : Type} (key : A -> num) (l l' : list A) : Prop :=
  Permutation l' l /\ descending key l' /\ ties_in_order key l l'.

(** Following the specification of the greedy assignment: walk the sorted
    list once; a pair neither of whose identifiers is committed yet is
    committed, recording the book, the song and the result, any other pair
    is skipped; stop once every book has been committed. *)
Definition Commitment : Type := string * string * MatchResult num.

Definition committed_book (c : Commitment) : string := fst (fst c).
Definition committed_song (c : Commitment) : string := snd (fst c).

Fixpoint assign_walk (nbooks : nat) (pairs : list (ScoredPair num))
    (committed : list Commitment) : list Commitment :=
  match pairs with
  | [] => committed
  | p :: rest =>
      if Nat.eqb (List.length committed) nbooks then committed
      else if existsb (fun c => String.eqb (book_id (pair_book p)) (committed_book c)) committed
              || existsb (fun c => String.eqb (song_id (pair_song p)) (committed_song c)) committed
      then assign_walk nbooks rest committed
      else assign_walk nbooks rest
             (committed ++ [(book_id (pair_book p), song_id (pair_song p), result p)])
  end.

Definition assignUnique_spec (books : list (Book num)) (songs : list (Song num))
    (sorted : list (ScoredPair num)) : JsMap (MatchResult num) :=
  map (fun c : Commitment => (committed_book c, snd c))
      (assign_walk (List.length books) sorted []).

(** The rule table of the specification's penalty evaluator: guard,
    constant, label. *)
Definition penalty_rules (book : Book num) (derived : VibeVector num)
    (audio : AudioFeatures num) : list (bool * num * string) :=
  [ ((melancholy (vibeVector book) >? lit 0.7)%num && (valence audio >? lit 0.7)%num,
     lit (-0.10), "Song too upbeat for melancholic book"%string);
    ((tension (vibeVector book) >? lit 0.7)%num && (energy audio <? lit 0.3)%num,
     lit (-0.05), "Song too mellow for high-tension book"%string);
    ((eeriness (vibeVector book) >? lit 0.7)%num && (warmth derived >? lit 0.7)%num,
     lit (-0.08), "Song too warm for eerie book"%string);
    ((hope (vibeVector book) >? lit 0.7)%num && (valence audio <? lit 0.2)%num,
     lit (-0.07), "Song too sad for hopeful book"%string);
    ((intensity (vibeVector book) >? lit 0.8)%num && (energy audio <? lit 0.25)%num,
     lit (-0.05), "Song too mellow for intense book"%string) ].

(** The constants of the rules whose guards are true, summed in table
    order, and their factors. *)
Definition fired (rules : list (bool * num * string)) : list (num * string) :=
  map (fun r => (snd (fst r), snd r)) (filter (fun r => fst (fst r)) rules).

Definition penalty_sum (rules : list (bool * num * string)) : num :=
  fold_left (fun t r => (t + fst r)%num) (fired rules) (lit 0).

Definition penalty_factors (rules : list (bool * num * string))
    : list (ScoringFactor num) :=
  map (fun r => {| factor := snd r; contribution := fst r; type := negative_factor |})
      (fired rules).

(** The formulas of the specification's vector deriver, as it writes
    them. *)
Definition deriveVector_spec (features : AudioFeatures num) : VibeVector num :=
  let energy := energy features in
  let valence := valence features in
  let tempo := tempo features in
  let acousticness := acousticness features in
  let danceability := danceability features in
  let warmth :=
    (lit 0.5 * acousticness + lit 0.3 * valence + lit 0.2 * (lit 1 - energy))%num in
  {| melancholy := (lit 1 - valence)%num;
     intimacy := (lit 0.6 * acousticness + lit 0.4 * (lit 1 - energy))%num;
     intensity := energy;
     hope := (lit 0.7 * valence + lit 0.3 * energy)%num;
     tension := (lit 0.5 * energy + lit 0.5 * (lit 1 - valence))%num;
     warmth := warmth;
     nostalgia :=
       (lit 0.4 * acousticness + lit 0.3 * (lit 1 - tempo)
        + lit 0.3 * (lit 1 - energy))%num;
     eeriness :=
       (lit 0.5 * (lit 1 - valence) + lit 0.3 * (lit 1 - danceability)
        + lit 0.2 * (lit 1 - warmth))%num;
     pace := (lit 0.6 * tempo + lit 0.4 * energy)%num |}.

(** Every field lies in [[0, 1]] (and so is finite). *)
Definition in_unit (x : num) : Prop :=
  (x <? lit 0)%num = false /\ (lit 1 <? x)%num = false /\ is_number x.

Definition audio_in_unit (a : AudioFeatures num) : Prop :=
  in_unit (energy a) /\ in_unit (valence a) /\ in_unit (tempo a) /\
  in_unit (acousticness a) /\ in_unit (danceability a).

Definition vector_in_unit (v : VibeVector num) : Prop :=
  forall k : Key, in_unit (vget v k).

End Vocabulary.

(** The dot product over the nine dimensions and the Euclidean norm, summed
    in the order of [keys]. *)
Definition dot {num : Type} `{Number num} (v w : VibeVector num) : num :=
  fold_left (fun acc key => (acc + vget v key * vget w key)%num) keys (lit 0).

Definition euclidean_norm {num : Type} `{Number num} (v : VibeVector num) : num :=
  sqrt (dot v v).
(** ** Entities at run time

    The declared types are erased at run time: a song read from data may
    lack a field, or hold [null] or a boolean where a number is declared.
    Every operation the engine applies to an audio field ([*], [-], [<],
    [>]) converts it with [ToNumber]: an absent field ([undefined]) reads
    as [NaN], [null] as [+0], [true] as [1] and [false] as [+0].
    Destructuring an absent [audio], or calling [map] on an absent
    [vibeTags], throws a [TypeError].  (A field that holds a string, an
    array or an object is converted by the grammar of numeric strings;
    such fields are not described here.) *)












(** * The bookshelf ([src/components/Bookshelf.tsx])

    The pure computations of the component: [inferGenre], and the bodies of
    the [useMemo] hooks as functions of the properties and the state they
    depend on. *)

(** [String.prototype.includes]: [sub] is found in [s], at its front or
    further on. *)
Fixpoint startsWith (s sub : string) : bool :=
  match sub, s with
  | EmptyString, _ => true
  | String c sub', String d s' => Ascii.eqb c d && startsWith s' sub'
  | String _ _, EmptyString => false
  end.

Fixpoint includes (s sub : string) : bool :=
  startsWith s sub ||
  match s with
  | EmptyString => false
  | String _ s' => includes s' sub
  end.

(** A string is falsy when empty. *)
Definition truthy (s : string) : bool := negb (String.eqb s EmptyString).

(** Genre inference based on [vibeTags].  Counts, priorities and scores
    are small integers, held exactly by [number]. *)
Record GenreRule : Type := {
  rule_genre : string;
  rule_tags : list string;
  rule_priority : nat
}.

Definition GENRE_RULES : list GenreRule :=
  [ {| rule_genre := "Dark Academia";
       rule_tags := ["dark-academia"; "academic"; "scholarly"];
       rule_priority := 10 |};
    {| rule_genre := "Horror & Gothic";
       rule_tags := ["horror"; "gothic"; "unsettling"; "creepy"; "supernatural"; "eerie"];
       rule_priority := 9 |};
    {| rule_genre := "Fantasy";
       rule_tags := ["fantasy"; "magical"; "mythical"; "fairy-tale"; "whimsical";
                     "enchanting"];
       rule_priority := 8 |};
    {| rule_genre := "Science Fiction";
       rule_tags := ["dystopian"; "sci-fi"; "futuristic"; "cyberpunk";
                     "post-apocalyptic"];
       rule_priority := 8 |};
    {| rule_genre := "Mystery & Thriller";
       rule_tags := ["mysterious"; "suspenseful"; "thriller"; "noir"; "crime";
                     "detective"];
       rule_priority := 7 |};
    {| rule_genre := "Romance";
       rule_tags := ["romantic"; "passionate"; "love"; "tender"; "swoon"];
       rule_priority := 6 |};
    {| rule_genre := "Historical Fiction";
       rule_tags := ["historical"; "period"; "war"; "victorian"; "regency"];
       rule_priority := 5 |};
    {| rule_genre := "Young Adult";
       rule_tags := ["coming-of-age"; "ya"; "teen"; "adolescent"; "bildungsroman"];
       rule_priority := 4 |};
    {| rule_genre := "Classics";
       rule_tags := ["classic"; "timeless"; "canonical"; "literary"];
       rule_priority := 3 |};
    {| rule_genre := "Contemporary Fiction";
       rule_tags := ["contemporary"; "modern"; "indie"; "urban"];
       rule_priority := 2 |};
    {| rule_genre := "Literary Fiction";
       rule_tags := ["literary"; "introspective"; "philosophical"; "character-driven"];
       rule_priority := 1 |} ]%string.

Record GenreMatch : Type := {
  best_genre : string;
  best_score : nat;
  best_priority : nat
}.

Definition matchCount (bookTags : JsSet) (rule : GenreRule) : nat :=
  List.length (filter (fun tag => Set_has bookTags tag) (rule_tags rule)).

(** The body of the loop over [GENRE_RULES]. *)
Definition inferGenre_step (bookTags : JsSet) (bestMatch : option GenreMatch)
    (rule : GenreRule) : option GenreMatch :=
  let matchCount := matchCount bookTags rule in
  if Nat.ltb 0 matchCount then
    let score := matchCount * rule_priority rule in
    let found := {| best_genre := rule_genre rule; best_score := score;
                    best_priority := rule_priority rule |} in
    match bestMatch with
    | None => Some found
    | Some best => if Nat.ltb (best_score best) score then Some found else bestMatch
    end
  else bestMatch.

Section Shelf.

Context {num : Type}.

Definition inferGenre (book : Book num) : string :=
  let inferred :=
    let bookTags := Set_of (map toLowerCase (book_vibeTags book)) in
    match fold_left (inferGenre_step bookTags) GENRE_RULES None with
    | Some bestMatch =>
        if truthy (best_genre bestMatch) then best_genre bestMatch
        else "Literary Fiction"%string
    | None => "Literary Fiction"%string
    end in
  match genre book with
  | Some g => if truthy g then g else inferred
  | None => inferred
  end.

(** [booksByGenre]: the books grouped by genre in a [Map], each book
    pushed onto the array of its genre, then the entries sorted by the
    length of their arrays, longest first. *)
Definition group_step (grouped : JsMap (list (Book num))) (book : Book num)
    : JsMap (list (Book num)) :=
  let genre := inferGenre book in
  let grouped := if Map_has grouped genre then grouped else Map_set grouped genre [] in
  match Map_get grouped genre with
  | Some shelf => Map_set grouped genre (shelf ++ [book])
  | None => grouped
  end.

Definition grouped (books : list (Book num)) : JsMap (list (Book num)) :=
  fold_left group_step books [].

Definition booksByGenre (books : list (Book num)) : list (string * list (Book num)) :=
  Array_sort
    (fun a b => (of_nat (List.length (snd b)) - of_nat (List.length (snd a)))%num
                : float)
    (grouped books).

Definition allGenres (books : list (Book num)) : list string :=
  map fst (booksByGenre books).

(** [filteredByGenre] and [totalFiltered]. *)
Definition matchesSearch (searchQuery : string) (book : Book num) : bool :=
  String.eqb searchQuery EmptyString
  || includes (toLowerCase (book_title book)) (toLowerCase searchQuery)
  || includes (toLowerCase (author book)) (toLowerCase searchQuery).

Definition genreSelected (selectedGenre : option string) (genre : string) : bool :=
  match selectedGenre with
  | None => true
  | Some selected => String.eqb genre selected
  end.

Definition filteredByGenre (books : list (Book num)) (searchQuery : string)
    (selectedGenre : option string) : list (string * list (Book num)) :=
  filter (fun e => Nat.ltb 0 (List.length (snd e)))
    (map (fun e => (fst e, filter (matchesSearch searchQuery) (snd e)))
       (filter (fun e => genreSelected selectedGenre (fst e)) (booksByGenre books))).

Definition totalFiltered (books : list (Book num)) (searchQuery : string)
    (selectedGenre : option string) : nat :=
  fold_left (fun sum e => sum + List.length (snd e))
    (filteredByGenre books searchQuery selectedGenre) 0.

End Shelf.

(** * Searching the books ([src/components/BookSearch.tsx]) *)

(** [Array.prototype.sort()] without a comparator orders its elements as
    strings: [SortCompare(x, y)] is [-1] when [x < y], [1] when [y < x]
    and [+0] otherwise, where [<] compares code unit by code unit and
    puts a proper prefix first. *)
Definition SortCompare (x y : string) : float :=
  if String.ltb x y then lit (-1)
  else if String.ltb y x then lit 1
  else lit 0.

Section BookSearch.

Context {num : Type}.

(** [allTags]: all unique tags of the books, sorted. *)
Definition allTags (books : list (Book num)) : list string :=
  let tagSet :=
    fold_left (fun tagSet book => fold_left Set_add (book_vibeTags book) tagSet)
      books [] in
  Array_sort SortCompare tagSet.

(** [filteredBooks]: the books that match the search and the tag. *)
Definition filteredBooks (books : list (Book num)) (searchQuery : string)
    (selectedTag : option string) : list (Book num) :=
  filter
    (fun book =>
       let matchesSearch :=
         String.eqb searchQuery EmptyString
         || includes (toLowerCase (book_title book)) (toLowerCase searchQuery)
         || includes (toLowerCase (author book)) (toLowerCase searchQuery) in
       let matchesTag :=
         match selectedTag with
         | None => true
         | Some tag => existsb (String.eqb tag) (book_vibeTags book)
         end in
       matchesSearch && matchesTag)
    books.

End BookSearch.

(** * The page of a book ([src/app/book/[id]/page.tsx]) *)

(** [Array.prototype.findIndex]: the index of the first element that
    satisfies the predicate, [-1] when there is none. *)
Fixpoint findIndex {A : Type} (f : A -> bool) (l : list A) : Z :=
  match l with
  | [] => -1
  | x :: r =>
      if f x then 0
      else let i := findIndex f r in if (i <? 0)%Z then -1 else (i + 1)%Z
  end.

(** [array[i]] for an integer [i]: [undefined] out of range. *)
Definition Array_at {A : Type} (l : list A) (i : Z) : option A :=
  if (i <? 0)%Z then None else nth_error l (Z.to_nat i).

(** What a page component yields: its rendering, unless [notFound()] was
    called, which throws and ends the call. *)
Inductive rendering (A : Type) : Type :=
| Rendered (a : A)
| NotFound.

Arguments Rendered {A} a.
Arguments NotFound {A}.

Section BookPage.

Context {num : Type} `{Number num}.

(** The data the page imports: the books, the songs, and the mapping from
    book identifiers to song identifiers, an object of the keys of its
    JSON file. *)
Variable books : list (Book num).
Variable songs : list (Song num).
Variable bookSongMapping : JsMap string.

Definition generateStaticParams : list string := map book_id books.

Record Metadata : Type := {
  metadata_title : string;
  metadata_description : option string
}.

Definition generateMetadata (id : string) : Metadata :=
  match find (fun b => String.eqb (book_id b) id) books with
  | None => {| metadata_title := "Book Not Found"; metadata_description := None |}
  | Some book =>
      {| metadata_title := book_title book ++ " Theme Song | BookTheme";
         metadata_description :=
           Some ("Discover the perfect theme song for " ++ book_title book
                 ++ " by " ++ author book) |}
  end%string.

(** What the page shows: the book, the match result handed to the song
    card, and the books the two arrows lead to ([null] or [undefined]
    shows no arrow). *)
Record Page : Type := {
  page_book : Book num;
  page_matchResult : MatchResult num;
  prevBook : option (Book num);
  nextBook : option (Book num)
}.

Definition BookPage (id : string) : rendering Page :=
  match find (fun b => String.eqb (book_id b) id) books with
  | None => NotFound
  | Some book =>
      let songId := Map_get bookSongMapping (book_id book) in
      match find (fun s => match songId with
                           | Some songId => String.eqb (song_id s) songId
                           | None => false
                           end) songs with
      | None => NotFound
      | Some song =>
          let matchResult := getMatchResultForSong book song in
          let bookList := books in
          let currentIndex := findIndex (fun b => String.eqb (book_id b) id) bookList in
          let prevBook :=
            if (0 <? currentIndex)%Z then Array_at bookList (currentIndex - 1) else None in
          let nextBook :=
            if (currentIndex <? Z.of_nat (List.length bookList) - 1)%Z
            then Array_at bookList (currentIndex + 1) else None in
          Rendered {| page_book := book;
                      page_matchResult := matchResult;
                      prevBook := prevBook;
                      nextBook := nextBook |}
      end
  end.

End BookPage.

Arguments Page num : clear implicits.
Arguments Metadata : clear implicits.

(** * The card of a song ([src/components/SongCard.tsx]) *)

(** The class [[a-zA-Z0-9]]. *)
Definition alphanumeric (c : ascii) : bool :=
  let n := nat_of_ascii c in
  (97 <=? n) && (n <=? 122) || (65 <=? n) && (n <=? 90) || (48 <=? n) && (n <=? 57).

(** The longest prefix of characters of a class, and the string left when
    a literal is read off its front. *)
Fixpoint longest (class : ascii -> bool) (s : string) : string :=
  match s with
  | EmptyString => EmptyString
  | String c r => if class c then String c (longest class r) else EmptyString
  end.

Fixpoint literal (sub s : string) : option string :=
  match sub, s with
  | EmptyString, _ => Some s
  | String c sub', String d s' => if Ascii.eqb c d then literal sub' s' else None
  | String _ _, EmptyString => None
  end.

(** [/track\/([a-zA-Z0-9]+)/] matched at the front of a string: the
    literal, then as many characters of the class as there are, at least
    one.  The value is what the group captures. *)
Definition track_here (s : string) : option string :=
  match literal "track/" s with
  | Some rest =>
      let group := longest alphanumeric rest in
      if String.eqb group EmptyString then None else Some group
  | None => None
  end.

(** [s.match(/track\/([a-zA-Z0-9]+)/)?.[1]]: the group of the match that
    starts first, [undefined] when the expression matches nowhere. *)
Fixpoint match_track (s : string) : option string :=
  match track_here s with
  | Some group => Some group
  | None =>
      match s with
      | EmptyString => None
      | String _ r => match_track r
      end
  end.

Section SongCard.

Context {num : Type}.

(** Extract Spotify track ID for embed. *)
Definition spotifyTrackId (song : Song num) : option string :=
  match_track (spotifyUrl song).

(** The address of the embedded player, shown when there is a track ID. *)
Definition embed_src (song : Song num) : option string :=
  match spotifyTrackId song with
  | Some id =>
      if truthy id
      then Some ("https://open.spotify.com/embed/track/" ++ id
                 ++ "?utm_source=generator&theme=0")%string
      else None
  | None => None
  end.

End SongCard.

(** * More fixtures *)

(** A stormy book and a lullaby: every rule but the fourth fires. *)
Definition stormBook {num : Type} `{Number num} : Book num :=
  {| book_id := "storm-book";
     book_title := "Storm Book";
     author := "Test Author";
     coverImageUrl := "/test.jpg";
     book_vibeTags := ["dark"%string; "brooding"%string];
     vibeVector :=
       {| melancholy := lit 0.8; intimacy := lit 0.5; intensity := lit 0.9;
          hope := lit 0.3; tension := lit 0.8; warmth := lit 0.2;
          nostalgia := lit 0.5; eeriness := lit 0.8; pace := lit 0.3 |};
     vibeBlurb := "";
     genre := None |}.

Definition lullaby {num : Type} `{Number num} : AudioFeatures num :=
  {| energy := lit 0.1; valence := lit 0.9; tempo := lit 0.3;
     acousticness := lit 0.9; danceability := lit 0.4 |}.

(** The test book with its tags shuffled, repeated and in capitals. *)
Definition shoutedBook {num : Type} `{Number num} : Book num :=
  {| book_id := "test-book";
     book_title := "Test Book";
     author := "Test Author";
     coverImageUrl := "/test.jpg";
     book_vibeTags := ["TENDER"; "Intimate"; "nostalgic"; "tender"; "MELANCHOLIC"]%string;
     vibeVector := vibeVector testBook;
     vibeBlurb := "A melancholic and nostalgic test book.";
     genre := None |}.

(** The mapping of the test books to the test songs. *)
Definition testMapping : JsMap string :=
  [("test-book", "perfect-match"); ("norwegian-wood", "moderate-match")]%string.

(** The perfect match with the address of a track. *)
Definition linkedSong {num : Type} `{Number num} : Song num :=
  {| song_id := song_id perfectMatch;
     song_title := song_title perfectMatch;
     artist := artist perfectMatch;
     spotifyUrl := "https://open.spotify.com/track/4uLU6hMCjMI75M1A2tKUQC?si=0a1b2c";
     previewUrl := previewUrl perfectMatch;
     song_vibeTags := song_vibeTags perfectMatch;
     audio := audio perfectMatch;
     moodBlurb := moodBlurb perfectMatch |}.


(** A book that mirrors [poorMatch]: the song's tags, and the vector
    derived from the song's audio. *)
Definition mirrorBook {num : Type} `{Number num} : Book num :=
  {| book_id := "mirror-book";
     book_title := "Mirror Book";
     author := "Test Author";
     coverImageUrl := "/test.jpg";
     book_vibeTags := song_vibeTags poorMatch;
     vibeVector := deriveVibeVector (audio poorMatch);
     vibeBlurb := "";
     genre := None |}.
(** ** IEEE 754 binary64: what the proofs need of it

    Derived from the bit-level specification of the primitive operations
    ([FloatAxioms], [SpecFloat]). *)

Module IEEE.
Local Open Scope Z_scope.

(** Commutativity of multiplication. *)
Lemma SFmul_comm (x y : spec_float) : SF64mul x y = SF64mul y x.
Proof.
  unfold SF64mul.
  destruct x as [sx|sx| |sx mx ex], y as [sy|sy| |sy my ey]; simpl;
    rewrite ?(xorb_comm sx sy); try reflexivity.
  now rewrite Pos.mul_comm, Z.add_comm.
Qed.

Lemma mul_comm (x y : float) : PrimFloat.mul x y = PrimFloat.mul y x.
Proof. apply Prim2SF_inj. rewrite !FloatAxioms.mul_spec. apply SFmul_comm. Qed.

(** The order of [spec_float]s. *)
Ltac cmp_cases :=
  repeat match goal with
  | H : context [Z.compare ?a ?b] |- _ => destruct (Z.compare_spec a b)
  | |- context [Z.compare ?a ?b] => destruct (Z.compare_spec a b)
  | H : context [Pos.compare ?a ?b] |- _ => destruct (Pos.compare_spec a b)
  | |- context [Pos.compare ?a ?b] => destruct (Pos.compare_spec a b)
  end.

Ltac sf_order :=
  unfold SFltb, SFleb, SFeqb, SFcompare;
  change (Pos.compare_cont Eq) with Pos.compare;
  repeat match goal with s : bool |- _ => destruct s end;
  simpl; intros; try discriminate; try reflexivity; try tauto;
  cmp_cases; subst; simpl in *; try discriminate; try reflexivity; try tauto; try lia.

Lemma SFltb_irrefl x : SFltb x x = false.
Proof. destruct x; sf_order. Qed.

Lemma SFltb_asym x y : SFltb x y = true -> SFltb y x = false.
Proof. destruct x, y; sf_order. Qed.

Lemma SFltb_trans x y z : SFltb x y = true -> SFltb y z = true -> SFltb x z = true.
Proof. destruct x, y, z; sf_order. Qed.

Lemma SFltb_negtrans x y z :
  y <> S754_nan -> SFltb x y = false -> SFltb y z = false -> SFltb x z = false.
Proof. destruct x, y, z; sf_order. Qed.

Lemma SFleb_ltb x y : SFleb x y = true -> SFltb y x = false.
Proof. destruct x, y; sf_order. Qed.

Lemma SFltb_leb_total x y :
  x <> S754_nan -> y <> S754_nan -> SFltb x y = false -> SFleb y x = true.
Proof. destruct x, y; sf_order. Qed.


(** *** Rounding never loses the sign of a non-zero sum *)

Lemma digits2_pos_bounds (p : positive) :
  2 ^ (Zpos (digits2_pos p) - 1) <= Zpos p < 2 ^ Zpos (digits2_pos p).
Proof.
  induction p as [p IH|p IH|]; simpl digits2_pos.
  - rewrite Pos2Z.inj_succ.
    replace (Z.succ (Zpos (digits2_pos p)) - 1) with (Z.succ (Zpos (digits2_pos p) - 1)) by lia.
    rewrite !Z.pow_succ_r by lia. lia.
  - rewrite Pos2Z.inj_succ.
    replace (Z.succ (Zpos (digits2_pos p)) - 1) with (Z.succ (Zpos (digits2_pos p) - 1)) by lia.
    rewrite !Z.pow_succ_r by lia. lia.
  - simpl. lia.
Qed.

Lemma iter_xO_value (d m : positive) :
  Zpos (Pos.iter xO m d) = Zpos m * 2 ^ Zpos d.
Proof.
  revert m. induction d as [|d IH] using Pos.peano_ind; intros m.
  - simpl. lia.
  - rewrite Pos.iter_succ, Pos2Z.inj_succ, Z.pow_succ_r by lia.
    rewrite Pos2Z.inj_xO, IH. lia.
Qed.

Lemma shr_1_m (mrs : shr_record) :
  0 <= shr_m mrs -> shr_m (shr_1 mrs) = shr_m mrs / 2.
Proof.
  destruct mrs as [m r s]; simpl. intros Hm.
  destruct m as [|p|p]; [reflexivity| |lia].
  destruct p as [p|p|]; simpl.
  - apply Z.div_unique with 1; lia.
  - apply Z.div_unique with 0; lia.
  - reflexivity.
Qed.

Lemma iter_shr_1_m (p : positive) (mrs : shr_record) :
  0 <= shr_m mrs ->
  shr_m (SpecFloat.iter_pos shr_1 p mrs) = shr_m mrs / 2 ^ Zpos p.
Proof.
  revert mrs. induction p as [p IH|p IH|]; intros mrs Hm; simpl SpecFloat.iter_pos.
  - assert (H1 : 0 <= shr_m (shr_1 mrs)) by (rewrite shr_1_m by lia; apply Z.div_pos; lia).
    assert (H2 : 0 <= shr_m (SpecFloat.iter_pos shr_1 p (shr_1 mrs)))
      by (rewrite IH by lia; apply Z.div_pos; [lia|apply Z.pow_pos_nonneg; lia]).
    rewrite IH by lia. rewrite IH by lia. rewrite shr_1_m by lia.
    rewrite !Z.div_div by (try apply Z.pow_pos_nonneg; lia).
    f_equal. change 2 with (2 ^ 1) at 1. rewrite <- !Z.pow_add_r by lia. f_equal. lia.
  - assert (H2 : 0 <= shr_m (SpecFloat.iter_pos shr_1 p mrs))
      by (rewrite IH by lia; apply Z.div_pos; [lia|apply Z.pow_pos_nonneg; lia]).
    rewrite IH by lia. rewrite IH by lia.
    rewrite !Z.div_div by (try apply Z.pow_pos_nonneg; lia).
    f_equal. rewrite <- Z.pow_add_r by lia. f_equal. lia.
  - rewrite shr_1_m by lia. reflexivity.
Qed.

Lemma shr_record_of_loc_m m l : shr_m (shr_record_of_loc m l) = m.
Proof. destruct l as [|[]]; reflexivity. Qed.

Abbreviation emin := (SpecFloat.emin prec emax).

(** Shifting a positive mantissa whose exponent is at least [emin] down to
    its canonical exponent leaves it positive. *)
Lemma shr_fexp_pos (m e : Z) (l : location) :
  0 < m -> emin <= e ->
  0 < shr_m (fst (shr_fexp prec emax m e l)) /\ emin <= snd (shr_fexp prec emax m e l).
Proof.
  intros Hm He. unfold shr_fexp, shr.
  destruct m as [|p|p]; try lia.
  pose proof (digits2_pos_bounds p) as Hd.
  set (d := Zpos (digits2_pos p)) in *.
  assert (Hn : SpecFloat.fexp prec emax (Zdigits2 (Zpos p) + e) - e < d).
  { unfold SpecFloat.fexp, Zdigits2. fold d. unfold prec in *. lia. }
  destruct (SpecFloat.fexp prec emax (Zdigits2 (Zpos p) + e) - e) as [|n|n] eqn:En;
    simpl fst; simpl snd; rewrite ?shr_record_of_loc_m; try (split; lia).
  rewrite iter_shr_1_m by (rewrite shr_record_of_loc_m; lia).
  rewrite shr_record_of_loc_m. split; [|lia].
  apply Z.div_str_pos. split; [apply Z.pow_pos_nonneg; lia|].
  apply Z.le_trans with (2 ^ (d - 1)); [|lia].
  apply Z.pow_le_mono_r; lia.
Qed.

Lemma round_nearest_even_pos m l : 0 < m -> 0 < round_nearest_even m l.
Proof.
  intros Hm. destruct l as [|[]]; simpl; try lia.
  destruct (Z.even m); lia.
Qed.

(** A positive mantissa with exponent at least [emin] rounds to a non-zero
    number of the sign put in. *)
Inductive signed_nonzero (s : bool) : spec_float -> Prop :=
| snz_finite m e : signed_nonzero s (S754_finite s m e)
| snz_infinity : signed_nonzero s (S754_infinity s).

Lemma binary_round_aux_nonzero (s : bool) (m e : Z) (l : location) :
  0 < m -> emin <= e ->
  signed_nonzero s (binary_round_aux prec emax s m e l).
Proof.
  intros Hm He. unfold binary_round_aux.
  pose proof (shr_fexp_pos m e l Hm He) as [H1 H2].
  destruct (shr_fexp prec emax m e l) as [mrs' e'] eqn:E1. simpl in H1, H2.
  pose proof (round_nearest_even_pos _ (loc_of_shr_record mrs') H1) as H3.
  pose proof (shr_fexp_pos _ _ loc_Exact H3 H2) as [H4 H5].
  destruct (shr_fexp prec emax (round_nearest_even (shr_m mrs') (loc_of_shr_record mrs')) e' loc_Exact)
    as [mrs'' e''] eqn:E2. simpl in H4, H5.
  destruct (shr_m mrs'') as [|q|q]; try lia.
  destruct (e'' <=? emax - prec); constructor.
Qed.

Lemma binary_round_nonzero (s : bool) (m : positive) (e : Z) :
  emin <= e -> signed_nonzero s (binary_round prec emax s m e).
Proof.
  intros He. unfold binary_round.
  destruct (shl_align m e (SpecFloat.fexp prec emax (Zpos (digits2_pos m) + e))) as [mz ez] eqn:E.
  apply binary_round_aux_nonzero; [lia|].
  unfold shl_align in E.
  destruct (SpecFloat.fexp prec emax (Zpos (digits2_pos m) + e) - e) eqn:En;
    inversion E; subst; try lia.
  unfold SpecFloat.fexp. lia.
Qed.


(** *** The sign of a difference is the order of its operands *)

Lemma bounded_exp (m : positive) (e : Z) :
  SpecFloat.bounded prec emax m e = true ->
  emin <= e /\ Zpos (digits2_pos m) <= prec /\
  (emin < e -> Zpos (digits2_pos m) = prec).
Proof.
  unfold SpecFloat.bounded, canonical_mantissa, SpecFloat.fexp.
  intros Hb. apply andb_true_iff in Hb as [Hc _].
  apply Z.eqb_eq in Hc. lia.
Qed.

Lemma shl_align_value (m : positive) (e ez : Z) :
  ez <= e -> Zpos (fst (shl_align m e ez)) = Zpos m * 2 ^ (e - ez).
Proof.
  intros Hle. unfold shl_align.
  destruct (ez - e) as [|d|d] eqn:Ed; simpl fst.
  - replace (e - ez) with 0 by lia. simpl. lia.
  - lia.
  - rewrite iter_xO_value. f_equal. f_equal. lia.
Qed.

(** Mantissas of canonical numbers, aligned to the smaller exponent,
    compare as (exponent, mantissa) pairs. *)
Lemma aligned_compare (m1 m2 : positive) (e1 e2 : Z) :
  SpecFloat.bounded prec emax m1 e1 = true -> SpecFloat.bounded prec emax m2 e2 = true ->
  (Zpos m1 * 2 ^ (e1 - Z.min e1 e2) ?= Zpos m2 * 2 ^ (e2 - Z.min e1 e2)) =
  match e1 ?= e2 with
  | Lt => Lt
  | Gt => Gt
  | Eq => Pos.compare m1 m2
  end.
Proof.
  intros B1 B2.
  apply bounded_exp in B1 as (L1 & D1 & N1), B2 as (L2 & D2 & N2).
  pose proof (digits2_pos_bounds m1) as P1.
  pose proof (digits2_pos_bounds m2) as P2.
  destruct (Z.compare_spec e1 e2) as [E|E|E].
  - subst e2. rewrite Z.min_id, Z.sub_diag. simpl (2 ^ 0). rewrite !Z.mul_1_r.
    reflexivity.
  - rewrite Z.min_l, Z.sub_diag by lia. simpl (2 ^ 0). rewrite Z.mul_1_r.
    apply Z.compare_lt_iff.
    rewrite N2 in P2 by lia.
    assert (Hp : 2 ^ 1 <= 2 ^ (e2 - e1)) by (apply Z.pow_le_mono_r; lia).
    assert (H53 : Zpos m1 < 2 ^ prec).
    { apply Z.lt_le_trans with (2 ^ Zpos (digits2_pos m1)); [lia|].
      apply Z.pow_le_mono_r; lia. }
    assert (Hm : 2 ^ (prec - 1) * 2 ^ 1 <= Zpos m2 * 2 ^ (e2 - e1))
      by (apply Z.mul_le_mono_nonneg; try lia; apply Z.pow_nonneg; lia).
    rewrite <- Z.pow_add_r in Hm by (unfold prec; lia).
    replace (prec - 1 + 1) with prec in Hm by lia. lia.
  - rewrite Z.min_r, Z.sub_diag by lia. simpl (2 ^ 0). rewrite Z.mul_1_r.
    apply Z.compare_gt_iff.
    rewrite N1 in P1 by lia.
    assert (Hp : 2 ^ 1 <= 2 ^ (e1 - e2)) by (apply Z.pow_le_mono_r; lia).
    assert (H53 : Zpos m2 < 2 ^ prec).
    { apply Z.lt_le_trans with (2 ^ Zpos (digits2_pos m2)); [lia|].
      apply Z.pow_le_mono_r; lia. }
    assert (Hm : 2 ^ (prec - 1) * 2 ^ 1 <= Zpos m1 * 2 ^ (e1 - e2))
      by (apply Z.mul_le_mono_nonneg; try lia; apply Z.pow_nonneg; lia).
    rewrite <- Z.pow_add_r in Hm by (unfold prec; lia).
    replace (prec - 1 + 1) with prec in Hm by lia. lia.
Qed.

Lemma SFcompare_aligned (s1 s2 : bool) (m1 m2 : positive) (e1 e2 : Z) :
  SpecFloat.bounded prec emax m1 e1 = true -> SpecFloat.bounded prec emax m2 e2 = true ->
  SFcompare (S754_finite s1 m1 e1) (S754_finite s2 m2 e2) =
  Some (cond_Zopp s1 (Zpos (fst (shl_align m1 e1 (Z.min e1 e2))))
        ?= cond_Zopp s2 (Zpos (fst (shl_align m2 e2 (Z.min e1 e2))))).
Proof.
  intros B1 B2.
  rewrite !shl_align_value by lia.
  pose proof (aligned_compare m1 m2 e1 e2 B1 B2) as Hc.
  assert (Ha : 0 < Zpos m1 * 2 ^ (e1 - Z.min e1 e2))
    by (apply Z.mul_pos_pos; [lia|apply Z.pow_pos_nonneg; lia]).
  assert (Hb : 0 < Zpos m2 * 2 ^ (e2 - Z.min e1 e2))
    by (apply Z.mul_pos_pos; [lia|apply Z.pow_pos_nonneg; lia]).
  set (a := Zpos m1 * 2 ^ (e1 - Z.min e1 e2)) in *.
  set (b := Zpos m2 * 2 ^ (e2 - Z.min e1 e2)) in *.
  unfold SFcompare. change (Pos.compare_cont Eq) with Pos.compare.
  destruct s1, s2; unfold cond_Zopp; f_equal.
  - rewrite Z.compare_opp, (Z.compare_antisym a b), Hc.
    destruct (e1 ?= e2); reflexivity.
  - symmetry. apply Z.compare_lt_iff. lia.
  - symmetry. apply Z.compare_gt_iff. lia.
  - rewrite Hc. reflexivity.
Qed.

Lemma binary_normalize_sign (m e : Z) :
  emin <= e ->
  SFltb (binary_normalize prec emax m e false) (S754_zero false) = (m <? 0).
Proof.
  intros He. unfold binary_normalize.
  destruct m as [|p|p].
  - reflexivity.
  - destruct (binary_round_nonzero false p e He); reflexivity.
  - destruct (binary_round_nonzero true p e He); reflexivity.
Qed.

Lemma SFsub_sign (x y : spec_float) :
  valid_binary x = true -> valid_binary y = true ->
  SFltb (SF64sub x y) (S754_zero false) = SFltb x y.
Proof.
  intros Vx Vy. unfold SF64sub.
  destruct x as [sx|sx| |sx mx ex], y as [sy|sy| |sy my ey];
    try (repeat match goal with s : bool |- _ => destruct s end; reflexivity).
  simpl in Vx, Vy. unfold SFsub.
  cbv zeta.
  rewrite binary_normalize_sign
    by (apply bounded_exp in Vx, Vy; lia).
  unfold SFltb. rewrite (SFcompare_aligned sx sy mx my ex ey Vx Vy).
  rewrite (Z.compare_sub (cond_Zopp sx _)).
  unfold Z.ltb. reflexivity.
Qed.

(** [x - y < 0] exactly when [x < y]: a comparator [b - a] orders by [<]. *)
Lemma sub_ltb_zero (x y : float) :
  PrimFloat.ltb (PrimFloat.sub x y) 0%float = PrimFloat.ltb x y.
Proof.
  rewrite !FloatAxioms.ltb_spec, FloatAxioms.sub_spec.
  change (Prim2SF 0%float) with (S754_zero false).
  apply SFsub_sign; apply Prim2SF_valid.
Qed.


(** *** Division of a finite number by itself *)

Lemma SFdiv_self (s : bool) (m : positive) (e : Z) :
  SF64div (S754_finite s m e) (S754_finite s m e) = Prim2SF 1%float.
Proof.
  unfold SF64div, SFdiv, SFdiv_core_binary.
  rewrite xorb_nilpotent.
  replace (Zdigits2 (Zpos m) + e - (Zdigits2 (Zpos m) + e)) with 0 by lia.
  rewrite Z.sub_diag.
  change (Z.min (SpecFloat.fexp prec emax 0) 0) with (-53).
  change (0 - -53) with 53.
  cbv iota.
  assert (Hq : Z.div_eucl (Z.shiftl (Zpos m) 53) (Zpos m) = (2 ^ 53, 0)).
  { rewrite Z.shiftl_mul_pow2 by lia. rewrite Z.mul_comm.
    destruct (Z.div_eucl (2 ^ 53 * Zpos m) (Zpos m)) as [q r] eqn:E.
    assert (Hq : q = 2 ^ 53 * Zpos m / Zpos m) by (unfold Z.div; now rewrite E).
    assert (Hr : r = (2 ^ 53 * Zpos m) mod Zpos m) by (unfold Z.modulo; now rewrite E).
    rewrite Z.div_mul in Hq by lia. rewrite Z.mod_mul in Hr by lia.
    now subst. }
  rewrite Hq.
  assert (Hl : new_location (Zpos m) 0 = loc_Exact).
  { unfold new_location, new_location_even, new_location_odd.
    destruct (Z.even (Zpos m)); reflexivity. }
  rewrite Hl. reflexivity.
Qed.

Lemma div_self (x : float) s m e :
  Prim2SF x = S754_finite s m e -> PrimFloat.div x x = 1%float.
Proof.
  intros Hx. apply Prim2SF_inj. rewrite FloatAxioms.div_spec, Hx.
  apply SFdiv_self.
Qed.


(** *** Integers below [2^63] are finite doubles *)

Lemma digits2_pos_le (p : positive) (k : Z) :
  Zpos p < 2 ^ k -> Zpos (digits2_pos p) <= k.
Proof.
  intros Hp. pose proof (digits2_pos_bounds p) as [Hl _].
  destruct (Z.le_gt_cases (Zpos (digits2_pos p)) k) as [|Hgt]; [assumption|].
  assert (2 ^ k <= 2 ^ (Zpos (digits2_pos p) - 1)); [|lia].
  destruct (Z.le_gt_cases 0 k).
  - apply Z.pow_le_mono_r; lia.
  - rewrite (Z.pow_neg_r 2 k) by lia. apply Z.pow_nonneg. lia.
Qed.

Lemma fexp_mono (a b : Z) :
  a <= b -> SpecFloat.fexp prec emax a <= SpecFloat.fexp prec emax b.
Proof. unfold SpecFloat.fexp. lia. Qed.

(** A mantissa below [2^(K - e)] keeps that bound through the shift. *)
Lemma shr_fexp_bound (m e K : Z) (l : location) :
  0 < m -> emin <= e -> m < 2 ^ (K - e) ->
  snd (shr_fexp prec emax m e l) <= Z.max e (SpecFloat.fexp prec emax K) /\
  shr_m (fst (shr_fexp prec emax m e l)) < 2 ^ (K - snd (shr_fexp prec emax m e l)).
Proof.
  intros Hm He HK. unfold shr_fexp, shr.
  destruct m as [|p|p]; try lia.
  pose proof (digits2_pos_bounds p) as Hd.
  pose proof (digits2_pos_le p _ HK) as HdK.
  set (d := Zpos (digits2_pos p)) in *.
  assert (Hn : SpecFloat.fexp prec emax (Zdigits2 (Zpos p) + e) - e < d).
  { unfold SpecFloat.fexp, Zdigits2. fold d. unfold prec in *. lia. }
  assert (Hf : SpecFloat.fexp prec emax (Zdigits2 (Zpos p) + e)
               <= SpecFloat.fexp prec emax K).
  { apply fexp_mono. unfold Zdigits2. fold d. lia. }
  destruct (SpecFloat.fexp prec emax (Zdigits2 (Zpos p) + e) - e) as [|n|n] eqn:En;
    simpl fst; simpl snd; rewrite ?shr_record_of_loc_m; try (split; [lia|assumption]).
  rewrite iter_shr_1_m by (rewrite shr_record_of_loc_m; lia).
  rewrite shr_record_of_loc_m. split; [lia|].
  apply Z.div_lt_upper_bound; [apply Z.pow_pos_nonneg; lia|].
  rewrite <- Z.pow_add_r by lia.
  replace (Zpos n + (K - (e + Zpos n))) with (K - e) by lia. assumption.
Qed.

Lemma round_nearest_even_le m l : round_nearest_even m l <= m + 1.
Proof. destruct l as [|[]]; simpl; try lia. destruct (Z.even m); lia. Qed.

Lemma binary_round_aux_finite (s : bool) (m e K : Z) (l : location) :
  0 < m -> emin <= e -> m < 2 ^ (K - e) ->
  Z.max e (SpecFloat.fexp prec emax (K + 1)) <= emax - prec ->
  exists m' e', binary_round_aux prec emax s m e l = S754_finite s m' e'.
Proof.
  intros Hm He HK Hmax. unfold binary_round_aux.
  pose proof (shr_fexp_pos m e l Hm He) as [H1 H2].
  pose proof (shr_fexp_bound m e K l Hm He HK) as [B1 B2].
  destruct (shr_fexp prec emax m e l) as [mrs' e'] eqn:E1. simpl in H1, H2, B1, B2.
  pose proof (round_nearest_even_pos _ (loc_of_shr_record mrs') H1) as H3.
  pose proof (round_nearest_even_le (shr_m mrs') (loc_of_shr_record mrs')) as H3'.
  assert (HK' : round_nearest_even (shr_m mrs') (loc_of_shr_record mrs') < 2 ^ (K + 1 - e')).
  { assert (0 <= K - e').
    { destruct (Z.le_gt_cases 0 (K - e')); [assumption|].
      rewrite (Z.pow_neg_r 2 (K - e')) in B2 by lia. lia. }
    replace (K + 1 - e') with (Z.succ (K - e')) by lia.
    rewrite Z.pow_succ_r by lia. lia. }
  pose proof (shr_fexp_pos _ _ loc_Exact H3 H2) as [H4 H5].
  pose proof (shr_fexp_bound _ _ (K + 1) loc_Exact H3 H2 HK') as [B3 _].
  destruct (shr_fexp prec emax (round_nearest_even (shr_m mrs') (loc_of_shr_record mrs')) e' loc_Exact)
    as [mrs'' e''] eqn:E2. simpl in H4, H5, B3.
  destruct (shr_m mrs'') as [|q|q]; try lia.
  pose proof (fexp_mono K (K + 1) ltac:(lia)).
  replace (e'' <=? emax - prec) with true by (symmetry; apply Z.leb_le; lia).
  eauto.
Qed.

Lemma of_Z_finite (z : Z) :
  0 < z < 2 ^ 63 ->
  exists m e, Prim2SF (PrimFloat.of_uint63 (Uint63.of_Z z)) = S754_finite false m e.
Proof.
  intros Hz. rewrite of_uint63_spec, Uint63.of_Z_spec.
  rewrite Z.mod_small by (change wB with (2 ^ 63); lia).
  destruct z as [|p|p]; try lia.
  unfold binary_normalize, binary_round.
  destruct (shl_align p 0 (SpecFloat.fexp prec emax (Zpos (digits2_pos p) + 0))) as [mz ez] eqn:E.
  pose proof (digits2_pos_le p 63 ltac:(lia)) as Hd.
  assert (Hs : emin <= ez /\ ez <= 10 /\ Zpos mz < 2 ^ (63 - ez)).
  { unfold shl_align in E.
    set (f := SpecFloat.fexp prec emax (Zpos (digits2_pos p) + 0)) in *.
    assert (Hf : emin <= f <= 10) by (unfold f, SpecFloat.fexp, SpecFloat.emin, prec, emax; lia).
    destruct (f - 0) as [|n|n] eqn:En; inversion E; subst mz ez; clear E.
    - split; [unfold SpecFloat.emin, prec, emax; lia|]. split; [lia|]. simpl. lia.
    - split; [unfold SpecFloat.emin, prec, emax; lia|]. split; [lia|]. simpl. lia.
    - split; [lia|]. split; [lia|].
      rewrite iter_xO_value.
      replace (63 - f) with (63 + Zpos n) by lia.
      rewrite Z.pow_add_r by lia.
      apply Z.mul_lt_mono_pos_r; [apply Z.pow_pos_nonneg; lia|lia]. }
  destruct Hs as (Hs1 & Hs2 & Hs3).
  apply binary_round_aux_finite with (K := 63); try lia.
  unfold SpecFloat.fexp, SpecFloat.emin, prec, emax. lia.
Qed.

(** *** Zero, [NaN] and equality *)


Lemma is_nan_spec (x : float) :
  PrimFloat.eqb x x = false <-> Prim2SF x = S754_nan.
Proof.
  rewrite FloatAxioms.eqb_spec. unfold SFeqb.
  destruct (Prim2SF x) as [s|s| |s m e]; simpl.
  - destruct s; split; discriminate.
  - destruct s; split; discriminate.
  - tauto.
  - change (Pos.compare_cont Eq) with Pos.compare.
    rewrite Z.compare_refl, Pos.compare_refl. destruct s; split; discriminate.
Qed.

(** *** [NaN] through the operations *)

Lemma shr_fexp_nonneg (m e : Z) (l : location) :
  0 <= m -> 0 <= shr_m (fst (shr_fexp prec emax m e l)).
Proof.
  intros Hm. unfold shr_fexp, shr.
  destruct (SpecFloat.fexp prec emax (Zdigits2 m + e) - e) as [|n|n];
    simpl fst; rewrite ?shr_record_of_loc_m; try assumption.
  rewrite iter_shr_1_m by (now rewrite shr_record_of_loc_m).
  rewrite shr_record_of_loc_m. apply Z.div_pos; [assumption|].
  apply Z.pow_pos_nonneg; lia.
Qed.

Lemma binary_round_aux_not_nan (s : bool) (m e : Z) (l : location) :
  0 <= m -> binary_round_aux prec emax s m e l <> S754_nan.
Proof.
  intros Hm. unfold binary_round_aux.
  pose proof (shr_fexp_nonneg m e l Hm) as H1.
  destruct (shr_fexp prec emax m e l) as [mrs' e']. simpl in H1.
  assert (H2 : 0 <= round_nearest_even (shr_m mrs') (loc_of_shr_record mrs')).
  { destruct (loc_of_shr_record mrs') as [|[]]; simpl; try lia.
    destruct (Z.even (shr_m mrs')); lia. }
  pose proof (shr_fexp_nonneg _ e' loc_Exact H2) as H3.
  destruct (shr_fexp prec emax (round_nearest_even (shr_m mrs') (loc_of_shr_record mrs')) e' loc_Exact)
    as [mrs'' e'']. simpl in H3.
  destruct (shr_m mrs'') as [|q|q]; try lia; try discriminate.
  destruct (e'' <=? emax - prec); discriminate.
Qed.

Definition number (x : float) : Prop := PrimFloat.eqb x x = true.

Lemma number_spec (x : float) : number x <-> Prim2SF x <> S754_nan.
Proof.
  unfold number. pose proof (is_nan_spec x) as Hn.
  destruct (PrimFloat.eqb x x); split; intros; try congruence.
  - intros E. apply Hn in E. discriminate.
  - exfalso. apply H. now apply Hn.
Qed.

Lemma add_number (x y : float) :
  number (PrimFloat.add x y) -> number x /\ number y.
Proof.
  rewrite !number_spec, FloatAxioms.add_spec. unfold SF64add.
  destruct (Prim2SF x) as [sx|sx| |sx mx ex], (Prim2SF y) as [sy|sy| |sy my ey];
    simpl; intros Hn; split; try discriminate; try (exfalso; now apply Hn).
Qed.

Lemma mul_number (x c : float) (s : bool) (m : positive) (e : Z) :
  Prim2SF c = S754_finite s m e -> number x -> number (PrimFloat.mul x c).
Proof.
  intros Hc. rewrite !number_spec, FloatAxioms.mul_spec, Hc. unfold SF64mul.
  destruct (Prim2SF x) as [sx|sx| |sx mx ex]; simpl; intros Hn; try discriminate.
  - now exfalso.
  - apply binary_round_aux_not_nan. lia.
Qed.

Lemma abs_number (x : float) : number x -> number (PrimFloat.abs x).
Proof.
  rewrite !number_spec, FloatAxioms.abs_spec.
  destruct (Prim2SF x); simpl; intros Hn; try discriminate. now exfalso.
Qed.

(** Among numbers, "not below" is "at least". *)
Lemma ltb_false_leb (x y : float) :
  number x -> number y ->
  PrimFloat.ltb x y = false -> PrimFloat.leb y x = true.
Proof.
  rewrite !number_spec, FloatAxioms.ltb_spec, FloatAxioms.leb_spec.
  apply SFltb_leb_total.
Qed.

End IEEE.

(** ** Rounding to nearest, ties to even

    Every operation on doubles returns the double nearest to the exact
    result.  This part derives that reading from the bit-level
    specification of the operations, for non-negative numbers, and with it
    the monotonicity of the operations: the tool for bounding a formula
    computed in doubles. *)

Module Rounding.
Import IEEE.
Local Open Scope Z_scope.

(** *** Rounding to nearest, ties to even, as a function on integers *)

(** [rne P m]: the integer nearest to [m / P]. *)
Definition rne (P m : Z) : Z :=
  let q := m / P in
  let r := m mod P in
  if r =? 0 then q
  else match 2 * r ?= P with
       | Lt => q
       | Eq => if Z.even q then q else q + 1
       | Gt => q + 1
       end.

Lemma rne_bounds (P m : Z) : 0 < P -> m / P <= rne P m <= m / P + 1.
Proof.
  intros HP. unfold rne.
  destruct (m mod P =? 0); [lia|].
  destruct (2 * (m mod P) ?= P); try lia.
  destruct (Z.even (m / P)); lia.
Qed.

Lemma rne_exact (P q : Z) : 0 < P -> rne P (q * P) = q.
Proof.
  intros HP. unfold rne. rewrite Z.mod_mul, Z.div_mul by lia. reflexivity.
Qed.

Lemma rne_mono (P m m' : Z) : 0 < P -> m <= m' -> rne P m <= rne P m'.
Proof.
  intros HP Hle.
  pose proof (Z.div_le_mono m m' P HP Hle) as Hq.
  pose proof (rne_bounds P m HP) as B. pose proof (rne_bounds P m' HP) as B'.
  destruct (Z.eq_dec (m / P) (m' / P)) as [E|NE]; [|lia].
  assert (Hr : m mod P <= m' mod P).
  { pose proof (Z.div_mod m P ltac:(lia)). pose proof (Z.div_mod m' P ltac:(lia)). nia. }
  pose proof (Z.mod_pos_bound m P HP). pose proof (Z.mod_pos_bound m' P HP).
  unfold rne. rewrite <- E.
  destruct (Z.eqb_spec (m mod P) 0), (Z.eqb_spec (m' mod P) 0); try lia.
  - destruct (Z.compare_spec (2 * (m' mod P)) P); try lia.
    destruct (Z.even (m / P)); lia.
  - destruct (Z.compare_spec (2 * (m mod P)) P), (Z.compare_spec (2 * (m' mod P)) P);
      try lia; destruct (Z.even (m / P)); lia.
Qed.

(** Scaling the grid and the number together changes nothing. *)
Lemma rne_scale (P m c : Z) : 0 < P -> 0 < c -> rne (P * c) (m * c) = rne P m.
Proof.
  intros HP Hc. unfold rne.
  rewrite Z.div_mul_cancel_r by lia.
  rewrite Z.mul_mod_distr_r by lia.
  assert (E0 : (m mod P * c =? 0) = (m mod P =? 0)).
  { destruct (Z.eqb_spec (m mod P) 0) as [->|]; [reflexivity|].
    apply Z.eqb_neq. nia. }
  rewrite E0. destruct (m mod P =? 0); [reflexivity|].
  destruct (Z.compare_spec (2 * (m mod P * c)) (P * c)),
           (Z.compare_spec (2 * (m mod P)) P); try reflexivity; nia.
Qed.


(** *** What the shifts of [binary_round_aux] compute *)

Lemma iter_pos_nat {A : Type} (f : A -> A) (p : positive) (x : A) :
  SpecFloat.iter_pos f p x = Nat.iter (Pos.to_nat p) f x.
Proof.
  revert x. induction p as [p IH|p IH|]; intros x; simpl SpecFloat.iter_pos.
  - rewrite !IH, Pos2Nat.inj_xI.
    replace (S (2 * Pos.to_nat p)) with (Pos.to_nat p + (Pos.to_nat p + 1))%nat by lia.
    rewrite !Nat.iter_add. reflexivity.
  - rewrite !IH, Pos2Nat.inj_xO.
    replace (2 * Pos.to_nat p)%nat with (Pos.to_nat p + Pos.to_nat p)%nat by lia.
    rewrite Nat.iter_add. reflexivity.
  - reflexivity.
Qed.

(** The record after shifting [m] right: quotient, and the position of the
    remainder [rem] relative to half of the divisor [P]. *)
Definition shifted (P m : Z) (mrs : shr_record) : Prop :=
  exists rem,
    m = shr_m mrs * P + rem /\ 0 <= rem < P /\ 0 <= shr_m mrs /\
    (shr_r mrs = true <-> P <= 2 * rem) /\
    (shr_s mrs = true <-> rem <> 0 /\ 2 * rem <> P).

Lemma shifted_start (m : Z) :
  0 <= m -> shifted 1 m {| shr_m := m; shr_r := false; shr_s := false |}.
Proof.
  intros Hm. exists 0. simpl. repeat split; try lia; try discriminate.
Qed.

Lemma shifted_step (P m : Z) (mrs : shr_record) :
  0 < P -> shifted P m mrs -> shifted (2 * P) m (shr_1 mrs).
Proof.
  intros HP (rem & Hm & Hrem & Hq & Hr & Hs).
  destruct mrs as [q r s]. cbn [shr_m shr_r shr_s] in *.
  assert (Hrs : orb r s = true <-> rem <> 0).
  { rewrite orb_true_iff, Hr, Hs. lia. }
  destruct q as [|p|p]; [| |lia].
  - exists rem. cbn [shr_m shr_r shr_s shr_1].
    split; [lia|]. split; [lia|]. split; [lia|]. split.
    + split; [discriminate|intros; exfalso; lia].
    + rewrite Hrs. lia.
  - destruct p as [p|p|]; cbn [shr_1].
    + exists (P + rem). cbn [shr_m shr_r shr_s].
      split; [lia|]. split; [lia|]. split; [lia|]. split.
      * split; [intros _; lia|reflexivity].
      * rewrite Hrs. lia.
    + exists rem. cbn [shr_m shr_r shr_s].
      split; [lia|]. split; [lia|]. split; [lia|]. split.
      * split; [discriminate|intros; exfalso; lia].
      * rewrite Hrs. lia.
    + exists (P + rem). cbn [shr_m shr_r shr_s].
      split; [lia|]. split; [lia|]. split; [lia|]. split.
      * split; [intros _; lia|reflexivity].
      * rewrite Hrs. lia.
Qed.

Lemma shifted_iter (k : nat) (m : Z) :
  0 <= m ->
  shifted (2 ^ Z.of_nat k) m
    (Nat.iter k shr_1 {| shr_m := m; shr_r := false; shr_s := false |}).
Proof.
  intros Hm. induction k as [|k IH].
  - apply shifted_start, Hm.
  - rewrite Nat2Z.inj_succ, Z.pow_succ_r by lia. simpl Nat.iter.
    apply shifted_step; [apply Z.pow_pos_nonneg; lia|exact IH].
Qed.

(** Rounding the shifted record is rounding to nearest even. *)
Lemma shifted_round (P m : Z) (mrs : shr_record) :
  0 < P -> shifted P m mrs ->
  round_nearest_even (shr_m mrs) (loc_of_shr_record mrs) = rne P m.
Proof.
  intros HP (rem & Hm & Hrem & Hq & Hr & Hs).
  assert (Hdiv : m / P = shr_m mrs) by (symmetry; apply Z.div_unique with rem; lia).
  assert (Hmod : m mod P = rem) by (symmetry; apply Z.mod_unique with (shr_m mrs); lia).
  unfold rne. rewrite Hdiv, Hmod.
  destruct mrs as [q r s]. cbn [shr_m shr_r shr_s loc_of_shr_record] in *.
  destruct (Z.eqb_spec rem 0) as [E0|N0].
  - assert (r = false) by (destruct r; [|reflexivity]; lia).
    assert (s = false) by (destruct s; [|reflexivity]; lia).
    subst. reflexivity.
  - destruct (Z.compare_spec (2 * rem) P) as [E|L|G].
    + assert (r = true) by (apply Hr; lia).
      assert (s = false) by (destruct s; [|reflexivity]; lia).
      subst r s. simpl. destruct (Z.even q); lia.
    + assert (r = false) by (destruct r; [|reflexivity]; lia).
      assert (s = true) by (apply Hs; lia).
      subst r s. reflexivity.
    + assert (r = true) by (apply Hr; lia).
      assert (s = true) by (apply Hs; lia).
      subst r s. reflexivity.
Qed.


(** *** The result of [binary_round_aux] *)

Abbreviation fexp := (SpecFloat.fexp prec emax).

Lemma digits2_pos_unique (p : positive) (d : Z) :
  2 ^ (d - 1) <= Zpos p < 2 ^ d -> Zpos (digits2_pos p) = d.
Proof.
  intros [Hl Hu]. pose proof (digits2_pos_bounds p) as [Bl Bu].
  assert (0 < d).
  { destruct (Z.lt_ge_cases 0 d); [assumption|].
    assert (2 ^ d <= 2 ^ 0) by (destruct (Z.eq_dec d 0) as [->|]; [lia|];
      rewrite Z.pow_neg_r by lia; simpl; lia).
    simpl in *. lia. }
  destruct (Z.lt_trichotomy (Zpos (digits2_pos p)) d) as [Hlt|[E|Hgt]]; [|assumption|].
  - assert (2 ^ Zpos (digits2_pos p) <= 2 ^ (d - 1)) by (apply Z.pow_le_mono_r; lia). lia.
  - assert (2 ^ d <= 2 ^ (Zpos (digits2_pos p) - 1)) by (apply Z.pow_le_mono_r; lia). lia.
Qed.

Lemma digits2_pos_mono (p q : positive) :
  (p <= q)%positive -> Zpos (digits2_pos p) <= Zpos (digits2_pos q).
Proof.
  intros Hle. pose proof (digits2_pos_bounds p) as [Bl _].
  pose proof (digits2_pos_bounds q) as [_ Bu].
  destruct (Z.le_gt_cases (Zpos (digits2_pos p)) (Zpos (digits2_pos q))); [assumption|].
  assert (2 ^ Zpos (digits2_pos q) <= 2 ^ (Zpos (digits2_pos p) - 1))
    by (apply Z.pow_le_mono_r; lia).
  lia.
Qed.

Lemma shr_fexp_rne (m e : Z) :
  0 < m -> 0 <= fexp (Zdigits2 m + e) - e ->
  snd (shr_fexp prec emax m e loc_Exact) = fexp (Zdigits2 m + e) /\
  round_nearest_even (shr_m (fst (shr_fexp prec emax m e loc_Exact)))
    (loc_of_shr_record (fst (shr_fexp prec emax m e loc_Exact)))
  = rne (2 ^ (fexp (Zdigits2 m + e) - e)) m.
Proof.
  intros Hm Hn. unfold shr_fexp, shr.
  destruct (fexp (Zdigits2 m + e) - e) as [|n|n] eqn:En; try lia; simpl fst; simpl snd.
  - split; [lia|]. simpl. rewrite <- (Z.mul_1_r m) at 2. now rewrite rne_exact.
  - split; [lia|]. rewrite iter_pos_nat.
    rewrite <- (positive_nat_Z n).
    apply shifted_round; [apply Z.pow_pos_nonneg; lia|].
    apply shifted_iter. lia.
Qed.

(** The grid exponent [F], the rounded mantissa [q], and the number
    [binary_round_aux] builds from them. *)
Definition build (s : bool) (q F : Z) : spec_float :=
  match q with
  | Zpos p =>
      if q <? 2 ^ prec then
        if F <=? emax - prec then S754_finite s p F else S754_infinity s
      else
        if F + 1 <=? emax - prec then S754_finite s (Z.to_pos (2 ^ (prec - 1))) (F + 1)
        else S754_infinity s
  | _ => S754_zero s
  end.

Lemma binary_round_aux_build (s : bool) (m e : Z) :
  0 < m -> 0 <= fexp (Zdigits2 m + e) - e ->
  binary_round_aux prec emax s m e loc_Exact =
  build s (rne (2 ^ (fexp (Zdigits2 m + e) - e)) m) (fexp (Zdigits2 m + e)).
Proof.
  intros Hm Hn. unfold binary_round_aux.
  pose proof (shr_fexp_rne m e Hm Hn) as [He' Hq].
  destruct (shr_fexp prec emax m e loc_Exact) as [mrs' e']. simpl in He', Hq.
  rewrite Hq, He'. clear Hq He' mrs' e'.
  set (F := fexp (Zdigits2 m + e)) in *.
  set (q := rne (2 ^ (F - e)) m).
  assert (HF : emin <= F) by (unfold F, SpecFloat.fexp; lia).
  assert (Hq : 0 <= q <= 2 ^ prec).
  { pose proof (rne_bounds (2 ^ (F - e)) m ltac:(apply Z.pow_pos_nonneg; lia)) as [B1 B2].
    fold q in B1, B2.
    assert (0 <= m / 2 ^ (F - e)) by (apply Z.div_pos; [lia|apply Z.pow_pos_nonneg; lia]).
    split; [lia|].
    assert (m / 2 ^ (F - e) < 2 ^ prec); [|lia].
    apply Z.div_lt_upper_bound; [apply Z.pow_pos_nonneg; lia|].
    rewrite <- Z.pow_add_r by (unfold prec; lia).
    destruct m as [|p|p]; try lia.
    pose proof (digits2_pos_bounds p) as [_ Bu].
    apply Z.lt_le_trans with (2 ^ Zpos (digits2_pos p)); [assumption|].
    apply Z.pow_le_mono_r; [lia|].
    unfold F, SpecFloat.fexp, Zdigits2. lia. }
  unfold build, shr_fexp, shr.
  destruct q as [|p|p] eqn:Eq; [| |lia].
  - simpl Zdigits2.
    destruct (fexp (0 + F) - F) as [|n|n] eqn:En; try reflexivity.
    unfold SpecFloat.fexp, SpecFloat.emin, prec, emax in *. lia.
  - destruct (Z.ltb_spec (Zpos p) (2 ^ prec)) as [Hlt|Hge].
    + assert (Hd : Zpos (digits2_pos p) <= prec) by (apply digits2_pos_le; assumption).
      destruct (fexp (Zdigits2 (Zpos p) + F) - F) as [|n|n] eqn:En; try reflexivity.
      unfold SpecFloat.fexp, SpecFloat.emin, Zdigits2, prec, emax in *. lia.
    + assert (Ep : Zpos p = 2 ^ prec) by lia.
      assert (Hd : Zpos (digits2_pos p) = prec + 1).
      { apply digits2_pos_unique. rewrite Ep.
        replace (prec + 1 - 1) with prec by lia. split; [lia|].
        apply Z.pow_lt_mono_r; unfold prec; lia. }
      assert (En : fexp (Zdigits2 (Zpos p) + F) - F = 1).
      { unfold SpecFloat.fexp, Zdigits2. rewrite Hd.
        unfold SpecFloat.emin, prec, emax in *. lia. }
      rewrite En. injection Ep as ->. reflexivity.
Qed.


(** *** Values on a fixed grid, and rounding as a function of the value *)

(** A number that is zero or positive and finite. *)
Definition nonneg (x : spec_float) : Prop :=
  match x with
  | S754_zero _ | S754_finite false _ _ => True
  | _ => False
  end.

(** The value of such a number, in units of [2 ^ E0]. *)
Definition SFval (E0 : Z) (x : spec_float) : Z :=
  match x with
  | S754_finite _ m e => Zpos m * 2 ^ (e - E0)
  | _ => 0
  end.

(** The double nearest to [N * 2 ^ E0], in the same units. *)
Definition RN (E0 N : Z) : Z :=
  if N =? 0 then 0
  else
    let F := fexp (Zdigits2 N + E0) in
    rne (2 ^ (F - E0)) N * 2 ^ (F - E0).

Lemma Zdigits2_shift (m k : Z) :
  0 < m -> 0 <= k -> Zdigits2 (m * 2 ^ k) = Zdigits2 m + k.
Proof.
  intros Hm Hk. destruct m as [|p|p]; try lia.
  assert (Hpos : 0 < Zpos p * 2 ^ k) by (apply Z.mul_pos_pos; [lia|apply Z.pow_pos_nonneg; lia]).
  destruct (Zpos p * 2 ^ k) as [|q|q] eqn:E; try lia.
  unfold Zdigits2. apply digits2_pos_unique. rewrite <- E.
  pose proof (digits2_pos_bounds p) as [Bl Bu].
  replace (Zpos (digits2_pos p) + k - 1) with (Zpos (digits2_pos p) - 1 + k) by lia.
  pose proof (Pos2Z.is_pos (digits2_pos p)).
  rewrite !Z.pow_add_r by lia.
  split.
  - apply Z.mul_le_mono_nonneg_r; [apply Z.pow_nonneg; lia|assumption].
  - apply Z.mul_lt_mono_pos_r; [apply Z.pow_pos_nonneg; lia|assumption].
Qed.

Lemma Zdigits2_mono (m m' : Z) : 0 < m <= m' -> Zdigits2 m <= Zdigits2 m'.
Proof.
  intros [Hm Hle]. destruct m as [|p|p], m' as [|q|q]; try lia.
  apply digits2_pos_mono. lia.
Qed.

Lemma build_value (E0 q F : Z) :
  E0 <= F -> F + 1 <= emax - prec -> 0 <= q <= 2 ^ prec ->
  nonneg (build false q F) /\ SFval E0 (build false q F) = q * 2 ^ (F - E0).
Proof.
  intros HE HF Hq. unfold build.
  destruct q as [|p|p]; [simpl; split; [exact I|lia]| |lia].
  destruct (Z.ltb_spec (Zpos p) (2 ^ prec)).
  - replace (F <=? emax - prec) with true by (symmetry; apply Z.leb_le; lia).
    simpl. split; [exact I|reflexivity].
  - replace (F + 1 <=? emax - prec) with true by (symmetry; apply Z.leb_le; lia).
    split; [exact I|]. unfold SFval.
    assert (Ep : Zpos p = 2 ^ prec) by lia. rewrite Ep.
    rewrite Z2Pos.id by (apply Z.pow_pos_nonneg; unfold prec; lia).
    replace (F + 1 - E0) with (1 + (F - E0)) by lia.
    rewrite Z.pow_add_r by lia.
    replace prec with (prec - 1 + 1) at 2 by lia.
    rewrite Z.pow_add_r by (unfold prec; lia). lia.
Qed.

Lemma rne_le_pow (P m : Z) : 0 < P -> 0 <= m -> 0 <= rne P m.
Proof.
  intros HP Hm. pose proof (rne_bounds P m HP) as [B _].
  assert (0 <= m / P) by (apply Z.div_pos; lia). lia.
Qed.

(** [binary_round_aux] computes [RN] of the value it is given. *)
Lemma binary_round_aux_value (E0 m e : Z) :
  0 < m -> 0 <= fexp (Zdigits2 m + e) - e -> E0 <= e ->
  fexp (Zdigits2 m + e) + 1 <= emax - prec ->
  nonneg (binary_round_aux prec emax false m e loc_Exact) /\
  SFval E0 (binary_round_aux prec emax false m e loc_Exact) = RN E0 (m * 2 ^ (e - E0)).
Proof.
  intros Hm Hn HE Hov.
  rewrite binary_round_aux_build by assumption.
  set (F := fexp (Zdigits2 m + e)) in *.
  assert (HP : 0 < 2 ^ (F - e)) by (apply Z.pow_pos_nonneg; lia).
  assert (Hs : 0 < 2 ^ (e - E0)) by (apply Z.pow_pos_nonneg; lia).
  assert (Hq : 0 <= rne (2 ^ (F - e)) m <= 2 ^ prec).
  { split; [apply rne_le_pow; lia|].
    pose proof (rne_bounds (2 ^ (F - e)) m HP) as [_ B2].
    assert (m / 2 ^ (F - e) < 2 ^ prec); [|lia].
    apply Z.div_lt_upper_bound; [assumption|].
    rewrite <- Z.pow_add_r by (unfold prec; lia).
    destruct m as [|p|p]; try lia.
    pose proof (digits2_pos_bounds p) as [_ Bu].
    apply Z.lt_le_trans with (2 ^ Zpos (digits2_pos p)); [assumption|].
    apply Z.pow_le_mono_r; [lia|].
    unfold F, SpecFloat.fexp, Zdigits2. lia. }
  destruct (build_value E0 (rne (2 ^ (F - e)) m) F ltac:(lia) Hov Hq) as [Hnn Hv].
  split; [assumption|]. rewrite Hv. unfold RN.
  assert (Hne : m * 2 ^ (e - E0) <> 0) by nia.
  apply Z.eqb_neq in Hne. rewrite Hne. cbv zeta.
  rewrite Zdigits2_shift by lia.
  replace (Zdigits2 m + (e - E0) + E0) with (Zdigits2 m + e) by lia. fold F.
  replace (F - E0) with ((F - e) + (e - E0)) by lia.
  rewrite Z.pow_add_r by lia.
  rewrite rne_scale by assumption. reflexivity.
Qed.

(** [RN] is monotone. *)
Lemma RN_mono (E0 N N' : Z) :
  E0 <= emin -> 0 <= N <= N' -> RN E0 N <= RN E0 N'.
Proof.
  intros HE [H0 Hle]. unfold RN.
  destruct (Z.eqb_spec N 0) as [->|Hn].
  - destruct (Z.eqb_spec N' 0); [lia|]. cbv zeta.
    apply Z.mul_nonneg_nonneg; [|apply Z.pow_nonneg; lia].
    apply rne_le_pow; [|lia].
    apply Z.pow_pos_nonneg; [lia|]. unfold SpecFloat.fexp. lia.
  - destruct (Z.eqb_spec N' 0); [lia|]. cbv zeta.
    set (d := Zdigits2 N). set (d' := Zdigits2 N').
    assert (Hd : d <= d') by (apply Zdigits2_mono; lia).
    set (F := fexp (d + E0)). set (F' := fexp (d' + E0)).
    assert (HF : F <= F') by (apply fexp_mono; lia).
    assert (HFE : E0 <= F) by (unfold F, SpecFloat.fexp; lia).
    assert (HP : 0 < 2 ^ (F - E0)) by (apply Z.pow_pos_nonneg; lia).
    assert (HP' : 0 < 2 ^ (F' - E0)) by (apply Z.pow_pos_nonneg; lia).
    destruct (Z.eq_dec F F') as [E|NE].
    + rewrite <- E. apply Z.mul_le_mono_nonneg_r; [lia|]. apply rne_mono; lia.
    + assert (HFlt : F < F') by lia.
      assert (Hdlt : d < d') by (destruct (Z.eq_dec d d'); [subst F F'; congruence|lia]).
      assert (HF' : F' = d' + E0 - prec) by (unfold F', F, SpecFloat.fexp in *; lia).
      destruct N as [|p|p], N' as [|p'|p']; try lia.
      pose proof (digits2_pos_bounds p) as [_ Bu].
      pose proof (digits2_pos_bounds p') as [Bl' _].
      fold (Zdigits2 (Zpos p)) in Bu. fold (Zdigits2 (Zpos p')) in Bl'.
      fold d in Bu. fold d' in Bl'.
      assert (Hd0 : 0 < d) by (unfold d; simpl; lia).
      (* the larger number is at least the power of two below it *)
      assert (Hlow : 2 ^ (d' - 1) <= rne (2 ^ (F' - E0)) (Zpos p') * 2 ^ (F' - E0)).
      { assert (Hx : 2 ^ (d' - 1) = 2 ^ (d' - 1 - (F' - E0)) * 2 ^ (F' - E0)).
        { rewrite <- Z.pow_add_r by (unfold prec in *; lia). f_equal. lia. }
        rewrite Hx at 1. apply Z.mul_le_mono_nonneg_r; [lia|].
        rewrite <- (rne_exact (2 ^ (F' - E0)) (2 ^ (d' - 1 - (F' - E0)))) by assumption.
        apply rne_mono; [assumption|]. rewrite <- Hx. assumption. }
      (* the smaller one at most the power of two above it, or one step *)
      assert (Hup : rne (2 ^ (F - E0)) (Zpos p) * 2 ^ (F - E0) <= 2 ^ (d' - 1)).
      { destruct (Z.le_gt_cases (F - E0) d) as [Hfd|Hfd].
        - assert (Hx : 2 ^ d = 2 ^ (d - (F - E0)) * 2 ^ (F - E0)).
          { rewrite <- Z.pow_add_r by lia. f_equal. lia. }
          apply Z.le_trans with (2 ^ d); [|apply Z.pow_le_mono_r; lia].
          rewrite Hx at 1. apply Z.mul_le_mono_nonneg_r; [lia|].
          rewrite <- (rne_exact (2 ^ (F - E0)) (2 ^ (d - (F - E0)))) by assumption.
          apply rne_mono; [assumption|]. rewrite <- Hx. lia.
        - assert (Hq : Zpos p / 2 ^ (F - E0) = 0).
          { apply Z.div_small. split; [lia|].
            apply Z.lt_le_trans with (2 ^ d); [assumption|].
            apply Z.pow_le_mono_r; lia. }
          pose proof (rne_bounds (2 ^ (F - E0)) (Zpos p) HP) as [_ B2].
          rewrite Hq in B2.
          apply Z.le_trans with (1 * 2 ^ (F - E0));
            [apply Z.mul_le_mono_nonneg_r; lia|].
          rewrite Z.mul_1_l. apply Z.pow_le_mono_r; [lia|].
          unfold prec in *. lia. }
      lia.
Qed.


(** *** Order and values *)

Lemma SFval_finite_pos (E0 : Z) (s : bool) (m : positive) (e : Z) :
  E0 <= e -> 0 < SFval E0 (S754_finite s m e).
Proof.
  intros HE. unfold SFval. apply Z.mul_pos_pos; [lia|apply Z.pow_pos_nonneg; lia].
Qed.

(** On numbers that are zero or positive the order is that of the values. *)
Lemma SFleb_value (E0 : Z) (x y : spec_float) :
  E0 <= emin -> valid_binary x = true -> valid_binary y = true ->
  nonneg x -> nonneg y ->
  SFleb x y = (SFval E0 x <=? SFval E0 y).
Proof.
  intros HE Vx Vy Nx Ny.
  destruct x as [sx|sx| |sx mx ex], y as [sy|sy| |sy my ey];
    try destruct Nx; try destruct Ny.
  - reflexivity.
  - destruct sy; [destruct Ny|]. simpl in Vy. apply bounded_exp in Vy as (L & _).
    pose proof (SFval_finite_pos E0 false my ey ltac:(lia)).
    unfold SFleb. simpl SFcompare. symmetry. apply Z.leb_le. unfold SFval in *. lia.
  - destruct sx; [destruct Nx|]. simpl in Vx. apply bounded_exp in Vx as (L & _).
    pose proof (SFval_finite_pos E0 false mx ex ltac:(lia)).
    unfold SFleb. simpl SFcompare. symmetry. apply Z.leb_gt. unfold SFval in *. lia.
  - destruct sx; [destruct Nx|]. destruct sy; [destruct Ny|].
    simpl in Vx, Vy. unfold SFleb.
    rewrite (SFcompare_aligned false false mx my ex ey Vx Vy).
    rewrite !shl_align_value by lia. unfold cond_Zopp.
    apply bounded_exp in Vx as (Lx & _), Vy as (Ly & _).
    unfold SFval.
    set (z := Z.min ex ey).
    assert (Hs : 0 < 2 ^ (z - E0)) by (apply Z.pow_pos_nonneg; lia).
    replace (ex - E0) with ((ex - z) + (z - E0)) by lia.
    replace (ey - E0) with ((ey - z) + (z - E0)) by lia.
    rewrite !Z.pow_add_r by lia. rewrite !Z.mul_assoc.
    set (a := Zpos mx * 2 ^ (ex - z)). set (b := Zpos my * 2 ^ (ey - z)).
    destruct (Z.compare_spec a b); symmetry;
      [apply Z.leb_le|apply Z.leb_le|apply Z.leb_gt]; nia.
Qed.

(** A double is its own rounding. *)
Lemma RN_canonical (E0 : Z) (x : spec_float) :
  E0 <= emin -> valid_binary x = true -> RN E0 (SFval E0 x) = SFval E0 x.
Proof.
  intros HE Vx. destruct x as [sx|sx| |sx mx ex]; try reflexivity.
  simpl in Vx. pose proof Vx as Vb. apply bounded_exp in Vx as (L & _).
  pose proof (SFval_finite_pos E0 sx mx ex ltac:(lia)) as Hpos.
  unfold RN. destruct (Z.eqb_spec (SFval E0 (S754_finite sx mx ex)) 0); [lia|].
  cbv zeta. unfold SFval in *.
  rewrite Zdigits2_shift by lia.
  replace (Zdigits2 (Zpos mx) + (ex - E0) + E0) with (Zpos (digits2_pos mx) + ex)
    by (unfold Zdigits2; lia).
  unfold SpecFloat.bounded, canonical_mantissa in Vb.
  apply andb_true_iff in Vb as [Vc _]. apply Z.eqb_eq in Vc. rewrite Vc.
  rewrite rne_exact by (apply Z.pow_pos_nonneg; lia). reflexivity.
Qed.


(** *** The operations compute [RN] of the exact result *)

Lemma scaled_lt_digits (E0 K e : Z) (p : positive) :
  E0 <= e -> Zpos p * 2 ^ (e - E0) < 2 ^ (K - E0) ->
  Zpos (digits2_pos p) + e <= K.
Proof.
  intros HE Hlt.
  assert (Hp : Zpos p < 2 ^ (K - e)).
  { destruct (Z.le_gt_cases e K) as [HK|HK].
    - replace (K - E0) with ((K - e) + (e - E0)) in Hlt by lia.
      rewrite Z.pow_add_r in Hlt by lia.
      assert (0 < 2 ^ (e - E0)) by (apply Z.pow_pos_nonneg; lia). nia.
    - exfalso.
      assert (2 ^ (K - E0) <= 2 ^ (e - E0)).
      { destruct (Z.le_gt_cases E0 K).
        - apply Z.pow_le_mono_r; lia.
        - rewrite (Z.pow_neg_r 2 (K - E0)) by lia. apply Z.pow_nonneg. lia. }
      assert (0 < 2 ^ (e - E0)) by (apply Z.pow_pos_nonneg; lia). nia. }
  pose proof (digits2_pos_le p (K - e) Hp). lia.
Qed.

Lemma binary_round_value (E0 K e : Z) (p : positive) :
  E0 <= emin -> emin <= e ->
  Zpos p * 2 ^ (e - E0) < 2 ^ (K - E0) -> fexp K + 1 <= emax - prec ->
  nonneg (binary_round prec emax false p e) /\
  SFval E0 (binary_round prec emax false p e) = RN E0 (Zpos p * 2 ^ (e - E0)).
Proof.
  intros HE He HK Hov. unfold binary_round.
  pose proof (scaled_lt_digits E0 K e p ltac:(lia) HK) as Hd.
  set (f := fexp (Zpos (digits2_pos p) + e)).
  assert (Hf : emin <= f) by (unfold f, SpecFloat.fexp; lia).
  assert (HfK : f <= fexp K) by (apply fexp_mono; lia).
  unfold shl_align.
  destruct (f - e) as [|d|d] eqn:Ed.
  - apply binary_round_aux_value; unfold Zdigits2; fold f; lia.
  - apply binary_round_aux_value; unfold Zdigits2; fold f; lia.
  - assert (Hz : Zpos (Pos.iter xO p d) = Zpos p * 2 ^ Zpos d) by apply iter_xO_value.
    assert (Hdig : Zdigits2 (Zpos (Pos.iter xO p d)) + f = Zpos (digits2_pos p) + e).
    { rewrite Hz, Zdigits2_shift by lia. unfold Zdigits2. lia. }
    replace (Zpos p * 2 ^ (e - E0)) with (Zpos (Pos.iter xO p d) * 2 ^ (f - E0)).
    + apply binary_round_aux_value; rewrite ?Hdig; fold f; lia.
    + rewrite Hz. replace (e - E0) with (Zpos d + (f - E0)) by lia.
      rewrite Z.pow_add_r by lia. lia.
Qed.

(** Addition. *)
Lemma SFadd_value (E0 K : Z) (x y : spec_float) :
  E0 <= emin -> valid_binary x = true -> valid_binary y = true ->
  nonneg x -> nonneg y ->
  SFval E0 x + SFval E0 y < 2 ^ (K - E0) -> fexp K + 1 <= emax - prec ->
  nonneg (SF64add x y) /\
  SFval E0 (SF64add x y) = RN E0 (SFval E0 x + SFval E0 y).
Proof.
  intros HE Vx Vy Nx Ny HK Hov. unfold SF64add.
  destruct x as [sx|sx| |sx mx ex], y as [sy|sy| |sy my ey];
    try destruct Nx; try destruct Ny.
  - destruct sx, sy; simpl; auto.
  - destruct sy; [destruct Ny|]. split; [exact I|].
    change (SFadd prec emax (S754_zero sx) (S754_finite false my ey))
      with (S754_finite false my ey).
    change (SFval E0 (S754_zero sx)) with 0. rewrite Z.add_0_l.
    symmetry. now apply RN_canonical.
  - destruct sx; [destruct Nx|]. split; [exact I|].
    change (SFadd prec emax (S754_finite false mx ex) (S754_zero sy))
      with (S754_finite false mx ex).
    change (SFval E0 (S754_zero sy)) with 0. rewrite Z.add_0_r.
    symmetry. now apply RN_canonical.
  - destruct sx; [destruct Nx|]. destruct sy; [destruct Ny|].
    simpl in Vx, Vy. apply bounded_exp in Vx as (Lx & _), Vy as (Ly & _).
    unfold SFadd. cbv zeta. unfold cond_Zopp.
    rewrite !shl_align_value by lia.
    set (z := Z.min ex ey).
    assert (Ha : 0 < Zpos mx * 2 ^ (ex - z))
      by (apply Z.mul_pos_pos; [lia|apply Z.pow_pos_nonneg; lia]).
    assert (Hb : 0 < Zpos my * 2 ^ (ey - z))
      by (apply Z.mul_pos_pos; [lia|apply Z.pow_pos_nonneg; lia]).
    assert (Hsum : SFval E0 (S754_finite false mx ex) + SFval E0 (S754_finite false my ey)
                   = (Zpos mx * 2 ^ (ex - z) + Zpos my * 2 ^ (ey - z)) * 2 ^ (z - E0)).
    { unfold SFval.
      replace (ex - E0) with ((ex - z) + (z - E0)) by lia.
      replace (ey - E0) with ((ey - z) + (z - E0)) by lia.
      rewrite !Z.pow_add_r by lia. lia. }
    rewrite Hsum in *.
    destruct (Zpos mx * 2 ^ (ex - z) + Zpos my * 2 ^ (ey - z)) as [|p|p] eqn:Ep; try lia.
    unfold binary_normalize.
    apply binary_round_value with K; try assumption. lia.
Qed.


(** Subtraction of a smaller number. *)
Lemma SFsub_value (E0 K : Z) (x y : spec_float) :
  E0 <= emin -> valid_binary x = true -> valid_binary y = true ->
  nonneg x -> nonneg y ->
  SFval E0 y <= SFval E0 x -> SFval E0 x < 2 ^ (K - E0) ->
  fexp K + 1 <= emax - prec ->
  nonneg (SF64sub x y) /\
  SFval E0 (SF64sub x y) = RN E0 (SFval E0 x - SFval E0 y).
Proof.
  intros HE Vx Vy Nx Ny Hle HK Hov. unfold SF64sub.
  destruct x as [sx|sx| |sx mx ex], y as [sy|sy| |sy my ey];
    try destruct Nx; try destruct Ny.
  - destruct sx, sy; simpl; auto.
  - destruct sy; [destruct Ny|]. exfalso.
    simpl in Vy. apply bounded_exp in Vy as (Ly & _).
    pose proof (SFval_finite_pos E0 false my ey ltac:(lia)).
    change (SFval E0 (S754_zero sx)) with 0 in Hle. lia.
  - destruct sx; [destruct Nx|]. split; [exact I|].
    change (SFsub prec emax (S754_finite false mx ex) (S754_zero sy))
      with (S754_finite false mx ex).
    change (SFval E0 (S754_zero sy)) with 0. rewrite Z.sub_0_r.
    symmetry. now apply RN_canonical.
  - destruct sx; [destruct Nx|]. destruct sy; [destruct Ny|].
    simpl in Vx, Vy. apply bounded_exp in Vx as (Lx & _), Vy as (Ly & _).
    unfold SFsub. cbv zeta. unfold cond_Zopp.
    rewrite !shl_align_value by lia.
    set (z := Z.min ex ey).
    assert (Hp : 0 < 2 ^ (z - E0)) by (apply Z.pow_pos_nonneg; lia).
    assert (Hx : SFval E0 (S754_finite false mx ex)
                 = Zpos mx * 2 ^ (ex - z) * 2 ^ (z - E0)).
    { unfold SFval. replace (ex - E0) with ((ex - z) + (z - E0)) by lia.
      rewrite Z.pow_add_r by lia. lia. }
    assert (Hy : SFval E0 (S754_finite false my ey)
                 = Zpos my * 2 ^ (ey - z) * 2 ^ (z - E0)).
    { unfold SFval. replace (ey - E0) with ((ey - z) + (z - E0)) by lia.
      rewrite Z.pow_add_r by lia. lia. }
    rewrite Hx, Hy in *.
    assert (Hy0 : 0 < Zpos my * 2 ^ (ey - z))
      by (apply Z.mul_pos_pos; [lia|apply Z.pow_pos_nonneg; lia]).
    rewrite <- Z.mul_sub_distr_r.
    destruct (Zpos mx * 2 ^ (ex - z) - Zpos my * 2 ^ (ey - z)) as [|p|p] eqn:Ep.
    + simpl. auto.
    + unfold binary_normalize.
      apply binary_round_value with K; try assumption; try lia.
    + exfalso. nia.
Qed.

Lemma SFval_rescale (E0 : Z) (x : spec_float) :
  E0 <= emin -> valid_binary x = true ->
  SFval E0 x = SFval emin x * 2 ^ (emin - E0).
Proof.
  intros HE Vx. destruct x as [sx|sx| |sx mx ex]; try reflexivity.
  simpl in Vx. apply bounded_exp in Vx as (L & _). unfold SFval.
  replace (ex - E0) with ((ex - emin) + (emin - E0)) by lia.
  rewrite Z.pow_add_r by lia. lia.
Qed.

(** Multiplication: the exact product of two doubles is a multiple of
    [2 ^ (2 * emin)]. *)
Lemma canonical_digits (m : positive) (e : Z) :
  SpecFloat.bounded prec emax m e = true ->
  e = emin \/ Zpos (digits2_pos m) = prec.
Proof.
  intros B. unfold SpecFloat.bounded, canonical_mantissa in B.
  apply andb_true_iff in B as (B & _). apply Z.eqb_eq in B.
  unfold SpecFloat.fexp, SpecFloat.emin, prec, emax in *. lia.
Qed.

Lemma digits2_pos_mul (a b : positive) :
  Zpos (digits2_pos a) + Zpos (digits2_pos b) - 1 <= Zpos (digits2_pos (a * b)).
Proof.
  pose proof (digits2_pos_bounds a) as (La & _).
  pose proof (digits2_pos_bounds b) as (Lb & _).
  pose proof (digits2_pos_bounds (a * b)) as (_ & U).
  assert (H : 2 ^ (Zpos (digits2_pos a) - 1 + (Zpos (digits2_pos b) - 1))
              < 2 ^ Zpos (digits2_pos (a * b))).
  { rewrite Z.pow_add_r by lia. rewrite Pos2Z.inj_mul in U. nia. }
  apply Z.pow_lt_mono_r_iff in H; lia.
Qed.

Lemma SFmul_value (K : Z) (x y : spec_float) :
  valid_binary x = true -> valid_binary y = true ->
  nonneg x -> nonneg y ->
  SFval emin x * SFval emin y < 2 ^ (K - 2 * emin) ->
  fexp K + 1 <= emax - prec ->
  nonneg (SF64mul x y) /\
  SFval (2 * emin) (SF64mul x y) = RN (2 * emin) (SFval emin x * SFval emin y).
Proof.
  intros Vx Vy Nx Ny HK Hov. unfold SF64mul.
  destruct x as [sx|sx| |sx mx ex], y as [sy|sy| |sy my ey];
    try destruct Nx; try destruct Ny.
  - simpl. auto.
  - simpl. auto.
  - cbn [SFmul SFval nonneg]. rewrite Z.mul_0_r. auto.
  - destruct sx; [destruct Nx|]. destruct sy; [destruct Ny|].
    simpl in Vx, Vy.
    pose proof (canonical_digits _ _ Vx) as Cx.
    pose proof (canonical_digits _ _ Vy) as Cy.
    apply bounded_exp in Vx as (Lx & _), Vy as (Ly & _).
    pose proof (digits2_pos_mul mx my) as Hd.
    assert (Hdx : 1 <= Zpos (digits2_pos mx)) by lia.
    assert (Hdy : 1 <= Zpos (digits2_pos my)) by lia.
    assert (Hval : SFval emin (S754_finite false mx ex) * SFval emin (S754_finite false my ey)
                   = Zpos (mx * my) * 2 ^ (ex + ey - 2 * emin)).
    { unfold SFval. replace (ex + ey - 2 * emin) with ((ex - emin) + (ey - emin)) by lia.
      rewrite Z.pow_add_r by lia. rewrite Pos2Z.inj_mul. lia. }
    rewrite Hval in *. unfold SFmul. cbn [xorb].
    assert (Hn : 0 <= fexp (Zdigits2 (Zpos (mx * my)) + (ex + ey)) - (ex + ey)).
    { unfold Zdigits2. unfold SpecFloat.fexp, SpecFloat.emin, prec, emax in *. lia. }
    apply binary_round_aux_value; try lia.
    pose proof (scaled_lt_digits (2 * emin) K (ex + ey) (mx * my) ltac:(lia) HK) as HdK.
    unfold Zdigits2.
    assert (fexp (Zpos (digits2_pos (mx * my)) + (ex + ey)) <= fexp K)
      by (apply fexp_mono; lia).
    lia.
Qed.


(** *** Intervals of doubles *)

(** A double in units of [2 ^ emin], the smallest positive double: every
    finite double is an integer number of them. *)
Definition units (x : float) : Z := SFval emin (Prim2SF x).

(** [upto a x]: [x] is a number with [0 <= x <= a]. *)
Definition upto (a x : float) : Prop :=
  nonneg (Prim2SF x) /\ units x <= units a.

Lemma SFval_nonneg (E0 : Z) (x : spec_float) : 0 <= SFval E0 x.
Proof.
  destruct x as [s|s| |s m e]; unfold SFval; lia.
Qed.

Lemma fexp_small : fexp 2 + 1 <= emax - prec.
Proof. vm_compute. discriminate. Qed.

Lemma upto_add (a b x y : float) :
  upto 1 a -> upto 1 b -> upto a x -> upto b y ->
  upto (a + b) (x + y).
Proof.
  unfold upto, units. rewrite !FloatAxioms.add_spec.
  intros (Na & Ha) (Nb & Hb) (Nx & Hx) (Ny & Hy).
  change (SFval emin (Prim2SF 1)) with (2 ^ 1074) in *.
  pose proof (SFval_nonneg emin (Prim2SF x)) as Px.
  pose proof (SFval_nonneg emin (Prim2SF y)) as Py.
  assert (Hp : 2 ^ 1074 + 2 ^ 1074 < 2 ^ (2 - emin)) by (vm_compute; reflexivity).
  assert (Hxy : SFval emin (Prim2SF x) + SFval emin (Prim2SF y) < 2 ^ (2 - emin)) by lia.
  assert (Hab : SFval emin (Prim2SF a) + SFval emin (Prim2SF b) < 2 ^ (2 - emin)) by lia.
  destruct (SFadd_value emin 2 (Prim2SF x) (Prim2SF y) (Z.le_refl _)
              (Prim2SF_valid x) (Prim2SF_valid y) Nx Ny Hxy fexp_small) as (N & V).
  destruct (SFadd_value emin 2 (Prim2SF a) (Prim2SF b) (Z.le_refl _)
              (Prim2SF_valid a) (Prim2SF_valid b) Na Nb Hab fexp_small) as (_ & V').
  split; [exact N|]. rewrite V, V'. apply RN_mono; [apply Z.le_refl|]. lia.
Qed.

Lemma two_emin_le : 2 * emin <= emin.
Proof. vm_compute. discriminate. Qed.

Lemma upto_mul (a b x y : float) :
  upto 1 a -> upto 1 b -> upto a x -> upto b y ->
  upto (a * b) (x * y).
Proof.
  unfold upto, units.
  intros (Na & Ha) (Nb & Hb) (Nx & Hx) (Ny & Hy).
  change (SFval emin (Prim2SF 1)) with (2 ^ 1074) in *.
  pose proof (SFval_nonneg emin (Prim2SF x)) as Px.
  pose proof (SFval_nonneg emin (Prim2SF y)) as Py.
  pose proof (SFval_nonneg emin (Prim2SF a)) as Pa.
  pose proof (SFval_nonneg emin (Prim2SF b)) as Pb.
  assert (Hp : 2 ^ 1074 * 2 ^ 1074 < 2 ^ (2 - 2 * emin)) by (vm_compute; reflexivity).
  assert (Hab : SFval emin (Prim2SF a) * SFval emin (Prim2SF b) < 2 ^ (2 - 2 * emin)).
  { eapply Z.le_lt_trans; [|exact Hp]. apply Z.mul_le_mono_nonneg; assumption. }
  assert (Hxy : SFval emin (Prim2SF x) * SFval emin (Prim2SF y)
                <= SFval emin (Prim2SF a) * SFval emin (Prim2SF b))
    by (apply Z.mul_le_mono_nonneg; assumption).
  destruct (SFmul_value 2 (Prim2SF x) (Prim2SF y)
              (Prim2SF_valid x) (Prim2SF_valid y) Nx Ny
              (Z.le_lt_trans _ _ _ Hxy Hab) fexp_small) as (N & V).
  destruct (SFmul_value 2 (Prim2SF a) (Prim2SF b)
              (Prim2SF_valid a) (Prim2SF_valid b) Na Nb Hab fexp_small) as (_ & V').
  rewrite <- !FloatAxioms.mul_spec in *.
  split; [exact N|].
  assert (Hm : SFval (2 * emin) (Prim2SF (x * y)) <= SFval (2 * emin) (Prim2SF (a * b))).
  { rewrite V, V'. apply RN_mono; [exact two_emin_le|]. split; [|exact Hxy].
    apply Z.mul_nonneg_nonneg; assumption. }
  rewrite !(SFval_rescale (2 * emin)) in Hm
    by (try apply Prim2SF_valid; exact two_emin_le).
  apply Z.mul_le_mono_pos_r in Hm; [exact Hm|].
  apply Z.pow_pos_nonneg; [reflexivity|]. vm_compute. discriminate.
Qed.

Lemma upto_one_minus (x : float) : upto 1 x -> upto 1 (1 - x).
Proof.
  unfold upto, units. rewrite !FloatAxioms.sub_spec.
  intros (Nx & Hx).
  pose proof (SFval_nonneg emin (Prim2SF x)) as Px.
  assert (H1 : SFval emin (Prim2SF 1) < 2 ^ (2 - emin)) by (vm_compute; reflexivity).
  destruct (SFsub_value emin 2 (Prim2SF 1) (Prim2SF x) (Z.le_refl _)
              (Prim2SF_valid 1) (Prim2SF_valid x) I Nx Hx H1 fexp_small) as (N & V).
  split; [exact N|]. rewrite V.
  rewrite <- (RN_canonical emin (Prim2SF 1) (Z.le_refl _) (Prim2SF_valid 1)) at 2.
  apply RN_mono; [apply Z.le_refl|].
  generalize dependent (SFval emin (Prim2SF 1)). intros; lia.
Qed.

Lemma upto_one_spec (x : float) :
  upto 1 x <->
  PrimFloat.ltb x 0 = false /\ PrimFloat.ltb 1 x = false /\ PrimFloat.eqb x x = true.
Proof.
  unfold upto, units.
  rewrite !FloatAxioms.ltb_spec, FloatAxioms.eqb_spec.
  pose proof (Prim2SF_valid x) as Vx.
  pose proof (SFleb_value emin (Prim2SF x) (Prim2SF 1) ltac:(lia) Vx (Prim2SF_valid 1)) as L.
  change (Prim2SF 0) with (S754_zero false).
  destruct (Prim2SF x) as [s|s| |s m e] eqn:E.
  - split; [intros _|intros _; split; [exact I|]].
    + destruct s; repeat split.
    + change (SFval emin (S754_zero s)) with 0. apply SFval_nonneg.
  - split; [intros ([] & _)|]. destruct s; intros (A & B & C); discriminate.
  - split; [intros ([] & _)|]. intros (A & B & C); discriminate.
  - destruct s.
    + split; [intros ([] & _)|]. intros (A & B & C). discriminate.
    + specialize (L I I). split.
      * intros (_ & Hle). apply Z.leb_le in Hle. rewrite <- L in Hle.
        split; [reflexivity|]. split; [now apply SFleb_ltb|].
        unfold SFeqb, SFcompare. now rewrite Z.compare_refl, Pos.compare_cont_refl.
      * intros (_ & B & _). split; [exact I|]. apply Z.leb_le. rewrite <- L.
        apply SFltb_leb_total; [discriminate|discriminate|exact B].
Qed.


Lemma upto_trans (a x : float) : upto a x -> upto 1 a -> upto 1 x.
Proof. unfold upto. intros (N & L) (_ & L'). split; [exact N|lia]. Qed.

Lemma upto_refl (c : float) : upto 1 c -> upto c c.
Proof. unfold upto. intros (N & _). split; [exact N|lia]. Qed.

Lemma upto_weighted (x c : float) :
  upto 1 x -> upto 1 c -> upto (1 * c) (x * c).
Proof.
  intros Hx Hc. apply upto_mul; try assumption.
  - split; [exact I|reflexivity].
  - now apply upto_refl.
Qed.

Ltac upto_constant := split; [exact I|vm_compute; discriminate].

(** A weighted sum of two numbers of [[0, 1]] whose weights add up to at
    most one, as doubles, lies in [[0, 1]]. *)
Lemma upto_sum2 (x y c1 c2 : float) :
  upto 1 c1 -> upto 1 c2 -> upto 1 (1 * c1) -> upto 1 (1 * c2) ->
  upto 1 (1 * c1 + 1 * c2) ->
  upto 1 x -> upto 1 y -> upto 1 (x * c1 + y * c2).
Proof.
  intros C1 C2 W1 W2 S Hx Hy.
  apply upto_trans with (1 * c1 + 1 * c2)%float; [|exact S].
  apply upto_add; try assumption; now apply upto_weighted.
Qed.

Lemma upto_sum3 (x y z c1 c2 c3 : float) :
  upto 1 c1 -> upto 1 c2 -> upto 1 c3 ->
  upto 1 (1 * c1) -> upto 1 (1 * c2) -> upto 1 (1 * c3) ->
  upto 1 (1 * c1 + 1 * c2) -> upto 1 (1 * c1 + 1 * c2 + 1 * c3) ->
  upto 1 x -> upto 1 y -> upto 1 z -> upto 1 (x * c1 + y * c2 + z * c3).
Proof.
  intros C1 C2 C3 W1 W2 W3 S2 S3 Hx Hy Hz.
  apply upto_trans with (1 * c1 + 1 * c2 + 1 * c3)%float; [|exact S3].
  apply upto_add; try assumption.
  - apply upto_add; try assumption; now apply upto_weighted.
  - now apply upto_weighted.
Qed.

End Rounding.

(** ** Signs of doubles

    The sign of the result of an operation, whatever its magnitude:
    overflow and [NaN] included. *)

Module Sign.
Import IEEE.
Local Open Scope Z_scope.

(** [not_negative x]: [x < 0] is false; [x] is [NaN], a zero of either sign,
    or positive.  [unsigned x]: moreover [x] is not [-0]. *)
Definition not_negative (x : spec_float) : Prop :=
  match x with
  | S754_infinity true | S754_finite true _ _ => False
  | _ => True
  end.

Definition unsigned (x : spec_float) : Prop :=
  match x with
  | S754_zero true | S754_infinity true | S754_finite true _ _ => False
  | _ => True
  end.

Lemma unsigned_not_negative (x : spec_float) : unsigned x -> not_negative x.
Proof. destruct x as [[]|[]| |[] m e]; simpl; auto. Qed.

Lemma not_negative_spec (x : spec_float) :
  not_negative x <-> SFltb x (S754_zero false) = false.
Proof.
  destruct x as [[]|[]| |[] m e]; simpl; split; intros; try discriminate;
    try reflexivity; try exact I; try contradiction.
Qed.

Lemma binary_round_aux_unsigned (m e : Z) (l : location) :
  unsigned (binary_round_aux prec emax false m e l).
Proof.
  unfold binary_round_aux.
  destruct (shr_fexp prec emax m e l) as [mrs' e'].
  destruct (shr_fexp prec emax _ e' loc_Exact) as [mrs'' e''].
  destruct (shr_m mrs'') as [|q|q]; try exact I.
  destruct (e'' <=? emax - prec); exact I.
Qed.

Lemma binary_round_unsigned (m : positive) (e : Z) :
  unsigned (binary_round prec emax false m e).
Proof.
  unfold binary_round.
  destruct (shl_align m e _) as [mz ez]. apply binary_round_aux_unsigned.
Qed.

Lemma SFadd_not_negative (x y : spec_float) :
  not_negative x -> not_negative y -> not_negative (SF64add x y).
Proof.
  unfold SF64add.
  destruct x as [[]|[]| |[] mx ex], y as [[]|[]| |[] my ey];
    simpl; intros Hx Hy; try exact I; try contradiction.
  unfold binary_normalize.
  destruct (Zpos (fst (shl_align mx ex (Z.min ex ey)))
            + Zpos (fst (shl_align my ey (Z.min ex ey)))) as [|p|p] eqn:E;
    try lia.
  apply unsigned_not_negative, binary_round_unsigned.
Qed.

Lemma SFmul_not_negative (x y : spec_float) :
  not_negative x -> not_negative y -> not_negative (SF64mul x y).
Proof.
  unfold SF64mul.
  destruct x as [[]|[]| |[] mx ex], y as [[]|[]| |[] my ey];
    simpl; intros Hx Hy; try exact I; try contradiction.
  apply unsigned_not_negative, binary_round_aux_unsigned.
Qed.

Lemma SFmul_unsigned (x y : spec_float) :
  unsigned x -> unsigned y -> unsigned (SF64mul x y).
Proof.
  unfold SF64mul.
  destruct x as [[]|[]| |[] mx ex], y as [[]|[]| |[] my ey];
    simpl; intros Hx Hy; try exact I; try contradiction.
  apply binary_round_aux_unsigned.
Qed.

(** A root that is not zero has no sign. *)
Lemma SFsqrt_unsigned (x : spec_float) :
  SFeqb (SF64sqrt x) (S754_zero false) = false -> unsigned (SF64sqrt x).
Proof.
  unfold SF64sqrt.
  destruct x as [[]|[]| |[] mx ex]; simpl; intros Hz; try exact I;
    try discriminate.
  destruct (SFsqrt_core_binary prec emax (Zpos mx) ex) as [[mz ez] lz].
  apply binary_round_aux_unsigned.
Qed.

Lemma SFdiv_not_negative (x y : spec_float) :
  not_negative x -> unsigned y -> not_negative (SF64div x y).
Proof.
  unfold SF64div.
  destruct x as [[]|[]| |[] mx ex], y as [[]|[]| |[] my ey];
    simpl; intros Hx Hy; try exact I; try contradiction.
  destruct (SFdiv_core_binary prec emax (Zpos mx) ex (Zpos my) ey) as [[mz ez] lz].
  apply unsigned_not_negative, binary_round_aux_unsigned.
Qed.

End Sign.

(** ** The order of numbers

    What the proofs about sorting and maxima use of [<], [===] and of the
    comparator [b - a]; [x === x] says that [x] is not [NaN]. *)

Class NumberOrder (num : Type) `{Number num} : Prop := {
  ltb_irrefl : forall x : num, (x <? x)%num = false;
  ltb_trans : forall x y z : num,
    (x <? y)%num = true -> (y <? z)%num = true -> (x <? z)%num = true;
  ltb_negtrans : forall x y z : num,
    (y === y)%num = true ->
    (x <? y)%num = false -> (y <? z)%num = false -> (x <? z)%num = false;
  ltb_total : forall x y : num,
    (x === x)%num = true -> (y === y)%num = true ->
    (x <? y)%num = false -> (y <? x)%num = false -> (x === y)%num = true;
  eqb_sym : forall x y : num, (x === y)%num = (y === x)%num;
  eqb_trans : forall x y z : num,
    (x === y)%num = true -> (y === z)%num = true -> (x === z)%num = true;
  ltb_eqb_l : forall x y z : num,
    (x === y)%num = true -> (x <? z)%num = (y <? z)%num;
  ltb_eqb_r : forall x y z : num,
    (y === z)%num = true -> (x <? y)%num = (x <? z)%num;
  sub_ltb_zero : forall x y : num, (x - y <? lit 0)%num = (x <? y)%num
}.

#[export] Instance NumberOrder_double : NumberOrder float.
Proof.
  split; simpl; intros *;
    rewrite ?IEEE.sub_ltb_zero, ?FloatAxioms.ltb_spec, ?FloatAxioms.eqb_spec;
    try reflexivity.
  - apply IEEE.SFltb_irrefl.
  - apply IEEE.SFltb_trans.
  - destruct (Prim2SF x), (Prim2SF y), (Prim2SF z); IEEE.sf_order.
  - destruct (Prim2SF x), (Prim2SF y); IEEE.sf_order.
  - destruct (Prim2SF x), (Prim2SF y); IEEE.sf_order.
  - destruct (Prim2SF x), (Prim2SF y), (Prim2SF z); IEEE.sf_order.
  - destruct (Prim2SF x), (Prim2SF y), (Prim2SF z); IEEE.sf_order.
  - destruct (Prim2SF x), (Prim2SF y), (Prim2SF z); IEEE.sf_order.
Qed.

#[export] Instance NumberOrder_real : NumberOrder R.
Proof.
  split; simpl; intros *;
    repeat match goal with
           | |- context [Rlt_dec ?a ?b] => destruct (Rlt_dec a b)
           | |- context [Req_dec_T ?a ?b] => destruct (Req_dec_T a b)
           end;
    intros; try reflexivity; try discriminate; unfold Q2R in *; simpl in *; lra.
Qed.

(** ** [Set] and [Map] *)

Lemma Set_has_In (s : JsSet) (x : string) : Set_has s x = true <-> In x s.
Proof.
  unfold Set_has. rewrite existsb_exists. split.
  - intros (y & Hy & E). apply String.eqb_eq in E. now subst.
  - intros Hx. exists x. split; [assumption|apply String.eqb_refl].
Qed.

Lemma Set_has_not_In (s : JsSet) (x : string) : Set_has s x = false <-> ~ In x s.
Proof.
  rewrite <- Set_has_In. destruct (Set_has s x); split; intros; congruence.
Qed.

Lemma Set_add_In (s : JsSet) (x y : string) :
  In y (Set_add s x) <-> In y s \/ y = x.
Proof.
  unfold Set_add. destruct (Set_has s x) eqn:E.
  - apply Set_has_In in E. split; [tauto|]. intros [Hy| ->]; assumption.
  - rewrite in_app_iff. simpl. intuition.
Qed.

Lemma Set_add_NoDup (s : JsSet) (x : string) : NoDup s -> NoDup (Set_add s x).
Proof.
  intros Hs. unfold Set_add. destruct (Set_has s x) eqn:E; [assumption|].
  apply Set_has_not_In in E.
  apply NoDup_app; [assumption|repeat constructor; simpl; tauto|].
  intros a Ha [<-|[]]. contradiction.
Qed.

Lemma Set_add_fresh (s : JsSet) (x : string) :
  ~ In x s -> Set_add s x = s ++ [x].
Proof.
  intros Hx. unfold Set_add. apply Set_has_not_In in Hx. now rewrite Hx.
Qed.

Lemma fold_Set_add_In (l : list string) (acc : JsSet) (y : string) :
  In y (fold_left Set_add l acc) <-> In y acc \/ In y l.
Proof.
  revert acc. induction l as [|x l IH]; intros acc; simpl; [tauto|].
  rewrite IH, Set_add_In. intuition.
Qed.

Lemma fold_Set_add_NoDup (l : list string) (acc : JsSet) :
  NoDup acc -> NoDup (fold_left Set_add l acc).
Proof.
  revert acc. induction l as [|x l IH]; intros acc Hacc; simpl; [assumption|].
  apply IH, Set_add_NoDup, Hacc.
Qed.

Lemma fold_Set_add_fresh (l : list string) (acc : JsSet) :
  NoDup (acc ++ l) -> fold_left Set_add l acc = acc ++ l.
Proof.
  revert acc. induction l as [|x l IH]; intros acc Hnd; simpl.
  - now rewrite app_nil_r.
  - rewrite Set_add_fresh.
    + rewrite IH; rewrite <- app_assoc; simpl; [reflexivity|assumption].
    + apply NoDup_remove_2 in Hnd. rewrite in_app_iff in Hnd. tauto.
Qed.

Lemma Set_of_In (l : list string) (y : string) : In y (Set_of l) <-> In y l.
Proof. unfold Set_of. rewrite fold_Set_add_In. simpl. tauto. Qed.

Lemma Set_of_NoDup (l : list string) : NoDup (Set_of l).
Proof. apply fold_Set_add_NoDup. constructor. Qed.

Lemma Set_of_fresh (l : list string) : NoDup l -> Set_of l = l.
Proof. intros Hl. unfold Set_of. now rewrite fold_Set_add_fresh. Qed.

Lemma Set_of_nil_iff (l : list string) : Set_of l = [] <-> l = [].
Proof.
  split; [|intros ->; reflexivity].
  intros E. destruct l as [|x l]; [reflexivity|].
  assert (Hx : In x (Set_of (x :: l))) by (apply Set_of_In; now left).
  rewrite E in Hx. destruct Hx.
Qed.

Lemma Map_set_fresh {V} (m : JsMap V) (k : string) (v : V) :
  ~ In k (map fst m) -> Map_set m k v = m ++ [(k, v)].
Proof.
  induction m as [|[k' v'] m IH]; simpl; intros Hk; [reflexivity|].
  destruct (String.eqb k k') eqn:E.
  - apply String.eqb_eq in E. subst. tauto.
  - rewrite IH by tauto. reflexivity.
Qed.

(** ** [Array.prototype.sort] rearranges *)

Section SortPermutation.

Context {num : Type} `{Number num} {A : Type}.
Variable comparefn : A -> A -> num.

Lemma sort_insert_perm (x : A) (l : list A) :
  Permutation (sort_insert comparefn x l) (x :: l).
Proof.
  induction l as [|y l IH]; simpl; [reflexivity|].
  destruct (ltb (comparefn y x) (lit 0)); [|reflexivity].
  rewrite IH. apply perm_swap.
Qed.

Lemma Array_sort_perm (l : list A) : Permutation (Array_sort comparefn l) l.
Proof.
  induction l as [|x l IH]; simpl; [reflexivity|].
  rewrite sort_insert_perm. now constructor.
Qed.

Lemma Array_sort_In (l : list A) (x : A) : In x (Array_sort comparefn l) <-> In x l.
Proof.
  split; apply Permutation_in; [|symmetry]; apply Array_sort_perm.
Qed.

Lemma Array_sort_length (l : list A) :
  List.length (Array_sort comparefn l) = List.length l.
Proof. apply Permutation_length, Array_sort_perm. Qed.

End SortPermutation.

(** ** The greedy loop of [matchAllBooksUniquely] *)

Section GreedyLoop.

Context {num : Type} `{Number num}.

Definition pair_book_id (p : ScoredPair num) : string := book_id (pair_book p).
Definition pair_song_id (p : ScoredPair num) : string := song_id (pair_song p).
Definition entry_song_id (e : string * MatchResult num) : string :=
  song_id (song (snd e)).

(** A pair whose result is the score of its own book and song. *)
Definition scored (p : ScoredPair num) : Prop :=
  result p = getMatchResultForSong (pair_book p) (pair_song p).

(** What the loop maintains while it walks pairs drawn from [universe]: the
    map's keys are the assigned books and its songs the used songs, in the
    order they were committed and none twice, and every entry is a pair
    of [universe] with its result. *)
Record greedy_inv (universe : list (ScoredPair num)) (st : Greedy num) : Prop := {
  inv_keys : map fst (assignments st) = assignedBookIds st;
  inv_songs : map entry_song_id (assignments st) = usedSongIds st;
  inv_books_nodup : NoDup (assignedBookIds st);
  inv_songs_nodup : NoDup (usedSongIds st);
  inv_entries : forall e, In e (assignments st) ->
    exists p, In p universe /\ e = (pair_book_id p, result p)
}.

Definition greedy_init : Greedy num :=
  {| assignments := []; usedSongIds := []; assignedBookIds := [] |}.

Lemma greedy_inv_init (universe : list (ScoredPair num)) :
  greedy_inv universe greedy_init.
Proof. split; simpl; auto; try constructor. intros e []. Qed.

Lemma scored_song (p : ScoredPair num) : scored p -> song (result p) = pair_song p.
Proof. unfold scored. intros ->. reflexivity. Qed.

Lemma greedy_commit_inv (universe : list (ScoredPair num)) (st : Greedy num)
    (p : ScoredPair num) :
  scored p -> In p universe -> greedy_inv universe st ->
  ~ In (pair_book_id p) (assignedBookIds st) ->
  ~ In (pair_song_id p) (usedSongIds st) ->
  greedy_inv universe
    {| assignments := Map_set (assignments st) (pair_book_id p) (result p);
       usedSongIds := Set_add (usedSongIds st) (pair_song_id p);
       assignedBookIds := Set_add (assignedBookIds st) (pair_book_id p) |}.
Proof.
  intros Hp Hu [Hk Hs Hnb Hns He] Hb Hsg.
  assert (Hset : Map_set (assignments st) (pair_book_id p) (result p)
                 = assignments st ++ [(pair_book_id p, result p)])
    by (apply Map_set_fresh; rewrite Hk; exact Hb).
  split; simpl; rewrite ?Hset.
  - rewrite Set_add_fresh by exact Hb.
    rewrite map_app, Hk. reflexivity.
  - rewrite Set_add_fresh by exact Hsg.
    rewrite map_app, Hs. simpl. unfold entry_song_id at 1. simpl.
    rewrite (scored_song p Hp). reflexivity.
  - apply Set_add_NoDup, Hnb.
  - apply Set_add_NoDup, Hns.
  - intros e Hin. apply in_app_iff in Hin as [Hin|[<-|[]]]; [auto|eauto].
Qed.

Ltac loop_step p st :=
  simpl greedy_loop;
  fold (pair_book_id p); fold (pair_song_id p);
  destruct (Set_has (assignedBookIds st) (pair_book_id p)) eqn:Eb;
  [|destruct (Set_has (usedSongIds st) (pair_song_id p)) eqn:Es];
  simpl orb; cbv zeta.

Ltac loop_break n :=
  match goal with |- context [Nat.eqb ?a n] => destruct (Nat.eqb a n) eqn:En end.

Lemma greedy_loop_inv (universe : list (ScoredPair num)) (n : nat)
    (pairs : list (ScoredPair num)) (st : Greedy num) :
  Forall scored pairs -> incl pairs universe ->
  greedy_inv universe st -> greedy_inv universe (greedy_loop n pairs st).
Proof.
  revert st. induction pairs as [|p pairs IH]; intros st Hps Hu Hst; [assumption|].
  inversion Hps as [|? ? Hp Hrest]; subst.
  assert (Hu' : incl pairs universe) by (intros q Hq; apply Hu; now right).
  loop_step p st; try (apply IH; assumption).
  apply Set_has_not_In in Eb, Es.
  pose proof (greedy_commit_inv universe st p Hp (Hu p (or_introl eq_refl)) Hst Eb Es)
    as Hinv.
  loop_break n; [assumption|apply IH; assumption].
Qed.

(** The two sets only grow. *)
Lemma greedy_loop_mono (n : nat) (pairs : list (ScoredPair num)) (st : Greedy num) :
  (forall x, In x (assignedBookIds st) ->
             In x (assignedBookIds (greedy_loop n pairs st))) /\
  (forall x, In x (usedSongIds st) ->
             In x (usedSongIds (greedy_loop n pairs st))).
Proof.
  revert st. induction pairs as [|p pairs IH]; intros st; [split; auto|].
  loop_step p st; try apply IH.
  loop_break n.
  - simpl. split; intros x Hx; apply Set_add_In; now left.
  - match goal with |- context [greedy_loop n pairs ?s] => destruct (IH s) as [I1 I2] end.
    split; intros x Hx; [apply I1|apply I2]; simpl; apply Set_add_In; now left.
Qed.

(** When the loop ends, either it has assigned [n] books, or every pair it
    walked is blocked: its book is assigned or its song is used. *)
Lemma greedy_loop_complete (n : nat) (pairs : list (ScoredPair num)) (st : Greedy num) :
  Set_size (assignedBookIds (greedy_loop n pairs st)) = n \/
  forall p, In p pairs ->
    In (pair_book_id p) (assignedBookIds (greedy_loop n pairs st)) \/
    In (pair_song_id p) (usedSongIds (greedy_loop n pairs st)).
Proof.
  revert st. induction pairs as [|p pairs IH]; intros st; [right; intros p []|].
  loop_step p st.
  - destruct (IH st) as [Hn|Hall]; [now left|right].
    intros q [<-|Hq]; [|now apply Hall].
    left. apply greedy_loop_mono. now apply Set_has_In.
  - destruct (IH st) as [Hn|Hall]; [now left|right].
    intros q [<-|Hq]; [|now apply Hall].
    right. apply greedy_loop_mono. now apply Set_has_In.
  - loop_break n; [left; now apply Nat.eqb_eq|].
    match goal with |- context [greedy_loop n pairs ?s] =>
      destruct (IH s) as [Hn|Hall]; [now left|right];
      destruct (greedy_loop_mono n pairs s) as [I1 _] end.
    intros q [<-|Hq]; [|now apply Hall].
    left. apply I1. simpl. apply Set_add_In. now right.
Qed.

End GreedyLoop.

(** ** Sorting with a comparator [b - a] *)

Section SortDescending.

Context {num : Type} `{NumberOrder num} {A : Type}.
Variable key : A -> num.

Local Abbreviation by_key := (fun a b : A => (key b - key a)%num).

Lemma sort_insert_by_key (x y : A) (r : list A) :
  sort_insert by_key x (y :: r) =
  if (key x <? key y)%num then y :: sort_insert by_key x r else x :: y :: r.
Proof. simpl. now rewrite sub_ltb_zero. Qed.

Lemma ltb_asym (x y : num) : (x <? y)%num = true -> (y <? x)%num = false.
Proof.
  intros Hxy. destruct (y <? x)%num eqn:Hyx; [|reflexivity].
  pose proof (ltb_trans _ _ _ Hxy Hyx) as Hxx.
  now rewrite ltb_irrefl in Hxx.
Qed.

Lemma tie_not_less (x y c : num) :
  (x === c)%num = true -> (y === c)%num = true -> (x <? y)%num = false.
Proof.
  intros Hx Hy.
  assert (Hxy : (x === y)%num = true).
  { apply eqb_trans with c; [assumption|]. now rewrite eqb_sym. }
  rewrite <- (ltb_eqb_r x x y Hxy). apply ltb_irrefl.
Qed.

Lemma sort_insert_ties (c : num) (x : A) (l : list A) :
  filter (fun a => (key a === c)%num) (sort_insert by_key x l) =
  filter (fun a => (key a === c)%num) (x :: l).
Proof.
  induction l as [|y l IH]; [reflexivity|].
  rewrite sort_insert_by_key.
  destruct (key x <? key y)%num eqn:Hlt; [|reflexivity].
  simpl in *. rewrite IH.
  destruct (key x === c)%num eqn:Hx, (key y === c)%num eqn:Hy; try reflexivity.
  now rewrite (tie_not_less _ _ _ Hx Hy) in Hlt.
Qed.

(** The sort is stable. *)
Lemma Array_sort_ties (l : list A) : ties_in_order key l (Array_sort by_key l).
Proof.
  intros c. induction l as [|x l IH]; [reflexivity|].
  simpl Array_sort. rewrite sort_insert_ties. simpl. now rewrite IH.
Qed.

Lemma sort_insert_descending (x : A) (l : list A) :
  Forall (fun a => is_number (key a)) l ->
  descending key l -> descending key (sort_insert by_key x l).
Proof.
  unfold descending. intros Hnum Hl.
  induction Hl as [|y l Hl IH Hy]; [repeat constructor|].
  inversion Hnum as [|? ? Hny Hnl]; subst.
  rewrite sort_insert_by_key.
  destruct (key x <? key y)%num eqn:Hlt.
  - constructor; [now apply IH|].
    apply Forall_forall. intros z Hz.
    apply (Permutation_in _ (sort_insert_perm by_key x l)) in Hz as [<-|Hz].
    + now apply ltb_asym.
    + revert z Hz. now apply Forall_forall.
  - constructor; [now constructor|].
    constructor; [assumption|].
    apply Forall_forall. intros z Hz.
    apply ltb_negtrans with (key y); [exact Hny|exact Hlt|].
    revert z Hz. now apply Forall_forall.
Qed.

(** On numbers the result is in descending order. *)
Lemma Array_sort_descending (l : list A) :
  Forall (fun a => is_number (key a)) l -> descending key (Array_sort by_key l).
Proof.
  induction l as [|x l IH]; intros Hnum; [constructor|].
  inversion Hnum; subst. simpl.
  apply sort_insert_descending; [|now apply IH].
  apply Forall_forall. intros z Hz. apply Array_sort_In in Hz.
  revert z Hz. now apply Forall_forall.
Qed.

Lemma Array_sort_stable_descending (l : list A) :
  Forall (fun a => is_number (key a)) l ->
  stable_descending_sort key l (Array_sort by_key l).
Proof.
  intros Hnum. split; [apply Array_sort_perm|].
  split; [now apply Array_sort_descending|apply Array_sort_ties].
Qed.

Lemma descending_firstn (n : nat) (l : list A) :
  descending key l -> descending key (firstn n l).
Proof.
  unfold descending. intros Hl. revert n.
  induction Hl as [|x l Hl IH Hx]; intros [|n]; simpl; try constructor.
  - apply IH.
  - apply Forall_forall. intros z Hz.
    assert (Hin : In z l)
      by (rewrite <- (firstn_skipn n l); apply in_or_app; now left).
    revert z Hin Hz. intros z Hin _. revert z Hin. now apply Forall_forall.
Qed.


(** On numbers a stable descending sort has one result: the order the
    engine gets does not depend on the sorting algorithm. *)
Lemma stable_descending_unique (l1 l2 : list A) :
  Forall (fun a => is_number (key a)) l1 ->
  Permutation l1 l2 -> descending key l1 -> descending key l2 ->
  (forall c, filter (fun a => (key a === c)%num) l1
             = filter (fun a => (key a === c)%num) l2) ->
  l1 = l2.
Proof.
  revert l2. induction l1 as [|x t1 IH]; intros l2 Hnum Hperm D1 D2 Hties.
  - now apply Permutation_nil in Hperm.
  - destruct l2 as [|y t2]; [now apply Permutation_sym, Permutation_nil in Hperm|].
    inversion Hnum as [|? ? Hx Hnum']; subst.
    inversion D1 as [|? ? D1' F1]; subst. inversion D2 as [|? ? D2' F2]; subst.
    rewrite Forall_forall in Hnum', F1, F2.
    assert (Hiny : In y (x :: t1))
      by (apply (Permutation_in _ (Permutation_sym Hperm)); now left).
    assert (Hinx : In x (y :: t2)) by (apply (Permutation_in _ Hperm); now left).
    assert (Hy : is_number (key y))
      by (destruct Hiny as [<-|Hin]; [assumption|now apply Hnum']).
    assert (Hxy : (key x <? key y)%num = false)
      by (destruct Hiny as [<-|Hin]; [apply ltb_irrefl|now apply F1]).
    assert (Hyx : (key y <? key x)%num = false)
      by (destruct Hinx as [<-|Hin]; [apply ltb_irrefl|now apply F2]).
    pose proof (ltb_total _ _ Hx Hy Hxy Hyx) as Htie.
    assert (E : x = y).
    { pose proof (Hties (key x)) as Hf. simpl in Hf.
      unfold is_number in Hx. rewrite Hx in Hf.
      rewrite eqb_sym in Htie. rewrite Htie in Hf. now inversion Hf. }
    subst y. f_equal. apply IH; try assumption.
    + now apply Forall_forall.
    + now apply Permutation_cons_inv in Hperm.
    + intros c. pose proof (Hties c) as Hf. simpl in Hf.
      destruct (key x === c)%num; [now inversion Hf|assumption].
Qed.

Lemma Array_sort_unique (l l' : list A) :
  Forall (fun a => is_number (key a)) l ->
  stable_descending_sort key l l' -> l' = Array_sort by_key l.
Proof.
  intros Hnum (Hperm & Hdesc & Hties).
  destruct (Array_sort_stable_descending l Hnum) as (Hperm' & Hdesc' & Hties').
  apply stable_descending_unique; try assumption.
  - apply Forall_forall. intros a Ha. apply (Permutation_in _ Hperm) in Ha.
    revert a Ha. now apply Forall_forall.
  - now rewrite Hperm, Hperm'.
  - intros c. now rewrite Hties, Hties'.
Qed.

End SortDescending.

(** ** Corpus-wide assignment: what the map holds *)

Section Assignment.

Context {num : Type} `{Number num}.

Lemma allPairs_In (books : list (Book num)) (songs : list (Song num))
    (p : ScoredPair num) :
  In p (allPairs books songs) <->
  exists book song, In book books /\ In song songs /\
    p = {| pair_book := book; pair_song := song;
           result := getMatchResultForSong book song |}.
Proof.
  unfold allPairs. rewrite in_flat_map. split.
  - intros (book & Hb & Hp). apply in_map_iff in Hp as (song & <- & Hs). eauto.
  - intros (book & song & Hb & Hs & ->). exists book. split; [assumption|].
    apply in_map_iff. eauto.
Qed.

Lemma allPairs_scored (books : list (Book num)) (songs : list (Song num)) :
  Forall scored (allPairs books songs).
Proof.
  apply Forall_forall. intros p Hp.
  apply allPairs_In in Hp as (book & song & _ & _ & ->). reflexivity.
Qed.

(** The sorted pairs [matchAllBooksUniquely] walks. *)
Definition sortedPairs (books : list (Book num)) (songs : list (Song num))
    : list (ScoredPair num) :=
  Array_sort (fun a b => totalScore (result b) - totalScore (result a))%num
    (allPairs books songs).

Lemma sortedPairs_In (books : list (Book num)) (songs : list (Song num))
    (p : ScoredPair num) :
  In p (sortedPairs books songs) <-> In p (allPairs books songs).
Proof. apply Array_sort_In. Qed.

Lemma sortedPairs_scored (books : list (Book num)) (songs : list (Song num)) :
  Forall scored (sortedPairs books songs).
Proof.
  apply Forall_forall. intros p Hp. apply sortedPairs_In in Hp.
  revert p Hp. apply Forall_forall, allPairs_scored.
Qed.

Lemma matchAllBooksUniquely_eq (books : list (Book num)) (songs : list (Song num)) :
  matchAllBooksUniquely books songs =
  assignments (greedy_loop (List.length books) (sortedPairs books songs) greedy_init).
Proof. reflexivity. Qed.

Lemma matchAllBooksUniquely_inv (books : list (Book num)) (songs : list (Song num)) :
  greedy_inv (sortedPairs books songs)
    (greedy_loop (List.length books) (sortedPairs books songs) greedy_init).
Proof.
  apply greedy_loop_inv.
  - apply sortedPairs_scored.
  - apply incl_refl.
  - apply greedy_inv_init.
Qed.

(** Every entry of the map is a book of [books] with the score of a song of
    [songs]. *)
Lemma matchAllBooksUniquely_entries (books : list (Book num)) (songs : list (Song num))
    (e : string * MatchResult num) :
  In e (matchAllBooksUniquely books songs) ->
  exists book song, In book books /\ In song songs /\
    e = (book_id book, getMatchResultForSong book song).
Proof.
  rewrite matchAllBooksUniquely_eq. intros He.
  apply (inv_entries _ _ (matchAllBooksUniquely_inv books songs)) in He.
  destruct He as (p & Hp & ->).
  apply sortedPairs_In, allPairs_In in Hp as (book & song & Hb & Hs & ->).
  eauto.
Qed.

Lemma matchAllBooksUniquely_keys_nodup (books : list (Book num)) (songs : list (Song num)) :
  NoDup (map fst (matchAllBooksUniquely books songs)).
Proof.
  destruct (matchAllBooksUniquely_inv books songs) as [Hk _ Hnd _ _].
  rewrite matchAllBooksUniquely_eq, Hk. exact Hnd.
Qed.

Lemma matchAllBooksUniquely_songs_nodup (books : list (Book num)) (songs : list (Song num)) :
  NoDup (map entry_song_id (matchAllBooksUniquely books songs)).
Proof.
  destruct (matchAllBooksUniquely_inv books songs) as [_ Hs _ Hnd _].
  rewrite matchAllBooksUniquely_eq, Hs. exact Hnd.
Qed.

Lemma matchAllBooksUniquely_size_le (books : list (Book num)) (songs : list (Song num)) :
  Map_size (matchAllBooksUniquely books songs)
  <= Nat.min (List.length books) (List.length songs).
Proof.
  apply Nat.min_glb.
  - unfold Map_size.
    rewrite <- (length_map fst), <- (length_map book_id books).
    apply NoDup_incl_length; [apply matchAllBooksUniquely_keys_nodup|].
    intros k Hk. apply in_map_iff in Hk as (e & <- & He).
    apply matchAllBooksUniquely_entries in He as (book & song & Hb & _ & ->).
    simpl. now apply in_map.
  - unfold Map_size.
    rewrite <- (length_map entry_song_id), <- (length_map song_id songs).
    apply NoDup_incl_length; [apply matchAllBooksUniquely_songs_nodup|].
    intros k Hk. apply in_map_iff in Hk as (e & <- & He).
    apply matchAllBooksUniquely_entries in He as (book & song & _ & Hs & ->).
    unfold entry_song_id. simpl. now apply in_map.
Qed.

(** A duplicate-free list longer than [s] has an element outside [s]. *)
Lemma fresh_element (l s : list string) :
  NoDup l -> List.length s < List.length l -> exists x, In x l /\ ~ In x s.
Proof.
  intros Hnd Hlen.
  destruct (forallb (Set_has s) l) eqn:E.
  - exfalso. rewrite forallb_forall in E.
    assert (Hincl : incl l s) by (intros x Hx; now apply Set_has_In, E).
    pose proof (NoDup_incl_length Hnd Hincl). lia.
  - assert (Hex : existsb (fun x => negb (Set_has s x)) l = true).
    { clear -E. induction l as [|x l IH]; simpl in *; [discriminate|].
      destruct (Set_has s x); simpl in *; auto. }
    apply existsb_exists in Hex as (x & Hx & Hn).
    exists x. split; [assumption|]. apply Set_has_not_In.
    now destruct (Set_has s x).
Qed.

Lemma matchAllBooksUniquely_size_full (books : list (Book num)) (songs : list (Song num)) :
  NoDup (map book_id books) -> NoDup (map song_id songs) ->
  List.length books <= List.length songs ->
  Map_size (matchAllBooksUniquely books songs) = List.length books.
Proof.
  intros Hnb Hns Hle.
  pose proof (matchAllBooksUniquely_size_le books songs) as Hsz.
  destruct (matchAllBooksUniquely_inv books songs) as [Hk Hs _ _ _].
  rewrite matchAllBooksUniquely_eq in *.
  set (st := greedy_loop (List.length books) (sortedPairs books songs) greedy_init) in *.
  assert (Hlen_b : Set_size (assignedBookIds st) = Map_size (assignments st))
    by (unfold Set_size, Map_size; rewrite <- Hk; apply length_map).
  assert (Hlen_s : Set_size (usedSongIds st) = Map_size (assignments st))
    by (unfold Set_size, Map_size; rewrite <- Hs; apply length_map).
  destruct (greedy_loop_complete (List.length books) (sortedPairs books songs) greedy_init)
    as [Hn|Hall]; fold st in Hn || fold st in Hall; [lia|].
  destruct (Nat.eq_dec (Map_size (assignments st)) (List.length books)) as [|Hne];
    [assumption|exfalso].
  destruct (fresh_element (map book_id books) (assignedBookIds st) Hnb) as (bid & Hb & Hbn).
  { rewrite length_map. unfold Set_size in Hlen_b. lia. }
  destruct (fresh_element (map song_id songs) (usedSongIds st) Hns) as (sid & Hs' & Hsn).
  { rewrite length_map. unfold Set_size in Hlen_s. lia. }
  apply in_map_iff in Hb as (book & <- & Hb), Hs' as (song & <- & Hs').
  destruct (Hall {| pair_book := book; pair_song := song;
                    result := getMatchResultForSong book song |}) as [Hin|Hin].
  - apply sortedPairs_In, allPairs_In. eauto.
  - exact (Hbn Hin).
  - exact (Hsn Hin).
Qed.

(** C1: for books with pairwise distinct identifiers and songs with
    pairwise distinct identifiers, the map [matchAllBooksUniquely] returns
    holds no song identifier in two entries and no book identifier twice,
    and has at most [min(|books|, |songs|)] entries; when there are at
    least as many songs as books it has exactly [|books|] entries (whose
    song identifiers are thus pairwise distinct). *)
Theorem C1_assignment_is_one_to_one (books : list (Book num)) (songs : list (Song num)) :
  NoDup (map book_id books) -> NoDup (map song_id songs) ->
  let assigned := matchAllBooksUniquely books songs in
  NoDup (map entry_song_id assigned) /\
  NoDup (map fst assigned) /\
  Map_size assigned <= Nat.min (List.length books) (List.length songs) /\
  (List.length books <= List.length songs ->
   Map_size assigned = List.length books /\
   List.length (map entry_song_id assigned) = List.length books).
Proof.
  intros Hnb Hns assigned. subst assigned.
  split; [apply matchAllBooksUniquely_songs_nodup|].
  split; [apply matchAllBooksUniquely_keys_nodup|].
  split; [apply matchAllBooksUniquely_size_le|].
  intros Hle.
  pose proof (matchAllBooksUniquely_size_full books songs Hnb Hns Hle) as Hsz.
  split; [assumption|]. rewrite length_map. exact Hsz.
Qed.

End Assignment.

Lemma testBooks_ids_distinct : NoDup (map book_id (@testBooks float _)).
Proof. repeat constructor; simpl; intuition discriminate. Qed.

Lemma testSongs_ids_distinct : NoDup (map song_id (@testSongs float _)).
Proof. repeat constructor; simpl; intuition discriminate. Qed.

Lemma C1_assignment_is_one_to_one_witness :
  let assigned := matchAllBooksUniquely (@testBooks float _) testSongs in
  NoDup (map entry_song_id assigned) /\
  NoDup (map fst assigned) /\
  Map_size assigned <= Nat.min (List.length (@testBooks float _)) (List.length (@testSongs float _)) /\
  (List.length (@testBooks float _) <= List.length (@testSongs float _) ->
   Map_size assigned = List.length (@testBooks float _) /\
   List.length (map entry_song_id assigned) = List.length (@testBooks float _)).
Proof.
  exact (C1_assignment_is_one_to_one testBooks testSongs
           testBooks_ids_distinct testSongs_ids_distinct).
Defined.

(** ** Corpus-wide assignment: the algorithm *)

Section AssignmentAlgorithm.

Context {num : Type} `{Number num}.

(** The pairs are enumerated book-major, song-minor. *)
Lemma allPairs_length (books : list (Book num)) (songs : list (Song num)) :
  List.length (allPairs books songs) = List.length books * List.length songs.
Proof.
  induction books as [|book books IH]; simpl; [reflexivity|].
  rewrite length_app, length_map, IH. reflexivity.
Qed.

Lemma allPairs_nth (books : list (Book num)) (songs : list (Song num))
    (i j : nat) (book : Book num) (song : Song num) :
  nth_error books i = Some book -> nth_error songs j = Some song ->
  nth_error (allPairs books songs) (i * List.length songs + j) =
  Some {| pair_book := book; pair_song := song;
          result := getMatchResultForSong book song |}.
Proof.
  revert i. induction books as [|b books IH]; intros i Hb Hs.
  - destruct i; discriminate.
  - simpl allPairs. destruct i as [|i]; simpl in Hb.
    + inversion Hb; subst. simpl.
      rewrite nth_error_app1
        by (rewrite length_map; apply nth_error_Some; congruence).
      now rewrite nth_error_map, Hs.
    + rewrite nth_error_app2 by (rewrite length_map; simpl; lia).
      rewrite length_map.
      replace (S i * List.length songs + j - List.length songs)
        with (i * List.length songs + j) by (simpl; lia).
      now apply IH.
Qed.

(** The loop of the source and the walk of the specification keep the same
    commitments: the map and the two sets are three views of one list. *)
Record same_commitments (st : Greedy num) (committed : list (Commitment (num:=num)))
    : Prop := {
  sc_map : assignments st = map (fun c => (committed_book c, snd c)) committed;
  sc_books : assignedBookIds st = map committed_book committed;
  sc_songs : usedSongIds st = map committed_song committed
}.

Lemma Set_has_map {C : Type} (f : C -> string) (l : list C) (x : string) :
  Set_has (map f l) x = existsb (fun c => String.eqb x (f c)) l.
Proof. unfold Set_has. induction l as [|c l IH]; simpl; congruence. Qed.

Lemma greedy_loop_refines (n : nat) (pairs : list (ScoredPair num))
    (st : Greedy num) (committed : list Commitment) :
  List.length committed <> n ->
  same_commitments st committed ->
  same_commitments (greedy_loop n pairs st) (assign_walk n pairs committed).
Proof.
  revert st committed.
  induction pairs as [|p pairs IH]; intros st committed Hn Hsc; [assumption|].
  destruct Hsc as [Hm Hb Hs].
  simpl. apply Nat.eqb_neq in Hn. rewrite Hn. apply Nat.eqb_neq in Hn.
  rewrite Hb, Hs, !Set_has_map.
  destruct (existsb _ committed || existsb _ committed) eqn:E.
  - apply IH; [assumption|now split].
  - apply orb_false_iff in E as [Eb Es].
    rewrite <- Set_has_map, <- Hb in Eb. rewrite <- Set_has_map, <- Hs in Es.
    apply Set_has_not_In in Eb, Es.
    set (c := (book_id (pair_book p), song_id (pair_song p), result p)).
    assert (Hsc' : same_commitments
      {| assignments := Map_set (assignments st) (book_id (pair_book p)) (result p);
         usedSongIds := Set_add (map committed_song committed) (song_id (pair_song p));
         assignedBookIds := Set_add (map committed_book committed) (book_id (pair_book p)) |}
      (committed ++ [c])).
    { split; cbn [assignments usedSongIds assignedBookIds].
      - rewrite Map_set_fresh.
        + now rewrite Hm, map_app.
        + rewrite Hm, map_map.
          change (~ In (book_id (pair_book p)) (map committed_book committed)).
          now rewrite <- Hb.
      - rewrite Set_add_fresh by (now rewrite <- Hb). now rewrite map_app.
      - rewrite Set_add_fresh by (now rewrite <- Hs). now rewrite map_app. }
    assert (Hsize : Set_size (Set_add (map committed_book committed) (book_id (pair_book p)))
                    = List.length (committed ++ [c])).
    { rewrite Set_add_fresh by (now rewrite <- Hb).
      unfold Set_size. now rewrite !length_app, length_map. }
    rewrite Hsize.
    destruct (Nat.eqb (List.length (committed ++ [c])) n) eqn:En.
    + destruct pairs as [|q pairs]; simpl; [assumption|]. now rewrite En.
    + apply IH; [now apply Nat.eqb_neq|assumption].
Qed.

Lemma matchAllBooksUniquely_refines (books : list (Book num)) (songs : list (Song num)) :
  matchAllBooksUniquely books songs =
  assignUnique_spec books songs (sortedPairs books songs).
Proof.
  rewrite matchAllBooksUniquely_eq. unfold assignUnique_spec.
  destruct books as [|book books]; [reflexivity|].
  apply sc_map, greedy_loop_refines; [discriminate|].
  split; reflexivity.
Qed.

End AssignmentAlgorithm.

(** C2: [matchAllBooksUniquely] scores every (book, song) pair in
    book-major, song-minor order, sorts the pairs in descending order of
    total score keeping ties in enumeration order, and walks the sorted
    list once, committing each pair whose book and song are both
    uncommitted, skipping the others, and stopping once every book is
    committed.  The sorted list is the only stable descending arrangement
    of the pairs, so the result is determined by the order of the input.
    (The order of the sorted list is that of the scores whenever no score is
    [NaN].) *)
Theorem C2_sort_then_greedy_walk (books : list (Book float)) (songs : list (Song float)) :
  Forall (fun p => is_number (totalScore (result p))) (allPairs books songs) ->
  (forall i j book song,
     nth_error books i = Some book -> nth_error songs j = Some song ->
     nth_error (allPairs books songs) (i * List.length songs + j) =
     Some {| pair_book := book; pair_song := song;
             result := getMatchResultForSong book song |}) /\
  List.length (allPairs books songs) = List.length books * List.length songs /\
  stable_descending_sort (fun p => totalScore (result p))
    (allPairs books songs) (sortedPairs books songs) /\
  (forall sorted,
     stable_descending_sort (fun p => totalScore (result p))
       (allPairs books songs) sorted ->
     sorted = sortedPairs books songs) /\
  matchAllBooksUniquely books songs =
  assignUnique_spec books songs (sortedPairs books songs).
Proof.
  intros Hnum. split; [|split; [|split; [|split]]].
  - intros i j book song. apply allPairs_nth.
  - apply allPairs_length.
  - apply (Array_sort_stable_descending (fun p => totalScore (result p))), Hnum.
  - intros sorted Hs.
    apply (Array_sort_unique (fun p => totalScore (result p))); assumption.
  - apply matchAllBooksUniquely_refines.
Qed.

Lemma testPairs_are_numbers :
  Forall (fun p => is_number (totalScore (result p)))
         (allPairs (@testBooks float _) testSongs).
Proof. repeat constructor. Qed.

Lemma C2_sort_then_greedy_walk_witness :
  stable_descending_sort (fun p => totalScore (result p))
    (allPairs (@testBooks float _) testSongs) (sortedPairs testBooks testSongs) /\
  matchAllBooksUniquely (@testBooks float _) testSongs =
  assignUnique_spec testBooks testSongs (sortedPairs testBooks testSongs).
Proof.
  destruct (C2_sort_then_greedy_walk testBooks testSongs testPairs_are_numbers)
    as (_ & _ & Hsorted & _ & Hwalk).
  exact (conj Hsorted Hwalk).
Defined.

(** ** Best match *)

Section BestMatch.

Context {num : Type} `{NumberOrder num}.
Variable book : Book num.

Definition score (s : Song num) : num := totalScore (getMatchResultForSong book s).

(** [t], met before the winner, neither ties with it nor beats it. *)
Definition loses_to (s t : Song num) : Prop :=
  (score t === score s)%num = false /\ (score s <? score t)%num = false.

Lemma worse_than_lower (s x t : Song num) :
  (score s <? score x)%num = true ->
  (score s <? score t)%num = false -> loses_to x t.
Proof.
  intros Hsx Hst. split.
  - destruct (score t === score x)%num eqn:E; [|reflexivity].
    rewrite (ltb_eqb_r (score s) _ _ E) in Hst. congruence.
  - destruct (score x <? score t)%num eqn:E; [|reflexivity].
    rewrite (ltb_trans _ _ _ Hsx E) in Hst. discriminate.
Qed.

Lemma fold_keep_best (songs pre mid : list (Song num)) (s : Song num) :
  (forall t, In t pre -> loses_to s t) ->
  (forall t, In t mid -> (score s <? score t)%num = false) ->
  exists pre' s' post',
    pre ++ s :: mid ++ songs = pre' ++ s' :: post' /\
    fold_left (keep_best book) songs (Some (getMatchResultForSong book s))
    = Some (getMatchResultForSong book s') /\
    (forall t, In t pre' -> loses_to s' t) /\
    (forall t, In t post' -> (score s' <? score t)%num = false).
Proof.
  revert pre mid s.
  induction songs as [|x songs IH]; intros pre mid s Hpre Hmid.
  - exists pre, s, mid. rewrite app_nil_r. auto.
  - cbn [fold_left]. unfold keep_best at 2.
    fold (score x) (score s).
    destruct (score s <? score x)%num eqn:Hlt.
    + destruct (IH (pre ++ s :: mid) [] x) as (pre' & s' & post' & E & Hf & H1 & H2).
      * intros t Ht. apply in_app_iff in Ht as [Ht|[<-|Ht]].
        -- apply (worse_than_lower s); [assumption|now apply Hpre].
        -- apply (worse_than_lower s); [assumption|apply ltb_irrefl].
        -- apply (worse_than_lower s); [assumption|now apply Hmid].
      * intros t [].
      * exists pre', s', post'. repeat split; try assumption; try apply H1; auto.
        rewrite <- E. rewrite <- app_assoc. reflexivity.
    + destruct (IH pre (mid ++ [x]) s) as (pre' & s' & post' & E & Hf & H1 & H2).
      * assumption.
      * intros t Ht. apply in_app_iff in Ht as [Ht|[<-|[]]]; auto.
      * exists pre', s', post'. repeat split; try assumption; try apply H1; auto.
        rewrite <- E. rewrite <- app_assoc. reflexivity.
Qed.

Lemma matchThemeSong_best (first : Song num) (rest : list (Song num)) :
  exists pre s post,
    first :: rest = pre ++ s :: post /\
    matchThemeSong book (first :: rest) = Returned (getMatchResultForSong book s) /\
    (forall t, In t pre -> loses_to s t) /\
    (forall t, In t post -> (score s <? score t)%num = false).
Proof.
  destruct (fold_keep_best rest [] [] first) as (pre & s & post & E & Hf & H1 & H2);
    try (intros t []).
  exists pre, s, post. repeat split; try assumption; try apply H1; auto.
  unfold matchThemeSong. cbn [fold_left]. unfold keep_best at 2.
  now rewrite Hf.
Qed.

End BestMatch.

(** C3: [matchThemeSong] on an empty list of songs throws (it returns no
    value, null or other); on a non-empty list it returns the result of one
    of the songs, whose total score no song of the list exceeds, and every
    song met before it has a total score that neither exceeds nor equals
    it: among songs tied for the maximum the first wins.  When the scores
    are numbers (not [NaN]) the returned score is at least every score. *)
Theorem C3_best_match_or_throw (book : Book float) :
  matchThemeSong book [] = Thrown "No songs available for matching" /\
  forall (first : Song float) (rest : list (Song float)),
  exists pre s post,
    first :: rest = pre ++ s :: post /\
    matchThemeSong book (first :: rest) = Returned (getMatchResultForSong book s) /\
    (forall t, In t (first :: rest) ->
       (totalScore (getMatchResultForSong book s)
        <? totalScore (getMatchResultForSong book t))%num = false) /\
    (forall t, In t pre ->
       (totalScore (getMatchResultForSong book t)
        === totalScore (getMatchResultForSong book s))%num = false) /\
    (forall t, In t (first :: rest) ->
       is_number (totalScore (getMatchResultForSong book s)) ->
       is_number (totalScore (getMatchResultForSong book t)) ->
       PrimFloat.leb (totalScore (getMatchResultForSong book t))
                     (totalScore (getMatchResultForSong book s)) = true).
Proof.
  split; [reflexivity|]. intros first rest.
  destruct (matchThemeSong_best book first rest) as (pre & s & post & E & Hr & H1 & H2).
  assert (Hmax : forall t, In t (first :: rest) ->
            (totalScore (getMatchResultForSong book s)
             <? totalScore (getMatchResultForSong book t))%num = false).
  { intros t Ht. rewrite E in Ht.
    apply in_app_iff in Ht as [Ht|[<-|Ht]].
    - now apply (H1 t).
    - apply ltb_irrefl.
    - now apply (H2 t). }
  exists pre, s, post. repeat split; try assumption.
  - intros t Ht. now apply (H1 t).
  - intros t Ht Ns Nt. apply IEEE.ltb_false_leb; try assumption.
    now apply Hmax.
Qed.

(** ** Penalties *)

Section PenaltyTable.

Context {num : Type} `{Number num}.

Lemma apply_rules_table (g1 g2 g3 g4 g5 : bool) (c1 c2 c3 c4 c5 : num)
    (l1 l2 l3 l4 l5 : string) :
  let rules := [(g1, c1, l1); (g2, c2, l2); (g3, c3, l3); (g4, c4, l4); (g5, c5, l5)] in
  apply_rule g5 c5 l5 (apply_rule g4 c4 l4 (apply_rule g3 c3 l3
    (apply_rule g2 c2 l2 (apply_rule g1 c1 l1 {| total := lit 0; factors := [] |}))))
  = {| total := penalty_sum rules; factors := penalty_factors rules |}.
Proof. destruct g1, g2, g3, g4, g5; reflexivity. Qed.

(** [calculatePenalties] applies the rule table: the total is the sum of
    the constants of the rules that fire, nothing else. *)
Lemma calculatePenalties_table (book : Book num) (songVec : VibeVector num)
    (audio : AudioFeatures num) :
  calculatePenalties book songVec audio =
  {| total := penalty_sum (penalty_rules book songVec audio);
     factors := penalty_factors (penalty_rules book songVec audio) |}.
Proof. unfold calculatePenalties. apply apply_rules_table. Qed.

Definition guards (rules : list (bool * num * string)) : list bool :=
  map (fun r => fst (fst r)) rules.

Lemma penalty_sum_guards (book : Book num) (songVec : VibeVector num)
    (audio : AudioFeatures num) (g1 g2 g3 g4 g5 : bool) :
  guards (penalty_rules book songVec audio) = [g1; g2; g3; g4; g5] ->
  total (calculatePenalties book songVec audio) =
  penalty_sum
    [(g1, lit (-0.10), EmptyString); (g2, lit (-0.05), EmptyString);
     (g3, lit (-0.08), EmptyString); (g4, lit (-0.07), EmptyString);
     (g5, lit (-0.05), EmptyString)].
Proof.
  rewrite calculatePenalties_table. unfold guards, penalty_rules. simpl map.
  intros Hg. injection Hg as -> -> -> -> ->. simpl total.
  destruct g1, g2, g3, g4, g5; reflexivity.
Qed.

End PenaltyTable.

(** A melancholic, eerie book and an upbeat, warm song: the first and the
    third rule fire together. *)
Definition eerieBook {num : Type} `{Number num} : Book num :=
  {| book_id := "eerie-book";
     book_title := "Eerie Book";
     author := "Test Author";
     coverImageUrl := "/test.jpg";
     book_vibeTags := ["melancholic"%string; "eerie"%string];
     vibeVector :=
       {| melancholy := lit 0.8; intimacy := lit 0.5; intensity := lit 0.4;
          hope := lit 0.3; tension := lit 0.4; warmth := lit 0.2;
          nostalgia := lit 0.5; eeriness := lit 0.8; pace := lit 0.3 |};
     vibeBlurb := "";
     genre := None |}.

Definition warmAudio {num : Type} `{Number num} : AudioFeatures num :=
  {| energy := lit 0.5; valence := lit 0.9; tempo := lit 0.5;
     acousticness := lit 0.9; danceability := lit 0.5 |}.

(** C6: the penalty total of [calculatePenalties] is the sum, in table
    order and starting from 0, of the constants of exactly the rules whose
    strict guards are true, and its factors are theirs.  So it is 0 when no
    guard is true, -0.10 when only the melancholy/valence guard is, and it
    is not clamped: the first and third rules together give -0.18, below
    -0.15, as they do on [eerieBook] and [warmAudio]. *)
Theorem C6_penalties_sum_fired_rules (book : Book float) (songVec : VibeVector float)
    (audio : AudioFeatures float) :
  let rules := penalty_rules book songVec audio in
  let penalties := calculatePenalties book songVec audio in
  total penalties = penalty_sum rules /\
  factors penalties = penalty_factors rules /\
  (guards rules = [false; false; false; false; false] -> total penalties = lit 0) /\
  (guards rules = [true; false; false; false; false] -> total penalties = lit (-0.10)) /\
  (guards rules = [true; false; true; false; false] ->
   total penalties = lit (-0.18) /\ (total penalties <? lit (-0.15))%num = true) /\
  guards (penalty_rules (@eerieBook float _) (deriveVibeVector warmAudio) warmAudio)
  = [true; false; true; false; false].
Proof.
  cbv zeta.
  split; [now rewrite calculatePenalties_table|].
  split; [now rewrite calculatePenalties_table|].
  split; [|split; [|split]].
  - intros Hg. now rewrite (penalty_sum_guards _ _ _ _ _ _ _ _ Hg).
  - intros Hg. now rewrite (penalty_sum_guards _ _ _ _ _ _ _ _ Hg).
  - intros Hg. now rewrite (penalty_sum_guards _ _ _ _ _ _ _ _ Hg).
  - vm_compute. reflexivity.
Qed.

(** ** The derived vector *)

Section DerivedVector.

Context {num : Type} `{Number num}.
Hypothesis mul_comm : forall x y : num, (x * y)%num = (y * x)%num.

(** The code computes the specification's formulas (it writes each
    product with the weight second). *)
Lemma deriveVibeVector_formulas (audio : AudioFeatures num) :
  deriveVibeVector audio = deriveVector_spec audio.
Proof.
  unfold deriveVibeVector, deriveVector_spec. cbv zeta.
  now rewrite !(mul_comm (lit _)).
Qed.

End DerivedVector.

(** [warmth] is computed once: the value stored is the one [eeriness]
    uses. *)
Lemma deriveVibeVector_warmth_reused {num : Type} `{Number num}
    (audio : AudioFeatures num) :
  eeriness (deriveVibeVector audio) =
  ((lit 1 - valence audio) * lit 0.5 + (lit 1 - danceability audio) * lit 0.3
   + (lit 1 - warmth (deriveVibeVector audio)) * lit 0.2)%num.
Proof. reflexivity. Qed.

Lemma in_unit_real (x : R) : in_unit x <-> (0 <= x <= 1)%R.
Proof.
  unfold in_unit, is_number. simpl. unfold Q2R. simpl.
  destruct (Rlt_dec x (0 * / 1)), (Rlt_dec (1 * / 1) x), (Req_dec_T x x);
    split; intros; try lra; intuition (try discriminate; try lra).
Qed.

Lemma deriveVibeVector_in_unit_real (audio : AudioFeatures R) :
  audio_in_unit audio -> vector_in_unit (deriveVibeVector audio).
Proof.
  unfold audio_in_unit. rewrite !in_unit_real.
  intros (He & Hv & Ht & Ha & Hd) k. apply in_unit_real.
  destruct audio as [e v t a d]. simpl in *.
  destruct k; simpl; unfold Q2R; simpl; lra.
Qed.

(** In doubles: each operation rounds to nearest, which is monotone, and
    the weights of each formula add up to exactly one as doubles, so no
    rounded sum leaves [[0, 1]]. *)
Lemma in_unit_double (x : float) : in_unit x <-> Rounding.upto 1 x.
Proof. symmetry. apply Rounding.upto_one_spec. Qed.

Lemma deriveVibeVector_in_unit_double (audio : AudioFeatures float) :
  audio_in_unit audio -> vector_in_unit (deriveVibeVector audio).
Proof.
  unfold audio_in_unit. rewrite !in_unit_double.
  intros (He & Hv & Ht & Ha & Hd) k. apply in_unit_double.
  destruct audio as [e v t a d].
  cbn [energy valence tempo acousticness danceability] in *.
  assert (Hw : Rounding.upto 1 (warmth (deriveVibeVector
            {| energy := e; valence := v; tempo := t;
               acousticness := a; danceability := d |}))).
  { apply Rounding.upto_sum3; try Rounding.upto_constant; try assumption.
    now apply Rounding.upto_one_minus. }
  destruct k; cbn [vget]; try exact Hw.
  - now apply Rounding.upto_one_minus.
  - apply Rounding.upto_sum2; try Rounding.upto_constant; try assumption.
    now apply Rounding.upto_one_minus.
  - exact He.
  - apply Rounding.upto_sum2; try Rounding.upto_constant; assumption.
  - apply Rounding.upto_sum2; try Rounding.upto_constant; try assumption.
    now apply Rounding.upto_one_minus.
  - apply Rounding.upto_sum3; try Rounding.upto_constant; try assumption;
      now apply Rounding.upto_one_minus.
  - apply Rounding.upto_sum3; try Rounding.upto_constant;
      try (now apply Rounding.upto_one_minus).
  - apply Rounding.upto_sum2; try Rounding.upto_constant; assumption.
Qed.

(** C7 (first part): [deriveVibeVector] is a total function computing the
    nine formulas of the specification, in doubles and in exact arithmetic
    alike, with the stored [warmth] reused in [eeriness]; every field of
    the result lies in [[0, 1]] when the five features do, in doubles (so
    after every rounding) and in exact arithmetic. *)
Theorem C7_derived_vector_formulas_and_range :
  (forall audio : AudioFeatures float,
     deriveVibeVector audio = deriveVector_spec audio /\
     eeriness (deriveVibeVector audio) =
     ((lit 1 - valence audio) * lit 0.5 + (lit 1 - danceability audio) * lit 0.3
      + (lit 1 - warmth (deriveVibeVector audio)) * lit 0.2)%num) /\
  (forall audio : AudioFeatures float,
     audio_in_unit audio -> vector_in_unit (deriveVibeVector audio)) /\
  (forall audio : AudioFeatures R,
     deriveVibeVector audio = deriveVector_spec audio) /\
  (forall audio : AudioFeatures R,
     audio_in_unit audio -> vector_in_unit (deriveVibeVector audio)).
Proof.
  split; [|split; [|split]].
  - intros audio. split; [|reflexivity].
    apply deriveVibeVector_formulas, IEEE.mul_comm.
  - apply deriveVibeVector_in_unit_double.
  - intros audio. apply deriveVibeVector_formulas, Rmult_comm.
  - apply deriveVibeVector_in_unit_real.
Qed.

(** ** Tag similarity *)

Section Jaccard.

Context {num : Type} `{Number num}.

Lemma filter_has_perm (s1 s2 : JsSet) :
  NoDup s1 -> NoDup s2 ->
  Permutation (filter (fun x => Set_has s2 x) s1) (filter (fun x => Set_has s1 x) s2).
Proof.
  intros H1 H2. apply NoDup_Permutation; try now apply NoDup_filter.
  intros x. rewrite !filter_In, !Set_has_In. tauto.
Qed.

Lemma union_perm (s1 s2 : JsSet) : Permutation (Set_of (s1 ++ s2)) (Set_of (s2 ++ s1)).
Proof.
  apply NoDup_Permutation; try apply Set_of_NoDup.
  intros x. rewrite !Set_of_In, !in_app_iff. tauto.
Qed.

(** [jaccardSimilarity] is symmetric. *)
Lemma jaccardSimilarity_sym (tags1 tags2 : list string) :
  jaccardSimilarity tags1 tags2 = jaccardSimilarity tags2 tags1.
Proof.
  unfold jaccardSimilarity. cbv zeta.
  set (s1 := Set_of (map toLowerCase tags1)).
  set (s2 := Set_of (map toLowerCase tags2)).
  assert (N1 : NoDup s1) by apply Set_of_NoDup.
  assert (N2 : NoDup s2) by apply Set_of_NoDup.
  assert (Hu : Set_size (Set_of (s1 ++ s2)) = Set_size (Set_of (s2 ++ s1)))
    by apply Permutation_length, union_perm.
  assert (Hi : Set_size (Set_of (filter (fun x => Set_has s2 x) s1))
               = Set_size (Set_of (filter (fun x => Set_has s1 x) s2))).
  { rewrite !Set_of_fresh by now apply NoDup_filter.
    now apply Permutation_length, filter_has_perm. }
  now rewrite Hu, Hi.
Qed.

(** It reads its arguments through [toLowerCase] only. *)
Lemma jaccardSimilarity_case (tags1 tags1' tags2 : list string) :
  map toLowerCase tags1 = map toLowerCase tags1' ->
  jaccardSimilarity tags1 tags2 = jaccardSimilarity tags1' tags2.
Proof. unfold jaccardSimilarity. now intros ->. Qed.

Lemma fold_Set_add_present (l : list string) (acc : JsSet) :
  incl l acc -> fold_left Set_add l acc = acc.
Proof.
  induction l as [|x l IH]; intros Hincl; [reflexivity|].
  simpl. unfold Set_add at 2.
  assert (Hx : Set_has acc x = true) by (apply Set_has_In, Hincl; now left).
  rewrite Hx. apply IH. intros y Hy. apply Hincl. now right.
Qed.

Lemma filter_has_self (s : JsSet) : filter (fun x => Set_has s x) s = s.
Proof.
  apply forallb_filter_id, forallb_forall. intros x Hx. now apply Set_has_In.
Qed.

(** On one tag list twice the intersection and the union are both the set
    of its lower-cased tags. *)
Lemma jaccardSimilarity_self (tags : list string) :
  jaccardSimilarity tags tags =
  let size := Set_size (Set_of (map toLowerCase tags)) in
  if Nat.eqb size 0 then lit 0 else (of_nat size / of_nat size)%num.
Proof.
  unfold jaccardSimilarity. cbv zeta.
  set (s := Set_of (map toLowerCase tags)).
  assert (N : NoDup s) by apply Set_of_NoDup.
  rewrite filter_has_self, (Set_of_fresh s N).
  assert (Hu : Set_of (s ++ s) = s).
  { unfold Set_of. rewrite fold_left_app.
    fold (Set_of s). rewrite (Set_of_fresh s N).
    apply fold_Set_add_present, incl_refl. }
  now rewrite Hu.
Qed.

Lemma Set_of_length_le (l : list string) : Set_size (Set_of l) <= List.length l.
Proof.
  apply NoDup_incl_length; [apply Set_of_NoDup|].
  intros x. apply Set_of_In.
Qed.

End Jaccard.

(** On ASCII characters, lower-casing undoes upper-casing. *)
Lemma lower_upper_ascii (c : ascii) :
  (nat_of_ascii c <? 128)%nat = true -> lower_ascii (upper_ascii c) = lower_ascii c.
Proof. intros _. destruct c as [[] [] [] [] [] [] [] []]; reflexivity. Qed.

Lemma toLowerCase_toUpperCase (s : string) :
  ascii_only s = true -> toLowerCase (toUpperCase s) = toLowerCase s.
Proof.
  unfold ascii_only. induction s as [|c s IH]; [reflexivity|].
  cbn [list_ascii_of_string forallb]. intros Hs.
  apply andb_true_iff in Hs as [Hc Hs].
  cbn [toUpperCase toLowerCase]. now rewrite (lower_upper_ascii c Hc), IH.
Qed.

Lemma map_toLowerCase_toUpperCase (tags : list string) :
  Forall (fun tag => ascii_only tag = true) tags ->
  map toLowerCase (map toUpperCase tags) = map toLowerCase tags.
Proof.
  intros Hall. rewrite map_map. apply map_ext_in. intros tag Htag.
  apply toLowerCase_toUpperCase. revert tag Htag. now apply Forall_forall.
Qed.

Lemma of_nat_div_self_double (n : nat) :
  (0 < n)%nat -> (Z.of_nat n < 2 ^ 63)%Z ->
  (of_nat n / of_nat n)%num = (lit 1 : float).
Proof.
  intros Hpos Hlt. simpl. unfold Double.of_Z.
  destruct (IEEE.of_Z_finite (Z.of_nat n)) as (m & e & Hf); [lia|].
  rewrite (IEEE.div_self _ false m e Hf). reflexivity.
Qed.

(** C8: [jaccardSimilarity] is symmetric and reads tags without regard to
    case: tag lists that are the same once lower-cased score the same, so
    upper-casing tags of ASCII characters changes nothing, and
    [jaccard(["A"], ["a"]) = 1]; on a non-empty tag list (of fewer than
    [2^32] tags, as every array has) taken twice it is exactly 1; on two
    empty lists it is 0, a number and not [NaN]. *)
Theorem C8_jaccard_symmetric_reflexive (tags1 tags2 : list string) :
  jaccardSimilarity tags1 tags2 = (jaccardSimilarity tags2 tags1 : float) /\
  (forall tags1' : list string,
     map toLowerCase tags1' = map toLowerCase tags1 ->
     jaccardSimilarity tags1' tags2 = (jaccardSimilarity tags1 tags2 : float)) /\
  (Forall (fun tag => ascii_only tag = true) tags1 ->
   jaccardSimilarity (map toUpperCase tags1) tags2
   = (jaccardSimilarity tags1 tags2 : float)) /\
  jaccardSimilarity ["A"%string] ["a"%string] = (lit 1 : float) /\
  (tags1 <> [] -> (Z.of_nat (List.length tags1) < 2 ^ 32)%Z ->
   jaccardSimilarity tags1 tags1 = (lit 1 : float)) /\
  jaccardSimilarity [] [] = (lit 0 : float) /\
  is_number (jaccardSimilarity [] [] : float).
Proof.
  split; [apply jaccardSimilarity_sym|].
  split; [intros tags1'; apply jaccardSimilarity_case|].
  split.
  { intros Hascii. apply jaccardSimilarity_case.
    now apply map_toLowerCase_toUpperCase. }
  split; [vm_compute; reflexivity|].
  split; [|split; reflexivity].
  intros Hne Hlen. rewrite jaccardSimilarity_self. cbv zeta.
  pose proof (Set_of_length_le (map toLowerCase tags1)) as Hle.
  rewrite length_map in Hle.
  destruct (Set_size (Set_of (map toLowerCase tags1))) as [|n] eqn:E.
  - exfalso. apply Hne. apply length_zero_iff_nil in E.
    apply (proj1 (Set_of_nil_iff _)) in E. now apply map_eq_nil in E.
  - simpl Nat.eqb. apply of_nat_div_self_double; lia.
Qed.

Lemma C8_jaccard_symmetric_reflexive_witness :
  jaccardSimilarity (book_vibeTags (@testBook float _)) (book_vibeTags (@testBook float _))
  = (lit 1 : float).
Proof.
  apply (C8_jaccard_symmetric_reflexive (book_vibeTags (@testBook float _)) []).
  - discriminate.
  - vm_compute. reflexivity.
Defined.

(** ** Vector similarity *)

Section Cosine.

Context {num : Type} `{Number num}.

Lemma cosine_fold (v w : VibeVector num) (ks : list Key) (d a b : num) :
  fold_left (cosine_step v w) ks (d, a, b) =
  (fold_left (fun acc key => (acc + vget v key * vget w key)%num) ks d,
   fold_left (fun acc key => (acc + vget v key * vget v key)%num) ks a,
   fold_left (fun acc key => (acc + vget w key * vget w key)%num) ks b).
Proof.
  revert d a b. induction ks as [|k ks IH]; intros d a b; [reflexivity|].
  simpl. apply IH.
Qed.

(** [cosineSimilarity] is the dot product over the product of the norms,
    and 0 when a norm is 0. *)
Lemma cosineSimilarity_eq (v w : VibeVector num) :
  cosineSimilarity v w =
  if (euclidean_norm v === lit 0)%num || (euclidean_norm w === lit 0)%num then lit 0
  else (dot v w / (euclidean_norm v * euclidean_norm w))%num.
Proof. unfold cosineSimilarity. now rewrite cosine_fold. Qed.


Hypothesis mul_comm : forall x y : num, (x * y)%num = (y * x)%num.



End Cosine.

(** *** In doubles *)



Lemma not_negative_double (x : float) :
  (x <? lit 0)%num = false <-> Sign.not_negative (Prim2SF x).
Proof.
  rewrite Sign.not_negative_spec. cbn [ltb Number_double].
  rewrite FloatAxioms.ltb_spec. reflexivity.
Qed.

Lemma dot_not_negative_double (v w : VibeVector float) :
  (forall key, Sign.not_negative (Prim2SF (vget v key * vget w key)%num)) ->
  Sign.not_negative (Prim2SF (dot v w)).
Proof.
  intros Hp. unfold dot.
  assert (H0 : Sign.not_negative (Prim2SF (lit 0 : float))) by exact I.
  revert H0. generalize (lit 0 : float).
  induction keys as [|k ks IH]; intros acc Hacc; [exact Hacc|].
  cbn [fold_left]. apply IH.
  cbn [add Number_double]. rewrite FloatAxioms.add_spec.
  apply Sign.SFadd_not_negative; [exact Hacc|apply Hp].
Qed.

Lemma euclidean_norm_unsigned_double (v : VibeVector float) :
  (euclidean_norm v === lit 0)%num = false ->
  Sign.unsigned (Prim2SF (euclidean_norm v)).
Proof.
  unfold euclidean_norm. cbn [eqb sqrt Number_double].
  rewrite FloatAxioms.eqb_spec, FloatAxioms.sqrt_spec.
  apply Sign.SFsqrt_unsigned.
Qed.

(** In doubles the cosine of vectors without negative components is never
    below 0 (it can be [NaN], when the components are huge). *)
Lemma cosineSimilarity_not_negative_double (v w : VibeVector float) :
  (forall key, (vget v key <? lit 0)%num = false) ->
  (forall key, (vget w key <? lit 0)%num = false) ->
  (cosineSimilarity v w <? lit 0)%num = false.
Proof.
  intros Hv Hw. rewrite cosineSimilarity_eq.
  destruct (euclidean_norm v === lit 0)%num eqn:Ev; [reflexivity|].
  destruct (euclidean_norm w === lit 0)%num eqn:Ew; [reflexivity|].
  cbn [orb]. apply not_negative_double.
  cbn [div mul Number_double].
  rewrite FloatAxioms.div_spec, FloatAxioms.mul_spec.
  apply Sign.SFdiv_not_negative.
  - apply dot_not_negative_double. intros key.
    cbn [mul Number_double]. rewrite FloatAxioms.mul_spec.
    apply Sign.SFmul_not_negative; apply not_negative_double; auto.
  - apply Sign.SFmul_unsigned; now apply euclidean_norm_unsigned_double.
Qed.

(** *** In exact arithmetic *)

Section CosineReal.

Local Open Scope R_scope.

Definition sum_products (l : list (R * R)) : R :=
  fold_right (fun p acc => fst p * snd p + acc) 0 l.

Lemma fold_left_sum (v w : VibeVector R) (ks : list Key) (acc : R) :
  fold_left (fun acc key => (acc + vget v key * vget w key)%num) ks acc =
  acc + sum_products (map (fun key => (vget v key, vget w key)) ks).
Proof.
  revert acc. induction ks as [|k ks IH]; intros acc; simpl.
  - lra.
  - rewrite IH. simpl. lra.
Qed.

Lemma dot_real (v w : VibeVector R) :
  dot v w = sum_products (map (fun key => (vget v key, vget w key)) keys).
Proof.
  unfold dot. rewrite fold_left_sum. simpl lit. unfold Q2R. simpl. lra.
Qed.

Lemma sum_squares_nonneg (l : list R) :
  0 <= sum_products (map (fun x => (x, x)) l).
Proof. induction l as [|x l IH]; simpl; [lra|nra]. Qed.

Lemma sum_products_nonneg (l : list (R * R)) :
  Forall (fun p => 0 <= fst p /\ 0 <= snd p) l -> 0 <= sum_products l.
Proof. induction 1 as [|p l [Hp1 Hp2] _ IH]; simpl; [lra|nra]. Qed.

(** The Cauchy-Schwarz inequality. *)
Lemma cauchy_schwarz (l : list (R * R)) :
  (sum_products l) ^ 2 <=
  sum_products (map (fun p => (fst p, fst p)) l)
  * sum_products (map (fun p => (snd p, snd p)) l).
Proof.
  induction l as [|[x y] l IH]; simpl; [lra|].
  set (D := sum_products l) in *.
  assert (HA : 0 <= sum_products (map (fun p => (fst p, fst p)) l)).
  { rewrite <- (map_map fst (fun x => (x, x))). apply sum_squares_nonneg. }
  assert (HB : 0 <= sum_products (map (fun p => (snd p, snd p)) l)).
  { rewrite <- (map_map snd (fun x => (x, x))). apply sum_squares_nonneg. }
  set (A := sum_products (map (fun p => (fst p, fst p)) l)) in *.
  set (B := sum_products (map (fun p => (snd p, snd p)) l)) in *.
  assert (Hcross : 2 * (x * y * D) <= x * x * B + y * y * A).
  { assert (H1 : (2 * (x * y * D)) ^ 2 <= (x * x * B + y * y * A) ^ 2).
    { assert (0 <= (x * x * B - y * y * A) ^ 2) by apply pow2_ge_0.
      assert (0 <= (x * y) ^ 2) by apply pow2_ge_0.
      nra. }
    assert (H2 : 0 <= x * x * B + y * y * A) by nra.
    set (X := 2 * (x * y * D)) in *. set (Y := x * x * B + y * y * A) in *.
    destruct (Rle_dec X Y) as [|Hgt]; [assumption|exfalso].
    assert (0 < (X - Y) * (X + Y)) by (apply Rmult_lt_0_compat; lra).
    nra. }
  nra.
Qed.


Lemma dot_self_nonneg (v : VibeVector R) : 0 <= dot v v.
Proof.
  rewrite dot_real, <- (map_map (vget v) (fun x => (x, x))).
  apply sum_squares_nonneg.
Qed.

Lemma eqb_real_false (x y : R) : (x === y)%num = false <-> x <> y.
Proof. simpl. destruct (Req_dec_T x y); split; intros; congruence. Qed.

Lemma lit_real_0 : (lit 0 : R) = 0.
Proof. simpl. unfold Q2R. simpl. lra. Qed.


(** For vectors of non-negative components it lies in [[0, 1]]. *)
Lemma cosineSimilarity_range_real (v w : VibeVector R) :
  (forall key, 0 <= vget v key) -> (forall key, 0 <= vget w key) ->
  0 <= cosineSimilarity v w <= 1.
Proof.
  intros Hv Hw. rewrite cosineSimilarity_eq, lit_real_0.
  destruct ((euclidean_norm v === 0)%num || (euclidean_norm w === 0)%num) eqn:E;
    [lra|].
  apply orb_false_iff in E as [Ev Ew].
  apply eqb_real_false in Ev, Ew.
  unfold euclidean_norm in *. simpl sqrt in *. simpl div. simpl mul.
  pose proof (dot_self_nonneg v) as Hdv. pose proof (dot_self_nonneg w) as Hdw.
  pose proof (sqrt_pos (dot v v)) as Hsv. pose proof (sqrt_pos (dot w w)) as Hsw.
  assert (Hpos : 0 < R_sqrt.sqrt (dot v v) * R_sqrt.sqrt (dot w w))
    by (apply Rmult_lt_0_compat; lra).
  assert (Hd : 0 <= dot v w).
  { rewrite dot_real. apply sum_products_nonneg, Forall_forall.
    intros p Hp. apply in_map_iff in Hp as (k & <- & _). simpl. auto. }
  assert (Hcs : dot v w ^ 2 <= dot v v * dot w w).
  { rewrite !dot_real.
    pose proof (cauchy_schwarz (map (fun key => (vget v key, vget w key)) keys)) as Hc.
    rewrite !map_map in Hc. exact Hc. }
  assert (Hle : dot v w <= R_sqrt.sqrt (dot v v) * R_sqrt.sqrt (dot w w)).
  { rewrite <- sqrt_mult by assumption.
    rewrite <- (sqrt_pow2 (dot v w)) at 1 by assumption.
    now apply sqrt_le_1_alt. }
  split.
  - apply Rmult_le_pos; [assumption|]. left. now apply Rinv_0_lt_compat.
  - apply Rmult_le_reg_r with (R_sqrt.sqrt (dot v v) * R_sqrt.sqrt (dot w w));
      [assumption|].
    unfold Rdiv. rewrite Rmult_assoc, Rinv_l by lra. lra.
Qed.

End CosineReal.




(** ** Scoring one pair: no validation *)

(** *** [NaN] spreads *)

Module NaN.



















End NaN.



(** ** Scores and their explanation *)

Section Factors.

Context {num : Type} `{NumberOrder num}.

Hypothesis add_number : forall x y : num,
  is_number (x + y)%num -> is_number x /\ is_number y.
Hypothesis weight_number : forall x : num,
  is_number x -> is_number (x * lit 0.3)%num.
Hypothesis abs_number : forall x : num, is_number x -> is_number (abs x).
Hypothesis constants_are_numbers :
  Forall is_number [lit (-0.10); lit (-0.05); lit (-0.08); lit (-0.07) : num].

Lemma penalty_factors_numbers (rules : list (bool * num * string)) :
  Forall (fun r => is_number (snd (fst r))) rules ->
  Forall (fun f => is_number (contribution f)) (penalty_factors rules).
Proof.
  intros Hr. unfold penalty_factors, fired.
  apply Forall_forall. intros f Hf.
  apply in_map_iff in Hf as (c & <- & Hc).
  apply in_map_iff in Hc as (r & <- & Hin).
  apply filter_In in Hin as [Hin _]. simpl.
  revert r Hin. now apply Forall_forall.
Qed.

Lemma calculatePenalties_numbers (book : Book num) (songVec : VibeVector num)
    (audio : AudioFeatures num) :
  Forall (fun f => is_number (contribution f))
         (factors (calculatePenalties book songVec audio)).
Proof.
  rewrite calculatePenalties_table. simpl factors.
  apply penalty_factors_numbers.
  inversion constants_are_numbers as [|? ? C1 H1]; subst.
  inversion H1 as [|? ? C2 H2]; subst.
  inversion H2 as [|? ? C3 H3]; subst.
  inversion H3 as [|? ? C4 _]; subst.
  unfold penalty_rules. repeat constructor; assumption.
Qed.

Lemma dimension_factors_numbers (vectorScore : num)
    (topDimensions : list (DimensionMatch num)) :
  is_number (vectorScore * VECTOR_WEIGHT)%num ->
  Forall (fun f => is_number (contribution f))
         (dimension_factors vectorScore topDimensions).
Proof.
  intros Hv. unfold dimension_factors. apply Forall_forall. intros f Hf.
  apply in_flat_map in Hf as (dim & _ & Hf).
  destruct (similarity dim >? lit 0.8)%num; [|destruct Hf].
  destruct Hf as [<-|[]]. simpl. now apply weight_number.
Qed.

(** The explanation is in descending order of absolute contribution
    whenever the weighted scores are numbers. *)
Lemma generateScoringFactors_descending (book : Book num) (song : Song num)
    (songVec : VibeVector num) (tagScore vectorScore : num)
    (penaltyFactors : list (ScoringFactor num)) :
  is_number (tagScore * TAG_WEIGHT)%num ->
  is_number (vectorScore * VECTOR_WEIGHT)%num ->
  Forall (fun f => is_number (contribution f)) penaltyFactors ->
  descending (fun f => abs (contribution f))
    (generateScoringFactors book song songVec tagScore vectorScore penaltyFactors).
Proof.
  intros Ht Hv Hp. unfold generateScoringFactors. cbv zeta.
  apply descending_firstn.
  apply (Array_sort_descending (fun f => abs (contribution f))).
  apply Forall_forall. intros f Hf. apply abs_number.
  apply in_app_iff in Hf as [Hf|Hf]; [apply in_app_iff in Hf as [Hf|Hf]|].
  - destruct (Nat.ltb 0 _); [|destruct Hf].
    destruct Hf as [<-|[]]. exact Ht.
  - revert f Hf. now apply Forall_forall, dimension_factors_numbers.
  - revert f Hf. now apply Forall_forall.
Qed.

(** The label of a dimension is its name: the capital letter given to it
    is taken back at once. *)
Lemma dimension_label (key : Key) :
  toLowerCase (capitalize (key_name key)) = key_name key.
Proof. destruct key; reflexivity. Qed.

(** Following the specification of the composer: the factors in
    priority order, before they are sorted and truncated.  One factor for
    the shared tags when there are any, listing up to 3 of them; one
    factor "strong <dimension> alignment" for each of the top 2 dimensions
    by alignment whose similarity is above 0.8; all penalty factors. *)
Definition composed_factors (book : Book num) (song : Song num)
    (derivedVector : VibeVector num) (tagScore vectorScore : num)
    (penaltyFactors : list (ScoringFactor num)) : list (ScoringFactor num) :=
  let shared := getOverlappingTags (book_vibeTags book) (song_vibeTags song) in
  match shared with
  | [] => []
  | _ :: _ =>
      [{| factor := "Shared vibes: " ++ join ", " (firstn 3 shared);
          contribution := (tagScore * lit 0.55)%num;
          type := positive_factor |}]
  end
  ++ flat_map
       (fun aligned =>
          if (similarity aligned >? lit 0.8)%num then
            [{| factor := "Strong " ++ key_name (dimension aligned) ++ " alignment";
                contribution := (vectorScore * lit 0.35 * lit 0.3)%num;
                type := positive_factor |}]
          else [])
       (getTopMatchingDimensions (vibeVector book) derivedVector 2)
  ++ penaltyFactors.

Local Abbreviation magnitude := (fun f : ScoringFactor num => abs (contribution f)).

(** The code sorts these very factors and keeps the first 3. *)
Lemma generateScoringFactors_composed (book : Book num) (song : Song num)
    (songVec : VibeVector num) (tagScore vectorScore : num)
    (penaltyFactors : list (ScoringFactor num)) :
  generateScoringFactors book song songVec tagScore vectorScore penaltyFactors
  = firstn 3
      (Array_sort (fun a b => (magnitude b - magnitude a)%num)
         (composed_factors book song songVec tagScore vectorScore penaltyFactors)).
Proof.
  unfold generateScoringFactors, composed_factors, dimension_factors. cbv zeta.
  f_equal. f_equal. rewrite <- app_assoc. f_equal.
  - now destruct (getOverlappingTags (book_vibeTags book) (song_vibeTags song)).
  - f_equal. apply flat_map_ext. intros dim.
    now rewrite dimension_label.
Qed.

Lemma composed_factors_numbers (book : Book num) (song : Song num)
    (songVec : VibeVector num) (tagScore vectorScore : num)
    (penaltyFactors : list (ScoringFactor num)) :
  is_number (tagScore * TAG_WEIGHT)%num ->
  is_number (vectorScore * VECTOR_WEIGHT)%num ->
  Forall (fun f => is_number (contribution f)) penaltyFactors ->
  Forall (fun f => is_number (magnitude f))
    (composed_factors book song songVec tagScore vectorScore penaltyFactors).
Proof.
  intros Ht Hv Hp. unfold composed_factors. cbv zeta.
  apply Forall_forall. intros f Hf. apply abs_number.
  apply in_app_iff in Hf as [Hf|Hf]; [|apply in_app_iff in Hf as [Hf|Hf]].
  - destruct (getOverlappingTags _ _); [destruct Hf|].
    destruct Hf as [<-|[]]. exact Ht.
  - apply in_flat_map in Hf as (dim & _ & Hf).
    destruct (similarity dim >? lit 0.8)%num; [|destruct Hf].
    destruct Hf as [<-|[]]. simpl. now apply weight_number.
  - revert f Hf. now apply Forall_forall.
Qed.

(** The explanation of a result whose total score is a number: the
    first 3 of the one stable descending arrangement of the factors. *)
Lemma getMatchResultForSong_explained (book : Book num) (song : Song num) :
  let r := getMatchResultForSong book song in
  let generated :=
    composed_factors book song (deriveVibeVector (audio song)) (tagScore r)
      (vectorScore r)
      (factors (calculatePenalties book (deriveVibeVector (audio song)) (audio song))) in
  is_number (totalScore r) ->
  exists sorted,
    stable_descending_sort magnitude generated sorted /\
    (forall sorted', stable_descending_sort magnitude generated sorted' ->
                     sorted' = sorted) /\
    topFactors r = firstn 3 sorted.
Proof.
  cbv zeta. unfold getMatchResultForSong. cbv zeta. simpl totalScore.
  simpl topFactors. simpl tagScore. simpl vectorScore.
  intros Hn. apply add_number in Hn as [Hn _]. apply add_number in Hn as [Ht Hv].
  set (generated := composed_factors _ _ _ _ _ _).
  assert (Hnum : Forall (fun f => is_number (magnitude f)) generated).
  { apply composed_factors_numbers; try assumption. apply calculatePenalties_numbers. }
  exists (Array_sort (fun a b => (magnitude b - magnitude a)%num) generated).
  split; [apply (Array_sort_stable_descending magnitude), Hnum|].
  split; [intros sorted' Hs; now apply (Array_sort_unique magnitude)|].
  apply generateScoringFactors_composed.
Qed.

Lemma getMatchResultForSong_descending (book : Book num) (song : Song num) :
  is_number (totalScore (getMatchResultForSong book song)) ->
  descending (fun f => abs (contribution f))
    (topFactors (getMatchResultForSong book song)).
Proof.
  unfold getMatchResultForSong. cbv zeta. simpl totalScore. simpl topFactors.
  intros Hn. apply add_number in Hn as [Hn _]. apply add_number in Hn as [Ht Hv].
  apply generateScoringFactors_descending; try assumption.
  apply calculatePenalties_numbers.
Qed.

End Factors.

Section Produced.

Context {num : Type} `{NumberOrder num}.

Lemma generateScoringFactors_length (book : Book num) (song : Song num)
    (songVec : VibeVector num) (tagScore vectorScore : num)
    (penaltyFactors : list (ScoringFactor num)) :
  List.length
    (generateScoringFactors book song songVec tagScore vectorScore penaltyFactors)
  <= 3.
Proof. unfold generateScoringFactors. cbv zeta. apply firstn_le_length. Qed.

(** Every result the engine hands out is [getMatchResultForSong] of a
    book and a song it was given. *)
Lemma matchThemeSong_produced (book : Book num) (songs : list (Song num))
    (r : MatchResult num) :
  matchThemeSong book songs = Returned r ->
  exists s, In s songs /\ r = getMatchResultForSong book s.
Proof.
  destruct songs as [|first rest]; [discriminate|].
  destruct (matchThemeSong_best book first rest) as (pre & s & post & E & Hr & _).
  rewrite Hr. intros [= <-]. exists s. split; [|reflexivity].
  rewrite E. apply in_app_iff. right. now left.
Qed.

Lemma getTopMatches_produced (book : Book num) (songs : list (Song num)) (n : nat)
    (r : MatchResult num) :
  In r (getTopMatches book songs n) ->
  exists s, In s songs /\ r = getMatchResultForSong book s.
Proof.
  unfold getTopMatches. cbv zeta. intros Hr.
  assert (Hin : In r (map (getMatchResultForSong book) songs)).
  { eapply Array_sort_In.
    rewrite <- (firstn_skipn n (Array_sort _ _)). apply in_or_app. left. exact Hr. }
  apply in_map_iff in Hin as (s & <- & Hs). eauto.
Qed.

End Produced.

(** A book of high tension and a mellow song that matches it well: the
    tension rule fires, and three larger positive factors push its factor
    out of the explanation. *)
Definition tenseBook {num : Type} `{Number num} : Book num :=
  {| book_id := "tense-book";
     book_title := "Tense Book";
     author := "Test Author";
     coverImageUrl := "/test.jpg";
     book_vibeTags := ["melancholic"%string; "nostalgic"%string;
                       "intimate"%string; "tender"%string];
     vibeVector :=
       {| melancholy := lit 0.8; intimacy := lit 0.7; intensity := lit 0.4;
          hope := lit 0.3; tension := lit 0.8; warmth := lit 0.5;
          nostalgia := lit 0.9; eeriness := lit 0.2; pace := lit 0.3 |};
     vibeBlurb := "";
     genre := None |}.

Lemma weight_number_double (x : float) :
  is_number x -> is_number (x * lit 0.3)%num.
Proof.
  apply (IEEE.mul_number x (lit 0.3) false 5404319552844595 (-54)).
  vm_compute. reflexivity.
Qed.

Lemma constants_are_numbers_double :
  Forall is_number [lit (-0.10); lit (-0.05); lit (-0.08); lit (-0.07) : float].
Proof. repeat constructor. Qed.

(** C5: every result of the engine is [getMatchResultForSong] of a book
    and a song.  Its tag score is the Jaccard score of the two tag lists,
    its vector score the cosine of the book's vector and the song's derived
    one, its penalty score the total of the penalties, and its total score
    [tagScore*0.55 + vectorScore*0.35 + penaltyScore].  Its explanation has
    at most 3 factors; whenever the total score is a number, it is the
    first 3 of the factors the composer generates (shared tags, aligned
    dimensions, penalties) put in descending order of absolute contribution,
    ties in the order generated, and there is one such arrangement only.  A
    penalty factor can thereby be left out, as on [tenseBook] and
    [perfectMatch]. *)
Theorem C5_total_and_top_factors (book : Book float) (song : Song float) :
  let r := getMatchResultForSong book song in
  let derived := deriveVibeVector (audio song) in
  let penalties := calculatePenalties book derived (audio song) in
  let generated :=
    composed_factors book song derived (tagScore r) (vectorScore r) (factors penalties) in
  tagScore r = jaccardSimilarity (book_vibeTags book) (song_vibeTags song) /\
  vectorScore r = cosineSimilarity (vibeVector book) derived /\
  penaltyScore r = total penalties /\
  totalScore r
  = (tagScore r * lit 0.55 + vectorScore r * lit 0.35 + penaltyScore r)%num /\
  List.length (topFactors r) <= 3 /\
  (is_number (totalScore r) ->
   descending (fun f => abs (contribution f)) (topFactors r) /\
   exists sorted,
     stable_descending_sort (fun f => abs (contribution f)) generated sorted /\
     (forall sorted',
        stable_descending_sort (fun f => abs (contribution f)) generated sorted' ->
        sorted' = sorted) /\
     topFactors r = firstn 3 sorted) /\
  (forall songs r', matchThemeSong book songs = Returned r' ->
     exists s, In s songs /\ r' = getMatchResultForSong book s) /\
  (forall songs n r', In r' (getTopMatches book songs n) ->
     exists s, In s songs /\ r' = getMatchResultForSong book s) /\
  (forall books songs e, In e (matchAllBooksUniquely books songs) ->
     exists b s, In b books /\ In s songs /\
       e = (book_id b, getMatchResultForSong b s)) /\
  (let dropped := getMatchResultForSong (@tenseBook float _) perfectMatch in
   penaltyScore dropped = lit (-0.05) /\
   map type (factors (calculatePenalties (@tenseBook float _)
                        (deriveVibeVector (audio perfectMatch)) (audio perfectMatch)))
   = [negative_factor] /\
   map type (topFactors dropped) = [positive_factor; positive_factor; positive_factor]).
Proof.
  cbv zeta. split; [reflexivity|]. split; [reflexivity|]. split; [reflexivity|].
  split; [reflexivity|].
  split; [apply generateScoringFactors_length|].
  split.
  { intros Hn. split.
    - apply getMatchResultForSong_descending; try assumption.
      + apply IEEE.add_number.
      + apply weight_number_double.
      + apply IEEE.abs_number.
      + apply constants_are_numbers_double.
    - apply getMatchResultForSong_explained; try assumption.
      + apply IEEE.add_number.
      + apply weight_number_double.
      + apply IEEE.abs_number.
      + apply constants_are_numbers_double. }
  split; [apply matchThemeSong_produced|].
  split; [apply getTopMatches_produced|].
  split; [apply matchAllBooksUniquely_entries|].
  repeat split; vm_compute; reflexivity.
Qed.

Lemma C5_total_and_top_factors_witness :
  descending (fun f => abs (contribution f))
    (topFactors (getMatchResultForSong (@testBook float _) perfectMatch)).
Proof.
  apply (C5_total_and_top_factors testBook perfectMatch).
  vm_compute. reflexivity.
Defined.
(** ** Corpus-wide assignment on an empty corpus *)

Section EmptyCorpus.

Context {num : Type} `{Number num}.

Lemma allPairs_no_songs (books : list (Book num)) : allPairs books [] = [].
Proof.
  induction books as [|book books IH]; simpl; auto.
Qed.

Lemma matchAllBooksUniquely_no_books (songs : list (Song num)) :
  matchAllBooksUniquely [] songs = [].
Proof. reflexivity. Qed.

Lemma matchAllBooksUniquely_no_songs (books : list (Book num)) :
  matchAllBooksUniquely books [] = [].
Proof.
  unfold matchAllBooksUniquely. rewrite allPairs_no_songs. reflexivity.
Qed.

(** C10: [matchAllBooksUniquely] called with no books, or with no songs,
    returns the empty map and throws nothing, whereas [matchThemeSong] on
    an empty list of songs throws. *)
Theorem C10_empty_corpus_yields_empty_map :
  (forall songs : list (Song num), matchAllBooksUniquely [] songs = []) /\
  (forall books : list (Book num), matchAllBooksUniquely books [] = []) /\
  (forall book : Book num,
     matchThemeSong book [] = Thrown "No songs available for matching").
Proof.
  split; [|split].
  - apply matchAllBooksUniquely_no_books.
  - apply matchAllBooksUniquely_no_songs.
  - reflexivity.
Qed.

End EmptyCorpus.

(** * More of the engine, and the components around it

    Further properties of the functions of [src/lib/matchThemeSong.ts],
    and the pure computations of the components that call them. *)

(** ** Integers as doubles

    Counts ([Array.length], [Set.size]) are integers held in doubles: below
    [2^53] they are held exactly, and compare as the integers do. *)

Module Integers.
Import IEEE Rounding.
Local Open Scope Z_scope.

Lemma RN_integer (p : positive) :
  Zpos p < 2 ^ 53 -> RN emin (Zpos p * 2 ^ 1074) = Zpos p * 2 ^ 1074.
Proof.
  intros Hp. unfold RN.
  assert (Hpos : 0 < Zpos p * 2 ^ 1074) by lia.
  destruct (Z.eqb_spec (Zpos p * 2 ^ 1074) 0) as [E|_]; [lia|]. cbv zeta.
  rewrite Zdigits2_shift by lia.
  pose proof (digits2_pos_le p 53 Hp) as Hd. unfold Zdigits2.
  set (d := Zpos (digits2_pos p)) in *.
  assert (Hd1 : 1 <= d) by (unfold d; lia).
  replace (fexp (d + 1074 + emin)) with (d - 53)
    by (unfold SpecFloat.fexp, SpecFloat.emin, prec, emax; lia).
  replace (d - 53 - emin) with (d + 1021)
    by (unfold SpecFloat.emin, prec, emax; lia).
  replace (Zpos p * 2 ^ 1074) with ((Zpos p * 2 ^ (53 - d)) * 2 ^ (d + 1021)) at 1.
  - rewrite rne_exact by (apply Z.pow_pos_nonneg; lia).
    rewrite <- Z.mul_assoc, <- Z.pow_add_r by lia. f_equal. f_equal. lia.
  - rewrite <- Z.mul_assoc, <- Z.pow_add_r by lia. f_equal. f_equal. lia.
Qed.

(** An integer below [2^53] is held exactly. *)
Lemma of_Z_units (z : Z) :
  0 <= z < 2 ^ 53 ->
  nonneg (Prim2SF (Double.of_Z z)) /\ units (Double.of_Z z) = z * 2 ^ 1074.
Proof.
  intros Hz. unfold units, Double.of_Z. rewrite of_uint63_spec, Uint63.of_Z_spec.
  rewrite Z.mod_small by (change wB with (2 ^ 63); lia).
  destruct z as [|p|p]; try lia.
  - split; [exact I|reflexivity].
  - unfold binary_normalize.
    destruct (binary_round_value emin 63 0 p) as (Hn & Hv).
    + lia.
    + unfold SpecFloat.emin, prec, emax. lia.
    + replace (0 - emin) with 1074 by (unfold SpecFloat.emin, prec, emax; lia).
      replace (63 - emin) with (63 + 1074) by (unfold SpecFloat.emin, prec, emax; lia).
      rewrite Z.pow_add_r by lia.
      apply Z.mul_lt_mono_pos_r; [apply Z.pow_pos_nonneg; lia|lia].
    + vm_compute. discriminate.
    + split; [exact Hn|]. rewrite Hv.
      replace (0 - emin) with 1074 by (unfold SpecFloat.emin, prec, emax; lia).
      apply RN_integer. lia.
Qed.

Lemma SFltb_value (x y : spec_float) :
  valid_binary x = true -> valid_binary y = true -> nonneg x -> nonneg y ->
  SFltb x y = (SFval emin x <? SFval emin y).
Proof.
  intros Vx Vy Nx Ny.
  pose proof (SFleb_value emin y x (Z.le_refl _) Vy Vx Ny Nx) as Hle.
  assert (Hneg : SFltb x y = negb (SFleb y x)).
  { destruct x as [sx|sx| |sx mx ex], y as [sy|sy| |sy my ey];
      try destruct Nx; try destruct Ny; sf_order. }
  rewrite Hneg, Hle. apply eq_sym, Z.ltb_antisym.
Qed.

Lemma SFeqb_value (x y : spec_float) :
  valid_binary x = true -> valid_binary y = true -> nonneg x -> nonneg y ->
  SFeqb x y = (SFval emin x =? SFval emin y).
Proof.
  intros Vx Vy Nx Ny.
  pose proof (SFleb_value emin y x (Z.le_refl _) Vy Vx Ny Nx) as Hyx.
  pose proof (SFleb_value emin x y (Z.le_refl _) Vx Vy Nx Ny) as Hxy.
  assert (Heq : SFeqb x y = SFleb x y && SFleb y x).
  { destruct x as [sx|sx| |sx mx ex], y as [sy|sy| |sy my ey];
      try destruct Nx; try destruct Ny; sf_order. }
  rewrite Heq, Hxy, Hyx.
  destruct (Z.eqb_spec (SFval emin x) (SFval emin y)) as [->|Hne].
  - now rewrite Z.leb_refl.
  - destruct (Z.leb_spec (SFval emin x) (SFval emin y)),
             (Z.leb_spec (SFval emin y) (SFval emin x)); simpl; try reflexivity; lia.
Qed.

End Integers.

(** Counts below [2^53] compare in doubles as they do as integers. *)
Lemma of_nat_ltb_double (a b : nat) :
  (Z.of_nat a < 2 ^ 53)%Z -> (Z.of_nat b < 2 ^ 53)%Z ->
  ((of_nat a : float) <? of_nat b)%num = Nat.ltb a b.
Proof.
  intros Ha Hb.
  change (PrimFloat.ltb (Double.of_Z (Z.of_nat a)) (Double.of_Z (Z.of_nat b))
          = Nat.ltb a b).
  rewrite FloatAxioms.ltb_spec.
  destruct (Integers.of_Z_units (Z.of_nat a)) as (Na & Ua); [lia|].
  destruct (Integers.of_Z_units (Z.of_nat b)) as (Nb & Ub); [lia|].
  rewrite Integers.SFltb_value by (try apply Prim2SF_valid; assumption).
  unfold Rounding.units in Ua, Ub. rewrite Ua, Ub.
  destruct (Nat.ltb_spec a b), (Z.ltb_spec (Z.of_nat a * 2 ^ 1074) (Z.of_nat b * 2 ^ 1074));
    try reflexivity; exfalso; nia.
Qed.

Lemma of_nat_eqb_double (a b : nat) :
  (Z.of_nat a < 2 ^ 53)%Z -> (Z.of_nat b < 2 ^ 53)%Z ->
  ((of_nat a : float) === of_nat b)%num = Nat.eqb a b.
Proof.
  intros Ha Hb.
  change (PrimFloat.eqb (Double.of_Z (Z.of_nat a)) (Double.of_Z (Z.of_nat b))
          = Nat.eqb a b).
  rewrite FloatAxioms.eqb_spec.
  destruct (Integers.of_Z_units (Z.of_nat a)) as (Na & Ua); [lia|].
  destruct (Integers.of_Z_units (Z.of_nat b)) as (Nb & Ub); [lia|].
  rewrite Integers.SFeqb_value by (try apply Prim2SF_valid; assumption).
  unfold Rounding.units in Ua, Ub. rewrite Ua, Ub.
  destruct (Nat.eqb_spec a b), (Z.eqb_spec (Z.of_nat a * 2 ^ 1074) (Z.of_nat b * 2 ^ 1074));
    try reflexivity; exfalso; nia.
Qed.

Lemma of_nat_number_double (a : nat) :
  (Z.of_nat a < 2 ^ 53)%Z -> is_number (of_nat a : float).
Proof.
  intros Ha. unfold is_number. rewrite of_nat_eqb_double by assumption.
  apply Nat.eqb_refl.
Qed.

(** ** Division in doubles

    A quotient is rounded from the integer quotient and the place of the
    remainder; that is rounding the quotient with two more binary digits
    which record the place. *)

Module Division.
Import IEEE Rounding.
Local Open Scope Z_scope.

Abbreviation fexp := (SpecFloat.fexp prec emax).

(** The place of a remainder, as two more binary digits. *)
Definition loc_code (l : location) : Z :=
  match l with
  | loc_Exact => 0
  | loc_Inexact Lt => 1
  | loc_Inexact Eq => 2
  | loc_Inexact Gt => 3
  end.

Lemma loc_code_range (l : location) : 0 <= loc_code l < 4.
Proof. destruct l as [|[]]; simpl; lia. Qed.

Lemma new_location_exact (m r : Z) :
  (r = 0 -> loc_code (new_location m r) = 0).
Proof.
  intros ->. unfold new_location, new_location_even, new_location_odd.
  now destruct (Z.even m).
Qed.

Lemma shifted_of_loc (q : Z) (l : location) :
  0 <= q -> shifted 4 (4 * q + loc_code l) (shr_record_of_loc q l).
Proof.
  intros Hq. exists (loc_code l).
  destruct l as [|[]]; cbn [shr_record_of_loc shr_m shr_r shr_s loc_code];
    (split; [lia|]); (split; [lia|]); (split; [lia|]);
    split; split; try discriminate; try reflexivity; try lia;
    intros; exfalso; lia.
Qed.

Lemma shifted_iter_from (k : nat) (P m : Z) (mrs : shr_record) :
  0 < P -> shifted P m mrs -> shifted (2 ^ Z.of_nat k * P) m (Nat.iter k shr_1 mrs).
Proof.
  intros HP Hs. induction k as [|k IH].
  - simpl Nat.iter. now rewrite Z.pow_0_r, Z.mul_1_l.
  - rewrite Nat2Z.inj_succ, Z.pow_succ_r, <- Z.mul_assoc by lia. simpl Nat.iter.
    apply shifted_step; [|exact IH].
    apply Z.mul_pos_pos; [apply Z.pow_pos_nonneg; lia|assumption].
Qed.

Lemma Zdigits2_loc (q c : Z) :
  0 < q -> 0 <= c < 4 -> Zdigits2 (4 * q + c) = Zdigits2 q + 2.
Proof.
  intros Hq Hc. destruct q as [|p|p]; try lia.
  destruct (4 * Zpos p + c) as [|p'|p'] eqn:E; try lia.
  unfold Zdigits2. apply digits2_pos_unique. rewrite <- E.
  pose proof (digits2_pos_bounds p) as [Bl Bu].
  set (d := Zpos (digits2_pos p)) in *.
  assert (Hd : 0 < d) by (unfold d; lia).
  replace (d + 2 - 1) with (d - 1 + 2) by lia.
  rewrite !Z.pow_add_r by lia. change (2 ^ 2) with 4. lia.
Qed.

(** Shifting from a place is shifting the number with the two digits. *)
Lemma shr_fexp_loc (q e : Z) (l : location) :
  0 < q -> 0 <= fexp (Zdigits2 q + e) - e ->
  snd (shr_fexp prec emax q e l) = fexp (Zdigits2 q + e) /\
  round_nearest_even (shr_m (fst (shr_fexp prec emax q e l)))
    (loc_of_shr_record (fst (shr_fexp prec emax q e l)))
  = rne (2 ^ (fexp (Zdigits2 q + e) - e + 2)) (4 * q + loc_code l).
Proof.
  intros Hq Hn. unfold shr_fexp, shr.
  destruct (fexp (Zdigits2 q + e) - e) as [|n|n] eqn:En; try lia; simpl fst; simpl snd.
  - split; [lia|]. change (2 ^ (0 + 2)) with 4.
    apply shifted_round; [lia|]. apply shifted_of_loc. lia.
  - split; [lia|]. rewrite iter_pos_nat.
    rewrite Z.pow_add_r by lia. change (2 ^ 2) with 4.
    rewrite <- (positive_nat_Z n).
    apply shifted_round.
    + apply Z.mul_pos_pos; [apply Z.pow_pos_nonneg; lia|lia].
    + apply shifted_iter_from; [lia|]. apply shifted_of_loc. lia.
Qed.

Lemma binary_round_aux_loc (s : bool) (q e : Z) (l : location) :
  0 < q -> 0 <= fexp (Zdigits2 q + e) - e ->
  binary_round_aux prec emax s q e l
  = binary_round_aux prec emax s (4 * q + loc_code l) (e - 2) loc_Exact.
Proof.
  intros Hq Hn. pose proof (loc_code_range l) as Hc.
  assert (Hd : Zdigits2 (4 * q + loc_code l) + (e - 2) = Zdigits2 q + e)
    by (rewrite Zdigits2_loc by assumption; lia).
  destruct (shr_fexp_loc q e l Hq Hn) as [He Hr].
  destruct (shr_fexp_rne (4 * q + loc_code l) (e - 2)) as [He' Hr'];
    [lia|rewrite Hd; lia|].
  rewrite Hd in He', Hr'.
  replace (fexp (Zdigits2 q + e) - (e - 2)) with (fexp (Zdigits2 q + e) - e + 2)
    in Hr' by lia.
  unfold binary_round_aux.
  destruct (shr_fexp prec emax q e l) as [mrs1 e1].
  destruct (shr_fexp prec emax (4 * q + loc_code l) (e - 2) loc_Exact) as [mrs2 e2].
  cbn [fst snd] in *. now rewrite Hr, He, Hr', He'.
Qed.

(** The grid of [2 ^ fine], on which the quotients are measured. *)
Definition fine : Z := -2100.

Lemma bounded_canonical (m : positive) (e : Z) :
  SpecFloat.bounded prec emax m e = true ->
  emin <= e <= emax - prec /\ Zpos (digits2_pos m) <= prec /\
  2 ^ (Zpos (digits2_pos m) - 1) <= Zpos m < 2 ^ Zpos (digits2_pos m).
Proof.
  unfold SpecFloat.bounded, canonical_mantissa. intros Hb.
  apply andb_true_iff in Hb as [Hc He].
  apply Z.eqb_eq in Hc. apply Z.leb_le in He.
  split; [|split; [|apply digits2_pos_bounds]];
    unfold SpecFloat.fexp, SpecFloat.emin in Hc; unfold emin, prec, emax in *; lia.
Qed.

Lemma pow2_lt_inv (a b : Z) : 0 <= b -> 2 ^ a < 2 ^ b -> a < b.
Proof. intros Hb H. apply (Z.pow_lt_mono_r_iff 2); [lia|assumption|assumption]. Qed.

Lemma div_eucl_spec (a b : Z) :
  0 < b -> a = b * fst (Z.div_eucl a b) + snd (Z.div_eucl a b) /\
           0 <= snd (Z.div_eucl a b) < b.
Proof.
  intros Hb. pose proof (Z_div_mod a b ltac:(lia)) as H.
  destruct (Z.div_eucl a b) as [q r]. exact H.
Qed.

Lemma Zdigits2_pow2 (k : Z) : 0 <= k -> Zdigits2 (2 ^ k) = k + 1.
Proof.
  intros Hk. rewrite <- (Z.mul_1_l (2 ^ k)), Zdigits2_shift by lia.
  change (Zdigits2 1) with 1. lia.
Qed.

(** The quotient of two positive doubles [x <= y] with [y <= 2^53 x]:
    it is the rounding of a number [N] of the fine grid, and a multiple
    [B] of [2^-53] is above [N] when it is above the quotient, below [N]
    when it is below the quotient. *)
Lemma SFdiv_between (mx my : positive) (ex ey : Z) :
  SpecFloat.bounded prec emax mx ex = true -> SpecFloat.bounded prec emax my ey = true ->
  Zpos mx * 2 ^ (ex - fine) <= Zpos my * 2 ^ (ey - fine) ->
  Zpos my * 2 ^ (ey - fine) <= 2 ^ 53 * (Zpos mx * 2 ^ (ex - fine)) ->
  exists N,
    0 <= N /\
    nonneg (SF64div (S754_finite false mx ex) (S754_finite false my ey)) /\
    SFval fine (SF64div (S754_finite false mx ex) (S754_finite false my ey))
    = RN fine N /\
    forall B, 0 <= B ->
      (2 ^ 53 * (Zpos mx * 2 ^ (ex - fine)) <= B * (Zpos my * 2 ^ (ey - fine)) ->
       N <= B * 2 ^ (- 53 - fine)) /\
      (B * (Zpos my * 2 ^ (ey - fine)) <= 2 ^ 53 * (Zpos mx * 2 ^ (ex - fine)) ->
       B * 2 ^ (- 53 - fine) <= N).
Proof.
  intros Hbx Hby Hle Hge.
  destruct (bounded_canonical mx ex Hbx) as (Hex & Hdx & Blx & Bux).
  destruct (bounded_canonical my ey Hby) as (Hey & Hdy & Bly & Buy).
  set (d1 := Zpos (digits2_pos mx)) in *. set (d2 := Zpos (digits2_pos my)) in *.
  assert (Hd1 : 0 < d1) by (unfold d1; lia).
  assert (Hd2 : 0 < d2) by (unfold d2; lia).
  assert (Hfine : fine = -2100) by reflexivity.
  assert (Hemin : emin = -1074) by reflexivity.
  assert (Hemax : emax - prec = 971) by reflexivity.
  assert (Hprec : prec = 53) by reflexivity.
  set (a := ex - fine) in *. set (b := ey - fine) in *.
  assert (Ha : 0 <= a) by (unfold a; lia).
  assert (Hb : 0 <= b) by (unfold b; lia).
  assert (Pa : 0 < 2 ^ a) by (apply Z.pow_pos_nonneg; lia).
  assert (Pb : 0 < 2 ^ b) by (apply Z.pow_pos_nonneg; lia).
  (* the exponents of the two numbers are close *)
  assert (HD : - 53 <= d1 + ex - (d2 + ey) <= 0).
  { split.
    - assert (H : 2 ^ (d2 - 1 + b) < 2 ^ (53 + d1 + a)).
      { rewrite !Z.pow_add_r by lia.
        apply Z.le_lt_trans with (Zpos my * 2 ^ b); [nia|].
        apply Z.le_lt_trans with (2 ^ 53 * (Zpos mx * 2 ^ a)); [assumption|].
        assert (0 < 2 ^ 53) by (apply Z.pow_pos_nonneg; lia). nia. }
      apply pow2_lt_inv in H; [unfold a, b in H; lia|lia].
    - assert (H : 2 ^ (d1 - 1 + a) < 2 ^ (d2 + b)).
      { rewrite !Z.pow_add_r by lia.
        apply Z.le_lt_trans with (Zpos mx * 2 ^ a); [nia|].
        apply Z.le_lt_trans with (Zpos my * 2 ^ b); [assumption|]. nia. }
      apply pow2_lt_inv in H; [unfold a, b in H; lia|lia]. }
  unfold SF64div, SFdiv, SFdiv_core_binary. cbn [xorb].
  change (Zdigits2 (Zpos mx)) with d1. change (Zdigits2 (Zpos my)) with d2.
  set (D := d1 + ex - (d2 + ey)) in *.
  assert (HfD : SpecFloat.fexp prec emax D = D - 53).
  { unfold SpecFloat.fexp, SpecFloat.emin. change prec with 53. change emax with 1024. lia. }
  rewrite HfD.
  set (e' := Z.min (D - 53) (ex - ey)).
  assert (He' : - 2045 <= e' <= - 53) by (unfold e'; lia).
  set (s := ex - ey - e').
  assert (Hs : 0 <= s /\ d2 - d1 + 53 <= s) by (unfold s, e', D; lia).
  assert (Hm' : match s with
                | 0 => Zpos mx
                | Zpos _ => Z.shiftl (Zpos mx) s
                | Zneg _ => 0
                end = Zpos mx * 2 ^ s).
  { destruct s as [|p|p] eqn:Es; [simpl; lia| |lia].
    now rewrite Z.shiftl_mul_pow2 by lia. }
  rewrite Hm'. clear Hm'.
  set (m' := Zpos mx * 2 ^ s).
  destruct (div_eucl_spec m' (Zpos my) ltac:(lia)) as [Hqr Hr].
  destruct (Z.div_eucl m' (Zpos my)) as [q r]. cbn [fst snd] in Hqr, Hr.
  set (c := loc_code (new_location (Zpos my) r)).
  assert (Hc : 0 <= c < 4) by apply loc_code_range.
  assert (Hc0 : r = 0 -> c = 0) by apply new_location_exact.
  assert (Ps : 0 < 2 ^ s) by (apply Z.pow_pos_nonneg; lia).
  (* the integer quotient has at least 53 digits *)
  assert (Hq52 : 2 ^ 52 <= q).
  { assert (Hlow : 2 ^ 52 * Zpos my < m').
    { unfold m'.
      apply Z.lt_le_trans with (2 ^ 52 * 2 ^ d2).
      - assert (0 < 2 ^ 52) by (apply Z.pow_pos_nonneg; lia). nia.
      - rewrite <- Z.pow_add_r by lia.
        apply Z.le_trans with (2 ^ (d1 - 1) * 2 ^ s); [|nia].
        rewrite <- Z.pow_add_r by lia. apply Z.pow_le_mono_r; lia. }
    destruct (Z.le_gt_cases (2 ^ 52) q) as [|Hlt]; [assumption|]. exfalso. nia. }
  assert (Hq0 : 0 < q) by (assert (0 < 2 ^ 52) by (apply Z.pow_pos_nonneg; lia); lia).
  assert (Hdq : 53 <= Zdigits2 q).
  { change 53 with (Zdigits2 (2 ^ 52)). apply Zdigits2_mono.
    split; [apply Z.pow_pos_nonneg; lia|assumption]. }
  (* the quotient is at most 1 *)
  set (t := - 53 - e').
  assert (Ht : 0 <= t) by (unfold t; lia).
  assert (Pt : 0 < 2 ^ t) by (apply Z.pow_pos_nonneg; lia).
  assert (Hscale : m' * 2 ^ b = 2 ^ 53 * (Zpos mx * 2 ^ a) * 2 ^ t).
  { unfold m'.
    replace (Zpos mx * 2 ^ s * 2 ^ b) with (Zpos mx * (2 ^ s * 2 ^ b)) by ring.
    rewrite <- Z.pow_add_r by lia.
    replace (2 ^ 53 * (Zpos mx * 2 ^ a) * 2 ^ t)
      with (Zpos mx * (2 ^ 53 * 2 ^ a * 2 ^ t)) by ring.
    rewrite <- !Z.pow_add_r by lia. f_equal. f_equal. unfold s, t, a, b. lia. }
  assert (Hupper : forall B, 0 <= B ->
            2 ^ 53 * (Zpos mx * 2 ^ a) <= B * (Zpos my * 2 ^ b) ->
            4 * q + c <= 4 * (B * 2 ^ t)).
  { intros B HB HBle.
    assert (Hm : m' <= B * 2 ^ t * Zpos my).
    { apply Z.mul_le_mono_pos_r with (2 ^ b); [assumption|].
      rewrite Hscale.
      replace (B * 2 ^ t * Zpos my * 2 ^ b) with (B * (Zpos my * 2 ^ b) * 2 ^ t) by ring.
      apply Z.mul_le_mono_nonneg_r; lia. }
    destruct (Z.eq_dec r 0) as [E|Hne].
    - rewrite (Hc0 E). subst r. nia.
    - assert (q < B * 2 ^ t) by nia. lia. }
  assert (Hlower : forall B, 0 <= B ->
            B * (Zpos my * 2 ^ b) <= 2 ^ 53 * (Zpos mx * 2 ^ a) ->
            4 * (B * 2 ^ t) <= 4 * q + c).
  { intros B HB HBle.
    assert (Hm : B * 2 ^ t * Zpos my <= m').
    { apply Z.mul_le_mono_pos_r with (2 ^ b); [assumption|].
      rewrite Hscale.
      replace (B * 2 ^ t * Zpos my * 2 ^ b) with (B * (Zpos my * 2 ^ b) * 2 ^ t) by ring.
      apply Z.mul_le_mono_nonneg_r; lia. }
    assert (B * 2 ^ t <= q) by nia. lia. }
  assert (Hq1 : q <= 2 ^ (53 + t)).
  { pose proof (Hupper (2 ^ 53) ltac:(lia)) as H.
    rewrite Z.pow_add_r by lia. assert (Hxy : 2 ^ 53 * (Zpos mx * 2 ^ a)
      <= 2 ^ 53 * (Zpos my * 2 ^ b)) by (apply Z.mul_le_mono_nonneg_l; lia).
    specialize (H Hxy). lia. }
  assert (Hdq1 : Zdigits2 q <= 53 + t + 1).
  { rewrite <- Zdigits2_pow2 by lia. apply Zdigits2_mono. lia. }
  assert (Hn : 0 <= SpecFloat.fexp prec emax (Zdigits2 q + e') - e').
  { unfold SpecFloat.fexp, SpecFloat.emin. change prec with 53. change emax with 1024. lia. }
  rewrite (binary_round_aux_loc false q e' _ Hq0 Hn). fold c.
  assert (Hdc : Zdigits2 (4 * q + c) + (e' - 2) = Zdigits2 q + e')
    by (rewrite Zdigits2_loc by assumption; lia).
  destruct (binary_round_aux_value fine (4 * q + c) (e' - 2)) as [Hnn Hval].
  { lia. }
  { rewrite Hdc. lia. }
  { lia. }
  { rewrite Hdc. unfold SpecFloat.fexp, SpecFloat.emin.
    change prec with 53. change emax with 1024. unfold t in Hdq1. lia. }
  exists ((4 * q + c) * 2 ^ (e' - 2 - fine)).
  assert (Pg : 0 < 2 ^ (e' - 2 - fine)) by (apply Z.pow_pos_nonneg; lia).
  assert (Hgrid : forall B, B * 2 ^ (- 53 - fine) = 4 * (B * 2 ^ t) * 2 ^ (e' - 2 - fine)).
  { intros B. replace (- 53 - fine) with (2 + t + (e' - 2 - fine)) by (unfold t; lia).
    rewrite !Z.pow_add_r by lia. change (2 ^ 2) with 4. ring. }
  split; [nia|]. split; [assumption|]. split; [assumption|].
  intros B HB. rewrite Hgrid. split; intros HBle.
  - apply Z.mul_le_mono_nonneg_r; [lia|]. now apply Hupper.
  - apply Z.mul_le_mono_nonneg_r; [lia|]. now apply Hlower.
Qed.

End Division.

(** *** The quotient of two counts *)

Section QuotientOfCounts.

Import IEEE Rounding Division.
Local Open Scope Z_scope.

(** A positive count below [2^53], as a double. *)
Lemma of_nat_finite_double (n : nat) :
  (0 < n)%nat -> Z.of_nat n < 2 ^ 53 ->
  exists m e,
    Prim2SF (of_nat n : float) = S754_finite false m e /\
    SpecFloat.bounded prec emax m e = true /\
    Zpos m * 2 ^ (e - fine) = Z.of_nat n * 2 ^ 2100.
Proof.
  intros Hpos Hlt.
  destruct (Integers.of_Z_units (Z.of_nat n)) as (Hnn & Hu); [lia|].
  pose proof (Prim2SF_valid (Double.of_Z (Z.of_nat n))) as Hv.
  unfold units in Hu. change (of_nat n : float) with (Double.of_Z (Z.of_nat n)).
  destruct (Prim2SF (Double.of_Z (Z.of_nat n))) as [s|s| |s m e];
    try contradiction; cbn [SFval] in Hu; try lia.
  destruct s; [contradiction|].
  exists m, e. split; [reflexivity|]. cbn [valid_binary] in Hv. split; [assumption|].
  destruct (bounded_canonical m e Hv) as (He & _).
  change emin with (-1074) in *. change fine with (-2100).
  replace (e - -2100) with ((e - -1074) + 1026) by lia.
  rewrite Z.pow_add_r, Z.mul_assoc, Hu by lia.
  rewrite <- Z.mul_assoc, <- Z.pow_add_r by lia. reflexivity.
Qed.

Lemma SFval_fine_sign (x : spec_float) :
  valid_binary x = true -> SFval fine x = SFval emin x * 2 ^ 1026.
Proof. intros Hv. now rewrite (SFval_rescale fine x) by (try assumption; discriminate). Qed.

(** The quotient of a positive count by one that is no smaller is a
    number above 0 and at most 1, and below 1 unless the counts are the
    same. *)
Lemma of_nat_div_double (n u : nat) :
  (0 < n <= u)%nat -> Z.of_nat u < 2 ^ 53 ->
  is_number ((of_nat n / of_nat u)%num : float) /\
  (lit 0 <? ((of_nat n / of_nat u)%num : float))%num = true /\
  PrimFloat.leb (lit 0) (of_nat n / of_nat u)%num = true /\
  PrimFloat.leb (of_nat n / of_nat u)%num (lit 1) = true /\
  ((n < u)%nat -> (((of_nat n / of_nat u)%num : float) <? lit 1)%num = true).
Proof.
  intros [Hpos Hle] Hlt.
  destruct (of_nat_finite_double n) as (mx & ex & Ex & Bx & Vx); [lia|lia|].
  destruct (of_nat_finite_double u) as (my & ey & Ey & By & Vy); [lia|lia|].
  set (z := ((of_nat n / of_nat u)%num : float)).
  assert (Ez : Prim2SF z = SF64div (S754_finite false mx ex) (S754_finite false my ey)).
  { unfold z. change (div (of_nat n) (of_nat u) : float)
      with (PrimFloat.div (of_nat n) (of_nat u)).
    now rewrite FloatAxioms.div_spec, Ex, Ey. }
  pose proof (Prim2SF_valid z) as Hvz.
  assert (P2100 : 0 < 2 ^ 2100) by (apply Z.pow_pos_nonneg; lia).
  assert (P53 : 0 < 2 ^ 53) by (apply Z.pow_pos_nonneg; lia).
  destruct (SFdiv_between mx my ex ey Bx By) as (N & HN0 & Hnn & Hval & Hb).
  { rewrite Vx, Vy. apply Z.mul_le_mono_nonneg_r; lia. }
  { rewrite Vx, Vy. nia. }
  rewrite <- Ez in Hnn, Hval. rewrite Vx, Vy in Hb.
  change (- 53 - fine) with 2047 in Hb.
  (* at most 1 *)
  assert (H1 : SFval fine (Prim2SF z) <= 2 ^ 2100).
  { rewrite Hval.
    change (2 ^ 2100) with (RN fine (2 ^ 53 * 2 ^ 2047)).
    apply RN_mono; [discriminate|]. split; [assumption|].
    apply (Hb (2 ^ 53)); [lia|]. nia. }
  (* above 0 *)
  assert (H0 : 2 ^ 2047 <= SFval fine (Prim2SF z)).
  { rewrite Hval.
    change (2 ^ 2047) with (RN fine (1 * 2 ^ 2047)) at 1.
    apply RN_mono; [discriminate|]. split; [lia|].
    apply (Hb 1); [lia|]. nia. }
  (* below 1 *)
  assert (Hlt1 : (n < u)%nat -> SFval fine (Prim2SF z) <= (2 ^ 53 - 1) * 2 ^ 2047).
  { intros Hnu. rewrite Hval.
    change ((2 ^ 53 - 1) * 2 ^ 2047) with (RN fine ((2 ^ 53 - 1) * 2 ^ 2047)).
    apply RN_mono; [discriminate|]. split; [assumption|].
    apply (Hb (2 ^ 53 - 1)); [lia|]. nia. }
  rewrite (SFval_fine_sign _ Hvz) in H1, H0, Hlt1.
  assert (P1026 : 0 < 2 ^ 1026) by (apply Z.pow_pos_nonneg; lia).
  assert (P2047 : 0 < 2 ^ 2047) by (apply Z.pow_pos_nonneg; lia).
  assert (E2100 : 2 ^ 2100 = 2 ^ 1074 * 2 ^ 1026) by (rewrite <- Z.pow_add_r by lia; reflexivity).
  assert (E2047 : 2 ^ 2047 = 2 ^ 1021 * 2 ^ 1026) by (rewrite <- Z.pow_add_r by lia; reflexivity).
  assert (P1021 : 0 < 2 ^ 1021) by (apply Z.pow_pos_nonneg; lia).
  assert (P1074 : 0 < 2 ^ 1074) by (apply Z.pow_pos_nonneg; lia).
  assert (E1074 : 2 ^ 1074 = 2 ^ 53 * 2 ^ 1021) by (rewrite <- Z.pow_add_r by lia; reflexivity).
  set (v := SFval emin (Prim2SF z)) in *.
  assert (Hv1 : v <= 2 ^ 1074) by nia.
  assert (Hv0 : 2 ^ 1021 <= v) by nia.
  assert (Hv2 : (n < u)%nat -> v < 2 ^ 1074).
  { intros Hnu. specialize (Hlt1 Hnu).
    assert (v <= (2 ^ 53 - 1) * 2 ^ 1021) by nia. nia. }
  assert (V0 : valid_binary (Prim2SF 0%float) = true) by reflexivity.
  assert (V1 : valid_binary (Prim2SF 1%float) = true) by reflexivity.
  split; [|split; [|split; [|split]]].
  - unfold is_number. change ((z === z)%num) with (PrimFloat.eqb z z).
    rewrite FloatAxioms.eqb_spec, Integers.SFeqb_value by assumption.
    apply Z.eqb_refl.
  - change ((lit 0 <? z)%num) with (PrimFloat.ltb 0%float z).
    rewrite FloatAxioms.ltb_spec, Integers.SFltb_value by (try assumption; exact I).
    fold v. change (SFval emin (Prim2SF 0%float)) with 0. apply Z.ltb_lt. lia.
  - change (PrimFloat.leb 0%float z = true).
    rewrite FloatAxioms.leb_spec, (SFleb_value emin) by (try assumption; try exact I; lia).
    fold v. change (SFval emin (Prim2SF 0%float)) with 0. apply Z.leb_le. lia.
  - change (PrimFloat.leb z 1%float = true).
    rewrite FloatAxioms.leb_spec, (SFleb_value emin) by (try assumption; try exact I; lia).
    fold v. change (SFval emin (Prim2SF 1%float)) with (2 ^ 1074). apply Z.leb_le. lia.
  - intros Hnu. change ((z <? lit 1)%num) with (PrimFloat.ltb z 1%float).
    rewrite FloatAxioms.ltb_spec, Integers.SFltb_value by (try assumption; exact I).
    fold v. change (SFval emin (Prim2SF 1%float)) with (2 ^ 1074). apply Z.ltb_lt. auto.
Qed.

(** No overlap over a positive count is 0. *)
Lemma of_nat_zero_div_double (u : nat) :
  (0 < u)%nat -> Z.of_nat u < 2 ^ 53 -> ((of_nat 0 / of_nat u)%num : float) = lit 0.
Proof.
  intros Hpos Hlt.
  destruct (of_nat_finite_double u) as (my & ey & Ey & _); [lia|lia|].
  apply Prim2SF_inj.
  change (Prim2SF (PrimFloat.div (of_nat 0) (of_nat u)) = Prim2SF (lit 0)).
  rewrite FloatAxioms.div_spec, Ey. reflexivity.
Qed.

End QuotientOfCounts.

(** ** Tags: [getOverlappingTags], and what [jaccardSimilarity] counts *)

Lemma lower_ascii_idem (c : ascii) : lower_ascii (lower_ascii c) = lower_ascii c.
Proof.
  destruct c as [[] [] [] [] [] [] [] []]; reflexivity.
Qed.

Lemma toLowerCase_idem (s : string) : toLowerCase (toLowerCase s) = toLowerCase s.
Proof.
  induction s as [|c s IH]; [reflexivity|].
  simpl. now rewrite lower_ascii_idem, IH.
Qed.

Lemma getOverlappingTags_In (tags1 tags2 : list string) (x : string) :
  In x (getOverlappingTags tags1 tags2) <->
  In x (map toLowerCase tags1) /\ In x (map toLowerCase tags2).
Proof.
  unfold getOverlappingTags.
  rewrite filter_In, Set_of_In, Set_has_In, Set_of_In. tauto.
Qed.

Lemma getOverlappingTags_NoDup (tags1 tags2 : list string) :
  NoDup (getOverlappingTags tags1 tags2).
Proof. apply NoDup_filter, Set_of_NoDup. Qed.

Lemma getOverlappingTags_perm (tags1 tags2 : list string) :
  Permutation (getOverlappingTags tags1 tags2) (getOverlappingTags tags2 tags1).
Proof. apply filter_has_perm; apply Set_of_NoDup. Qed.

Lemma filter_length_le {A : Type} (f : A -> bool) (l : list A) :
  List.length (filter f l) <= List.length l.
Proof.
  induction l as [|x l IH]; simpl; [lia|]. destruct (f x); simpl; lia.
Qed.

Lemma getOverlappingTags_length (tags1 tags2 : list string) :
  List.length (getOverlappingTags tags1 tags2)
  <= Set_size (Set_of (map toLowerCase tags1)).
Proof. apply filter_length_le. Qed.

(** *** The size of the union *)

Lemma filter_negb_length {A : Type} (f : A -> bool) (l : list A) :
  List.length (filter (fun x => negb (f x)) l) + List.length (filter f l)
  = List.length l.
Proof.
  induction l as [|x l IH]; simpl; [reflexivity|].
  destruct (f x); simpl; lia.
Qed.

Lemma fold_Set_add_length (l : list string) (acc : JsSet) :
  NoDup l ->
  List.length (fold_left Set_add l acc)
  = List.length acc + List.length (filter (fun x => negb (Set_has acc x)) l).
Proof.
  intros Hl. revert acc. induction Hl as [|x l Hx Hl IH]; intros acc; simpl; [lia|].
  unfold Set_add at 2. destruct (Set_has acc x) eqn:E; simpl.
  - apply IH.
  - rewrite IH, length_app. simpl.
    replace (filter (fun y => negb (Set_has (acc ++ [x]) y)) l)
      with (filter (fun y => negb (Set_has acc y)) l); [lia|].
    apply filter_ext_in. intros y Hy. f_equal.
    unfold Set_has. rewrite existsb_app. simpl.
    destruct (String.eqb_spec y x) as [->|_]; [contradiction|].
    now rewrite !orb_false_r.
Qed.

Lemma union_size (s1 s2 : JsSet) :
  NoDup s1 -> NoDup s2 ->
  Set_size (Set_of (s1 ++ s2)) + List.length (filter (fun x => Set_has s2 x) s1)
  = Set_size s1 + Set_size s2.
Proof.
  intros H1 H2. unfold Set_size, Set_of.
  rewrite fold_left_app. fold (Set_of s1). rewrite (Set_of_fresh s1 H1).
  rewrite fold_Set_add_length by assumption.
  rewrite (Permutation_length (filter_has_perm s1 s2 H1 H2)).
  pose proof (filter_negb_length (fun x => Set_has s1 x) s2). lia.
Qed.

Section JaccardCount.

Context {num : Type} `{Number num}.

(** The score is the number of overlapping tags over the number of
    distinct tags of the two lists together. *)
Lemma jaccardSimilarity_count (tags1 tags2 : list string) :
  let a := Set_size (Set_of (map toLowerCase tags1)) in
  let b := Set_size (Set_of (map toLowerCase tags2)) in
  let n := List.length (getOverlappingTags tags1 tags2) in
  n <= a /\ n <= b /\
  jaccardSimilarity tags1 tags2 =
  if Nat.eqb (a + b - n) 0 then lit 0 else (of_nat n / of_nat (a + b - n)%nat)%num.
Proof.
  cbv zeta.
  pose proof (getOverlappingTags_length tags1 tags2) as Ha.
  pose proof (getOverlappingTags_length tags2 tags1) as Hb.
  rewrite <- (Permutation_length (getOverlappingTags_perm tags1 tags2)) in Hb.
  split; [exact Ha|]. split; [exact Hb|].
  unfold jaccardSimilarity. cbv zeta. fold (getOverlappingTags tags1 tags2).
  rewrite (Set_of_fresh (getOverlappingTags tags1 tags2))
    by apply getOverlappingTags_NoDup.
  pose proof (union_size (Set_of (map toLowerCase tags1)) (Set_of (map toLowerCase tags2))
                (Set_of_NoDup _) (Set_of_NoDup _)) as Hu.
  fold (getOverlappingTags tags1 tags2) in Hu.
  replace (Set_size (Set_of (map toLowerCase tags1))
           + Set_size (Set_of (map toLowerCase tags2))
           - List.length (getOverlappingTags tags1 tags2))
    with (Set_size (Set_of (Set_of (map toLowerCase tags1)
                            ++ Set_of (map toLowerCase tags2)))) by lia.
  reflexivity.
Qed.

(** The score depends on the tags as sets: neither their order nor their
    repetitions nor their case count. *)
Lemma Set_of_size_same (l l' : list string) :
  (forall x, In x l <-> In x l') -> Set_size (Set_of l) = Set_size (Set_of l').
Proof.
  intros Hs. apply Permutation_length, NoDup_Permutation; try apply Set_of_NoDup.
  intros x. rewrite !Set_of_In. apply Hs.
Qed.

Lemma getOverlappingTags_size_same (tags1 tags1' tags2 tags2' : list string) :
  (forall x, In x (map toLowerCase tags1) <-> In x (map toLowerCase tags1')) ->
  (forall x, In x (map toLowerCase tags2) <-> In x (map toLowerCase tags2')) ->
  List.length (getOverlappingTags tags1 tags2)
  = List.length (getOverlappingTags tags1' tags2').
Proof.
  intros H1 H2. apply Permutation_length, NoDup_Permutation;
    try apply getOverlappingTags_NoDup.
  intros x. rewrite !getOverlappingTags_In, H1, H2. tauto.
Qed.

Lemma jaccardSimilarity_same_sets (tags1 tags1' tags2 tags2' : list string) :
  (forall x, In x (map toLowerCase tags1) <-> In x (map toLowerCase tags1')) ->
  (forall x, In x (map toLowerCase tags2) <-> In x (map toLowerCase tags2')) ->
  jaccardSimilarity tags1 tags2 = jaccardSimilarity tags1' tags2'.
Proof.
  intros H1 H2.
  destruct (jaccardSimilarity_count tags1 tags2) as (_ & _ & ->).
  destruct (jaccardSimilarity_count tags1' tags2') as (_ & _ & ->).
  now rewrite (Set_of_size_same _ _ H1), (Set_of_size_same _ _ H2),
    (getOverlappingTags_size_same _ _ _ _ H1 H2).
Qed.

End JaccardCount.

(** X1: [getOverlappingTags] returns, without repetition and in lower
    case, exactly the tags that occur in both lists once case is ignored;
    swapping the lists gives the same tags (in another order), and lists
    that are the same once lower-cased give the same result, so that
    upper-casing tags of ASCII characters changes nothing. *)
Theorem X1_overlapping_tags (tags1 tags2 : list string) :
  NoDup (getOverlappingTags tags1 tags2) /\
  (forall x, In x (getOverlappingTags tags1 tags2) <->
     In x (map toLowerCase tags1) /\ In x (map toLowerCase tags2)) /\
  (forall x, In x (getOverlappingTags tags1 tags2) -> toLowerCase x = x) /\
  Permutation (getOverlappingTags tags1 tags2) (getOverlappingTags tags2 tags1) /\
  (forall tags1' tags2' : list string,
     map toLowerCase tags1' = map toLowerCase tags1 ->
     map toLowerCase tags2' = map toLowerCase tags2 ->
     getOverlappingTags tags1' tags2' = getOverlappingTags tags1 tags2) /\
  (Forall (fun tag => ascii_only tag = true) (tags1 ++ tags2) ->
   getOverlappingTags (map toUpperCase tags1) (map toUpperCase tags2)
   = getOverlappingTags tags1 tags2).
Proof.
  split; [apply getOverlappingTags_NoDup|].
  split; [apply getOverlappingTags_In|].
  split; [|split; [apply getOverlappingTags_perm|split]].
  - intros x Hx. apply getOverlappingTags_In in Hx as [Hx _].
    apply in_map_iff in Hx as (t & <- & _). apply toLowerCase_idem.
  - intros tags1' tags2' E1 E2. unfold getOverlappingTags. now rewrite E1, E2.
  - intros Hascii. apply Forall_app in Hascii as [H1 H2].
    unfold getOverlappingTags.
    now rewrite !map_toLowerCase_toUpperCase.
Qed.

(** X2: the tag score counts: it is the number of overlapping tags divided
    by the number of distinct tags of the two lists together (distinct
    once case is ignored), and 0 when there is none. *)
Theorem X2_jaccard_counts_overlap (tags1 tags2 : list string) :
  let a := Set_size (Set_of (map toLowerCase tags1)) in
  let b := Set_size (Set_of (map toLowerCase tags2)) in
  let n := List.length (getOverlappingTags tags1 tags2) in
  n <= a /\ n <= b /\
  (jaccardSimilarity tags1 tags2 : float) =
  if Nat.eqb (a + b - n) 0 then lit 0 else (of_nat n / of_nat (a + b - n)%nat)%num.
Proof. apply jaccardSimilarity_count. Qed.

(** X3: the tag score depends on the two tag lists as sets of lower-case
    tags only: order, repetition and case of the tags are without
    effect. *)
Theorem X3_jaccard_of_sets (tags1 tags1' tags2 tags2' : list string) :
  (forall x, In x (map toLowerCase tags1) <-> In x (map toLowerCase tags1')) ->
  (forall x, In x (map toLowerCase tags2) <-> In x (map toLowerCase tags2')) ->
  (jaccardSimilarity tags1 tags2 : float) = jaccardSimilarity tags1' tags2'.
Proof. apply jaccardSimilarity_same_sets. Qed.

Lemma X3_jaccard_of_sets_witness :
  (jaccardSimilarity ["Dark"; "moody"]%string ["moody"; "calm"]%string : float)
  = jaccardSimilarity ["moody"; "dark"; "MOODY"]%string ["calm"; "Moody"; "calm"]%string.
Proof.
  apply X3_jaccard_of_sets; intros x; simpl; tauto.
Defined.

(** ** Rankings: [getTopMatchingDimensions] and [getTopMatches] *)

Section TopOfSort.

Context {num : Type} `{NumberOrder num} {A : Type}.
Variable key : A -> num.

Local Abbreviation sort_by_key :=
  (Array_sort (fun a b : A => (key b - key a)%num)).

Lemma top_length (n : nat) (l : list A) :
  List.length (firstn n (sort_by_key l)) = Nat.min n (List.length l).
Proof. now rewrite length_firstn, Array_sort_length. Qed.

Lemma descending_app (l1 l2 : list A) :
  descending key (l1 ++ l2) ->
  forall x y, In x l1 -> In y l2 -> (key x <? key y)%num = false.
Proof.
  unfold descending. induction l1 as [|a l1 IH]; intros Hs x y Hx Hy; [destruct Hx|].
  simpl in Hs. inversion Hs as [|? ? Hs' Ha]; subst.
  destruct Hx as [<-|Hx].
  - rewrite Forall_forall in Ha. apply Ha, in_or_app. now right.
  - now apply IH.
Qed.

(** What the ranking keeps is in descending order, and nothing it leaves
    out is above anything it keeps. *)
Lemma top_is_top (n : nat) (l : list A) :
  Forall (fun a => is_number (key a)) l ->
  descending key (firstn n (sort_by_key l)) /\
  forall x y, In x (firstn n (sort_by_key l)) -> In y (skipn n (sort_by_key l)) ->
    (key x <? key y)%num = false.
Proof.
  intros Hnum. pose proof (Array_sort_descending key l Hnum) as Hd.
  split; [now apply descending_firstn|].
  apply descending_app. now rewrite firstn_skipn.
Qed.

Lemma top_or_below (n : nat) (l : list A) (y : A) :
  Forall (fun a => is_number (key a)) l -> In y l ->
  In y (firstn n (sort_by_key l)) \/
  forall x, In x (firstn n (sort_by_key l)) -> (key x <? key y)%num = false.
Proof.
  intros Hnum Hy.
  apply (Array_sort_In (fun a b : A => (key b - key a)%num)) in Hy.
  rewrite <- (firstn_skipn n (sort_by_key l)) in Hy.
  apply in_app_or in Hy as [Hy|Hy]; [now left|right].
  intros x Hx. now apply (proj2 (top_is_top n l Hnum)).
Qed.

(** The first of the ranking is the first element, in the order of the
    input, that no element exceeds. *)
Lemma head_is_first_max (pre post : list A) (s : A) :
  Forall (fun a => is_number (key a)) (pre ++ s :: post) ->
  (forall t, In t pre ->
     (key t === key s)%num = false /\ (key s <? key t)%num = false) ->
  (forall t, In t post -> (key s <? key t)%num = false) ->
  exists rest, sort_by_key (pre ++ s :: post) = s :: rest.
Proof.
  intros Hnum Hpre Hpost.
  set (l := pre ++ s :: post) in *.
  destruct (Array_sort_stable_descending key l Hnum) as (Hperm & Hdesc & Hties).
  assert (Hmax : forall t, In t l -> (key s <? key t)%num = false).
  { intros t Ht. apply in_app_or in Ht as [Ht|[<-|Ht]].
    - now apply Hpre.
    - apply ltb_irrefl.
    - now apply Hpost. }
  rewrite Forall_forall in Hnum.
  assert (Hs : In s l) by (apply in_or_app; right; now left).
  destruct (sort_by_key l) as [|h rest] eqn:E.
  - apply Permutation_nil in Hperm. rewrite Hperm in Hs. destruct Hs.
  - exists rest. f_equal.
    assert (Hh : In h l) by (apply (Permutation_in _ Hperm); now left).
    assert (Hhs : (key h <? key s)%num = false).
    { apply (Permutation_in _ (Permutation_sym Hperm)) in Hs.
      destruct Hs as [<-|Hs]; [apply ltb_irrefl|].
      inversion Hdesc as [|? ? _ Hf]; subst. rewrite Forall_forall in Hf. now apply Hf. }
    pose proof (ltb_total _ _ (Hnum h Hh) (Hnum s Hs) Hhs (Hmax h Hh)) as Htie.
    pose proof (Hties (key s)) as Hf. simpl in Hf. rewrite Htie in Hf.
    unfold l in Hf. rewrite filter_app in Hf. simpl in Hf.
    replace (filter (fun a => (key a === key s)%num) pre) with (@nil A) in Hf.
    + pose proof (Hnum s Hs) as Hn. unfold is_number in Hn. rewrite Hn in Hf.
      simpl in Hf. now inversion Hf.
    + symmetry. clear -Hpre. induction pre as [|a pre IH]; [reflexivity|].
      simpl. rewrite (proj1 (Hpre a (or_introl eq_refl))).
      apply IH. intros t Ht. apply Hpre. now right.
Qed.

End TopOfSort.

(** *** [getTopMatchingDimensions] *)

Section TopDimensions.

Context {num : Type} `{NumberOrder num}.

Definition dimension_match (bookVec songVec : VibeVector num) (key : Key)
    : DimensionMatch num :=
  {| dimension := key;
     bookValue := vget bookVec key;
     songValue := vget songVec key;
     similarity := (lit 1 - abs (vget bookVec key - vget songVec key))%num |}.

Lemma getTopMatchingDimensions_eq (bookVec songVec : VibeVector num) (n : nat) :
  getTopMatchingDimensions bookVec songVec n =
  firstn n (Array_sort (fun a b => (similarity b - similarity a)%num)
              (map (dimension_match bookVec songVec) keys)).
Proof. reflexivity. Qed.

Lemma keys_NoDup : NoDup keys.
Proof. repeat constructor; simpl; intuition discriminate. Qed.

Lemma NoDup_firstn {B : Type} (n : nat) (l : list B) : NoDup l -> NoDup (firstn n l).
Proof.
  intros Hl. rewrite <- (firstn_skipn n l) in Hl. now apply NoDup_app_remove_r in Hl.
Qed.

Lemma In_firstn {B : Type} (n : nat) (l : list B) (x : B) :
  In x (firstn n l) -> In x l.
Proof.
  intros Hx. rewrite <- (firstn_skipn n l). apply in_or_app. now left.
Qed.

Lemma getTopMatchingDimensions_entries (bookVec songVec : VibeVector num) (n : nat)
    (d : DimensionMatch num) :
  In d (getTopMatchingDimensions bookVec songVec n) ->
  d = dimension_match bookVec songVec (dimension d).
Proof.
  rewrite getTopMatchingDimensions_eq. intros Hd.
  apply In_firstn, Array_sort_In, in_map_iff in Hd as (k & <- & _). reflexivity.
Qed.

Lemma getTopMatchingDimensions_NoDup (bookVec songVec : VibeVector num) (n : nat) :
  NoDup (map dimension (getTopMatchingDimensions bookVec songVec n)).
Proof.
  rewrite getTopMatchingDimensions_eq, <- firstn_map. apply NoDup_firstn.
  apply (Permutation_NoDup (l := keys)); [|apply keys_NoDup].
  rewrite (Permutation_map dimension
             (Array_sort_perm (fun a b => (similarity b - similarity a)%num)
                (map (dimension_match bookVec songVec) keys))).
  rewrite map_map. cbn [dimension dimension_match]. now rewrite map_id.
Qed.

Lemma getTopMatchingDimensions_top (bookVec songVec : VibeVector num) (n : nat) :
  (forall key, is_number (similarity (dimension_match bookVec songVec key))) ->
  descending similarity (getTopMatchingDimensions bookVec songVec n) /\
  forall key,
    In key (map dimension (getTopMatchingDimensions bookVec songVec n)) \/
    forall d, In d (getTopMatchingDimensions bookVec songVec n) ->
      (similarity d <? similarity (dimension_match bookVec songVec key))%num = false.
Proof.
  intros Hnum. rewrite getTopMatchingDimensions_eq.
  assert (Hall : Forall (fun a => is_number (similarity a))
                   (map (dimension_match bookVec songVec) keys)).
  { apply Forall_forall. intros a Ha. apply in_map_iff in Ha as (k & <- & _). apply Hnum. }
  split; [apply (top_is_top similarity n _ Hall)|].
  intros key.
  destruct (top_or_below similarity n _ (dimension_match bookVec songVec key) Hall)
    as [Hin|Hbelow].
  - apply in_map. now destruct key; simpl; auto 10.
  - left. now apply (in_map dimension) in Hin.
  - now right.
Qed.

End TopDimensions.

(** *** [getTopMatches] and [matchThemeSong] *)

Section TopMatches.

Context {num : Type} `{NumberOrder num}.
Variable book : Book num.

Lemma getTopMatches_length (songs : list (Song num)) (n : nat) :
  List.length (getTopMatches book songs n) = Nat.min n (List.length songs).
Proof.
  unfold getTopMatches. cbv zeta.
  now rewrite (top_length totalScore), length_map.
Qed.

Lemma scores_numbers (songs : list (Song num)) :
  Forall (fun s => is_number (totalScore (getMatchResultForSong book s))) songs ->
  Forall (fun r => is_number (totalScore r)) (map (getMatchResultForSong book) songs).
Proof.
  intros Hn. apply Forall_forall. intros r Hr.
  apply in_map_iff in Hr as (s & <- & Hs). revert s Hs. now apply Forall_forall.
Qed.

Lemma getTopMatches_top (songs : list (Song num)) (n : nat) :
  Forall (fun s => is_number (totalScore (getMatchResultForSong book s))) songs ->
  descending totalScore (getTopMatches book songs n) /\
  forall s, In s songs ->
    In (getMatchResultForSong book s) (getTopMatches book songs n) \/
    forall r, In r (getTopMatches book songs n) ->
      (totalScore r <? totalScore (getMatchResultForSong book s))%num = false.
Proof.
  intros Hnum. apply scores_numbers in Hnum. unfold getTopMatches. cbv zeta.
  split; [apply (top_is_top totalScore n _ Hnum)|].
  intros s Hs. apply (top_or_below totalScore n _ _ Hnum). now apply in_map.
Qed.

(** The best match is the first of the ranking. *)
Lemma getTopMatches_head (songs : list (Song num)) (n : nat) (r : MatchResult num) :
  Forall (fun s => is_number (totalScore (getMatchResultForSong book s))) songs ->
  matchThemeSong book songs = Returned r ->
  hd_error (getTopMatches book songs (S n)) = Some r.
Proof.
  intros Hnum Hr. destruct songs as [|first rest]; [discriminate|].
  destruct (matchThemeSong_best book first rest) as (pre & s & post & E & Hm & H1 & H2).
  rewrite Hm in Hr. inversion Hr; subst r. clear Hr.
  unfold getTopMatches. cbv zeta. rewrite E, map_app. simpl map.
  apply scores_numbers in Hnum. rewrite E, map_app in Hnum. simpl map in Hnum.
  destruct (head_is_first_max totalScore
              (map (getMatchResultForSong book) pre)
              (map (getMatchResultForSong book) post)
              (getMatchResultForSong book s) Hnum) as (tl & ->).
  - intros t Ht. apply in_map_iff in Ht as (t' & <- & Ht'). apply (H1 t' Ht').
  - intros t Ht. apply in_map_iff in Ht as (t' & <- & Ht'). apply (H2 t' Ht').
  - reflexivity.
Qed.

End TopMatches.

(** X4: [getTopMatchingDimensions] returns [min(n, 9)] entries, one per
    dimension and no dimension twice, each holding the two values of its
    dimension and [1 - |bookValue - songValue|]; when these similarities
    are numbers the entries are in descending order of similarity and
    every dimension left out is no more similar than any that is kept. *)
Theorem X4_top_matching_dimensions (bookVec songVec : VibeVector float) (n : nat) :
  let top := getTopMatchingDimensions bookVec songVec n in
  List.length top = Nat.min n 9 /\
  NoDup (map dimension top) /\
  (forall d, In d top ->
     bookValue d = vget bookVec (dimension d) /\
     songValue d = vget songVec (dimension d) /\
     similarity d = (lit 1 - abs (bookValue d - songValue d))%num) /\
  ((forall key, is_number (lit 1 - abs (vget bookVec key - vget songVec key))%num) ->
   descending similarity top /\
   forall key, In key (map dimension top) \/
     forall d, In d top ->
       (similarity d <? lit 1 - abs (vget bookVec key - vget songVec key))%num = false).
Proof.
  cbv zeta. split; [|split; [|split]].
  - rewrite getTopMatchingDimensions_eq, (top_length similarity), length_map.
    reflexivity.
  - apply getTopMatchingDimensions_NoDup.
  - intros d Hd. apply getTopMatchingDimensions_entries in Hd. now rewrite Hd.
  - intros Hnum. now apply getTopMatchingDimensions_top.
Qed.

Lemma X4_top_matching_dimensions_witness :
  descending similarity
    (getTopMatchingDimensions (vibeVector (@testBook float _))
       (deriveVibeVector (audio perfectMatch)) 2).
Proof.
  apply (X4_top_matching_dimensions (vibeVector testBook)
           (deriveVibeVector (audio perfectMatch)) 2).
  intros []; vm_compute; reflexivity.
Defined.

(** X5: [getTopMatches] returns [min(n, |songs|)] results; when the total
    scores are numbers they are in descending order of total score, and
    every song left out scores no more than any result returned. *)
Theorem X5_top_matches_ranked (book : Book float) (songs : list (Song float)) (n : nat) :
  Forall (fun s => is_number (totalScore (getMatchResultForSong book s))) songs ->
  List.length (getTopMatches book songs n) = Nat.min n (List.length songs) /\
  descending totalScore (getTopMatches book songs n) /\
  forall s, In s songs ->
    In (getMatchResultForSong book s) (getTopMatches book songs n) \/
    forall r, In r (getTopMatches book songs n) ->
      (totalScore r <? totalScore (getMatchResultForSong book s))%num = false.
Proof.
  intros Hnum. split; [apply getTopMatches_length|]. now apply getTopMatches_top.
Qed.

Lemma testSongs_scores_numbers :
  Forall (fun s => is_number (totalScore (getMatchResultForSong (@testBook float _) s)))
         testSongs.
Proof. repeat constructor; vm_compute; reflexivity. Qed.

Lemma X5_top_matches_ranked_witness :
  List.length (getTopMatches (@testBook float _) testSongs 2) = 2 /\
  descending totalScore (getTopMatches (@testBook float _) testSongs 2).
Proof.
  destruct (X5_top_matches_ranked testBook testSongs 2 testSongs_scores_numbers)
    as (Hl & Hd & _).
  split; [exact Hl|exact Hd].
Defined.

(** X6: when the total scores are numbers, the result of [matchThemeSong]
    is the first result of [getTopMatches], whatever positive number of
    results is asked for. *)
Theorem X6_best_match_heads_ranking (book : Book float) (songs : list (Song float))
    (r : MatchResult float) (n : nat) :
  Forall (fun s => is_number (totalScore (getMatchResultForSong book s))) songs ->
  matchThemeSong book songs = Returned r ->
  hd_error (getTopMatches book songs (S n)) = Some r.
Proof. apply getTopMatches_head. Qed.

Lemma X6_best_match_heads_ranking_witness :
  hd_error (getTopMatches (@testBook float _) testSongs 5)
  = Some (getMatchResultForSong testBook perfectMatch).
Proof.
  apply (X6_best_match_heads_ranking testBook testSongs _ 4 testSongs_scores_numbers).
  vm_compute. reflexivity.
Defined.

(** ** Penalties: how far they go *)

Section PenaltyGuards.

Context {num : Type} `{NumberOrder num}.

(** The five rules applied in sequence, as functions of their guards. *)
Definition penalties_of (g1 g2 g3 g4 g5 : bool) : Penalties num :=
  apply_rule g5 (lit (-0.05)) "Song too mellow for intense book"
    (apply_rule g4 (lit (-0.07)) "Song too sad for hopeful book"
       (apply_rule g3 (lit (-0.08)) "Song too warm for eerie book"
          (apply_rule g2 (lit (-0.05)) "Song too mellow for high-tension book"
             (apply_rule g1 (lit (-0.10)) "Song too upbeat for melancholic book"
                {| total := lit 0; factors := [] |})))).

Lemma calculatePenalties_guards (book : Book num) (songVec : VibeVector num)
    (audio : AudioFeatures num) :
  calculatePenalties book songVec audio =
  penalties_of
    ((melancholy (vibeVector book) >? lit 0.7) && (valence audio >? lit 0.7))%num
    ((tension (vibeVector book) >? lit 0.7) && (energy audio <? lit 0.3))%num
    ((eeriness (vibeVector book) >? lit 0.7) && (warmth songVec >? lit 0.7))%num
    ((hope (vibeVector book) >? lit 0.7) && (valence audio <? lit 0.2))%num
    ((intensity (vibeVector book) >? lit 0.8) && (energy audio <? lit 0.25))%num.
Proof. reflexivity. Qed.

(** The first rule wants a valence above 0.7, the fourth one below 0.2:
    they never fire together. *)
Lemma upbeat_not_sad (audio : AudioFeatures num) :
  (lit 0.7 <? lit 0.2)%num = false ->
  ((valence audio >? lit 0.7) && (valence audio <? lit 0.2))%num = false.
Proof.
  intros Hc.
  destruct (valence audio >? lit 0.7)%num eqn:Hhi; [|reflexivity].
  destruct (valence audio <? lit 0.2)%num eqn:Hlo; [|reflexivity].
  now rewrite (ltb_trans _ _ _ Hhi Hlo) in Hc.
Qed.

Lemma first_and_fourth_exclusive (book : Book num) (audio : AudioFeatures num) :
  (lit 0.7 <? lit 0.2)%num = false ->
  (((melancholy (vibeVector book) >? lit 0.7) && (valence audio >? lit 0.7))
   && ((hope (vibeVector book) >? lit 0.7) && (valence audio <? lit 0.2)))%num = false.
Proof.
  intros Hc. pose proof (upbeat_not_sad audio Hc) as Hx.
  destruct (valence audio >? lit 0.7)%num, (valence audio <? lit 0.2)%num;
    try discriminate; now rewrite ?andb_false_r, ?andb_false_l.
Qed.

(** The total is the sum of the contributions of the factors. *)
Lemma penalties_of_total (g1 g2 g3 g4 g5 : bool) :
  total (penalties_of g1 g2 g3 g4 g5) =
  fold_left (fun t f => (t + contribution f)%num)
    (factors (penalties_of g1 g2 g3 g4 g5)) (lit 0).
Proof. destruct g1, g2, g3, g4, g5; reflexivity. Qed.

Lemma penalties_of_length (g1 g2 g3 g4 g5 : bool) :
  g1 && g4 = false -> List.length (factors (penalties_of g1 g2 g3 g4 g5)) <= 4.
Proof. destruct g1, g2, g3, g4, g5; simpl; intros; try discriminate; lia. Qed.

Lemma penalties_of_none (g1 g2 g3 g4 g5 : bool) :
  factors (penalties_of g1 g2 g3 g4 g5) = [] <->
  g1 = false /\ g2 = false /\ g3 = false /\ g4 = false /\ g5 = false.
Proof.
  destruct g1, g2, g3, g4, g5; simpl; split; intros; try discriminate;
    intuition discriminate.
Qed.

Lemma calculatePenalties_negative (book : Book num) (songVec : VibeVector num)
    (audio : AudioFeatures num) :
  Forall (fun f => type f = negative_factor)
    (factors (calculatePenalties book songVec audio)).
Proof.
  rewrite calculatePenalties_guards.
  match goal with
  | |- context [penalties_of ?a ?b ?c ?d ?e] => destruct a, b, c, d, e
  end; repeat constructor.
Qed.

End PenaltyGuards.

(** *** In doubles *)

Lemma penalties_of_bounds_double (g1 g2 g3 g4 g5 : bool) :
  let p : Penalties float := penalties_of g1 g2 g3 g4 g5 in
  g1 && g4 = false ->
  (total p <? lit (-0.28))%num = false /\
  (lit 0 <? total p)%num = false /\
  (factors p = [] <-> total p = lit 0) /\
  Forall (fun f => type f = negative_factor /\ (contribution f <? lit 0)%num = true)
    (factors p).
Proof.
  cbv zeta. destruct g1, g2, g3, g4, g5; intros Hx; try discriminate Hx;
    (split; [vm_compute; reflexivity|]);
    (split; [vm_compute; reflexivity|]);
    (split; [split; intros E; vm_compute in E; try discriminate E;
             try reflexivity; exfalso; revert E; vm_compute; discriminate|]);
    repeat (apply Forall_cons; [split; vm_compute; reflexivity|]); apply Forall_nil.
Qed.

(** X7: in doubles, whatever the book and the song: the first and the
    fourth penalty rule never fire together, so at most four factors are
    returned; each is negative; the total is the sum of their
    contributions, lies between -0.28 and 0, and is 0 exactly when there is
    no factor, which is the case whenever no dimension of the book is
    above its threshold; -0.28 is reached. *)
Theorem X7_penalties_bounded (book : Book float) (songVec : VibeVector float)
    (audio : AudioFeatures float) :
  let p := calculatePenalties book songVec audio in
  List.length (factors p) <= 4 /\
  Forall (fun f => type f = negative_factor /\ (contribution f <? lit 0)%num = true)
    (factors p) /\
  total p = fold_left (fun t f => (t + contribution f)%num) (factors p) (lit 0) /\
  (total p <? lit (-0.28))%num = false /\
  (lit 0 <? total p)%num = false /\
  (factors p = [] <-> total p = lit 0) /\
  ((melancholy (vibeVector book) >? lit 0.7)%num = false ->
   (tension (vibeVector book) >? lit 0.7)%num = false ->
   (eeriness (vibeVector book) >? lit 0.7)%num = false ->
   (hope (vibeVector book) >? lit 0.7)%num = false ->
   (intensity (vibeVector book) >? lit 0.8)%num = false ->
   factors p = [] /\ total p = lit 0) /\
  total (calculatePenalties (@stormBook float _) (deriveVibeVector lullaby) lullaby)
  = lit (-0.28).
Proof.
  cbv zeta. rewrite calculatePenalties_guards.
  pose proof (first_and_fourth_exclusive book audio eq_refl) as Hx.
  match goal with
  | |- context [penalties_of ?a ?b ?c ?d ?e] =>
      destruct (penalties_of_bounds_double a b c d e Hx) as (Hlo & Hhi & Hnone & Hneg)
  end.
  split; [now apply penalties_of_length|].
  split; [exact Hneg|].
  split; [apply penalties_of_total|].
  split; [exact Hlo|]. split; [exact Hhi|]. split; [exact Hnone|].
  split; [|vm_compute; reflexivity].
  intros -> -> -> -> ->. split; reflexivity.
Qed.

(** ** The tag score as a ratio of counts *)

Section JaccardRatio.

Context {num : Type} `{Number num}.

Lemma filter_length_all {A : Type} (f : A -> bool) (l : list A) :
  List.length (filter f l) = List.length l -> forall x, In x l -> f x = true.
Proof.
  induction l as [|a l IH]; intros Hlen x Hx; [destruct Hx|].
  simpl in Hlen. pose proof (filter_length_le f l) as Hle.
  destruct (f a) eqn:E; simpl in Hlen; [|lia].
  destruct Hx as [<-|Hx]; [assumption|]. apply IH; [lia|assumption].
Qed.

Lemma getOverlappingTags_all (tags1 tags2 : list string) :
  List.length (getOverlappingTags tags1 tags2)
  = Set_size (Set_of (map toLowerCase tags1)) <->
  forall x, In x (map toLowerCase tags1) -> In x (map toLowerCase tags2).
Proof.
  unfold getOverlappingTags. split.
  - intros Hlen x Hx. apply Set_of_In in Hx.
    pose proof (filter_length_all _ _ Hlen x Hx) as Hh. cbv beta in Hh.
    apply (proj1 (Set_has_In _ _)) in Hh. exact (proj1 (Set_of_In _ _) Hh).
  - intros Hin. unfold Set_size. f_equal.
    apply forallb_filter_id, forallb_forall. intros x Hx.
    apply Set_has_In, Set_of_In, Hin. exact (proj1 (Set_of_In _ _) Hx).
Qed.

Lemma jaccardSimilarity_ratio (tags1 tags2 : list string) :
  let n := List.length (getOverlappingTags tags1 tags2) in
  exists m : nat,
    n <= m /\ m <= List.length tags1 + List.length tags2 /\
    (m = n <-> forall x, In x (map toLowerCase tags1) <-> In x (map toLowerCase tags2)) /\
    (m = 0 <-> tags1 = [] /\ tags2 = []) /\
    jaccardSimilarity tags1 tags2 =
    if Nat.eqb m 0 then lit 0 else (of_nat n / of_nat m)%num.
Proof.
  cbv zeta.
  destruct (jaccardSimilarity_count tags1 tags2) as (Ha & Hb & E). cbv zeta in E.
  pose proof (getOverlappingTags_all tags1 tags2) as H12.
  pose proof (getOverlappingTags_all tags2 tags1) as H21.
  rewrite (Permutation_length (getOverlappingTags_perm tags2 tags1)) in H21.
  pose proof (Set_of_length_le (map toLowerCase tags1)) as La.
  pose proof (Set_of_length_le (map toLowerCase tags2)) as Lb.
  rewrite length_map in La, Lb.
  set (a := Set_size (Set_of (map toLowerCase tags1))) in *.
  set (b := Set_size (Set_of (map toLowerCase tags2))) in *.
  set (n := List.length (getOverlappingTags tags1 tags2)) in *.
  exists (a + b - n). split; [lia|]. split; [lia|]. split; [|split].
  - split.
    + intros Hm. assert (Han : n = a) by lia. assert (Hbn : n = b) by lia.
      intros x. split; [now apply H12|now apply H21].
    + intros Hs.
      assert (Han : n = a) by (apply H12; intros x; apply Hs).
      assert (Hbn : n = b) by (apply H21; intros x; apply Hs).
      lia.
  - unfold a, b, Set_size in *. split.
    + intros Hm.
      assert (Ha0 : List.length (Set_of (map toLowerCase tags1)) = 0) by lia.
      assert (Hb0 : List.length (Set_of (map toLowerCase tags2)) = 0) by lia.
      apply length_zero_iff_nil, (proj1 (Set_of_nil_iff _)), map_eq_nil in Ha0.
      apply length_zero_iff_nil, (proj1 (Set_of_nil_iff _)), map_eq_nil in Hb0.
      now split.
    + intros [-> ->]. reflexivity.
  - exact E.
Qed.

End JaccardRatio.

(** ** The range of the scores, in exact arithmetic *)

Section ScoreRange.

Local Open Scope R_scope.

Lemma Q2R_lit (n : Z) (d : positive) : (lit (n # d) : R) = IZR n / IZR (Zpos d).
Proof. reflexivity. Qed.

Lemma jaccardSimilarity_real (tags1 tags2 : list string) :
  let n := List.length (getOverlappingTags tags1 tags2) in
  exists m : nat,
    (n <= m)%nat /\
    (m = n <-> forall x, In x (map toLowerCase tags1) <-> In x (map toLowerCase tags2)) /\
    (m = 0%nat <-> tags1 = [] /\ tags2 = []) /\
    (jaccardSimilarity tags1 tags2 : R) = if Nat.eqb m 0 then 0 else INR n / INR m.
Proof.
  cbv zeta.
  destruct (@jaccardSimilarity_ratio R _ tags1 tags2) as (m & Hnm & _ & Hs & He & E).
  exists m. split; [assumption|]. split; [assumption|]. split; [assumption|].
  rewrite E. destruct (Nat.eqb m 0); [apply lit_real_0|reflexivity].
Qed.

Lemma jaccardSimilarity_range_real (tags1 tags2 : list string) :
  0 <= jaccardSimilarity tags1 tags2 <= 1.
Proof.
  destruct (jaccardSimilarity_real tags1 tags2) as (m & Hnm & _ & _ & E).
  cbv zeta in *. rewrite E.
  destruct (Nat.eqb_spec m 0) as [Hm0|Hm0]; [lra|].
  assert (Hmpos : 0 < INR m) by (apply lt_0_INR; lia).
  assert (Hnle : INR (List.length (getOverlappingTags tags1 tags2)) <= INR m)
    by (apply le_INR; lia).
  pose proof (pos_INR (List.length (getOverlappingTags tags1 tags2))) as Hn0.
  assert (Hinv : 0 < / INR m) by now apply Rinv_0_lt_compat.
  unfold Rdiv. split; [nra|].
  apply Rmult_le_reg_r with (INR m); [assumption|].
  rewrite Rmult_assoc, Rinv_l by lra. lra.
Qed.

End ScoreRange.

(** X8: in exact arithmetic the tag score lies in [[0, 1]]; it is 0
    exactly when no tag overlaps, and 1 exactly when the two lists are not
    empty and hold the same tags once case is ignored. *)
Theorem X8_jaccard_range_and_extremes (tags1 tags2 : list string) :
  (0 <= jaccardSimilarity tags1 tags2 <= 1)%R /\
  ((jaccardSimilarity tags1 tags2 : R) = 0%R <-> getOverlappingTags tags1 tags2 = []) /\
  ((jaccardSimilarity tags1 tags2 : R) = 1%R <->
   tags1 <> [] /\
   forall x, In x (map toLowerCase tags1) <-> In x (map toLowerCase tags2)).
Proof.
  destruct (jaccardSimilarity_real tags1 tags2) as (m & Hnm & Hsame & Hempty & E).
  cbv zeta in *.
  set (n := List.length (getOverlappingTags tags1 tags2)) in *.
  destruct (Nat.eqb_spec m 0) as [Hm0|Hm0].
  - (* no tag at all *)
    destruct (proj1 Hempty Hm0) as [-> ->].
    rewrite E. split; [lra|]. split; split; intros; try reflexivity; try lra.
    destruct H as [Hne _]. now exfalso.
  - assert (Hmpos : (0 < INR m)%R) by (apply lt_0_INR; lia).
    assert (Hnle : (INR n <= INR m)%R) by (apply le_INR; lia).
    assert (Hn0 : (0 <= INR n)%R) by apply pos_INR.
    assert (Hinv : (0 < / INR m)%R) by now apply Rinv_0_lt_compat.
    rewrite E. unfold Rdiv. split; [|split].
    + split; [nra|].
      apply Rmult_le_reg_r with (INR m); [assumption|].
      rewrite Rmult_assoc, Rinv_l by lra. lra.
    + split.
      * intros Hz. apply length_zero_iff_nil. fold n.
        assert (Hz' : INR n = 0%R) by nra.
        apply INR_eq. now rewrite Hz'.
      * intros Hnil. unfold n. rewrite Hnil. simpl. lra.
    + split.
      * intros H1.
        assert (Hnm' : INR n = INR m).
        { apply Rmult_eq_reg_r with (/ INR m)%R; [|lra]. rewrite H1, Rinv_r; lra. }
        apply INR_eq in Hnm'. split; [|apply Hsame; congruence].
        intros ->. unfold n in Hnm'. simpl in Hnm'. congruence.
      * intros [Hne Hs]. apply Hsame in Hs. rewrite <- Hs. apply Rinv_r. lra.
Qed.

(** *** Penalties and the total *)

Lemma penalties_of_bounds_real (g1 g2 g3 g4 g5 : bool) :
  g1 && g4 = false ->
  (- 0.28 <= total (penalties_of g1 g2 g3 g4 g5 : Penalties R) <= 0)%R.
Proof.
  destruct g1, g2, g3, g4, g5; intros Hx; try discriminate Hx;
    simpl; unfold Q2R; simpl; lra.
Qed.

Lemma calculatePenalties_bounds_real (book : Book R) (songVec : VibeVector R)
    (audio : AudioFeatures R) :
  (- 0.28 <= total (calculatePenalties book songVec audio) <= 0)%R.
Proof.
  rewrite calculatePenalties_guards. apply penalties_of_bounds_real.
  apply first_and_fourth_exclusive.
  simpl. unfold Q2R. simpl. destruct (Rlt_dec _ _); [lra|reflexivity].
Qed.



(** In exact arithmetic, for a book whose vector has no negative
    component and a song whose five audio features lie in [[0, 1]], the
    tag score and the vector score lie in [[0, 1]], the penalty in
    [[-0.28, 0]] and the total score in [[-0.28, 0.90]].  (In doubles the
    vector score and the total score can end an ulp above.) *)
Lemma scores_range_real (book : Book R) (candidate : Song R) :
  (forall key, (0 <= vget (vibeVector book) key)%R) ->
  audio_in_unit (audio candidate) ->
  let r := getMatchResultForSong book candidate in
  (0 <= tagScore r <= 1)%R /\ (0 <= vectorScore r <= 1)%R /\
  (- 0.28 <= penaltyScore r <= 0)%R /\ (- 0.28 <= totalScore r <= 0.9)%R.
Proof.
  intros Hbook Haudio. cbv zeta.
  pose proof (jaccardSimilarity_range_real (book_vibeTags book)
                (song_vibeTags candidate)) as Htag.
  assert (Hvec : (0 <= cosineSimilarity (vibeVector book)
                         (deriveVibeVector (audio candidate)) <= 1)%R).
  { apply cosineSimilarity_range_real; [assumption|].
    intros key. apply deriveVibeVector_in_unit_real in Haudio.
    apply (proj1 (in_unit_real _) (Haudio key)). }
  pose proof (calculatePenalties_bounds_real book
                (deriveVibeVector (audio candidate)) (audio candidate)) as Hpen.
  unfold getMatchResultForSong. cbv zeta.
  cbn [tagScore vectorScore penaltyScore totalScore].
  split; [exact Htag|]. split; [exact Hvec|]. split; [exact Hpen|].
  unfold TAG_WEIGHT, VECTOR_WEIGHT. simpl add. simpl mul. simpl lit.
  unfold Q2R. simpl. lra.
Qed.


(** ** The range of the tag score, in doubles *)

Section JaccardDouble.

Lemma jaccardSimilarity_double (tags1 tags2 : list string) :
  (Z.of_nat (List.length tags1 + List.length tags2) < 2 ^ 53)%Z ->
  let n := List.length (getOverlappingTags tags1 tags2) in
  exists m : nat,
    n <= m /\
    (m = n <-> forall x, In x (map toLowerCase tags1) <-> In x (map toLowerCase tags2)) /\
    (m = 0 <-> tags1 = [] /\ tags2 = []) /\
    is_number (jaccardSimilarity tags1 tags2 : float) /\
    PrimFloat.leb (lit 0) (jaccardSimilarity tags1 tags2) = true /\
    PrimFloat.leb (jaccardSimilarity tags1 tags2) (lit 1) = true /\
    (n = 0 -> jaccardSimilarity tags1 tags2 = (lit 0 : float)) /\
    (0 < n -> (lit 0 <? (jaccardSimilarity tags1 tags2 : float))%num = true) /\
    (0 < n -> n = m -> jaccardSimilarity tags1 tags2 = (lit 1 : float)) /\
    (n < m -> ((jaccardSimilarity tags1 tags2 : float) <? lit 1)%num = true).
Proof.
  intros Hlen. cbv zeta.
  destruct (@jaccardSimilarity_ratio float _ tags1 tags2) as (m & Hnm & Hm & Hs & He & E).
  cbv zeta in *.
  set (n := List.length (getOverlappingTags tags1 tags2)) in *.
  exists m. split; [assumption|]. split; [assumption|]. split; [assumption|].
  rewrite E. destruct (Nat.eqb_spec m 0) as [Hm0|Hm0].
  - assert (Hn0 : n = 0) by lia.
    split; [reflexivity|]. split; [reflexivity|]. split; [reflexivity|].
    split; [reflexivity|]. repeat split; intros; lia.
  - destruct (Nat.eq_dec n 0) as [Hn0|Hn0].
    + rewrite Hn0, of_nat_zero_div_double by lia.
      split; [reflexivity|]. split; [reflexivity|]. split; [reflexivity|].
      split; [reflexivity|]. split; [intros; lia|]. split; [intros; lia|].
      intros _. reflexivity.
    + destruct (of_nat_div_double n m) as (Hnum & Hpos & Hge & Hle & Hlt); [lia|lia|].
      split; [assumption|]. split; [assumption|]. split; [assumption|].
      split; [intros; lia|]. split; [intros; assumption|].
      split; [|assumption].
      intros _ <-. apply of_nat_div_self_double; lia.
Qed.

End JaccardDouble.

(** X28: in doubles, for tag lists of fewer than [2^53] tags in all, the
    tag score is a number between 0 and 1; it is 0 exactly when no tag
    overlaps, and 1 exactly when the two lists are not empty and hold the
    same tags once case is ignored. *)
Theorem X28_jaccard_range_in_doubles (tags1 tags2 : list string) :
  (Z.of_nat (List.length tags1 + List.length tags2) < 2 ^ 53)%Z ->
  is_number (jaccardSimilarity tags1 tags2 : float) /\
  PrimFloat.leb (lit 0) (jaccardSimilarity tags1 tags2) = true /\
  PrimFloat.leb (jaccardSimilarity tags1 tags2) (lit 1) = true /\
  (jaccardSimilarity tags1 tags2 = (lit 0 : float) <->
   getOverlappingTags tags1 tags2 = []) /\
  (jaccardSimilarity tags1 tags2 = (lit 1 : float) <->
   tags1 <> [] /\
   forall x, In x (map toLowerCase tags1) <-> In x (map toLowerCase tags2)).
Proof.
  intros Hlen.
  destruct (jaccardSimilarity_double tags1 tags2 Hlen)
    as (m & Hnm & Hsame & Hempty & Hnum & Hge & Hle & H0 & Hpos & H1 & Hlt).
  cbv zeta in *.
  set (n := List.length (getOverlappingTags tags1 tags2)) in *.
  split; [assumption|]. split; [assumption|]. split; [assumption|]. split; split.
  - intros E. apply length_zero_iff_nil. fold n.
    destruct (Nat.eq_dec n 0) as [|Hn]; [assumption|].
    specialize (Hpos ltac:(lia)). rewrite E in Hpos. discriminate.
  - intros Hnil. apply H0. unfold n. now rewrite Hnil.
  - intros E.
    assert (Hm : m = n).
    { destruct (Nat.eq_dec m n) as [|Hne]; [assumption|].
      specialize (Hlt ltac:(lia)). rewrite E in Hlt. discriminate. }
    split; [|now apply Hsame].
    intros ->. destruct (Nat.eq_dec n 0) as [Hn|Hn].
    + specialize (H0 Hn). rewrite H0 in E. discriminate.
    + unfold n in Hn. simpl in Hn. congruence.
  - intros [Hne Hs]. apply Hsame in Hs. apply H1; [|congruence].
    destruct (Nat.eq_dec n 0) as [Hn|Hn]; [|lia].
    exfalso. apply Hne. apply Hempty. lia.
Qed.

Lemma X28_jaccard_range_in_doubles_witness :
  PrimFloat.leb (jaccardSimilarity (book_vibeTags (@testBook float _))
                   (song_vibeTags (@perfectMatch float _))) (lit 1) = true.
Proof.
  apply (X28_jaccard_range_in_doubles (book_vibeTags (@testBook float _))
           (song_vibeTags (@perfectMatch float _))).
  simpl. lia.
Defined.

(** ** The range of the scores of a pair, in doubles *)

Section ScoresDouble.

Lemma calculatePenalties_bounds_double (book : Book float) (songVec : VibeVector float)
    (audio : AudioFeatures float) :
  (total (calculatePenalties book songVec audio) <? lit (-0.28))%num = false /\
  (lit 0 <? total (calculatePenalties book songVec audio))%num = false.
Proof.
  rewrite calculatePenalties_guards.
  pose proof (first_and_fourth_exclusive book audio eq_refl) as Hx.
  match goal with
  | |- context [penalties_of ?a ?b ?c ?d ?e] =>
      destruct (penalties_of_bounds_double a b c d e Hx) as (Hlo & Hhi & _)
  end.
  now split.
Qed.

Lemma poorMatch_in_unit : audio_in_unit (audio (@poorMatch float _)).
Proof. unfold audio_in_unit, in_unit, is_number. repeat split; vm_compute; reflexivity. Qed.

End ScoresDouble.

(** X9: in doubles, for a book and a song of fewer than [2^53] tags in
    all, the tag score of their result is a number between 0 and 1 and
    the penalty score lies between -0.28 and 0; when no component of the
    book's vector is negative and the five audio features lie in
    [[0, 1]], the vector score is not below 0.  The upper ends 1 and 0.90
    of the vector score and the total score are not kept: against the book
    that mirrors it, [poorMatch] gets a vector score above 1 and a total
    score above 0.9. *)
Theorem X9_score_range (book : Book float) (candidate : Song float) :
  (Z.of_nat (List.length (book_vibeTags book) + List.length (song_vibeTags candidate))
   < 2 ^ 53)%Z ->
  let r := getMatchResultForSong book candidate in
  (is_number (tagScore r) /\
   PrimFloat.leb (lit 0) (tagScore r) = true /\
   PrimFloat.leb (tagScore r) (lit 1) = true) /\
  ((penaltyScore r <? lit (-0.28))%num = false /\
   (lit 0 <? penaltyScore r)%num = false) /\
  ((forall key, (vget (vibeVector book) key <? lit 0)%num = false) ->
   audio_in_unit (audio candidate) ->
   (vectorScore r <? lit 0)%num = false) /\
  (let over := getMatchResultForSong (@mirrorBook float _) poorMatch in
   vector_in_unit (vibeVector (@mirrorBook float _)) /\
   audio_in_unit (audio (@poorMatch float _)) /\
   (lit 1 <? vectorScore over)%num = true /\
   (lit 0.9 <? totalScore over)%num = true).
Proof.
  intros Hlen. cbv zeta. unfold getMatchResultForSong at 1 2 3 4 5 6. cbv zeta.
  cbn [tagScore vectorScore penaltyScore].
  destruct (jaccardSimilarity_double (book_vibeTags book) (song_vibeTags candidate) Hlen)
    as (m & _ & _ & _ & Hnum & Hge & Hle & _).
  split; [now repeat split|].
  split; [apply calculatePenalties_bounds_double|].
  split.
  - intros Hbook Haudio. apply cosineSimilarity_not_negative_double; [assumption|].
    intros key. apply (deriveVibeVector_in_unit_double _ Haudio key).
  - split; [apply deriveVibeVector_in_unit_double, poorMatch_in_unit|].
    split; [apply poorMatch_in_unit|].
    split; vm_compute; reflexivity.
Qed.

Lemma X9_score_range_witness :
  PrimFloat.leb
    (tagScore (getMatchResultForSong (@testBook float _) perfectMatch)) (lit 1) = true.
Proof.
  apply (X9_score_range testBook perfectMatch). simpl. lia.
Defined.

(** ** Corpus-wide assignment: the order of the map, lookups, one book *)

(** [l'] is [l] with some elements left out. *)
Inductive subsequence {A : Type} : list A -> list A -> Prop :=
| subsequence_nil : subsequence [] []
| subsequence_skip x l' l : subsequence l' l -> subsequence l' (x :: l)
| subsequence_keep x l' l : subsequence l' l -> subsequence (x :: l') (x :: l).

Lemma subsequence_nil_l {A : Type} (l : list A) : subsequence [] l.
Proof. induction l; constructor; assumption. Qed.

Lemma subsequence_In {A : Type} (l' l : list A) (x : A) :
  subsequence l' l -> In x l' -> In x l.
Proof.
  induction 1 as [|y l' l _ IH|y l' l _ IH]; simpl; intros Hx; auto.
  destruct Hx as [->|Hx]; auto.
Qed.

Lemma subsequence_sorted {A : Type} (R : A -> A -> Prop) (l' l : list A) :
  subsequence l' l -> StronglySorted R l -> StronglySorted R l'.
Proof.
  induction 1 as [|y l' l Hs IH|y l' l Hs IH]; intros Hl.
  - constructor.
  - inversion Hl; subst. now apply IH.
  - inversion Hl as [|? ? Hl' Hy]; subst. constructor; [now apply IH|].
    rewrite Forall_forall in *. intros z Hz. apply Hy.
    now apply (subsequence_In l' l).
Qed.

Section GreedyOrder.

Context {num : Type} `{Number num}.

Definition entry_of (p : ScoredPair num) : string * MatchResult num :=
  (pair_book_id p, result p).

(** The loop appends to the map, in the order of the sorted list, the
    pairs it commits. *)
Lemma greedy_loop_appends (n : nat) (pairs : list (ScoredPair num)) (st : Greedy num) :
  map fst (assignments st) = assignedBookIds st ->
  exists picked,
    subsequence picked pairs /\
    assignments (greedy_loop n pairs st) = assignments st ++ map entry_of picked.
Proof.
  revert st. induction pairs as [|p pairs IH]; intros st Hk.
  - exists []. split; [constructor|]. simpl. now rewrite app_nil_r.
  - simpl greedy_loop. fold (pair_book_id p). fold (pair_song_id p).
    destruct (Set_has (assignedBookIds st) (pair_book_id p)) eqn:Eb;
      [|destruct (Set_has (usedSongIds st) (pair_song_id p)) eqn:Es];
      simpl orb; cbv zeta.
    + destruct (IH st Hk) as (picked & Hs & E).
      exists picked. split; [now constructor|assumption].
    + destruct (IH st Hk) as (picked & Hs & E).
      exists picked. split; [now constructor|assumption].
    + apply Set_has_not_In in Eb.
      assert (Hfresh : Map_set (assignments st) (pair_book_id p) (result p)
                       = assignments st ++ [entry_of p])
        by (apply Map_set_fresh; now rewrite Hk).
      set (st' := {| assignments := Map_set (assignments st) (pair_book_id p) (result p);
                     usedSongIds := Set_add (usedSongIds st) (pair_song_id p);
                     assignedBookIds := Set_add (assignedBookIds st) (pair_book_id p) |}).
      assert (Hk' : map fst (assignments st') = assignedBookIds st').
      { unfold st'. cbn [assignments assignedBookIds].
        rewrite Hfresh, map_app, Hk, Set_add_fresh by assumption. reflexivity. }
      match goal with |- context [Nat.eqb ?a n] => destruct (Nat.eqb a n) end.
      * exists [p]. split; [constructor; apply subsequence_nil_l|].
        unfold st'. cbn [assignments map]. exact Hfresh.
      * destruct (IH st' Hk') as (picked & Hs & E).
        exists (p :: picked). split; [now constructor|].
        rewrite E. unfold st'. cbn [assignments map]. rewrite Hfresh, <- app_assoc.
        reflexivity.
Qed.

(** The first pair of the sorted list is always committed. *)
Lemma greedy_loop_first (n : nat) (p : ScoredPair num) (pairs : list (ScoredPair num)) :
  exists tl,
    assignments (greedy_loop n (p :: pairs) greedy_init) = entry_of p :: tl.
Proof.
  cbn [greedy_loop greedy_init assignedBookIds usedSongIds Set_has existsb orb].
  cbv zeta.
  match goal with |- context [Nat.eqb ?a n] => destruct (Nat.eqb a n) end.
  - exists []. reflexivity.
  - match goal with
    | |- context [greedy_loop n pairs ?s] =>
        destruct (greedy_loop_appends n pairs s eq_refl) as (picked & _ & E)
    end.
    exists (map entry_of picked). rewrite E. reflexivity.
Qed.

Lemma Map_get_In {V : Type} (m : JsMap V) (k : string) (v : V) :
  NoDup (map fst m) -> In (k, v) m -> Map_get m k = Some v.
Proof.
  induction m as [|[k' v'] m IH]; intros Hnd Hin; [destruct Hin|].
  simpl in *. inversion Hnd as [|? ? Hk' Hnd']; subst.
  destruct Hin as [E|Hin].
  - inversion E; subst. now rewrite String.eqb_refl.
  - destruct (String.eqb_spec k k') as [->|_]; [|now apply IH].
    exfalso. apply Hk'. now apply (in_map fst) in Hin.
Qed.

Lemma Map_get_None {V : Type} (m : JsMap V) (k : string) :
  ~ In k (map fst m) -> Map_get m k = None.
Proof.
  induction m as [|[k' v'] m IH]; intros Hk; [reflexivity|].
  simpl in *. destruct (String.eqb_spec k k') as [->|_]; [exfalso; auto|].
  apply IH. auto.
Qed.

Lemma NoDup_map_injective {A B : Type} (f : A -> B) (l : list A) (x y : A) :
  NoDup (map f l) -> In x l -> In y l -> f x = f y -> x = y.
Proof.
  induction l as [|a l IH]; intros Hnd Hx Hy E; [destruct Hx|].
  simpl in Hnd. inversion Hnd as [|? ? Ha Hnd']; subst.
  destruct Hx as [->|Hx], Hy as [->|Hy]; auto.
  - exfalso. apply Ha. rewrite E. now apply in_map.
  - exfalso. apply Ha. rewrite <- E. now apply in_map.
Qed.

(** With enough songs every book is in the map, under its identifier, with
    the result of scoring that very book against one of the songs; an
    identifier of no book is not a key. *)
Lemma matchAllBooksUniquely_lookup (books : list (Book num)) (songs : list (Song num)) :
  NoDup (map book_id books) -> NoDup (map song_id songs) ->
  List.length books <= List.length songs ->
  forall book, In book books ->
    exists candidate, In candidate songs /\
      Map_get (matchAllBooksUniquely books songs) (book_id book)
      = Some (getMatchResultForSong book candidate).
Proof.
  intros Hnb Hns Hle book Hb.
  pose proof (matchAllBooksUniquely_keys_nodup books songs) as Hnd.
  pose proof (matchAllBooksUniquely_size_full books songs Hnb Hns Hle) as Hsz.
  assert (Hincl : incl (map fst (matchAllBooksUniquely books songs)) (map book_id books)).
  { intros k Hk. apply in_map_iff in Hk as (e & <- & He).
    apply matchAllBooksUniquely_entries in He as (b & s & Hb' & _ & ->).
    simpl. now apply in_map. }
  assert (Hback : incl (map book_id books) (map fst (matchAllBooksUniquely books songs))).
  { apply NoDup_length_incl; [assumption| |assumption].
    rewrite !length_map. unfold Map_size in Hsz. lia. }
  assert (Hk : In (book_id book) (map fst (matchAllBooksUniquely books songs)))
    by (apply Hback; now apply in_map).
  apply in_map_iff in Hk as ([k r] & Ek & He). simpl in Ek. subst k.
  pose proof (Map_get_In _ _ _ Hnd He) as Hget.
  apply matchAllBooksUniquely_entries in He as (b & s & Hb' & Hs & E).
  inversion E as [[Eid Er]].
  assert (b = book) by (apply (NoDup_map_injective book_id books); auto).
  subst b. exists s. split; [assumption|]. now rewrite Hget, Er.
Qed.

Lemma matchAllBooksUniquely_lookup_none (books : list (Book num))
    (songs : list (Song num)) (id : string) :
  ~ In id (map book_id books) ->
  Map_get (matchAllBooksUniquely books songs) id = None.
Proof.
  intros Hid. apply Map_get_None. intros Hk. apply Hid.
  apply in_map_iff in Hk as (e & <- & He).
  apply matchAllBooksUniquely_entries in He as (b & s & Hb' & _ & ->).
  simpl. now apply in_map.
Qed.

End GreedyOrder.

Section GreedyBest.

Context {num : Type} `{NumberOrder num}.

Lemma sortedPairs_descending (books : list (Book num)) (songs : list (Song num)) :
  Forall (fun p => is_number (totalScore (result p))) (allPairs books songs) ->
  descending (fun p => totalScore (result p)) (sortedPairs books songs).
Proof. apply (Array_sort_descending (fun p => totalScore (result p))). Qed.

(** The map lists its entries best first. *)
Lemma matchAllBooksUniquely_descending (books : list (Book num))
    (songs : list (Song num)) :
  Forall (fun p => is_number (totalScore (result p))) (allPairs books songs) ->
  descending (fun e => totalScore (snd e)) (matchAllBooksUniquely books songs).
Proof.
  intros Hnum. rewrite matchAllBooksUniquely_eq.
  destruct (greedy_loop_appends (List.length books) (sortedPairs books songs)
              greedy_init eq_refl) as (picked & Hs & ->).
  simpl app.
  pose proof (subsequence_sorted _ _ _ Hs (sortedPairs_descending books songs Hnum)) as Hd.
  clear Hs. unfold descending in *.
  induction Hd as [|p l Hl IH Hp]; simpl; constructor; [assumption|].
  rewrite Forall_forall in *. intros e He.
  apply in_map_iff in He as (q & <- & Hq). simpl. now apply Hp.
Qed.

(** Its first entry is the best pair of all. *)
Lemma matchAllBooksUniquely_first (books : list (Book num)) (songs : list (Song num)) :
  Forall (fun p => is_number (totalScore (result p))) (allPairs books songs) ->
  books <> [] -> songs <> [] ->
  exists book candidate tl,
    In book books /\ In candidate songs /\
    matchAllBooksUniquely books songs
    = (book_id book, getMatchResultForSong book candidate) :: tl /\
    forall book' candidate', In book' books -> In candidate' songs ->
      (totalScore (getMatchResultForSong book candidate)
       <? totalScore (getMatchResultForSong book' candidate'))%num = false.
Proof.
  intros Hnum Hb Hs.
  pose proof (sortedPairs_descending books songs Hnum) as Hd.
  destruct (sortedPairs books songs) as [|p rest] eqn:E.
  - exfalso. destruct books as [|b books]; [now apply Hb|].
    destruct songs as [|s songs]; [now apply Hs|].
    assert (Hin : In {| pair_book := b; pair_song := s;
                        result := getMatchResultForSong b s |}
                     (sortedPairs (b :: books) (s :: songs))).
    { apply sortedPairs_In, allPairs_In. exists b, s. simpl. auto. }
    rewrite E in Hin. destruct Hin.
  - assert (Hp : In p (sortedPairs books songs)) by (rewrite E; now left).
    apply sortedPairs_In, allPairs_In in Hp as (book & candidate & Hbk & Hsg & Ep).
    destruct (greedy_loop_first (List.length books) p rest) as (tl & Etl).
    exists book, candidate, tl. split; [assumption|]. split; [assumption|]. split.
    + rewrite matchAllBooksUniquely_eq, E, Etl. now rewrite Ep.
    + intros book' candidate' Hb' Hs'.
      set (q := {| pair_book := book'; pair_song := candidate';
                   result := getMatchResultForSong book' candidate' |}).
      assert (Hq : In q (p :: rest)).
      { rewrite <- E. apply sortedPairs_In, allPairs_In. exists book', candidate'. auto. }
      inversion Hd as [|? ? _ Hall]. rewrite Forall_forall in Hall.
      destruct Hq as [Hq|Hq].
      * rewrite Ep in Hq. unfold q in Hq. injection Hq as -> -> _. apply ltb_irrefl.
      * rewrite Ep in Hall. apply (Hall q Hq).
Qed.

(** One book alone gets its best match. *)
Lemma matchAllBooksUniquely_single (book : Book num) (songs : list (Song num)) :
  Forall (fun s => is_number (totalScore (getMatchResultForSong book s))) songs ->
  matchAllBooksUniquely [book] songs =
  match matchThemeSong book songs with
  | Returned r => [(book_id book, r)]
  | Thrown _ => []
  end.
Proof.
  intros Hnum. destruct songs as [|first rest]; [reflexivity|].
  destruct (matchThemeSong_best book first rest) as (pre & s & post & E & Hm & H1 & H2).
  rewrite Hm, matchAllBooksUniquely_eq. unfold sortedPairs, allPairs.
  cbn [flat_map]. rewrite app_nil_r, E, map_app. cbn [map].
  set (mk := fun song => {| pair_book := book; pair_song := song;
                            result := getMatchResultForSong book song |}).
  destruct (head_is_first_max (fun p : ScoredPair num => totalScore (result p))
              (map mk pre) (map mk post) (mk s)) as (tl & Etl).
  - rewrite E in Hnum. apply Forall_forall. intros p Hp.
    rewrite Forall_forall in Hnum.
    change (mk s :: map mk post) with (map mk (s :: post)) in Hp.
    rewrite <- map_app in Hp. apply in_map_iff in Hp as (t & <- & Ht). now apply Hnum.
  - intros p Hp. apply in_map_iff in Hp as (t & <- & Ht). apply (H1 t Ht).
  - intros p Hp. apply in_map_iff in Hp as (t & <- & Ht). apply (H2 t Ht).
  - cbv beta in Etl.
    change {| pair_book := book; pair_song := s;
              result := getMatchResultForSong book s |} with (mk s).
    rewrite Etl. reflexivity.
Qed.

(** No book is assigned a song that scores above its own best match. *)
Lemma matchAllBooksUniquely_not_above_best (books : list (Book num))
    (songs : list (Song num)) (e : string * MatchResult num) :
  In e (matchAllBooksUniquely books songs) ->
  exists book best,
    In book books /\ fst e = book_id book /\
    matchThemeSong book songs = Returned best /\
    (totalScore best <? totalScore (snd e))%num = false.
Proof.
  intros He.
  apply matchAllBooksUniquely_entries in He as (book & candidate & Hb & Hs & ->).
  destruct songs as [|first rest]; [destruct Hs|].
  destruct (matchThemeSong_best book first rest) as (pre & s & post & E & Hm & H1 & H2).
  exists book, (getMatchResultForSong book s).
  split; [assumption|]. split; [reflexivity|]. split; [assumption|].
  simpl snd. rewrite E in Hs. apply in_app_or in Hs as [Hs|[<-|Hs]].
  - apply (H1 _ Hs).
  - apply ltb_irrefl.
  - apply (H2 _ Hs).
Qed.

End GreedyBest.

(** X11: when the total scores are numbers, the entries of the map
    returned by [matchAllBooksUniquely] come, in the order of the map, in
    descending order of total score; with at least one book and one song
    the first entry is the pair that scores best among all pairs. *)
Theorem X11_assignment_best_first (books : list (Book float)) (songs : list (Song float)) :
  Forall (fun p => is_number (totalScore (result p))) (allPairs books songs) ->
  descending (fun e => totalScore (snd e)) (matchAllBooksUniquely books songs) /\
  (books <> [] -> songs <> [] ->
   exists book candidate tl,
     In book books /\ In candidate songs /\
     matchAllBooksUniquely books songs
     = (book_id book, getMatchResultForSong book candidate) :: tl /\
     forall book' candidate', In book' books -> In candidate' songs ->
       (totalScore (getMatchResultForSong book candidate)
        <? totalScore (getMatchResultForSong book' candidate'))%num = false).
Proof.
  intros Hnum. split.
  - now apply matchAllBooksUniquely_descending.
  - now apply matchAllBooksUniquely_first.
Qed.

Lemma X11_assignment_best_first_witness :
  descending (fun e => totalScore (snd e))
    (matchAllBooksUniquely (@testBooks float _) testSongs).
Proof.
  exact (proj1 (X11_assignment_best_first testBooks testSongs testPairs_are_numbers)).
Defined.

(** X12: when the total scores are numbers, [matchAllBooksUniquely] on a
    single book returns that book with the result [matchThemeSong] finds
    for it, and the empty map when there is no song (where
    [matchThemeSong] throws). *)
Theorem X12_single_book_gets_best_match (book : Book float) (songs : list (Song float)) :
  Forall (fun s => is_number (totalScore (getMatchResultForSong book s))) songs ->
  matchAllBooksUniquely [book] songs =
  match matchThemeSong book songs with
  | Returned r => [(book_id book, r)]
  | Thrown _ => []
  end.
Proof. apply matchAllBooksUniquely_single. Qed.

Lemma X12_single_book_gets_best_match_witness :
  matchAllBooksUniquely [@testBook float _] testSongs =
  match matchThemeSong testBook testSongs with
  | Returned r => [(book_id testBook, r)]
  | Thrown _ => []
  end.
Proof.
  exact (X12_single_book_gets_best_match testBook testSongs testSongs_scores_numbers).
Defined.

(** X13: with pairwise distinct book identifiers, pairwise distinct song
    identifiers and at least as many songs as books, looking a book up in
    the map by its identifier finds the result of scoring that very book
    against one of the songs; an identifier of no book is never a key. *)
Theorem X13_assignment_lookup (books : list (Book float)) (songs : list (Song float)) :
  NoDup (map book_id books) -> NoDup (map song_id songs) ->
  List.length books <= List.length songs ->
  (forall book, In book books ->
     exists candidate, In candidate songs /\
       Map_get (matchAllBooksUniquely books songs) (book_id book)
       = Some (getMatchResultForSong book candidate)) /\
  (forall id, ~ In id (map book_id books) ->
     Map_get (matchAllBooksUniquely books songs) id = None).
Proof.
  intros Hnb Hns Hle. split.
  - now apply matchAllBooksUniquely_lookup.
  - intros id. apply matchAllBooksUniquely_lookup_none.
Qed.

Lemma X13_assignment_lookup_witness :
  (forall book, In book (@testBooks float _) ->
     exists candidate, In candidate testSongs /\
       Map_get (matchAllBooksUniquely testBooks testSongs) (book_id book)
       = Some (getMatchResultForSong book candidate)) /\
  (forall id, ~ In id (map book_id (@testBooks float _)) ->
     Map_get (matchAllBooksUniquely (@testBooks float _) testSongs) id = None).
Proof.
  apply X13_assignment_lookup.
  - exact testBooks_ids_distinct.
  - exact testSongs_ids_distinct.
  - simpl. lia.
Defined.

(** X14: no book is assigned a song that scores above the book's own best
    match: every entry of the map belongs to a book for which
    [matchThemeSong] returns a result that the entry does not exceed. *)
Theorem X14_assignment_not_above_best (books : list (Book float))
    (songs : list (Song float)) :
  Forall (fun e =>
            exists book best,
              In book books /\ fst e = book_id book /\
              matchThemeSong book songs = Returned best /\
              (totalScore best <? totalScore (snd e))%num = false)
    (matchAllBooksUniquely books songs).
Proof.
  apply Forall_forall. intros e He.
  now apply matchAllBooksUniquely_not_above_best.
Qed.

(** ** The explanation: where each factor comes from *)

Section FactorOrigin.

Context {num : Type} `{NumberOrder num}.

Lemma dimension_factors_In (vectorScore : num) (top : list (DimensionMatch num))
    (f : ScoringFactor num) :
  In f (dimension_factors vectorScore top) ->
  exists dim, In dim top /\ (similarity dim >? lit 0.8)%num = true /\
    f = {| factor := "Strong " ++ key_name (dimension dim) ++ " alignment";
           contribution := (vectorScore * VECTOR_WEIGHT * lit 0.3)%num;
           type := positive_factor |}.
Proof.
  unfold dimension_factors. intros Hf.
  apply in_flat_map in Hf as (dim & Hd & Hf). exists dim. split; [assumption|].
  destruct (similarity dim >? lit 0.8)%num; [|destruct Hf].
  split; [reflexivity|]. destruct Hf as [<-|[]].
  cbv zeta. now rewrite dimension_label.
Qed.

Lemma generateScoringFactors_In (book : Book num) (song : Song num)
    (songVec : VibeVector num) (tagScore vectorScore : num)
    (penaltyFactors : list (ScoringFactor num)) (f : ScoringFactor num) :
  In f (generateScoringFactors book song songVec tagScore vectorScore penaltyFactors) ->
  (getOverlappingTags (book_vibeTags book) (song_vibeTags song) <> [] /\
   f = {| factor := "Shared vibes: " ++
                    join ", " (firstn 3 (getOverlappingTags (book_vibeTags book)
                                           (song_vibeTags song)));
          contribution := (tagScore * TAG_WEIGHT)%num;
          type := positive_factor |}) \/
  (exists dim,
     In dim (getTopMatchingDimensions (vibeVector book) songVec 2) /\
     (similarity dim >? lit 0.8)%num = true /\
     f = {| factor := "Strong " ++ key_name (dimension dim) ++ " alignment";
            contribution := (vectorScore * VECTOR_WEIGHT * lit 0.3)%num;
            type := positive_factor |}) \/
  In f penaltyFactors.
Proof.
  unfold generateScoringFactors. cbv zeta. intros Hf.
  apply In_firstn, Array_sort_In in Hf.
  apply in_app_or in Hf as [Hf|Hf]; [apply in_app_or in Hf as [Hf|Hf]|].
  - left.
    destruct (getOverlappingTags (book_vibeTags book) (song_vibeTags song)) as [|t ts];
      [destruct Hf|].
    simpl in Hf. destruct Hf as [<-|[]]. split; [discriminate|reflexivity].
  - right. left. now apply dimension_factors_In.
  - right. now right.
Qed.

End FactorOrigin.

(** X15: every factor of the explanation of a result is one of: the
    "Shared vibes" factor, present only when tags overlap, positive, worth
    [tagScore * 0.55] and naming the first three overlapping tags; a
    "Strong <dimension> alignment" factor for one of the two most similar
    dimensions, whose similarity is above 0.8, positive and worth
    [vectorScore * 0.35 * 0.3] whatever the dimension; or one of the
    penalty factors. *)
Theorem X15_explanation_factors (book : Book float) (candidate : Song float) :
  let r := getMatchResultForSong book candidate in
  let overlap := getOverlappingTags (book_vibeTags book) (song_vibeTags candidate) in
  let derived := deriveVibeVector (audio candidate) in
  Forall (fun f =>
    (overlap <> [] /\
     f = {| factor := "Shared vibes: " ++ join ", " (firstn 3 overlap);
            contribution := (tagScore r * lit 0.55)%num;
            type := positive_factor |}) \/
    (exists key,
       In key (map dimension (getTopMatchingDimensions (vibeVector book) derived 2)) /\
       (lit 1 - abs (vget (vibeVector book) key - vget derived key) >? lit 0.8)%num = true /\
       f = {| factor := "Strong " ++ key_name key ++ " alignment";
              contribution := (vectorScore r * lit 0.35 * lit 0.3)%num;
              type := positive_factor |}) \/
    (In f (factors (calculatePenalties book derived (audio candidate))) /\
     type f = negative_factor))
    (topFactors r).
Proof.
  cbv zeta. apply Forall_forall. intros f Hf.
  unfold getMatchResultForSong in Hf. cbv zeta in Hf. cbn [topFactors] in Hf.
  apply generateScoringFactors_In in Hf as [Hf|[(dim & Hd & Hs & Hf)|Hf]].
  - left. exact Hf.
  - right. left. exists (dimension dim).
    pose proof (getTopMatchingDimensions_entries _ _ _ _ Hd) as Ed.
    split; [now apply in_map|]. split; [|exact Hf].
    rewrite Ed in Hs. exact Hs.
  - right. right. split; [assumption|].
    pose proof (calculatePenalties_negative book (deriveVibeVector (audio candidate))
                  (audio candidate)) as Hneg.
    rewrite Forall_forall in Hneg. now apply Hneg.
Qed.

(** * The bookshelf: what its computations do *)

(** ** [includes] finds a substring *)

Lemma startsWith_spec (s sub : string) :
  startsWith s sub = true <-> exists post, s = (sub ++ post)%string.
Proof.
  revert s. induction sub as [|c sub IH]; intros s.
  - destruct s; simpl; split; eauto.
  - destruct s as [|d s]; simpl.
    + split; [discriminate|]. intros (post & E). discriminate.
    + rewrite andb_true_iff, IH. split.
      * intros (Ec & post & ->). apply Ascii.eqb_eq in Ec. subst. eauto.
      * intros (post & E). inversion E; subst. rewrite Ascii.eqb_refl. eauto.
Qed.

Lemma includes_spec (s sub : string) :
  includes s sub = true <-> exists pre post, s = (pre ++ sub ++ post)%string.
Proof.
  induction s as [|d s IH].
  - cbn [includes]. rewrite orb_false_r, startsWith_spec. split.
    + intros (post & E). exists EmptyString, post. exact E.
    + intros ([|c pre] & post & E); [eauto|discriminate].
  - cbn [includes]. rewrite orb_true_iff, startsWith_spec, IH. split.
    + intros [(post & E)|(pre & post & E)].
      * exists EmptyString, post. exact E.
      * exists (String d pre), post. simpl. now rewrite E.
    + intros ([|c pre] & post & E).
      * left. eauto.
      * right. inversion E; subst. eauto.
Qed.

Lemma includes_empty (s : string) : includes s EmptyString = true.
Proof. apply includes_spec. exists EmptyString, s. reflexivity. Qed.

(** ** [inferGenre] *)

Section InferGenre.

Variable bookTags : JsSet.

Definition rule_score (rule : GenreRule) : nat :=
  matchCount bookTags rule * rule_priority rule.

Definition found (rule : GenreRule) : GenreMatch :=
  {| best_genre := rule_genre rule; best_score := rule_score rule;
     best_priority := rule_priority rule |}.

Lemma inferGenre_step_none (rules : list GenreRule) :
  (forall r, In r rules -> matchCount bookTags r = 0) ->
  forall acc, fold_left (inferGenre_step bookTags) rules acc = acc.
Proof.
  induction rules as [|r rules IH]; intros Hz acc; [reflexivity|].
  cbn [fold_left]. unfold inferGenre_step at 2.
  rewrite (Hz r (or_introl eq_refl)). cbn. apply IH. intros r' Hr'. apply Hz. now right.
Qed.

(** Once a rule scores, the loop keeps the first rule of greatest score
    among those that count at least one tag. *)
Lemma inferGenre_step_best (rules pre mid : list GenreRule) (rule : GenreRule) :
  0 < matchCount bookTags rule ->
  (forall r, In r pre -> matchCount bookTags r = 0 \/ rule_score r < rule_score rule) ->
  (forall r, In r mid -> matchCount bookTags r = 0 \/ rule_score r <= rule_score rule) ->
  exists pre' rule' post',
    pre ++ rule :: mid ++ rules = pre' ++ rule' :: post' /\
    fold_left (inferGenre_step bookTags) rules (Some (found rule)) = Some (found rule') /\
    0 < matchCount bookTags rule' /\
    (forall r, In r pre' ->
       matchCount bookTags r = 0 \/ rule_score r < rule_score rule') /\
    (forall r, In r post' ->
       matchCount bookTags r = 0 \/ rule_score r <= rule_score rule').
Proof.
  revert pre mid rule. induction rules as [|x rules IH]; intros pre mid rule Hc Hpre Hmid.
  - exists pre, rule, mid. rewrite app_nil_r. auto.
  - cbn [fold_left]. unfold inferGenre_step at 2. cbv zeta.
    destruct (Nat.ltb_spec 0 (matchCount bookTags x)) as [Hx|Hx].
    + cbn [best_score found]. fold (rule_score x). fold (found x).
      destruct (Nat.ltb_spec (rule_score rule) (rule_score x)) as [Hlt|Hge].
      * destruct (IH (pre ++ rule :: mid) [] x Hx) as (pre' & r' & post' & E & Hf & H1 & H2 & H3).
        -- intros r Hr. apply in_app_or in Hr as [Hr|[<-|Hr]].
           ++ destruct (Hpre r Hr); [now left|right; lia].
           ++ right. lia.
           ++ destruct (Hmid r Hr); [now left|right; lia].
        -- intros r [].
        -- exists pre', r', post'. rewrite <- E, <- app_assoc. simpl. auto.
      * destruct (IH pre (mid ++ [x]) rule Hc Hpre) as (pre' & r' & post' & E & Hf & H1 & H2 & H3).
        -- intros r Hr. apply in_app_or in Hr as [Hr|[<-|[]]]; [now apply Hmid|right; lia].
        -- exists pre', r', post'. rewrite <- E, <- app_assoc. simpl. auto.
    + destruct (IH pre (mid ++ [x]) rule Hc Hpre) as (pre' & r' & post' & E & Hf & H1 & H2 & H3).
      * intros r Hr. apply in_app_or in Hr as [Hr|[<-|[]]]; [now apply Hmid|left; lia].
      * exists pre', r', post'. rewrite <- E, <- app_assoc. simpl. auto.
Qed.

Lemma inferGenre_fold (rules : list GenreRule) :
  (exists r, In r rules /\ matchCount bookTags r <> 0) ->
  exists pre rule post,
    rules = pre ++ rule :: post /\
    fold_left (inferGenre_step bookTags) rules None = Some (found rule) /\
    0 < matchCount bookTags rule /\
    (forall r, In r pre ->
       matchCount bookTags r = 0 \/ rule_score r < rule_score rule) /\
    (forall r, In r post ->
       matchCount bookTags r = 0 \/ rule_score r <= rule_score rule).
Proof.
  induction rules as [|x rules IH]; intros (r & Hr & Hn); [destruct Hr|].
  cbn [fold_left]. unfold inferGenre_step at 2. cbv zeta.
  destruct (Nat.ltb_spec 0 (matchCount bookTags x)) as [Hx|Hx].
  - fold (rule_score x). fold (found x).
    destruct (inferGenre_step_best rules [] [] x Hx) as (pre' & r' & post' & E & H1);
      try (intros ? []).
    exists pre', r', post'. split; [exact E|exact H1].
  - destruct IH as (pre & rule & post & E & Hf & Hc & H1 & H2).
    + destruct Hr as [<-|Hr]; [lia|eauto].
    + exists (x :: pre), rule, post. rewrite E. split; [reflexivity|].
      split; [rewrite <- E; exact Hf|]. split; [assumption|].
      split; [|assumption]. intros r0 [<-|Hr0]; [left; lia|now apply H1].
Qed.

End InferGenre.

Lemma GENRE_RULES_priorities :
  Forall (fun r => 0 < rule_priority r /\ truthy (rule_genre r) = true) GENRE_RULES.
Proof. repeat constructor. Qed.

Section InferGenreOf.

Context {num : Type}.

Definition bookTags_of (book : Book num) : JsSet :=
  Set_of (map toLowerCase (book_vibeTags book)).

Definition no_genre (book : Book num) : Prop :=
  genre book = None \/ genre book = Some EmptyString.

Lemma inferGenre_explicit (book : Book num) (g : string) :
  genre book = Some g -> g <> EmptyString -> inferGenre book = g.
Proof.
  intros E Hg. unfold inferGenre. rewrite E. unfold truthy.
  destruct (String.eqb_spec g EmptyString); [contradiction|reflexivity].
Qed.

Lemma inferGenre_inferred (book : Book num) :
  no_genre book ->
  inferGenre book =
  match fold_left (inferGenre_step (bookTags_of book)) GENRE_RULES None with
  | Some bestMatch =>
      if truthy (best_genre bestMatch) then best_genre bestMatch
      else "Literary Fiction"%string
  | None => "Literary Fiction"%string
  end.
Proof. unfold inferGenre. intros [-> | ->]; reflexivity. Qed.

Lemma inferGenre_default (book : Book num) :
  no_genre book ->
  (forall r, In r GENRE_RULES -> matchCount (bookTags_of book) r = 0) ->
  inferGenre book = "Literary Fiction"%string.
Proof.
  intros Hg Hz. rewrite (inferGenre_inferred book Hg).
  now rewrite (inferGenre_step_none (bookTags_of book) GENRE_RULES Hz).
Qed.

Lemma inferGenre_best (book : Book num) :
  no_genre book ->
  (exists r, In r GENRE_RULES /\ matchCount (bookTags_of book) r <> 0) ->
  exists pre rule post,
    GENRE_RULES = pre ++ rule :: post /\
    inferGenre book = rule_genre rule /\
    0 < matchCount (bookTags_of book) rule /\
    (forall r, In r pre -> rule_score (bookTags_of book) r
                           < rule_score (bookTags_of book) rule) /\
    (forall r, In r post -> rule_score (bookTags_of book) r
                            <= rule_score (bookTags_of book) rule).
Proof.
  intros Hg Hex. rewrite (inferGenre_inferred book Hg).
  destruct (inferGenre_fold (bookTags_of book) GENRE_RULES Hex)
    as (pre & rule & post & E & Hf & Hc & H1 & H2).
  pose proof GENRE_RULES_priorities as Hp. rewrite Forall_forall in Hp.
  assert (Hrule : In rule GENRE_RULES) by (rewrite E; apply in_or_app; right; now left).
  destruct (Hp rule Hrule) as [Hprio Htruthy].
  assert (Hpos : 0 < rule_score (bookTags_of book) rule) by (unfold rule_score; nia).
  exists pre, rule, post. split; [assumption|]. rewrite Hf. cbn [best_genre found].
  rewrite Htruthy. split; [reflexivity|]. split; [assumption|]. split.
  - intros r Hr. destruct (H1 r Hr) as [Hz|Hlt]; [|assumption].
    unfold rule_score at 1. rewrite Hz. simpl. exact Hpos.
  - intros r Hr. destruct (H2 r Hr) as [Hz|Hle]; [|assumption].
    unfold rule_score at 1. rewrite Hz. simpl. lia.
Qed.

(** The genre inferred depends on the tags as a set of lower-case tags. *)
Lemma matchCount_same (tags tags' : JsSet) (rule : GenreRule) :
  (forall x, In x tags <-> In x tags') ->
  matchCount tags rule = matchCount tags' rule.
Proof.
  intros Hs. unfold matchCount. f_equal. apply filter_ext. intros tag.
  destruct (Set_has tags tag) eqn:E1, (Set_has tags' tag) eqn:E2; try reflexivity.
  - apply Set_has_In, Hs, Set_has_In in E1. congruence.
  - apply Set_has_In, Hs, Set_has_In in E2. congruence.
Qed.

Lemma inferGenre_step_same (tags tags' : JsSet) :
  (forall x, In x tags <-> In x tags') ->
  forall rules acc,
    fold_left (inferGenre_step tags) rules acc
    = fold_left (inferGenre_step tags') rules acc.
Proof.
  intros Hs. induction rules as [|r rules IH]; intros acc; [reflexivity|].
  cbn [fold_left]. rewrite IH. f_equal. unfold inferGenre_step.
  now rewrite (matchCount_same tags tags' r Hs).
Qed.

Lemma inferGenre_same_tags (book book' : Book num) :
  genre book = genre book' ->
  (forall x, In x (map toLowerCase (book_vibeTags book)) <->
             In x (map toLowerCase (book_vibeTags book'))) ->
  inferGenre book = inferGenre book'.
Proof.
  intros Hg Hs. unfold inferGenre. rewrite Hg.
  rewrite (inferGenre_step_same (Set_of (map toLowerCase (book_vibeTags book)))
             (Set_of (map toLowerCase (book_vibeTags book')))); [reflexivity|].
  intros x. rewrite !Set_of_In. apply Hs.
Qed.

End InferGenreOf.

(** ** [booksByGenre]: the books, shelved *)

Section Keyed.

(** A map whose value at each key is a function of the key. *)
Context {V : Type}.

Definition keyed (f : string -> V) (keys : list string) : JsMap V :=
  map (fun k => (k, f k)) keys.

Lemma keyed_keys (f : string -> V) (keys : list string) :
  map fst (keyed f keys) = keys.
Proof. unfold keyed. rewrite map_map. apply map_id. Qed.

Lemma keyed_has (f : string -> V) (keys : list string) (k : string) :
  Map_has (keyed f keys) k = Set_has keys k.
Proof.
  induction keys as [|x keys IH]; [reflexivity|].
  simpl. now rewrite IH.
Qed.

Lemma keyed_get (f : string -> V) (keys : list string) (k : string) :
  Map_get (keyed f keys) k = if Set_has keys k then Some (f k) else None.
Proof.
  induction keys as [|x keys IH]; [reflexivity|].
  simpl. destruct (String.eqb_spec k x) as [->|_]; [reflexivity|].
  simpl. exact IH.
Qed.

Lemma keyed_ext (f g : string -> V) (keys : list string) :
  (forall k, In k keys -> f k = g k) -> keyed f keys = keyed g keys.
Proof.
  intros Hfg. apply map_ext_in. intros k Hk. now rewrite (Hfg k Hk).
Qed.

Lemma keyed_set (f : string -> V) (keys : list string) (k : string) (v : V) :
  NoDup keys -> In k keys ->
  Map_set (keyed f keys) k v
  = keyed (fun x => if String.eqb x k then v else f x) keys.
Proof.
  induction keys as [|x keys IH]; intros Hnd Hk; [destruct Hk|].
  inversion Hnd as [|? ? Hx Hnd']; subst. simpl.
  destruct (String.eqb_spec k x) as [->|Hne].
  - rewrite String.eqb_refl. f_equal. apply keyed_ext. intros y Hy.
    destruct (String.eqb_spec y x) as [->|_]; [contradiction|reflexivity].
  - destruct (String.eqb_spec x k) as [->|_]; [contradiction|]. f_equal.
    apply IH; [assumption|]. destruct Hk as [->|Hk]; [contradiction|assumption].
Qed.

End Keyed.

Section Grouping.

Context {num : Type}.

Definition shelf_of (books : list (Book num)) (g : string) : list (Book num) :=
  filter (fun b => String.eqb (inferGenre b) g) books.

(** The genres of the books in order of first appearance, each with its
    books in the order of the input. *)
Definition grouping (books : list (Book num)) : JsMap (list (Book num)) :=
  keyed (shelf_of books) (Set_of (map inferGenre books)).

Lemma shelf_of_app (done : list (Book num)) (b : Book num) (g : string) :
  shelf_of (done ++ [b]) g
  = shelf_of done g ++ (if String.eqb (inferGenre b) g then [b] else []).
Proof. unfold shelf_of. rewrite filter_app. reflexivity. Qed.

Lemma shelf_of_absent (done : list (Book num)) (g : string) :
  ~ In g (map inferGenre done) -> shelf_of done g = [].
Proof.
  intros Hg. unfold shelf_of. induction done as [|b done IH]; [reflexivity|].
  simpl in *. destruct (String.eqb_spec (inferGenre b) g) as [E|_].
  - exfalso. auto.
  - apply IH. auto.
Qed.

Lemma genres_app (done : list (Book num)) (b : Book num) :
  Set_of (map inferGenre (done ++ [b]))
  = Set_add (Set_of (map inferGenre done)) (inferGenre b).
Proof. unfold Set_of. rewrite map_app, fold_left_app. reflexivity. Qed.

Lemma group_step_grouping (done : list (Book num)) (b : Book num) :
  group_step (grouping done) b = grouping (done ++ [b]).
Proof.
  unfold group_step, grouping. cbv zeta. rewrite keyed_has, genres_app.
  set (keys := Set_of (map inferGenre done)).
  assert (Hnd : NoDup keys) by apply Set_of_NoDup.
  unfold Set_add. destruct (Set_has keys (inferGenre b)) eqn:Eh.
  - rewrite keyed_get, Eh. apply Set_has_In in Eh.
    rewrite keyed_set by assumption. apply keyed_ext. intros k Hk.
    rewrite shelf_of_app.
    destruct (String.eqb_spec k (inferGenre b)) as [->|Hne].
    + now rewrite String.eqb_refl.
    + destruct (String.eqb_spec (inferGenre b) k) as [E|_]; [congruence|].
      now rewrite app_nil_r.
  - apply Set_has_not_In in Eh.
    assert (Hfresh : Map_set (keyed (shelf_of done) keys) (inferGenre b) []
                     = keyed (shelf_of done) keys ++ [(inferGenre b, [])]).
    { apply Map_set_fresh. now rewrite keyed_keys. }
    rewrite Hfresh.
    assert (Hget : Map_get (keyed (shelf_of done) keys ++ [(inferGenre b, [])])
                     (inferGenre b) = Some []).
    { clear Hfresh. unfold keyed. induction keys as [|x keys IH]; simpl.
      - now rewrite String.eqb_refl.
      - destruct (String.eqb_spec (inferGenre b) x) as [E|_].
        + exfalso. apply Eh. now left.
        + inversion Hnd; subst. apply IH; [assumption|]. intros Hin. apply Eh. now right. }
    rewrite Hget.
    assert (Hset : Map_set (keyed (shelf_of done) keys ++ [(inferGenre b, [])])
                     (inferGenre b) ([] ++ [b])
                   = keyed (shelf_of done) keys ++ [(inferGenre b, [b])]).
    { clear Hfresh Hget. unfold keyed. induction keys as [|x keys IH]; simpl.
      - now rewrite String.eqb_refl.
      - destruct (String.eqb_spec (inferGenre b) x) as [E|_].
        + exfalso. apply Eh. now left.
        + inversion Hnd; subst. f_equal. apply IH; [assumption|].
          intros Hin. apply Eh. now right. }
    rewrite Hset. unfold keyed. rewrite map_app. simpl. f_equal.
    + apply map_ext_in. intros k Hk. rewrite shelf_of_app.
      destruct (String.eqb_spec (inferGenre b) k) as [E|_].
      * exfalso. apply Eh. now rewrite E.
      * now rewrite app_nil_r.
    + rewrite shelf_of_app, String.eqb_refl.
      rewrite shelf_of_absent; [reflexivity|].
      intros Hin. apply Eh. now apply Set_of_In.
Qed.

Lemma group_fold (books done : list (Book num)) :
  fold_left group_step books (grouping done) = grouping (done ++ books).
Proof.
  revert done. induction books as [|b books IH]; intros done.
  - now rewrite app_nil_r.
  - cbn [fold_left]. rewrite group_step_grouping, IH, <- app_assoc. reflexivity.
Qed.

(** The [Map] built by the loop is the grouping. *)
Lemma grouped_grouping (books : list (Book num)) : grouped books = grouping books.
Proof. unfold grouped. apply (group_fold books []). Qed.

Lemma grouping_keys (books : list (Book num)) :
  map fst (grouping books) = Set_of (map inferGenre books).
Proof. apply keyed_keys. Qed.

Lemma grouping_In (books : list (Book num)) (e : string * list (Book num)) :
  In e (grouping books) <->
  In (fst e) (map inferGenre books) /\ snd e = shelf_of books (fst e).
Proof.
  unfold grouping, keyed. rewrite in_map_iff. split.
  - intros (k & <- & Hk). simpl. split; [|reflexivity].
    exact (proj1 (Set_of_In _ _) Hk).
  - intros [Hk Hs]. exists (fst e). split; [|exact (proj2 (Set_of_In _ _) Hk)].
    destruct e as [g shelf]. simpl in *. now rewrite Hs.
Qed.

Lemma shelf_of_nonempty (books : list (Book num)) (g : string) :
  In g (map inferGenre books) -> shelf_of books g <> [].
Proof.
  intros Hg. apply in_map_iff in Hg as (b & <- & Hb).
  assert (Hin : In b (shelf_of books (inferGenre b))).
  { unfold shelf_of. apply filter_In. split; [assumption|apply String.eqb_refl]. }
  intros E. rewrite E in Hin. destruct Hin.
Qed.

Lemma booksByGenre_perm (books : list (Book num)) :
  Permutation (booksByGenre books) (grouping books).
Proof. unfold booksByGenre. rewrite grouped_grouping. apply Array_sort_perm. Qed.

Lemma booksByGenre_In (books : list (Book num)) (e : string * list (Book num)) :
  In e (booksByGenre books) <->
  In (fst e) (map inferGenre books) /\ snd e = shelf_of books (fst e).
Proof.
  rewrite <- grouping_In. split; apply Permutation_in;
    [|apply Permutation_sym]; apply booksByGenre_perm.
Qed.

Lemma booksByGenre_NoDup (books : list (Book num)) :
  NoDup (map fst (booksByGenre books)).
Proof.
  apply (Permutation_NoDup (l := map fst (grouping books))).
  - apply Permutation_sym, Permutation_map, booksByGenre_perm.
  - rewrite grouping_keys. apply Set_of_NoDup.
Qed.

Lemma list_sum_cons (a : nat) (l : list nat) : list_sum (a :: l) = a + list_sum l.
Proof. reflexivity. Qed.

(** Each book stands on one shelf. *)
Lemma count_one (keys : list string) (g : string) :
  NoDup keys -> In g keys ->
  list_sum (map (fun k => if String.eqb g k then 1 else 0) keys) = 1.
Proof.
  induction keys as [|x keys IH]; intros Hnd Hg; [destruct Hg|].
  inversion Hnd as [|? ? Hx Hnd']; subst. simpl.
  destruct (String.eqb_spec g x) as [->|Hne].
  - f_equal. clear IH Hg Hnd Hnd'. induction keys as [|y keys IH]; [reflexivity|].
    simpl. destruct (String.eqb_spec x y) as [->|_].
    + exfalso. apply Hx. now left.
    + apply IH. intros Hin. apply Hx. now right.
  - destruct Hg as [->|Hg]; [contradiction|]. now apply IH.
Qed.

Lemma shelves_sum (h : Book num -> string) (keys : list string) (l : list (Book num)) :
  NoDup keys -> (forall b, In b l -> In (h b) keys) ->
  list_sum (map (fun k => List.length (filter (fun b => String.eqb (h b) k) l)) keys)
  = List.length l.
Proof.
  intros Hnd. induction l as [|b l IH]; intros Hcover.
  - simpl. induction keys as [|k keys IHk]; [reflexivity|].
    simpl. inversion Hnd; subst. now apply IHk.
  - assert (Hsplit :
      list_sum (map (fun k => List.length
                      (filter (fun b' => String.eqb (h b') k) (b :: l))) keys)
      = list_sum (map (fun k => if String.eqb (h b) k then 1 else 0) keys)
        + list_sum (map (fun k => List.length
                          (filter (fun b' => String.eqb (h b') k) l)) keys)).
    { clear. induction keys as [|k keys IHk]; [reflexivity|].
      cbn [map]. rewrite !list_sum_cons, IHk. cbn [filter].
      destruct (String.eqb (h b) k); cbn [List.length]; lia. }
    rewrite Hsplit, IH by (intros b' Hb'; apply Hcover; now right).
    rewrite (count_one keys (h b) Hnd (Hcover b (or_introl eq_refl))).
    reflexivity.
Qed.

Lemma list_sum_perm (l l' : list nat) : Permutation l l' -> list_sum l = list_sum l'.
Proof. induction 1; simpl; lia. Qed.

Lemma fold_left_sum_lengths {B : Type} (l : list (string * list B)) (acc : nat) :
  fold_left (fun sum e => sum + List.length (snd e)) l acc
  = acc + list_sum (map (fun e => List.length (snd e)) l).
Proof.
  revert acc. induction l as [|e l IH]; intros acc; simpl; [lia|].
  rewrite IH. lia.
Qed.

End Grouping.

(** *** The order of the shelves *)

Section ShelfOrder.

Context {num : Type}.

Definition shelf_size (e : string * list (Book num)) : nat := List.length (snd e).

Lemma shelf_size_le (books : list (Book num)) (e : string * list (Book num)) :
  In e (grouping books) -> shelf_size e <= List.length books.
Proof.
  intros He. unfold shelf_size. apply grouping_In in He as [_ ->]. apply filter_length_le.
Qed.

Lemma booksByGenre_sorted (books : list (Book num)) :
  (Z.of_nat (List.length books) < 2 ^ 53)%Z ->
  StronglySorted (fun a b => shelf_size b <= shelf_size a) (booksByGenre books) /\
  forall n,
    filter (fun e => Nat.eqb (shelf_size e) n) (booksByGenre books)
    = filter (fun e => Nat.eqb (shelf_size e) n) (grouping books).
Proof.
  intros Hlen. unfold booksByGenre. rewrite grouped_grouping.
  set (key := fun e : string * list (Book num) => (of_nat (shelf_size e) : float)).
  assert (Hsmall : forall e, In e (grouping books) -> (Z.of_nat (shelf_size e) < 2 ^ 53)%Z).
  { intros e He. pose proof (shelf_size_le books e He). lia. }
  assert (Hnum : Forall (fun e => is_number (key e)) (grouping books)).
  { apply Forall_forall. intros e He. apply of_nat_number_double. now apply Hsmall. }
  destruct (Array_sort_stable_descending key (grouping books) Hnum) as (Hperm & Hd & Ht).
  change (Array_sort (fun a b => (key b - key a)%num) (grouping books))
    with (Array_sort (fun a b : string * list (Book num) =>
            (of_nat (List.length (snd b)) - of_nat (List.length (snd a)))%num : float)
            (grouping books)) in *.
  set (sorted := Array_sort _ (grouping books)) in *.
  assert (Hsmall' : forall e, In e sorted -> (Z.of_nat (shelf_size e) < 2 ^ 53)%Z).
  { intros e He. apply Hsmall. now apply (Permutation_in _ Hperm). }
  split.
  - unfold descending in Hd. clear Ht Hperm.
    induction Hd as [|a l Hl IH Ha]; constructor.
    + apply IH. intros e He. apply Hsmall'. now right.
    + rewrite Forall_forall in *. intros b Hb.
      pose proof (Ha b Hb) as Hab. unfold key in Hab.
      rewrite of_nat_ltb_double in Hab
        by (apply Hsmall'; simpl; auto).
      apply Nat.ltb_ge in Hab. exact Hab.
  - intros n. destruct (Z.ltb_spec (Z.of_nat n) (2 ^ 53)) as [Hn|Hn].
    + pose proof (Ht (of_nat n)) as Hf.
      rewrite (filter_ext_in (fun e => Nat.eqb (shelf_size e) n)
                 (fun e => (key e === of_nat n)%num) sorted),
              (filter_ext_in (fun e => Nat.eqb (shelf_size e) n)
                 (fun e => (key e === of_nat n)%num) (grouping books)).
      * exact Hf.
      * intros e He. unfold key. symmetry. apply of_nat_eqb_double; auto.
      * intros e He. unfold key. symmetry. apply of_nat_eqb_double; auto.
    + assert (Hnone : forall l, (forall e, In e l -> (Z.of_nat (shelf_size e) < 2 ^ 53)%Z) ->
                filter (fun e : string * list (Book num) => Nat.eqb (shelf_size e) n) l = []).
      { induction l as [|e l IH]; intros Hs; [reflexivity|]. simpl.
        destruct (Nat.eqb_spec (shelf_size e) n) as [E|_].
        - pose proof (Hs e (or_introl eq_refl)). lia.
        - apply IH. intros e' He'. apply Hs. now right. }
      now rewrite !Hnone.
Qed.

End ShelfOrder.

(** *** Search and genre filter *)

Section ShelfFilter.

Context {num : Type}.

Lemma filter_true {A : Type} (l : list A) : filter (fun _ => true) l = l.
Proof. induction l as [|x l IH]; simpl; [reflexivity|now rewrite IH]. Qed.

Lemma filter_filter {A : Type} (p q : A -> bool) (l : list A) :
  filter p (filter q l) = filter (fun x => q x && p x) l.
Proof.
  induction l as [|x l IH]; simpl; [reflexivity|].
  destruct (q x); simpl; [destruct (p x)|]; now rewrite IH.
Qed.

Lemma matchesSearch_empty (book : Book num) : matchesSearch EmptyString book = true.
Proof. reflexivity. Qed.

Lemma matchesSearch_spec (searchQuery : string) (book : Book num) :
  matchesSearch searchQuery book = true <->
  searchQuery = EmptyString \/
  (exists pre post,
     toLowerCase (book_title book) = (pre ++ toLowerCase searchQuery ++ post)%string) \/
  (exists pre post,
     toLowerCase (author book) = (pre ++ toLowerCase searchQuery ++ post)%string).
Proof.
  unfold matchesSearch. rewrite !orb_true_iff, !includes_spec, String.eqb_eq. tauto.
Qed.

Lemma filteredByGenre_In (books : list (Book num)) (searchQuery : string)
    (selectedGenre : option string) (e : string * list (Book num)) :
  In e (filteredByGenre books searchQuery selectedGenre) <->
  genreSelected selectedGenre (fst e) = true /\
  snd e <> [] /\
  snd e = filter (fun b => String.eqb (inferGenre b) (fst e) && matchesSearch searchQuery b)
            books.
Proof.
  unfold filteredByGenre. rewrite filter_In, in_map_iff. split.
  - intros ((e0 & <- & He0) & Hne). apply filter_In in He0 as [He0 Hsel].
    apply booksByGenre_In in He0 as [Hg Hs]. cbn [fst snd] in *.
    split; [assumption|]. rewrite Hs. unfold shelf_of. rewrite filter_filter.
    split; [|reflexivity].
    rewrite Hs in Hne. unfold shelf_of in Hne. rewrite filter_filter in Hne.
    intros E. rewrite E in Hne. discriminate.
  - intros (Hsel & Hne & Hs). split.
    + exists (fst e, shelf_of books (fst e)). cbn [fst snd]. split.
      * unfold shelf_of. rewrite filter_filter, <- Hs. now destruct e.
      * apply filter_In. cbn [fst]. split; [|assumption].
        apply booksByGenre_In. cbn [fst snd]. split; [|reflexivity].
        destruct (snd e) as [|b rest] eqn:Es; [contradiction|].
        assert (Hb : In b (b :: rest)) by now left.
        rewrite Hs in Hb. apply filter_In in Hb as [Hb Hc].
        apply andb_true_iff in Hc as [Hc _]. apply String.eqb_eq in Hc.
        rewrite <- Hc. now apply in_map.
    + destruct (snd e); [contradiction|reflexivity].
Qed.

(** Filtering the shelves keeps their genres distinct. *)
Lemma shelves_filter_NoDup {V : Type} (shelves : list (string * V))
    (keep : string * V -> bool) :
  NoDup (map fst shelves) -> NoDup (map fst (filter keep shelves)).
Proof.
  intros Hnd. induction shelves as [|e shelves IH]; [constructor|].
  cbn [map] in Hnd. apply NoDup_cons_iff in Hnd as [He Hnd].
  cbn [filter]. destruct (keep e); [|now apply IH].
  cbn [map]. apply NoDup_cons; [|now apply IH].
  intros Hin. apply He. apply in_map_iff in Hin as (e' & E & He').
  apply filter_In in He' as [He' _]. rewrite <- E. now apply in_map.
Qed.

Lemma filteredByGenre_NoDup (books : list (Book num)) (searchQuery : string)
    (selectedGenre : option string) :
  NoDup (map fst (filteredByGenre books searchQuery selectedGenre)).
Proof.
  unfold filteredByGenre. apply shelves_filter_NoDup. rewrite map_map. cbn [fst].
  apply (shelves_filter_NoDup (booksByGenre books)), booksByGenre_NoDup.
Qed.

Lemma list_sum_filter_positive {A : Type} (size : A -> nat) (l : list A) :
  list_sum (map size (filter (fun e => Nat.ltb 0 (size e)) l)) = list_sum (map size l).
Proof.
  induction l as [|x l IH]; [reflexivity|]. cbn [filter map].
  rewrite list_sum_cons, <- IH.
  destruct (Nat.ltb_spec 0 (size x)); [reflexivity|]. lia.
Qed.

Lemma keyed_filter {V : Type} (f : string -> V) (p : string -> bool) (keys : list string) :
  filter (fun e => p (fst e)) (keyed f keys) = keyed f (filter p keys).
Proof.
  induction keys as [|k keys IH]; [reflexivity|]. simpl.
  destruct (p k); simpl; now rewrite IH.
Qed.

Lemma totalFiltered_count (books : list (Book num)) (searchQuery : string)
    (selectedGenre : option string) :
  totalFiltered books searchQuery selectedGenre =
  List.length
    (filter (fun b => matchesSearch searchQuery b
                      && genreSelected selectedGenre (inferGenre b)) books).
Proof.
  unfold totalFiltered. rewrite fold_left_sum_lengths. simpl.
  unfold filteredByGenre.
  rewrite (list_sum_filter_positive (fun e : string * list (Book num) => List.length (snd e))).
  rewrite map_map. cbn [snd].
  set (size := fun e : string * list (Book num) =>
                 List.length (filter (matchesSearch searchQuery) (snd e))).
  rewrite (list_sum_perm _
             (map size (filter (fun e => genreSelected selectedGenre (fst e))
                          (grouping books)))).
  2:{ apply Permutation_map.
      pose proof (booksByGenre_perm books) as Hp.
      clear -Hp. induction Hp; simpl;
        repeat match goal with
        | |- context [genreSelected ?s ?g] => destruct (genreSelected s g)
        end; eauto using Permutation. }
  unfold grouping. rewrite keyed_filter. unfold keyed. rewrite map_map.
  set (L := filter (fun b => matchesSearch searchQuery b
                             && genreSelected selectedGenre (inferGenre b)) books).
  rewrite <- (shelves_sum inferGenre
                (filter (genreSelected selectedGenre) (Set_of (map inferGenre books))) L).
  - f_equal. apply map_ext_in. intros k Hk. apply filter_In in Hk as [_ Hsel].
    unfold size, shelf_of, L. cbn [snd]. rewrite !filter_filter. f_equal.
    apply filter_ext. intros b.
    destruct (String.eqb_spec (inferGenre b) k) as [->|_].
    + rewrite Hsel. now destruct (matchesSearch searchQuery b).
    + now rewrite andb_false_r.
  - apply NoDup_filter, Set_of_NoDup.
  - intros b Hb. unfold L in Hb. apply filter_In in Hb as [Hb Hc].
    apply andb_true_iff in Hc as [_ Hsel]. apply filter_In. split; [|assumption].
    apply Set_of_In. now apply in_map.
Qed.

Lemma filteredByGenre_unfiltered (books : list (Book num)) :
  filteredByGenre books EmptyString None = booksByGenre books.
Proof.
  unfold filteredByGenre. cbn [genreSelected]. rewrite filter_true.
  rewrite (map_ext _ (fun e => e)), map_id.
  - apply forallb_filter_id, forallb_forall. intros e He.
    apply booksByGenre_In in He as [Hg Hs]. apply Nat.ltb_lt.
    pose proof (shelf_of_nonempty books (fst e) Hg) as Hne. rewrite <- Hs in Hne.
    destruct (snd e); [contradiction|simpl; lia].
  - intros [g shelf]. cbn [fst snd]. f_equal.
    rewrite (filter_ext _ (fun _ => true)); [apply filter_true|reflexivity].
Qed.

End ShelfFilter.

(** ** Properties of the bookshelf *)

(** X16: [inferGenre] returns the genre a book states, when it states a
    non-empty one.  Otherwise each rule scores the number of its tags that
    the book has (case ignored) times its priority; the genre is that of
    the first rule of greatest score among the rules that count a tag, and
    "Literary Fiction" when no rule counts any. *)
Theorem X16_inferGenre_by_best_rule (num : Type) (book : Book num) :
  let tags := Set_of (map toLowerCase (book_vibeTags book)) in
  let score rule := matchCount tags rule * rule_priority rule in
  (forall g, genre book = Some g -> g <> EmptyString -> inferGenre book = g) /\
  (genre book = None \/ genre book = Some EmptyString ->
   ((forall rule, In rule GENRE_RULES -> matchCount tags rule = 0) ->
    inferGenre book = "Literary Fiction"%string) /\
   ((exists rule, In rule GENRE_RULES /\ matchCount tags rule <> 0) ->
    exists pre rule post,
      GENRE_RULES = pre ++ rule :: post /\
      inferGenre book = rule_genre rule /\
      0 < matchCount tags rule /\
      (forall r, In r pre -> score r < score rule) /\
      (forall r, In r post -> score r <= score rule))).
Proof.
  cbv zeta. split; [apply inferGenre_explicit|].
  intros Hg. split.
  - now apply inferGenre_default.
  - now apply inferGenre_best.
Qed.

Lemma X16_inferGenre_by_best_rule_witness :
  exists pre rule post,
    GENRE_RULES = pre ++ rule :: post /\
    inferGenre (@testBook float _) = rule_genre rule /\
    0 < matchCount (Set_of (map toLowerCase (book_vibeTags (@testBook float _)))) rule /\
    (forall r, In r pre ->
       matchCount (Set_of (map toLowerCase (book_vibeTags (@testBook float _)))) r
       * rule_priority r
       < matchCount (Set_of (map toLowerCase (book_vibeTags (@testBook float _)))) rule
         * rule_priority rule) /\
    (forall r, In r post ->
       matchCount (Set_of (map toLowerCase (book_vibeTags (@testBook float _)))) r
       * rule_priority r
       <= matchCount (Set_of (map toLowerCase (book_vibeTags (@testBook float _)))) rule
          * rule_priority rule).
Proof.
  apply (proj2 (X16_inferGenre_by_best_rule float testBook)).
  - left. reflexivity.
  - exists {| rule_genre := "Romance";
              rule_tags := ["romantic"; "passionate"; "love"; "tender"; "swoon"]%string;
              rule_priority := 6 |}.
    split; [simpl; tauto|]. vm_compute. discriminate.
Defined.

(** X17: the genre inferred for a book depends on its tags only as a set
    of lower-case tags: books with the same stated genre whose tags are
    the same once case, order and repetition are ignored get the same
    genre. *)
Theorem X17_inferGenre_of_tag_set (num : Type) (book book' : Book num) :
  genre book = genre book' ->
  (forall x, In x (map toLowerCase (book_vibeTags book)) <->
             In x (map toLowerCase (book_vibeTags book'))) ->
  inferGenre book = inferGenre book'.
Proof. apply inferGenre_same_tags. Qed.

Lemma X17_inferGenre_of_tag_set_witness :
  inferGenre (@testBook float _) = inferGenre (@shoutedBook float _).
Proof.
  apply X17_inferGenre_of_tag_set; [reflexivity|].
  intros x. simpl. tauto.
Defined.

(** X18: [booksByGenre] shelves every book once: its entries are the
    genres inferred for the books, none twice; the shelf of a genre holds
    exactly the books of that genre, in the order of the input, and is
    never empty; the sizes of the shelves add up to the number of books. *)
Theorem X18_shelves_partition (num : Type) (books : list (Book num)) :
  let shelves := booksByGenre books in
  NoDup (map fst shelves) /\
  (forall g, In g (map fst shelves) <-> exists b, In b books /\ inferGenre b = g) /\
  Forall (fun e =>
            snd e <> [] /\
            snd e = filter (fun b => String.eqb (inferGenre b) (fst e)) books) shelves /\
  list_sum (map (fun e => List.length (snd e)) shelves) = List.length books.
Proof.
  cbv zeta. split; [apply booksByGenre_NoDup|]. split; [|split].
  - intros g. split.
    + intros Hg. apply in_map_iff in Hg as (e & <- & He).
      apply booksByGenre_In in He as [Hg _].
      apply in_map_iff in Hg as (b & E & Hb). eauto.
    + intros (b & Hb & <-). apply in_map_iff.
      exists (inferGenre b, shelf_of books (inferGenre b)). split; [reflexivity|].
      apply booksByGenre_In. cbn [fst snd]. split; [now apply in_map|reflexivity].
  - apply Forall_forall. intros e He. apply booksByGenre_In in He as [Hg Hs].
    split; [|exact Hs]. rewrite Hs. now apply shelf_of_nonempty.
  - rewrite (list_sum_perm _ (map (fun e => List.length (snd e)) (grouping books)))
      by apply Permutation_map, booksByGenre_perm.
    unfold grouping, keyed. rewrite map_map. cbn [snd].
    apply (shelves_sum inferGenre); [apply Set_of_NoDup|].
    intros b Hb. apply Set_of_In. now apply in_map.
Qed.

(** X19: for fewer than [2^53] books the shelves of [booksByGenre] come
    longest first, and shelves of equal length in the order in which their
    genres first appear among the books. *)
Theorem X19_shelves_longest_first (num : Type) (books : list (Book num)) :
  (Z.of_nat (List.length books) < 2 ^ 53)%Z ->
  let shelves := booksByGenre books in
  let first_seen :=
    map (fun g => (g, filter (fun b => String.eqb (inferGenre b) g) books))
        (Set_of (map inferGenre books)) in
  StronglySorted (fun a b => List.length (snd b) <= List.length (snd a)) shelves /\
  forall n,
    filter (fun e => Nat.eqb (List.length (snd e)) n) shelves
    = filter (fun e => Nat.eqb (List.length (snd e)) n) first_seen.
Proof. intros Hlen. apply (booksByGenre_sorted books Hlen). Qed.

Lemma X19_shelves_longest_first_witness :
  StronglySorted (fun a b => List.length (snd b) <= List.length (snd a))
    (booksByGenre (@testBooks float _)).
Proof.
  apply (X19_shelves_longest_first float testBooks). simpl. lia.
Defined.

(** X20: the shelves shown under a search and a genre filter.  Each shelf
    shown is of a genre that passes the filter, holds exactly the books of
    its genre that match the search (case ignored, in the title or the
    author), and is not empty; no genre is shown twice; the total shown is
    the number of books that match and whose genre passes; without search
    and filter all shelves are shown and the total is the number of
    books. *)
Theorem X20_shelves_under_filter (num : Type) (books : list (Book num))
    (searchQuery : string) (selectedGenre : option string) :
  let shown := filteredByGenre books searchQuery selectedGenre in
  (forall e, In e shown <->
     genreSelected selectedGenre (fst e) = true /\
     snd e <> [] /\
     snd e = filter (fun b => String.eqb (inferGenre b) (fst e)
                              && matchesSearch searchQuery b) books) /\
  NoDup (map fst shown) /\
  (forall b : Book num, matchesSearch searchQuery b = true <->
     searchQuery = EmptyString \/
     (exists pre post,
        toLowerCase (book_title b) = (pre ++ toLowerCase searchQuery ++ post)%string) \/
     (exists pre post,
        toLowerCase (author b) = (pre ++ toLowerCase searchQuery ++ post)%string)) /\
  totalFiltered books searchQuery selectedGenre =
  List.length (filter (fun b => matchesSearch searchQuery b
                                && genreSelected selectedGenre (inferGenre b)) books) /\
  totalFiltered books searchQuery selectedGenre <= List.length books /\
  filteredByGenre books EmptyString None = booksByGenre books /\
  totalFiltered books EmptyString None = List.length books.
Proof.
  cbv zeta. split; [apply filteredByGenre_In|].
  split; [apply filteredByGenre_NoDup|].
  split; [intros b; apply matchesSearch_spec|].
  split; [apply totalFiltered_count|].
  split; [rewrite totalFiltered_count; apply filter_length_le|].
  split; [apply filteredByGenre_unfiltered|].
  rewrite totalFiltered_count. f_equal.
  rewrite (filter_ext _ (fun _ => true)); [apply filter_true|reflexivity].
Qed.

(** * Searching the books: what the search finds *)

(** ** The order of strings *)

Section StringOrder.

Lemma ascii_compare_lt_trans (a b c : ascii) :
  Ascii.compare a b = Lt -> Ascii.compare b c = Lt -> Ascii.compare a c = Lt.
Proof.
  unfold Ascii.compare. rewrite !N.compare_lt_iff. apply N.lt_trans.
Qed.

Lemma string_compare_refl (s : string) : String.compare s s = Eq.
Proof.
  induction s as [|c s IH]; [reflexivity|]. simpl.
  unfold Ascii.compare. now rewrite N.compare_refl.
Qed.

Lemma string_compare_lt_trans (s1 s2 s3 : string) :
  String.compare s1 s2 = Lt -> String.compare s2 s3 = Lt -> String.compare s1 s3 = Lt.
Proof.
  revert s2 s3. induction s1 as [|c1 s1 IH]; intros [|c2 s2] [|c3 s3];
    simpl; try congruence.
  destruct (Ascii.compare c1 c2) eqn:E12; try discriminate;
    destruct (Ascii.compare c2 c3) eqn:E23; try discriminate; intros H12 H23.
  - apply Ascii.compare_eq_iff in E12, E23. subst.
    rewrite (proj2 (N.compare_eq_iff _ _) eq_refl : Ascii.compare c3 c3 = Eq).
    now apply IH with s2.
  - apply Ascii.compare_eq_iff in E12. subst. now rewrite E23.
  - apply Ascii.compare_eq_iff in E23. subst. now rewrite E12.
  - now rewrite (ascii_compare_lt_trans _ _ _ E12 E23).
Qed.

Lemma string_ltb_trans (s1 s2 s3 : string) :
  String.ltb s1 s2 = true -> String.ltb s2 s3 = true -> String.ltb s1 s3 = true.
Proof.
  unfold String.ltb. intros H12 H23.
  destruct (String.compare s1 s2) eqn:E12; try discriminate.
  destruct (String.compare s2 s3) eqn:E23; try discriminate.
  now rewrite (string_compare_lt_trans _ _ _ E12 E23).
Qed.

Lemma string_ltb_irrefl (s : string) : String.ltb s s = false.
Proof. unfold String.ltb. now rewrite string_compare_refl. Qed.

Lemma string_ltb_total (s1 s2 : string) :
  String.ltb s1 s2 = false -> s1 <> s2 -> String.ltb s2 s1 = true.
Proof.
  unfold String.ltb. intros H Hne. rewrite String.compare_antisym.
  destruct (String.compare s1 s2) eqn:E; try discriminate; [|reflexivity].
  now apply String.compare_eq_iff in E.
Qed.

Lemma string_ltb_asym (s1 s2 : string) :
  String.ltb s1 s2 = true -> String.ltb s2 s1 = false.
Proof.
  intros H. destruct (String.ltb s2 s1) eqn:E; [|reflexivity].
  pose proof (string_ltb_trans _ _ _ H E) as Hs. now rewrite string_ltb_irrefl in Hs.
Qed.

(** [s1 <= s2 < s3] gives [s1 < s3]. *)
Lemma string_leb_ltb_trans (s1 s2 s3 : string) :
  String.ltb s2 s1 = false -> String.ltb s2 s3 = true -> String.ltb s1 s3 = true.
Proof.
  intros H12 H23. destruct (string_dec s1 s2) as [->|Hne]; [assumption|].
  apply string_ltb_trans with s2; [|assumption]. now apply string_ltb_total.
Qed.

End StringOrder.

(** ** Sorting strings *)

Section SortStrings.

Definition ascending : list string -> Prop :=
  StronglySorted (fun a b => String.ltb a b = true).

Lemma SortCompare_negative (x y : string) :
  (SortCompare y x <? lit 0)%num = String.ltb y x.
Proof.
  unfold SortCompare. destruct (String.ltb y x); [reflexivity|].
  now destruct (String.ltb x y).
Qed.

Lemma sort_insert_SortCompare (x y : string) (r : list string) :
  sort_insert SortCompare x (y :: r) =
  if String.ltb y x then y :: sort_insert SortCompare x r else x :: y :: r.
Proof. simpl. now rewrite SortCompare_negative. Qed.

Lemma sort_insert_ascending (x : string) (l : list string) :
  ~ In x l -> ascending l -> ascending (sort_insert SortCompare x l).
Proof.
  unfold ascending. intros Hx Hl. induction Hl as [|y l Hl IH Hy].
  - repeat constructor.
  - rewrite sort_insert_SortCompare. destruct (String.ltb y x) eqn:Hyx.
    + constructor.
      * apply IH. intros Hin. apply Hx. now right.
      * apply Forall_forall. intros z Hz.
        apply (Permutation_in _ (sort_insert_perm SortCompare x l)) in Hz as [<-|Hz];
          [assumption|].
        rewrite Forall_forall in Hy. now apply Hy.
    + assert (Hxy : String.ltb x y = true).
      { apply string_ltb_total; [assumption|]. intros <-. apply Hx. now left. }
      constructor; [now constructor|].
      constructor; [assumption|].
      rewrite Forall_forall in *. intros z Hz.
      apply string_ltb_trans with y; [assumption|]. now apply Hy.
Qed.

Lemma Array_sort_ascending (l : list string) :
  NoDup l -> ascending (Array_sort SortCompare l).
Proof.
  induction 1 as [|x l Hx Hl IH]; [constructor|].
  simpl. apply sort_insert_ascending; [|assumption].
  intros Hin. apply Hx. now apply (Permutation_in _ (Array_sort_perm SortCompare l)).
Qed.

(** Two ascending lists with the same elements are the same list. *)
Lemma ascending_unique (l1 l2 : list string) :
  ascending l1 -> ascending l2 -> (forall x, In x l1 <-> In x l2) -> l1 = l2.
Proof.
  unfold ascending. intros H1. revert l2.
  induction H1 as [|x l1 H1 IH Hx]; intros l2 H2 Hin.
  - destruct l2 as [|y l2]; [reflexivity|].
    now destruct (proj2 (Hin y) (or_introl eq_refl)).
  - destruct H2 as [|y l2 H2 Hy].
    + now destruct (proj1 (Hin x) (or_introl eq_refl)).
    + rewrite Forall_forall in Hx, Hy.
      assert (Exy : x = y).
      { destruct (proj1 (Hin x) (or_introl eq_refl)) as [E|Hxl2]; [now symmetry|].
        destruct (proj2 (Hin y) (or_introl eq_refl)) as [E|Hyl1]; [assumption|].
        pose proof (Hy x Hxl2) as Hyx. pose proof (Hx y Hyl1) as Hxy.
        now rewrite (string_ltb_asym _ _ Hxy) in Hyx. }
      subst y. f_equal. apply IH; [assumption|].
      intros z. split; intros Hz.
      * destruct (proj1 (Hin z) (or_intror Hz)) as [<-|Hz2]; [|assumption].
        pose proof (Hx x Hz) as Hxx. now rewrite string_ltb_irrefl in Hxx.
      * destruct (proj2 (Hin z) (or_intror Hz)) as [<-|Hz1]; [|assumption].
        pose proof (Hy x Hz) as Hxx. now rewrite string_ltb_irrefl in Hxx.
Qed.

Lemma ascending_NoDup (l : list string) : ascending l -> NoDup l.
Proof.
  induction 1 as [|x l Hl IH Hx]; constructor; [|assumption].
  intros Hin. rewrite Forall_forall in Hx.
  pose proof (Hx x Hin) as Hxx. now rewrite string_ltb_irrefl in Hxx.
Qed.

End SortStrings.

(** ** The tags and the books found *)

Section SearchFacts.

Context {num : Type}.

Lemma tagSet_fold_In (books : list (Book num)) (acc : JsSet) (t : string) :
  In t (fold_left (fun tagSet book => fold_left Set_add (book_vibeTags book) tagSet)
          books acc) <->
  In t acc \/ exists book, In book books /\ In t (book_vibeTags book).
Proof.
  revert acc. induction books as [|b books IH]; intros acc; simpl.
  - split; [auto|]. intros [H|(b & [] & _)]. exact H.
  - rewrite IH, fold_Set_add_In. split.
    + intros [[H|H]|(b' & Hb' & Ht)]; eauto 6.
    + intros [H|(b' & [<-|Hb'] & Ht)]; eauto 6.
Qed.

Lemma tagSet_fold_NoDup (books : list (Book num)) (acc : JsSet) :
  NoDup acc ->
  NoDup (fold_left (fun tagSet book => fold_left Set_add (book_vibeTags book) tagSet)
           books acc).
Proof.
  revert acc. induction books as [|b books IH]; intros acc Hacc; simpl; [assumption|].
  apply IH. now apply fold_Set_add_NoDup.
Qed.

Lemma allTags_In (books : list (Book num)) (t : string) :
  In t (allTags books) <-> exists book, In book books /\ In t (book_vibeTags book).
Proof.
  unfold allTags. cbv zeta.
  rewrite (Array_sort_In SortCompare), tagSet_fold_In. simpl. tauto.
Qed.

Lemma allTags_ascending (books : list (Book num)) : ascending (allTags books).
Proof. apply Array_sort_ascending, tagSet_fold_NoDup. constructor. Qed.

Lemma existsb_eqb_In (t : string) (l : list string) :
  existsb (String.eqb t) l = true <-> In t l.
Proof.
  rewrite existsb_exists. split.
  - intros (x & Hx & E). apply String.eqb_eq in E. now subst.
  - intros H. exists t. split; [assumption|apply String.eqb_refl].
Qed.

Lemma filteredBooks_In (books : list (Book num)) (searchQuery : string)
    (selectedTag : option string) (book : Book num) :
  In book (filteredBooks books searchQuery selectedTag) <->
  In book books /\ matchesSearch searchQuery book = true /\
  (forall tag, selectedTag = Some tag -> In tag (book_vibeTags book)).
Proof.
  unfold filteredBooks. rewrite filter_In. cbv zeta.
  fold (matchesSearch searchQuery book). rewrite andb_true_iff.
  destruct selectedTag as [tag|].
  - rewrite existsb_eqb_In. split.
    + intros (Hb & Hs & Ht). repeat split; try assumption. now intros ? [= <-].
    + intros (Hb & Hs & Ht). auto.
  - split; [|tauto]. intros (Hb & Hs & _). repeat split; try assumption. discriminate.
Qed.

Lemma filteredBooks_subsequence (books : list (Book num)) (searchQuery : string)
    (selectedTag : option string) :
  subsequence (filteredBooks books searchQuery selectedTag) books.
Proof.
  unfold filteredBooks. induction books as [|b books IH]; simpl; [constructor|].
  match goal with |- context [if ?c then _ else _] => destruct c end;
    now constructor.
Qed.

End SearchFacts.

(** ** Properties of the search *)

(** X21: [allTags] lists exactly the tags that some book carries, each
    once, in strictly ascending order of strings; so it is the same list
    for any two lists of books that carry the same tags, whatever their
    order. *)
Theorem X21_allTags_sorted_set (num : Type) (books : list (Book num)) :
  (forall t, In t (allTags books) <->
             exists book, In book books /\ In t (book_vibeTags book)) /\
  StronglySorted (fun a b => String.ltb a b = true) (allTags books) /\
  NoDup (allTags books) /\
  (forall books' : list (Book num),
     (forall t, (exists book, In book books /\ In t (book_vibeTags book)) <->
                (exists book, In book books' /\ In t (book_vibeTags book))) ->
     allTags books' = allTags books).
Proof.
  split; [apply allTags_In|]. split; [apply allTags_ascending|].
  split; [apply ascending_NoDup, allTags_ascending|].
  intros books' Hsame. apply ascending_unique; try apply allTags_ascending.
  intros t. rewrite !allTags_In. symmetry. apply Hsame.
Qed.

(** X22: [filteredBooks] keeps, in their order, the books that match the
    search (as the bookshelf does) and carry the selected tag, spelled
    exactly; with an empty search and no tag it keeps all books; with an
    empty search any tag of [allTags] finds a book; and without a tag it
    finds as many books as the bookshelf counts without a genre. *)
Theorem X22_filteredBooks_found (num : Type) (books : list (Book num))
    (searchQuery : string) (selectedTag : option string) :
  subsequence (filteredBooks books searchQuery selectedTag) books /\
  (forall book, In book (filteredBooks books searchQuery selectedTag) <->
     In book books /\ matchesSearch searchQuery book = true /\
     (forall tag, selectedTag = Some tag -> In tag (book_vibeTags book))) /\
  filteredBooks books EmptyString None = books /\
  (forall tag, In tag (allTags books) ->
     filteredBooks books EmptyString (Some tag) <> []) /\
  List.length (filteredBooks books searchQuery None)
  = totalFiltered books searchQuery None.
Proof.
  split; [apply filteredBooks_subsequence|].
  split; [intros book; apply filteredBooks_In|].
  split; [apply filter_true|].
  split.
  - intros tag Htag Hnil. apply allTags_In in Htag as (book & Hb & Ht).
    assert (Hin : In book (filteredBooks books EmptyString (Some tag))).
    { apply filteredBooks_In. repeat split; try assumption. now intros ? [= <-]. }
    rewrite Hnil in Hin. exact Hin.
  - rewrite totalFiltered_count. reflexivity.
Qed.

(** * The page of a book: which pages there are *)

(** ** Finding by identifier *)

Section FindById.

Context {A : Type}.
Variable key : A -> string.

Lemma find_by_key_Some (l : list A) (id : string) (x : A) :
  find (fun y => String.eqb (key y) id) l = Some x -> In x l /\ key x = id.
Proof.
  intros Hf. apply find_some in Hf as [Hin E]. now apply String.eqb_eq in E.
Qed.

Lemma find_by_key_None (l : list A) (id : string) :
  find (fun y => String.eqb (key y) id) l = None <-> ~ In id (map key l).
Proof.
  split.
  - intros Hf Hin. apply in_map_iff in Hin as (x & E & Hx).
    pose proof (find_none _ _ Hf x Hx) as Hn. simpl in Hn.
    rewrite E, String.eqb_refl in Hn. discriminate.
  - intros Hn. destruct (find _ l) as [x|] eqn:Hf; [|reflexivity].
    apply find_by_key_Some in Hf as [Hin <-]. exfalso. apply Hn. now apply in_map.
Qed.

Lemma find_by_key_NoDup (l : list A) (x : A) :
  NoDup (map key l) -> In x l -> find (fun y => String.eqb (key y) (key x)) l = Some x.
Proof.
  induction l as [|y l IH]; intros Hnd Hin; [contradiction|].
  simpl in *. inversion Hnd as [|? ? Hy Hl]; subst.
  destruct Hin as [->|Hin]; [now rewrite String.eqb_refl|].
  destruct (String.eqb_spec (key y) (key x)) as [E|_]; [|now apply IH].
  exfalso. apply Hy. rewrite E. now apply in_map.
Qed.

(** The index found is that of the first element with the key. *)
Lemma findIndex_app (pre post : list A) (x : A) :
  ~ In (key x) (map key pre) ->
  findIndex (fun y => String.eqb (key y) (key x)) (pre ++ x :: post)
  = Z.of_nat (List.length pre).
Proof.
  induction pre as [|y pre IH]; intros Hn; simpl.
  - now rewrite String.eqb_refl.
  - simpl in Hn. destruct (String.eqb_spec (key y) (key x)) as [E|_]; [tauto|].
    rewrite IH by tauto.
    destruct (Z.ltb_spec (Z.of_nat (List.length pre)) 0); lia.
Qed.

Lemma findIndex_range (f : A -> bool) (l : list A) :
  (-1 <= findIndex f l < Z.of_nat (List.length l))%Z.
Proof.
  induction l as [|x l IH]; simpl; [lia|].
  destruct (f x); [lia|]. destruct (Z.ltb_spec (findIndex f l) 0); lia.
Qed.

Lemma Array_at_app (pre post : list A) (x : A) :
  Array_at (pre ++ x :: post) (Z.of_nat (List.length pre)) = Some x.
Proof.
  unfold Array_at. destruct (Z.ltb_spec (Z.of_nat (List.length pre)) 0); [lia|].
  rewrite Nat2Z.id, nth_error_app2, Nat.sub_diag by lia. reflexivity.
Qed.

End FindById.

(** ** Which pages there are, and where their arrows lead *)

Section PageFacts.

Context {num : Type} `{Number num}.
Variable books : list (Book num).
Variable songs : list (Song num).
Variable bookSongMapping : JsMap string.

Lemma BookPage_Rendered (id : string) (p : Page num) :
  BookPage books songs bookSongMapping id = Rendered p ->
  In (page_book p) books /\ book_id (page_book p) = id /\
  In (song (page_matchResult p)) songs /\
  Map_get bookSongMapping id = Some (song_id (song (page_matchResult p))) /\
  page_matchResult p = getMatchResultForSong (page_book p) (song (page_matchResult p)).
Proof.
  unfold BookPage. destruct (find _ books) as [book|] eqn:Hb; [|discriminate].
  apply find_by_key_Some in Hb as [Hb Hid].
  destruct (Map_get bookSongMapping (book_id book)) as [songId|] eqn:Hm.
  - destruct (find _ songs) as [s|] eqn:Hs; [|discriminate].
    apply find_by_key_Some in Hs as [Hs Hsid].
    intros [= <-]. cbn [page_book page_matchResult]. subst.
    repeat split; assumption.
  - destruct (find _ songs) as [s|] eqn:Hs; [|discriminate].
    apply find_some in Hs as [_ Hs]. discriminate.
Qed.

Lemma BookPage_NotFound (id : string) :
  BookPage books songs bookSongMapping id = NotFound <->
  ~ (In id (generateStaticParams books) /\
     exists songId, Map_get bookSongMapping id = Some songId /\
                    In songId (map song_id songs)).
Proof.
  unfold BookPage, generateStaticParams.
  destruct (find _ books) as [book|] eqn:Hb.
  - apply find_by_key_Some in Hb as [Hb Hid]. rewrite Hid.
    destruct (Map_get bookSongMapping id) as [songId|] eqn:Hm.
    + destruct (find _ songs) as [s|] eqn:Hs.
      * apply find_by_key_Some in Hs as [Hs Hsid]. split; [discriminate|].
        intros Hn. exfalso. apply Hn. split.
        -- rewrite <- Hid. now apply in_map.
        -- exists songId. split; [reflexivity|]. rewrite <- Hsid. now apply in_map.
      * apply find_by_key_None in Hs. split; [|reflexivity].
        intros _ (_ & songId' & [= <-] & Hin). contradiction.
    + destruct (find _ songs) as [s|] eqn:Hs.
      * apply find_some in Hs as [_ Hs]. discriminate.
      * split; [|reflexivity]. intros _ (_ & songId' & E & _). discriminate.
  - apply find_by_key_None in Hb. split; [|reflexivity]. intros _ (Hin & _). contradiction.
Qed.

Lemma generateMetadata_found (id : string) :
  metadata_description (generateMetadata books id) = None <->
  ~ In id (generateStaticParams books).
Proof.
  unfold generateMetadata, generateStaticParams.
  destruct (find _ books) as [book|] eqn:Hb.
  - apply find_by_key_Some in Hb as [Hb Hid]. cbn. split; [discriminate|].
    intros Hn. exfalso. apply Hn. rewrite <- Hid. now apply in_map.
  - apply find_by_key_None in Hb. cbn. tauto.
Qed.

(** The arrows of the page of the book at a position, when no book before
    it has its identifier. *)
Lemma BookPage_arrows (pre post : list (Book num)) (book : Book num) (p : Page num) :
  books = pre ++ book :: post ->
  ~ In (book_id book) (map book_id pre) ->
  BookPage books songs bookSongMapping (book_id book) = Rendered p ->
  page_book p = book /\ prevBook p = last (map Some pre) None /\ nextBook p = hd_error post.
Proof.
  intros Hbooks Hfresh. unfold BookPage.
  assert (Hfind : find (fun b => String.eqb (book_id b) (book_id book)) books = Some book).
  { rewrite Hbooks. clear Hbooks. induction pre as [|y pre IH]; simpl.
    - now rewrite String.eqb_refl.
    - simpl in Hfresh. destruct (String.eqb_spec (book_id y) (book_id book)); [tauto|].
      apply IH. tauto. }
  rewrite Hfind. destruct (find _ songs) as [s|]; [|discriminate].
  intros [= <-]. cbn [page_book prevBook nextBook].
  split; [reflexivity|].
  rewrite Hbooks.
  rewrite (findIndex_app book_id pre post book Hfresh).
  rewrite length_app. cbn [List.length]. split.
  - destruct pre as [|y pre] using rev_ind.
    + reflexivity.
    + clear IHpre. rewrite map_app. cbn [map]. rewrite last_last, length_app. cbn [List.length].
      destruct (Z.ltb_spec 0 (Z.of_nat (List.length pre + 1))); [|lia].
      replace (Z.of_nat (List.length pre + 1) - 1)%Z with (Z.of_nat (List.length pre)) by lia.
      rewrite <- app_assoc. apply Array_at_app.
  - destruct post as [|z post].
    + cbn [List.length hd_error].
      destruct (Z.ltb_spec (Z.of_nat (List.length pre))
                  (Z.of_nat (List.length pre + 1) - 1)); [lia|reflexivity].
    + cbn [List.length hd_error].
      destruct (Z.ltb_spec (Z.of_nat (List.length pre))
                  (Z.of_nat (List.length pre + S (S (List.length post))) - 1)); [|lia].
      replace (Z.of_nat (List.length pre) + 1)%Z
        with (Z.of_nat (List.length (pre ++ [book]))) by (rewrite length_app; simpl; lia).
      replace (pre ++ book :: z :: post) with ((pre ++ [book]) ++ z :: post)
        by (now rewrite <- app_assoc).
      apply Array_at_app.
Qed.

End PageFacts.

Lemma Map_get_map_values {V W : Type} (f : V -> W) (m : JsMap V) (k : string) :
  Map_get (map (fun e => (fst e, f (snd e))) m) k = option_map f (Map_get m k).
Proof.
  induction m as [|[k' v] m IH]; [reflexivity|]. simpl.
  now destruct (String.eqb k k').
Qed.

(** ** Properties of the page *)

(** X23: the page of an identifier is not found exactly when no book has
    the identifier, or the mapping has no song identifier for it, or no
    song has that identifier.  A page that is rendered shows a book with
    the identifier and the result of scoring it against a song whose
    identifier is the mapped one.  The metadata has no description exactly
    for the identifiers outside [generateStaticParams]. *)
Theorem X23_page_found_or_not (books : list (Book float)) (songs : list (Song float))
    (bookSongMapping : JsMap string) (id : string) :
  (BookPage books songs bookSongMapping id = NotFound <->
   ~ (In id (generateStaticParams books) /\
      exists songId, Map_get bookSongMapping id = Some songId /\
                     In songId (map song_id songs))) /\
  (forall p, BookPage books songs bookSongMapping id = Rendered p ->
     In (page_book p) books /\ book_id (page_book p) = id /\
     In (song (page_matchResult p)) songs /\
     Map_get bookSongMapping id = Some (song_id (song (page_matchResult p))) /\
     page_matchResult p = getMatchResultForSong (page_book p) (song (page_matchResult p))) /\
  (metadata_description (generateMetadata books id) = None <->
   ~ In id (generateStaticParams books)).
Proof.
  split; [apply BookPage_NotFound|].
  split; [intros p; apply BookPage_Rendered|].
  apply generateMetadata_found.
Qed.

(** X24: with pairwise distinct book identifiers, the page of a book has
    that book, its left arrow leads to the book just before it in the list
    (none for the first) and its right arrow to the book just after it
    (none for the last); so the right arrow followed by the left arrow of
    the page reached leads back, and likewise the left one followed by the
    right one. *)
Theorem X24_page_arrows (books : list (Book float)) (songs : list (Song float))
    (bookSongMapping : JsMap string) :
  NoDup (map book_id books) ->
  (forall pre book post p,
     books = pre ++ book :: post ->
     BookPage books songs bookSongMapping (book_id book) = Rendered p ->
     page_book p = book /\
     prevBook p = last (map Some pre) None /\
     nextBook p = hd_error post) /\
  (forall id p b' p',
     BookPage books songs bookSongMapping id = Rendered p ->
     BookPage books songs bookSongMapping (book_id b') = Rendered p' ->
     (nextBook p = Some b' -> prevBook p' = Some (page_book p)) /\
     (prevBook p = Some b' -> nextBook p' = Some (page_book p))).
Proof.
  intros Hnd.
  assert (Hfresh : forall pre book post,
            books = pre ++ book :: post -> ~ In (book_id book) (map book_id pre)).
  { intros pre book post E Hin. rewrite E, map_app in Hnd. cbn [map] in Hnd.
    apply NoDup_remove_2 in Hnd. apply Hnd, in_or_app. now left. }
  assert (Harrows : forall pre book post p,
            books = pre ++ book :: post ->
            BookPage books songs bookSongMapping (book_id book) = Rendered p ->
            page_book p = book /\
            prevBook p = last (map Some pre) None /\
            nextBook p = hd_error post).
  { intros pre book post p E Hp.
    apply (BookPage_arrows books songs bookSongMapping pre post book p E); [|assumption].
    now apply (Hfresh pre book post). }
  split; [exact Harrows|].
  intros id p b' p' Hp Hp'.
  destruct (BookPage_Rendered books songs bookSongMapping id p Hp) as (Hin & Hid & _).
  destruct (in_split _ _ Hin) as (pre & post & E).
  rewrite <- Hid in Hp.
  destruct (Harrows pre (page_book p) post p E Hp) as (_ & Hprev & Hnext).
  split; intros Hb.
  - rewrite Hnext in Hb. destruct post as [|z post]; [discriminate|].
    injection Hb as ->.
    assert (E' : books = (pre ++ [page_book p]) ++ b' :: post)
      by (now rewrite <- app_assoc).
    destruct (Harrows _ _ _ p' E' Hp') as (_ & Hprev' & _).
    rewrite Hprev', map_app. cbn [map]. apply last_last.
  - rewrite Hprev in Hb. destruct pre as [|y pre] using rev_ind; [discriminate|].
    clear IHpre. rewrite map_app in Hb. cbn [map] in Hb. rewrite last_last in Hb.
    injection Hb as ->.
    assert (E' : books = pre ++ b' :: page_book p :: post)
      by (now rewrite E, <- app_assoc).
    destruct (Harrows _ _ _ p' E' Hp') as (_ & _ & Hnext').
    exact Hnext'.
Qed.

Lemma X24_page_arrows_witness :
  match BookPage (@testBooks float _) testSongs testMapping "test-book" with
  | Rendered p =>
      page_book p = testBook /\ prevBook p = None /\ nextBook p = Some melancholicBook
  | NotFound => False
  end.
Proof.
  destruct (BookPage (@testBooks float _) testSongs testMapping "test-book") as [p|] eqn:E.
  - apply (proj1 (X24_page_arrows testBooks testSongs testMapping
                    ltac:(simpl; repeat constructor; simpl; intuition discriminate))
             [] testBook [melancholicBook] p eq_refl E).
  - vm_compute in E. discriminate.
Defined.

(** X25: when book identifiers are pairwise distinct, song identifiers
    are pairwise distinct, there are at least as many songs as books, and
    the mapping gives each book the identifier of the song that
    [matchAllBooksUniquely] assigns to it, the page of every book is
    rendered and shows the very result stored in the assignment. *)
Theorem X25_page_shows_assignment (books : list (Book float)) (songs : list (Song float))
    (bookSongMapping : JsMap string) :
  NoDup (map book_id books) -> NoDup (map song_id songs) ->
  List.length books <= List.length songs ->
  (forall id r, Map_get (matchAllBooksUniquely books songs) id = Some r ->
                Map_get bookSongMapping id = Some (song_id (song r))) ->
  forall book, In book books ->
    exists p, BookPage books songs bookSongMapping (book_id book) = Rendered p /\
              page_book p = book /\
              Map_get (matchAllBooksUniquely books songs) (book_id book)
              = Some (page_matchResult p).
Proof.
  intros Hnb Hns Hle Hmap book Hb.
  destruct (matchAllBooksUniquely_lookup books songs Hnb Hns Hle book Hb)
    as (candidate & Hc & Hget).
  pose proof (Hmap _ _ Hget) as Hm. cbn [getMatchResultForSong song] in Hm.
  unfold BookPage.
  rewrite (find_by_key_NoDup book_id books book Hnb Hb), Hm.
  rewrite (find_by_key_NoDup song_id songs candidate Hns Hc).
  eexists. split; [reflexivity|]. split; [reflexivity|]. exact Hget.
Qed.

Lemma X25_page_shows_assignment_witness :
  exists p,
    BookPage (@testBooks float _) (@testSongs float _)
      (map (fun e : string * MatchResult float => (fst e, song_id (song (snd e))))
         (matchAllBooksUniquely (@testBooks float _) (@testSongs float _)))
      (book_id (@melancholicBook float _)) = Rendered p /\
    page_book p = @melancholicBook float _ /\
    Map_get (matchAllBooksUniquely (@testBooks float _) (@testSongs float _))
      (book_id (@melancholicBook float _))
    = Some (page_matchResult p).
Proof.
  apply (X25_page_shows_assignment testBooks testSongs).
  - simpl. repeat constructor; simpl; intuition discriminate.
  - simpl. repeat constructor; simpl; intuition discriminate.
  - simpl. lia.
  - intros id r Hr.
    rewrite (Map_get_map_values (fun r : MatchResult float => song_id (song r))), Hr.
    reflexivity.
  - simpl. auto.
Defined.

(** * The card of a song: the track ID *)

(** ** Reading the expression *)

Section TrackExpression.

Definition all_alphanumeric (s : string) : bool :=
  forallb alphanumeric (list_ascii_of_string s).

(** What may follow the group: nothing, or a character outside the class. *)
Definition group_ends (post : string) : Prop :=
  match post with
  | EmptyString => True
  | String c _ => alphanumeric c = false
  end.

Lemma literal_spec (sub s rest : string) :
  literal sub s = Some rest <-> s = (sub ++ rest)%string.
Proof.
  revert s. induction sub as [|c sub IH]; intros s; simpl.
  - split; [now intros [= ->]|now intros ->].
  - destruct s as [|d s]; [split; discriminate|].
    destruct (Ascii.eqb_spec c d) as [->|Hne].
    + rewrite IH. split; [now intros ->|now intros [= ->]].
    + split; [discriminate|]. intros [= -> _]. now contradiction Hne.
Qed.

Lemma longest_split (class : ascii -> bool) (s : string) :
  exists post, s = (longest class s ++ post)%string /\
               match post with
               | EmptyString => True
               | String c _ => class c = false
               end.
Proof.
  induction s as [|c s (post & E & Hpost)]; simpl.
  - now exists EmptyString.
  - destruct (class c) eqn:Hc.
    + exists post. simpl. split; [now f_equal|assumption].
    + exists (String c s). now split.
Qed.

Lemma longest_all (class : ascii -> bool) (s : string) :
  forallb class (list_ascii_of_string (longest class s)) = true.
Proof.
  induction s as [|c s IH]; simpl; [reflexivity|].
  destruct (class c) eqn:Hc; simpl; [now rewrite Hc|reflexivity].
Qed.

Lemma longest_app (class : ascii -> bool) (id post : string) :
  forallb class (list_ascii_of_string id) = true ->
  match post with
  | EmptyString => True
  | String c _ => class c = false
  end ->
  longest class (id ++ post) = id.
Proof.
  intros Hid Hpost. induction id as [|c id IH]; simpl in *.
  - destruct post as [|d post]; [reflexivity|]. simpl. now rewrite Hpost.
  - apply andb_true_iff in Hid as [Hc Hid]. rewrite Hc. f_equal. now apply IH.
Qed.

Lemma track_here_Some (s id : string) :
  track_here s = Some id <->
  id <> EmptyString /\ all_alphanumeric id = true /\
  exists post, s = ("track/" ++ id ++ post)%string /\ group_ends post.
Proof.
  unfold track_here. split.
  - destruct (literal "track/" s) as [rest|] eqn:Hl; [|discriminate].
    apply literal_spec in Hl. cbv zeta.
    destruct (String.eqb_spec (longest alphanumeric rest) EmptyString) as [|Hne];
      [discriminate|].
    intros [= <-]. split; [assumption|]. split; [apply longest_all|].
    destruct (longest_split alphanumeric rest) as (post & E & Hpost).
    exists post. split; [|exact Hpost]. now rewrite <- E.
  - intros (Hne & Hall & post & -> & Hpost).
    rewrite (proj2 (literal_spec "track/" _ (id ++ post)) eq_refl). cbv zeta.
    rewrite (longest_app alphanumeric id post Hall Hpost).
    now destruct (String.eqb_spec id EmptyString).
Qed.

Lemma track_here_None (s : string) :
  track_here s = None <->
  forall c post, alphanumeric c = true -> s <> ("track/" ++ String c post)%string.
Proof.
  unfold track_here. split.
  - intros Hn c post Hc ->.
    rewrite (proj2 (literal_spec "track/" _ (String c post)) eq_refl) in Hn.
    cbv zeta in Hn. simpl in Hn. rewrite Hc in Hn. discriminate.
  - intros Hn. destruct (literal "track/" s) as [rest|] eqn:Hl; [|reflexivity].
    apply literal_spec in Hl. cbv zeta. destruct rest as [|c rest]; [reflexivity|].
    simpl. destruct (alphanumeric c) eqn:Hc; [|reflexivity].
    now contradiction (Hn c rest Hc).
Qed.

Lemma append_cons_inv (pre s' : string) (c : ascii) (s : string) :
  String c s = (pre ++ s')%string ->
  (pre = EmptyString /\ s' = String c s) \/
  (exists pre', pre = String c pre' /\ s = (pre' ++ s')%string).
Proof.
  destruct pre as [|d pre]; simpl; intros E.
  - left. now split.
  - right. injection E as -> ->. now exists pre.
Qed.

(** The match found is the first one. *)
Lemma match_track_Some (s id : string) :
  match_track s = Some id <->
  exists pre rest,
    s = (pre ++ rest)%string /\ track_here rest = Some id /\
    forall pre' c post, alphanumeric c = true ->
      s = (pre' ++ "track/" ++ String c post)%string ->
      String.length pre <= String.length pre'.
Proof.
  revert id. induction s as [|d s IH]; intros id.
  - simpl. split; [discriminate|].
    intros (pre & rest & E & Hr & _). destruct pre; [|discriminate].
    simpl in E. subst rest. discriminate.
  - cbn [match_track]. destruct (track_here (String d s)) as [g|] eqn:Hh.
    + split.
      * intros [= <-]. exists EmptyString, (String d s). simpl.
        repeat split; [assumption|]. intros; lia.
      * intros (pre & rest & E & Hr & Hfirst).
        destruct (proj1 (track_here_Some _ _) Hh) as (Hne & Hall & post & Es & Hpost).
        destruct g as [|c g]; [contradiction|].
        apply andb_true_iff in Hall as [Hc _].
        pose proof (Hfirst EmptyString c (g ++ post)%string Hc Es) as Hlen.
        destruct pre; [|simpl in Hlen; lia]. simpl in E. subst rest.
        congruence.
    + rewrite IH. split.
      * intros (pre & rest & E & Hr & Hfirst).
        exists (String d pre), rest. simpl. split; [now f_equal|]. split; [assumption|].
        intros pre' c post Hc E'.
        apply append_cons_inv in E' as [[-> E']|(pre'' & -> & E')].
        -- exfalso. apply (proj1 (track_here_None _) Hh c post Hc). now symmetry.
        -- simpl. apply le_n_S. now apply (Hfirst pre'' c post).
      * intros (pre & rest & E & Hr & Hfirst).
        apply append_cons_inv in E as [[-> E]|(pre' & -> & E)].
        -- subst rest. congruence.
        -- exists pre', rest. split; [assumption|]. split; [assumption|].
           intros pre'' c post Hc E'.
           specialize (Hfirst (String d pre'') c post Hc). simpl in Hfirst.
           apply le_S_n, Hfirst. now rewrite E'.
Qed.

Lemma match_track_None (s : string) :
  match_track s = None <->
  forall pre c post, alphanumeric c = true ->
    s <> (pre ++ "track/" ++ String c post)%string.
Proof.
  induction s as [|d s IH].
  - simpl. split; [|reflexivity]. intros _ pre c post _ E.
    destruct pre; discriminate.
  - cbn [match_track]. destruct (track_here (String d s)) as [g|] eqn:Hh.
    + split; [discriminate|]. intros Hn. exfalso.
      apply track_here_Some in Hh as (Hne & Hall & post & Es & _).
      destruct g as [|c g]; [contradiction|].
      simpl in Hall. apply andb_true_iff in Hall as [Hc _].
      exact (Hn EmptyString c (g ++ post)%string Hc Es).
    + rewrite IH. split.
      * intros Hn pre c post Hc E.
        apply append_cons_inv in E as [[-> E]|(pre' & -> & E)].
        -- apply (proj1 (track_here_None _) Hh c post Hc). now symmetry.
        -- now apply (Hn pre' c post Hc).
      * intros Hn pre c post Hc E. apply (Hn (String d pre) c post Hc).
        simpl. now f_equal.
Qed.

End TrackExpression.

Section TrackRoundTrip.

Lemma match_track_step (d : ascii) (s : string) :
  track_here (String d s) = None -> match_track (String d s) = match_track s.
Proof. intros Hn. cbn [match_track]. now rewrite Hn. Qed.

Lemma match_track_here (s id : string) :
  track_here s = Some id -> match_track s = Some id.
Proof. intros Hh. destruct s; cbn [match_track]; now rewrite Hh. Qed.

Lemma match_track_front (id post : string) :
  id <> EmptyString -> all_alphanumeric id = true -> group_ends post ->
  match_track ("track/" ++ id ++ post) = Some id.
Proof.
  intros Hne Hall Hpost. apply match_track_here, track_here_Some. eauto.
Qed.

Lemma match_track_link (id post : string) :
  id <> EmptyString -> all_alphanumeric id = true -> group_ends post ->
  match_track ("https://open.spotify.com/track/" ++ id ++ post) = Some id.
Proof.
  intros Hne Hall Hpost.
  change ("https://open.spotify.com/track/" ++ id ++ post)%string
    with ("https://open.spotify.com/" ++ "track/" ++ id ++ post)%string.
  cbn [append]. rewrite !match_track_step by reflexivity.
  now apply match_track_front.
Qed.

Lemma match_track_embed (id post : string) :
  id <> EmptyString -> all_alphanumeric id = true -> group_ends post ->
  match_track ("https://open.spotify.com/embed/track/" ++ id ++ post) = Some id.
Proof.
  intros Hne Hall Hpost.
  change ("https://open.spotify.com/embed/track/" ++ id ++ post)%string
    with ("https://open.spotify.com/embed/" ++ "track/" ++ id ++ post)%string.
  cbn [append]. rewrite !match_track_step by reflexivity.
  now apply match_track_front.
Qed.

End TrackRoundTrip.

(** ** Properties of the card *)

(** X26: the track ID of a song is the non-empty run of letters and
    digits that follows the first place in its Spotify address where
    [track/] is followed by a letter or digit, as long as that run goes;
    there is none exactly when the address has no such place, and the
    embedded player is shown exactly when there is one. *)
Theorem X26_spotify_track_id (num : Type) (song : Song num) :
  (forall id, spotifyTrackId song = Some id <->
     id <> EmptyString /\ all_alphanumeric id = true /\
     exists pre post,
       spotifyUrl song = (pre ++ "track/" ++ id ++ post)%string /\
       group_ends post /\
       forall pre' c post', alphanumeric c = true ->
         spotifyUrl song = (pre' ++ "track/" ++ String c post')%string ->
         String.length pre <= String.length pre') /\
  (spotifyTrackId song = None <->
     forall pre c post, alphanumeric c = true ->
       spotifyUrl song <> (pre ++ "track/" ++ String c post)%string) /\
  (embed_src song = None <-> spotifyTrackId song = None).
Proof.
  unfold embed_src, spotifyTrackId. split; [|split].
  - intros id. rewrite match_track_Some. split.
    + intros (pre & rest & E & Hr & Hfirst).
      apply track_here_Some in Hr as (Hne & Hall & post & -> & Hpost).
      repeat split; try assumption. exists pre, post. auto.
    + intros (Hne & Hall & pre & post & E & Hpost & Hfirst).
      exists pre, ("track/" ++ id ++ post)%string.
      split; [assumption|]. split; [|assumption].
      apply track_here_Some. eauto.
  - apply match_track_None.
  - destruct (match_track (spotifyUrl song)) as [id|] eqn:Hm; [|tauto].
    split; [|discriminate].
    apply match_track_Some in Hm as (pre & rest & _ & Hr & _).
    apply track_here_Some in Hr as (Hne & _).
    unfold truthy. now destruct (String.eqb_spec id EmptyString).
Qed.

(** X27: for a non-empty run [id] of letters and digits, followed by
    nothing or by a character that is neither, the track ID of a song
    whose address is [https://open.spotify.com/track/] followed by [id]
    and the rest is [id]; the player is embedded with the address of
    that track, and the track ID read off the player's address is [id]
    again. *)
Theorem X27_track_id_round_trip (num : Type) (song : Song num) (id post : string) :
  id <> EmptyString -> all_alphanumeric id = true -> group_ends post ->
  spotifyUrl song = ("https://open.spotify.com/track/" ++ id ++ post)%string ->
  spotifyTrackId song = Some id /\
  exists src, embed_src song = Some src /\
    src = ("https://open.spotify.com/embed/track/" ++ id
           ++ "?utm_source=generator&theme=0")%string /\
    match_track src = Some id.
Proof.
  intros Hne Hall Hpost Hurl.
  assert (Hid : spotifyTrackId song = Some id).
  { unfold spotifyTrackId. rewrite Hurl. now apply match_track_link. }
  split; [assumption|]. unfold embed_src. rewrite Hid.
  unfold truthy. destruct (String.eqb_spec id EmptyString) as [|_]; [contradiction|].
  eexists. split; [reflexivity|]. split; [reflexivity|].
  now apply match_track_embed.
Qed.

Lemma X27_track_id_round_trip_witness :
  spotifyTrackId (@linkedSong float _) = Some "4uLU6hMCjMI75M1A2tKUQC"%string.
Proof.
  apply (X27_track_id_round_trip float linkedSong "4uLU6hMCjMI75M1A2tKUQC" "?si=0a1b2c").
  - discriminate.
  - reflexivity.
  - reflexivity.
  - reflexivity.
Defined.
